(** * SEPIA sensitivity analysis: a shallow embedding of [sepia/SepiaSensitivity.py]

    The development follows the layout of the Python module:
    - numpy-style arrays as lists of reals, with Python's exceptions made
      explicit in a result monad;
    - the analytic integral kernel [calc1], [calc2], [calc3], [varf];
    - the per-draw computations of [component_sens];
    - the driver [sensitivity] (range handling, option handling, aggregation).

    The scaling of the inputs and the standardization of the outputs in
    [sepia/SepiaData.py], which prepare the data of a model, are embedded as
    well.

    Floating point numbers are idealised as real numbers; where a claim is
    about the computed value itself, [calc1] is evaluated in binary64 with the
    Standard Library's [SpecFloat]. *)

From Stdlib Require Import Reals Lra Lia Sorted.
From Stdlib Require Import ZArith Floats.SpecFloat.
From stdpp Require Import base option list strings gmap.

(** ** Exceptions and results *)

Inductive exn : Type :=
| AttributeError (obj attr : string)
| IndexError
| KeyError (key : string)
| ValueError
| LinAlgError.

Inductive res (A : Type) : Type :=
| Ok (a : A)
| Raise (e : exn).
Arguments Ok {A} a.
Arguments Raise {A} e.

Definition res_bind {A B : Type} (f : A → res B) (r : res A) : res B :=
  match r with
  | Ok a => f a
  | Raise e => Raise e
  end.

#[global] Instance res_mret : MRet res := @Ok.
#[global] Instance res_mbind : MBind res := @res_bind.

(** [for x in l: body], threading the loop-carried state [s]. *)
Fixpoint for_each {S : Type} (l : list nat) (body : nat → S → res S) (s : S) : res S :=
  match l with
  | [] => Ok s
  | i :: l' => s' ← body i s; for_each l' body s'
  end.

Fixpoint mapM_res {A B : Type} (f : A → res B) (l : list A) : res (list B) :=
  match l with
  | [] => Ok []
  | a :: l' => b ← f a; bs ← mapM_res f l'; Ok (b :: bs)
  end.

(** Python's [range(lo, hi)]; empty when [hi <= lo]. *)
Definition range (lo hi : nat) : list nat := seq lo (hi - lo).

(** ** numpy arrays *)

Abbreviation vec := (list R).
Abbreviation mat := (list (list R)).

Definition zeros (n : nat) : vec := replicate n 0%R.
Definition zeros2 (r c : nat) : mat := replicate r (zeros c).
Definition arange (p : nat) : list nat := seq 0 p.

(** [v[i]] *)
Definition get1 (v : vec) (i : nat) : res R :=
  match v !! i with
  | Some x => Ok x
  | None => Raise IndexError
  end.

(** [M[i, :]] *)
Definition get_row (M : mat) (i : nat) : res vec :=
  match M !! i with
  | Some row => Ok row
  | None => Raise IndexError
  end.

(** [M[i, j]] *)
Definition get2 (M : mat) (i j : nat) : res R :=
  row ← get_row M i; get1 row j.

(** [M[i, j] = x] *)
Definition set2 (M : mat) (i j : nat) (x : R) : res mat :=
  match M !! i with
  | Some row =>
      if decide (j < length row) then Ok (<[i := <[j := x]> row]> M)
      else Raise IndexError
  | None => Raise IndexError
  end.

(** [M[i, :] = row]; a one-element value is broadcast over the row. *)
Definition set_row (M : mat) (i : nat) (row : vec) : res mat :=
  match M !! i with
  | Some old =>
      if decide (length row = length old) then Ok (<[i := row]> M)
      else match row with
           | [x] => Ok (<[i := replicate (length old) x]> M)
           | _ => Raise ValueError
           end
  | None => Raise IndexError
  end.

(** Fancy indexing [v[idx]] with a list of indices. *)
Definition take_idx (v : vec) (idx : list nat) : res vec := mapM_res (get1 v) idx.

(** [M[:, idx]] *)
Definition cols (M : mat) (idx : list nat) : res mat :=
  mapM_res (λ row, take_idx row idx) M.

(** [M[:, j]] *)
Definition col (M : mat) (j : nat) : res vec := mapM_res (λ row, get1 row j) M.

(** [np.sum], [np.prod] of a vector; [np.prod(M, 1)] of a matrix. *)
Definition sum (v : vec) : R := foldr Rplus 0%R v.
Definition prod (v : vec) : R := foldr Rmult 1%R v.
Definition prod_rows (M : mat) : vec := map prod M.

(** Binary ufunc on one-dimensional operands, with numpy's broadcasting of a
    one-element operand. *)
Definition bcast {A B C : Type} (f : A → B → C) (a : list A) (b : list B) : res (list C) :=
  if decide (length a = length b) then Ok (zip_with f a b)
  else match a, b with
       | [x], _ => Ok (map (f x) b)
       | _, [y] => Ok (map (λ x, f x y) a)
       | _, _ => Raise ValueError
       end.

Definition ncols (M : mat) : nat := length (default [] (head M)).

(** [M.T] *)
Definition transpose (M : mat) : mat :=
  map (λ j, map (λ row, default 0%R (row !! j)) M) (seq 0 (ncols M)).

Definition same_shape (A B : mat) : Prop :=
  length A = length B ∧ Forall2 (λ a b : vec, length a = length b) A B.

#[global] Instance same_shape_dec A B : Decision (same_shape A B).
Proof. unfold same_shape. apply _. Defined.

(** [A + B] and [A * B] (elementwise) on equally shaped two-dimensional
    operands. *)
Definition ewise (f : R → R → R) (A B : mat) : res mat :=
  if decide (same_shape A B) then Ok (zip_with (zip_with f) A B)
  else Raise ValueError.

Definition dot (a b : vec) : R := sum (zip_with Rmult a b).

(** [A @ B] *)
Definition matmul (A B : mat) : res mat :=
  if decide (Forall (λ row : vec, length row = length B) A
             ∧ Forall (λ row : vec, length row = ncols B) B)
  then Ok (map (λ row, map (λ j, dot row (map (λ brow, default 0%R (brow !! j)) B))
                           (seq 0 (ncols B))) A)
  else Raise ValueError.

(** [np.trace]: sum of the entries [M[i, i]] that exist. *)
Definition trace (M : mat) : R := sum (imap (λ i row, default 0%R (row !! i)) M).

(** [np.outer] *)
Definition outer (a b : vec) : mat := map (λ x, map (Rmult x) b) a.

(** *** Index sets *)

Fixpoint insert_sorted (x : nat) (l : list nat) : list nat :=
  match l with
  | [] => [x]
  | y :: l' =>
      if decide (x < y) then x :: l
      else if decide (x = y) then l
      else y :: insert_sorted x l'
  end.

(** [np.unique]: the sorted distinct values. *)
Definition np_unique (l : list nat) : list nat := foldr insert_sorted [] l.

(** [np.setxor1d]: the sorted values that are in exactly one of the inputs. *)
Definition setxor1d (a b : list nat) : list nat :=
  np_unique (filter (λ x, x ∉ b) a ++ filter (λ x, x ∉ a) b).

(** ** Special functions

    [scipy.stats.norm.cdf] and [scipy.stats.norm.pdf] are the distribution
    function and the density of the standard normal law. As in scipy's
    implementation the distribution function is expressed through the error
    function, [erf x = 2/sqrt(pi) * int_0^x exp(-t^2) dt]. *)

Definition gauss (t : R) : R := exp (- (t * t)).

Lemma gauss_continuity : continuity gauss.
Proof.
  unfold gauss.
  apply (continuity_comp (λ t, - (t * t))%R exp).
  - apply continuity_opp. apply continuity_mult; apply derivable_continuous, derivable_id.
  - apply derivable_continuous, derivable_exp.
Qed.

Lemma gauss_integrable (a b : R) : Riemann_integrable gauss a b.
Proof.
  destruct (Rle_dec a b) as [Hab|Hab].
  - apply continuity_implies_RiemannInt; [exact Hab|].
    intros x _. apply gauss_continuity.
  - apply RiemannInt_P1. apply continuity_implies_RiemannInt; [lra|].
    intros x _. apply gauss_continuity.
Qed.

Definition erf (x : R) : R := (2 / sqrt PI * RiemannInt (gauss_integrable 0 x))%R.

Definition norm_cdf (z : R) : R := ((1 + erf (z / sqrt 2)) / 2)%R.

Definition norm_pdf (z : R) : R := (exp (- (z * z) / 2) / sqrt (2 * PI))%R.

(** ** The analytic integral kernel *)

Section Kernel.
Local Open Scope R_scope.

(** [calc1(beta, diff)] *)
Definition calc1 (beta diff : vec) : res vec :=
  a ← bcast Rmult (map (λ b, sqrt (2 * b)) beta) diff;
  let ncdf := map norm_cdf a in
  a' ← bcast Rmult (map (λ b, sqrt (2 * b)) beta) diff;
  let npdf := map norm_pdf a' in
  t1 ← bcast Rmult (map (λ b, sqrt (PI / b)) beta) diff;
  t1 ← bcast Rmult t1 (map (λ c, 2 * c - 1) ncdf);
  t2 ← bcast Rmult (map (λ b, 1 / b) beta) (map (λ f, 1 - sqrt (2 * PI) * f) npdf);
  num ← bcast Rminus t1 t2;
  bcast Rdiv num (map Rsqr diff).

(** [calc3(x, rg, beta, diff)] *)
Definition calc3 (x : vec) (rg : mat) (beta diff : vec) : res vec :=
  hi ← col rg 1;
  d1 ← bcast Rminus hi x;
  a1 ← bcast Rmult (map (λ b, sqrt (2 * b)) beta) d1;
  let ncdf1 := map norm_cdf a1 in
  lo ← col rg 0;
  d0 ← bcast Rminus lo x;
  a0 ← bcast Rmult (map (λ b, sqrt (2 * b)) beta) d0;
  let ncdf0 := map norm_cdf a0 in
  dn ← bcast Rminus ncdf1 ncdf0;
  t ← bcast Rmult (map (λ b, sqrt (PI / b)) beta) dn;
  bcast Rdiv t diff.

(** The attributes of a [SepiaDistCov] object that the kernel reads: the two
    index vectors [ind[0]], [ind[1]] of the sample pairs and the table
    [sqdist] of squared distances, one row per pair. *)
Record SepiaDistCov : Type := {
  ind0 : list nat;
  ind1 : list nat;
  sqdist : mat;
  dist_n : nat
}.

(** [np.where(np.logical_and(xdist.ind[0]==ii, xdist.ind[1]==jj))] *)
Definition where_pair (xdist : SepiaDistCov) (ii jj : nat) : res (list nat) :=
  hits ← bcast andb (map (λ a, bool_decide (a = ii)) (ind0 xdist))
                    (map (λ b, bool_decide (b = jj)) (ind1 xdist));
  Ok (omap (λ '(t, h), if h : bool then Some t else None) (imap pair hits)).

(** One pass of the first loop of [calc2]: the row of the pair [(ii, jj)]. *)
Definition calc2_pair (x : mat) (xdist : SepiaDistCov) (rg : mat) (beta diff : vec)
    (ii jj : nat) : res vec :=
  xi ← get_row x ii;
  xj ← get_row x jj;
  s ← bcast Rplus xi xj;
  let mp := map (λ v, v / 2) s in
  di ← where_pair xdist ii jj;
  c ← calc3 mp rg (map (Rmult 2) beta) diff;
  sq ← mapM_res (get_row (sqdist xdist)) di;
  match sq with
  | [sqrow] =>
      e ← bcast (λ b d, exp (- b * d / 2)) beta sqrow;
      bcast Rmult c e
  | _ => Raise ValueError
  end.

(** The two loops of [calc2], run on the freshly allocated table [C2]. *)
Definition calc2_loops (x : mat) (xdist : SepiaDistCov) (m : nat) (rg : mat)
    (beta diff : vec) (C2 : mat) : res mat :=
  let kk := 0%nat in
  '(kk, C2) ← for_each (range 0 m) (λ ii,
      for_each (range (ii + 1) m) (λ jj '(kk, C2),
        row ← calc2_pair x xdist rg beta diff ii jj;
        C2 ← set_row C2 kk row;
        Ok ((kk + 1)%nat, C2))) (kk, C2);
  '(kk, C2) ← for_each (range 0 m) (λ ii '(kk, C2),
      let kk := (kk + 1)%nat in
      xi ← get_row x ii;
      row ← calc3 xi rg (map (Rmult 2) beta) diff;
      C2 ← set_row C2 kk row;
      Ok (kk, C2)) (kk, C2);
  Ok C2.

(** [calc2(x, xdist, m, rg, beta, diff)] *)
Definition calc2 (x : mat) (xdist : SepiaDistCov) (m : nat) (rg : mat)
    (beta diff : vec) : res mat :=
  calc2_loops x xdist m rg beta diff
    (zeros2 (m * (m + 1) / 2 + m) (length beta)).

(** One pass of the first loop of [varf]: the cell [Vf[ii, jj]]. *)
Definition varf_cell (Js ll : list nat) (C2 : mat) (ef : vec) (ii jj : nat)
    (st : nat * mat) : res (nat * mat) :=
  let '(kk, Vf) := st in
  Vf ← set2 Vf ii jj 1;
  Vf ← (if decide (length Js ≠ 0%nat)
        then row ← get_row C2 kk; vals ← take_idx row Js; set2 Vf ii jj (prod vals)
        else Ok Vf);
  Vf ← (if decide (length ll ≠ 0%nat)
        then v ← get2 Vf ii jj; ei ← get1 ef ii; ej ← get1 ef jj;
             set2 Vf ii jj (v * ei * ej)
        else Ok Vf);
  Ok ((kk + 1)%nat, Vf).

(** One pass of the second loop of [varf]: the cell [Vf[ii, ii]]. *)
Definition varf_diag (Js ll : list nat) (C2 : mat) (ef : vec) (ii : nat)
    (st : nat * mat) : res (nat * mat) :=
  let '(kk, Vf) := st in
  let kk := (kk + 1)%nat in
  Vf ← set2 Vf ii ii 1;
  Vf ← (if decide (length Js ≠ 0%nat)
        then row ← get_row C2 kk; vals ← take_idx row Js; set2 Vf ii ii (prod vals)
        else Ok Vf);
  Vf ← (if decide (length ll ≠ 0%nat)
        then v ← get2 Vf ii ii; ei ← get1 ef ii; set2 Vf ii ii (v * (ei * ei))
        else Ok Vf);
  Ok (kk, Vf).

(** [varf(m, p, Js, C2, ef)] *)
Definition varf (m p : nat) (Js : list nat) (C2 : mat) (ef : vec) : res mat :=
  let kk := 0%nat in
  let ll := setxor1d (arange p) Js in
  let Vf := zeros2 m m in
  '(kk, Vf) ← for_each (range 0 (m - 1)) (λ ii,
      for_each (range (ii + 1) m) (varf_cell Js ll C2 ef ii)) (kk, Vf);
  Vf ← ewise Rplus Vf (transpose Vf);
  '(kk, Vf) ← for_each (range 0 m) (varf_diag Js ll C2 ef) (kk, Vf);
  Ok Vf.

End Kernel.

(** ** Row bookkeeping of the table [C2]

    Both [calc2] and [varf] walk the pairs [(ii, jj)], [ii < jj < m], in
    lexicographic order with a running row counter, and then the diagonal with
    a counter that is incremented before it is used. *)

(** Number of pairs [(a, b)], [a < b < m], whose first component is below [i]. *)
Fixpoint pairs_before (m i : nat) : nat :=
  match i with
  | 0 => 0
  | S i' => pairs_before m i' + (m - 1 - i')
  end.

Definition pair_row (m i j : nat) : nat := pairs_before m i + (j - i - 1).

Definition diag_row (m i : nat) : nat := m * (m - 1) / 2 + 1 + i.

(** Total readers, used to state the contents of arrays. *)
Definition vget (v : vec) (i : nat) : R := default 0%R (v !! i).
Definition mget (M : mat) (i j : nat) : R := default 0%R (M !! i ≫= (.!! j)).

Definition shape (M : mat) (r c : nat) : Prop :=
  length M = r ∧ Forall (λ row : vec, length row = c) M.

(** [np.prod(C2[k, Js])] *)
Definition C2_prod (C2 : mat) (k : nat) (Js : list nat) : R :=
  prod (map (mget C2 k) Js).

(** The factor contributed by the complementary dimensions: [ef[i] * ef[j]],
    or 1 when the complement of [Js] in [range(p)] is empty. *)
Definition ef_factor (p : nat) (Js : list nat) (ef : vec) (i j : nat) : R :=
  if decide (setxor1d (arange p) Js = []) then 1%R else (vget ef i * vget ef j)%R.

(** The entry [(i, j)] of the matrix assembled by [varf], as the
    specification describes it. *)
Definition varf_entry (m p : nat) (Js : list nat) (C2 : mat) (ef : vec) (i j : nat) : R :=
  if decide (i = j)
  then (C2_prod C2 (diag_row m i) Js * ef_factor p Js ef i i)%R
  else (C2_prod C2 (pair_row m (i `min` j) (i `max` j)) Js * ef_factor p Js ef i j)%R.

(** The row stored by [M[i, :] = row] in a slot of width [n]. *)
Definition assigned_row (n : nat) (row : vec) : vec :=
  if decide (length row = n) then row else replicate n (default 0%R (head row)).

(** ** Arrays of any rank, squeezing, products and traces *)

Inductive ndarray : Type :=
| A0 (x : R)
| A1 (v : vec)
| A2 (M : mat)
| A3 (T : list mat)
| A4 (T : list (list mat)).

(** [np.diag] of a two-dimensional array: the entries [M[i, i]] that exist. *)
Definition diag (M : mat) : vec := omap (λ o : option R, o) (imap (λ i (row : vec), row !! i) M).

(** [np.squeeze] of a two-dimensional array: axes of length one are dropped. *)
Definition squeeze (M : mat) : ndarray :=
  match M with
  | [[x]] => A0 x
  | [row] => A1 row
  | _ :: _ =>
      if decide (Forall (λ row : vec, length row = 1) M)
      then A1 (map (λ row : vec, default 0%R (head row)) M)
      else A2 M
  | [] => A2 M
  end.

(** [np.squeeze] of a one-dimensional array. *)
Definition squeeze1 (v : vec) : ndarray :=
  match v with
  | [x] => A0 x
  | _ => A1 v
  end.

(** [A @ v] for a matrix and a vector. *)
Definition matvec (A : mat) (v : vec) : res vec :=
  if decide (Forall (λ row : vec, length row = length v) A)
  then Ok (map (λ row, dot row v) A)
  else Raise ValueError.

(** The operator [@]; an operand without dimensions is refused. *)
Definition nd_matmul (a b : ndarray) : res ndarray :=
  match a, b with
  | A2 A, A2 B => M ← matmul A B; Ok (A2 M)
  | A2 A, A1 v => r ← matvec A v; Ok (A1 r)
  | A1 v, A2 B => r ← matvec (transpose B) v;
                  if decide (length v = length B) then Ok (A1 r) else Raise ValueError
  | A1 u, A1 v => if decide (length u = length v) then Ok (A0 (dot u v)) else Raise ValueError
  | _, _ => Raise ValueError
  end.

(** The operator [*] between a squeezed array and a matrix. *)
Definition nd_mul (a : ndarray) (B : mat) : res ndarray :=
  match a with
  | A0 x => Ok (A2 (map (map (Rmult x)) B))
  | A1 v => rows ← mapM_res (bcast Rmult v) B; Ok (A2 rows)
  | A2 A => M ← ewise Rmult A B; Ok (A2 M)
  | _ => Raise ValueError
  end.

(** [np.trace]; it needs two dimensions. *)
Definition nd_trace (a : ndarray) : res R :=
  match a with
  | A2 M => Ok (sum (diag M))
  | _ => Raise ValueError
  end.

(** [np.trace(np.squeeze(Q) @ V)] *)
Definition trace_matmul (Q V : mat) : res R :=
  QV ← nd_matmul (squeeze Q) (A2 V); nd_trace QV.

(** [np.trace(np.squeeze(Q) * V)] *)
Definition trace_times (Q V : mat) : res R :=
  QV ← nd_mul (squeeze Q) V; nd_trace QV.

(** Assignment of [V] into an [m] by [m] slot; a one by one value is
    broadcast. *)
Definition assign_square (m : nat) (V : mat) : res mat :=
  if decide (length V = m ∧ Forall (λ row : vec, length row = m) V) then Ok V
  else match V with
       | [[x]] => Ok (replicate m (replicate m x))
       | _ => Raise ValueError
       end.

(** Assignment of [v] into a slot of length [m]. *)
Definition assign_vec (m : nat) (v : vec) : res vec :=
  if decide (length v = m) then Ok v
  else match v with
       | [x] => Ok (replicate m x)
       | _ => Raise ValueError
       end.

(** Python lists: [l[i]]. *)
Definition list_get {A : Type} (l : list A) (i : nat) : res A :=
  match l !! i with
  | Some a => Ok a
  | None => Raise IndexError
  end.

(** Python dictionaries with string keys: [d[k]]. *)
Definition dict_get {A : Type} (d : gmap string A) (k : string) : res A :=
  match d !! k with
  | Some a => Ok a
  | None => Raise (KeyError k)
  end.

Definition as_vec (a : ndarray) : res vec :=
  match a with A1 v => Ok v | _ => Raise IndexError end.

Definition as_mat (a : ndarray) : res mat :=
  match a with A2 M => Ok M | _ => Raise IndexError end.

(** ** The computations of [component_sens] for one posterior draw *)

Section Draw.
Local Open Scope R_scope.

(** The quantities of one draw: [Q[ii, :, :]], [lamUz[ii]], [calc1], [calc2],
    the table [c3] of [calc3] rows, and [e2[ii]], [vt[ii]] once computed. *)
Context (m p : nat) (Q : mat) (lamUzi : R) (c1 : vec) (C2 c3 : mat).

(** Line 308: [e2[ii]]. *)
Definition sens_e2 : res R :=
  let u2 := prod_rows c3 in
  V ← varf m p [] C2 u2;
  t ← trace_matmul Q V;
  Ok (prod c1 / lamUzi - t / (lamUzi * lamUzi)).

(** Line 309: [e0[ii]]. *)
Definition sens_e0 (My : vec) : res R :=
  let u2 := prod_rows c3 in
  r ← nd_matmul (A1 u2) (A1 My);
  match r with
  | A0 d => Ok (d / lamUzi)
  | _ => Raise ValueError
  end.

(** Line 311: [vt[ii]]. *)
Definition sens_vt (e2 : R) : res R :=
  V ← varf m p (arange p) C2 [];
  t ← trace_matmul Q V;
  Ok (1 / lamUzi - t / (lamUzi * lamUzi) - e2).

(** Lines 315-320: [sme[ii, jj]], together with the [u1] and [u4] that the
    main effect function reuses. *)
Definition sens_main (e2 vt : R) (jj : nat) : res (R * vec * R) :=
  let Js := [jj] in
  let ll := setxor1d (arange p) Js in
  c3ll ← cols c3 ll;
  let u1 := prod_rows c3ll in
  c1ll ← take_idx c1 ll;
  let u4 := prod c1ll in
  V ← varf m p Js C2 u1;
  t ← trace_matmul Q V;
  let sme := u4 / lamUzi - t / (lamUzi * lamUzi) - e2 in
  Ok (sme / vt, u1, u4).

(** Lines 324-328: [ste[ii, jj]]. The right-hand side of line 327 is an array
    with one entry for each index in [ll = [jj]]; the assignment to the scalar
    slot [ste[ii, jj]] needs exactly one. *)
Definition sens_total (e2 vt : R) (jj : nat) : res R :=
  let ll := [jj] in
  let Js := setxor1d (arange p) ll in
  c3ll ← cols c3 ll;
  let u2 := prod_rows c3ll in
  c1ll ← take_idx c1 ll;
  V ← varf m p Js C2 u2;
  t ← trace_matmul Q V;
  match map (λ c, c / lamUzi - t / (lamUzi * lamUzi) - e2) c1ll with
  | [ste] => Ok (1 - ste / vt)
  | _ => Raise ValueError
  end.

(** Lines 332-337: [sie[ii, jj]] for the pair [Js = varlist[jj]], together with
    [u3] and [u5]. [sme_row] is [sme[ii, :]]. *)
Definition sens_inter (e2 vt : R) (sme_row : vec) (Js : list nat) : res (R * vec * R) :=
  let ll := setxor1d (arange p) Js in
  c3ll ← cols c3 ll;
  let u3 := prod_rows c3ll in
  c1ll ← take_idx c1 ll;
  let u5 := prod c1ll in
  V ← varf m p Js C2 u3;
  t ← trace_times Q V;
  let sie := u5 / lamUzi - t / (lamUzi * lamUzi) - e2 in
  v0 ← list_get Js 0;
  s0 ← get1 sme_row v0;
  v1 ← list_get Js 1;
  s1 ← get1 sme_row v1;
  Ok (sie / vt - s0 - s1, u3, u5).

(** Lines 344-349: [sje[ii, jj]] for the index set [Js = jelist[jj]]. *)
Definition sens_joint (e2 vt : R) (Js : list nat) : res R :=
  let ll := setxor1d (arange p) Js in
  c3ll ← cols c3 ll;
  let u6 := prod_rows c3ll in
  c1ll ← take_idx c1 ll;
  let u7 := prod c1ll in
  V ← varf m p Js C2 u6;
  t ← trace_times Q V;
  let sje := u7 / lamUzi - t / (lamUzi * lamUzi) - e2 in
  Ok (sje / vt).

End Draw.

(** ** [component_sens] *)

Definition list_take {A : Type} (l : list A) (idx : list nat) : res (list A) :=
  mapM_res (list_get l) idx.

(** [np.reshape(v, (r, c))] in row-major order. *)
Definition reshape2 (v : vec) (r c : nat) : res mat :=
  if decide (length v = r * c)
  then Ok (map (λ i, take c (drop (i * c) v)) (seq 0 r))
  else Raise ValueError.

(** [v[:, None]]: a vector as a one-column matrix. *)
Definition column (v : vec) : mat := map (λ x, [x]) v.

(** Python's truth value of an optional list. *)
Definition truthy {A : Type} (l : option (list A)) : bool :=
  match l with
  | Some (_ :: _) => true
  | _ => false
  end.

Section ComponentSens.
Local Open Scope R_scope.

(** The class [SepiaDistCov] lives in [sepia/SepiaDistCov.py]; its constructor
    and its method [compute_cov_mat] are taken as parameters, and so are
    [np.linalg.inv] and [np.linalg.solve]. *)
Context (SepiaDistCov_new : mat → option mat → list nat → res SepiaDistCov)
        (compute_cov_mat : SepiaDistCov → vec → R → option R → res mat)
        (linalg_inv : mat → res mat)
        (linalg_solve : mat → vec → res vec).

(** [etae(Js, ef, vf, xexdist, xedist, beta, lamUz, lamWs, My, P)]; the pair
    returned is [(ee.m, ee.v)]. *)
Definition etae (Js : list nat) (ef : vec) (vf : R) (xexdist xedist : SepiaDistCov)
    (beta : vec) (lamUz lamWs : R) (My : vec) (P : ndarray) : res (vec * vec) :=
  let nxe := dist_n xedist in
  bJ ← take_idx beta Js;
  Ct ← compute_cov_mat xexdist bJ lamUz None;
  Ct ← ewise Rmult Ct (replicate nxe ef);
  eem ← matvec Ct My;
  bJ ← take_idx beta Js;
  C ← compute_cov_mat xedist bJ lamUz (Some lamWs);
  CtP ← nd_matmul (A2 Ct) P;
  CtPCt ← nd_matmul CtP (A2 (transpose Ct));
  match CtPCt with
  | A2 X => D ← ewise Rminus (map (map (λ c, c * vf)) C) X; Ok (eem, diag D)
  | _ => Raise ValueError
  end.

(** Lines 265-273: [P[ii]], [My[:, ii]] and [Q[ii]] of one draw. *)
Definition gp_draw (xdist : SepiaDistCov) (m : nat) (y : vec)
    (betaei : vec) (lamUzi lamWsi : R) : res (mat * vec * mat) :=
  S ← compute_cov_mat xdist betaei lamUzi (Some lamWsi);
  Si ← linalg_inv S;
  P ← assign_square m Si;
  sol ← linalg_solve S y;
  My ← assign_vec m sol;
  D ← ewise Rminus P (outer My My);
  Q ← assign_square m D;
  Ok (P, My, Q).

(** The values computed for one draw in the loop of lines 297-349. *)
Record draw_out : Type := {
  d_e0 : R;
  d_e2 : R;
  d_vt : R;
  d_sme : vec;
  d_ste : vec;
  d_mef_m : mat;
  d_mef_v : mat;
  d_sie : vec;
  d_jef_m : list mat;
  d_jef_v : list mat;
  d_sje : vec
}.

(** One pass of the loop of lines 297-349. *)
Definition sens_draw (x : mat) (xdist : SepiaDistCov) (xexdist xedist : list SepiaDistCov)
    (m p ngrid : nat) (rg : mat) (diff : vec)
    (varlist jelist : option (list (list nat)))
    (betaei : vec) (lamUzi lamWsi : R) (gp : mat * vec * mat) : res draw_out :=
  let '(P, My, Q) := gp in
  c1 ← calc1 betaei diff;
  C2 ← calc2 x xdist m rg betaei diff;
  c3 ← for_each (range 0 m) (λ jj c3,
          xj ← get_row x jj;
          r ← calc3 xj rg betaei diff;
          set_row c3 jj r) (zeros2 m (length diff));
  e2 ← sens_e2 m p Q lamUzi c1 C2 c3;
  e0 ← sens_e0 lamUzi c3 My;
  vt ← sens_vt m p Q lamUzi C2 e2;
  '(sme, ste, mef_m, mef_v) ← for_each (range 0 p) (λ jj '(sme, ste, mef_m, mef_v),
      '(s, u1, u4) ← sens_main m p Q lamUzi c1 C2 c3 e2 vt jj;
      xex ← list_get xexdist jj;
      xed ← list_get xedist jj;
      ME ← etae [jj] u1 u4 xex xed betaei lamUzi lamWsi My (squeeze P);
      mm ← assign_vec ngrid ME.1;
      mv ← assign_vec ngrid ME.2;
      t ← sens_total m p Q lamUzi c1 C2 c3 e2 vt jj;
      Ok (<[jj := s]> sme, <[jj := t]> ste, <[jj := mm]> mef_m, <[jj := mv]> mef_v))
    (zeros p, zeros p, zeros2 p ngrid, zeros2 p ngrid);
  '(sie, jef_m, jef_v) ←
    match varlist with
    | Some vl =>
        for_each (range 0 (length vl)) (λ jj '(sie, jef_m, jef_v),
          Js ← list_get vl jj;
          '(s, u3, u5) ← sens_inter m p Q lamUzi c1 C2 c3 e2 vt sme Js;
          xex ← list_get xexdist (p + jj);
          xed ← list_get xedist (p + jj);
          JE ← etae Js u3 u5 xex xed betaei lamUzi lamWsi My (squeeze P);
          jm ← reshape2 JE.1 ngrid ngrid;
          jv ← reshape2 JE.2 ngrid ngrid;
          Ok (<[jj := s]> sie, <[jj := jm]> jef_m, <[jj := jv]> jef_v))
        (zeros (length vl), replicate (length vl) (zeros2 ngrid ngrid),
         replicate (length vl) (zeros2 ngrid ngrid))
    | None => Ok ([], [], [])
    end;
  sje ←
    match jelist with
    | Some jl =>
        for_each (range 0 (length jl)) (λ jj sje,
          Js ← list_get jl jj;
          s ← sens_joint m p Q lamUzi c1 C2 c3 e2 vt Js;
          Ok (<[jj := s]> sje)) (zeros (length jl))
    | None => Ok []
    end;
  Ok {| d_e0 := e0; d_e2 := e2; d_vt := vt; d_sme := sme; d_ste := ste;
        d_mef_m := mef_m; d_mef_v := mef_v;
        d_sie := sie; d_jef_m := jef_m; d_jef_v := jef_v; d_sje := sje |}.

(** [component_sens(x, y, beta, lamUz, lamWs, xe, ngrid, varlist, jelist, rg, cat_ind)] *)
Definition component_sens (x : mat) (y : vec) (beta : mat) (lamUz lamWs : vec)
    (xe : mat) (ngrid : nat) (varlist jelist : option (list (list nat)))
    (rg : mat) (cat_ind : list nat) : res (gmap string ndarray) :=
  hi ← col rg 1;
  lo ← col rg 0;
  diff ← bcast Rminus hi lo;
  let nmcmc := length beta in
  let p := ncols beta in
  let m := length x in
  xdist ← SepiaDistCov_new x None cat_ind;
  dists ← mapM_res (λ ii,
      xei ← col xe ii;
      xi ← col x ii;
      ci ← list_take cat_ind [ii];
      a ← SepiaDistCov_new (column xei) (Some (column xi)) ci;
      xei ← col xe ii;
      ci ← list_take cat_ind [ii];
      b ← SepiaDistCov_new (column xei) None ci;
      Ok (a, b)) (range 0 p);
  vdists ←
    match varlist with
    | Some vl =>
        mapM_res (λ ii,
          v ← list_get vl ii;
          v0 ← list_get v 0;
          c0 ← col xe v0;
          v ← list_get vl ii;
          v1 ← list_get v 1;
          c1 ← col xe v1;
          let xte := mjoin (map (λ vi, map (λ vj, [vi; vj]) c1) c0) in
          v ← list_get vl ii;
          xv ← cols x v;
          ci ← list_take cat_ind v;
          a ← SepiaDistCov_new xte (Some xv) ci;
          ci ← list_take cat_ind v;
          b ← SepiaDistCov_new xte None ci;
          Ok (a, b)) (range 0 (length vl))
    | None => Ok []
    end;
  let xexdist := map fst dists ++ map fst vdists in
  let xedist := map snd dists ++ map snd vdists in
  gps ← mapM_res (λ ii,
      betaei ← get_row beta ii;
      lamUzi ← get1 lamUz ii;
      lamWsi ← get1 lamWs ii;
      gp_draw xdist m y betaei lamUzi lamWsi) (range 0 nmcmc);
  draws ← mapM_res (λ ii,
      betaei ← get_row beta ii;
      lamUzi ← get1 lamUz ii;
      lamWsi ← get1 lamWs ii;
      gp ← list_get gps ii;
      sens_draw x xdist xexdist xedist m p ngrid rg diff varlist jelist
        betaei lamUzi lamWsi gp) (range 0 nmcmc);
  let sa : gmap string ndarray :=
    <["mef_v" := A3 (map d_mef_v draws)]>
    (<["mef_m" := A3 (map d_mef_m draws)]>
    (<["ste" := A2 (map d_ste draws)]>
    (<["sme" := A2 (map d_sme draws)]>
    (<["vt" := A1 (map d_vt draws)]>
    (<["e0" := A1 (map d_e0 draws)]> ∅))))) in
  let sa :=
    if truthy varlist
    then <["jef_v" := A4 (map d_jef_v draws)]>
         (<["jef_m" := A4 (map d_jef_m draws)]>
         (<["sie" := A2 (map d_sie draws)]> sa))
    else sa in
  let sa :=
    if truthy jelist then <["sje" := A2 (map d_sje draws)]> sa else sa in
  Ok sa.

End ComponentSens.

(** ** [sensitivity] *)

#[global] Instance R_eq_dec : EqDecision R := Req_dec_T.

(** The Python values that the variable [ii0] of [sensitivity] can hold. *)
Inductive pyobj : Type :=
| PyNone
| PyTuple (items : list (list nat))
| PyArray (a : list nat).

(** The attribute [shape]: only arrays have it. *)
Definition shape_attr (o : pyobj) : res (list nat) :=
  match o with
  | PyArray a => Ok [length a]
  | PyTuple _ => Raise (AttributeError "tuple" "shape")
  | PyNone => Raise (AttributeError "NoneType" "shape")
  end.

(** The values of an index object, as [np.setxor1d] and fancy indexing see
    them. *)
Definition index_values (o : pyobj) : list nat :=
  match o with
  | PyNone => []
  | PyTuple items => mjoin items
  | PyArray a => a
  end.

(** [np.where(mask)]: a one-element tuple holding the positions of the true
    entries. *)
Definition np_where (mask : list bool) : pyobj :=
  PyTuple [omap (λ '(t, h), if h : bool then Some t else None) (imap pair mask)].

Inductive varlist_arg : Type :=
| VarNone
| VarAll
| VarList (l : list (list nat)).

Inductive option_arg : Type :=
| OptStr (s : string)
| OptDict (d : gmap string mat)
| OptOther.

Inductive sensval : Type :=
| SArr (a : ndarray)
| SList (l : list (gmap string ndarray)).

(** What a call does: it returns a value, possibly [None], after printing some
    lines, or it raises. *)
Inductive outcome (A : Type) : Type :=
| Returned (printed : list string) (v : option A)
| Raised (e : exn).
Arguments Returned {A} printed v.
Arguments Raised {A} e.

(** The attributes of a [SepiaModel] that [sensitivity] reads. *)
Record SepiaModel : Type := {
  num_p : nat;
  num_q : nat;
  num_pu : nat;
  num_m : nat;
  num_w : vec;
  data_zt : mat;
  data_x_cat_ind : list nat;
  data_t_cat_ind : list nat;
  sim_K : option mat;
  sim_orig_y_mean : vec;
  sim_orig_y_sd : vec + R;
  get_samples : gmap string mat
}.

(** The outputs of the rescaling to physical units (lines 154-218). *)
Record unscaled : Type := {
  u_e0 : ndarray;
  u_mef_m : ndarray;
  u_mef_sd : ndarray;
  u_tmef_m : ndarray;
  u_tmef_sd : ndarray;
  u_jef_m : ndarray;
  u_jef_sd : ndarray;
  u_tjef_m : ndarray;
  u_tjef_sd : ndarray
}.

(** [np.linspace(lo, hi, n)] *)
Definition linspace (lo hi : R) (n : nat) : vec :=
  map (λ k, lo + INR k * ((hi - lo) / INR (n - 1)))%R (seq 0 n).

(** [np.mean(M, 0)] of an array with [nc] columns. *)
Definition mean0 (nc : nat) (M : mat) : vec :=
  map (λ k, sum (map (λ row, vget row k) M) / INR (length M))%R (seq 0 nc).

Fixpoint insert_real (x : R) (l : vec) : vec :=
  match l with
  | [] => [x]
  | y :: l' => if Rle_dec x y then x :: l else y :: insert_real x l'
  end.

(** [np.median] of a vector. *)
Definition median (v : vec) : R :=
  let s := foldr insert_real [] v in
  let n := length v in
  if Nat.even n
  then ((vget s (n / 2 - 1) + vget s (n / 2)) / 2)%R
  else vget s (n / 2).

(** [np.median(M, 0)] of an array with [nc] columns. *)
Definition median0 (nc : nat) (M : mat) : vec :=
  map (λ k, median (map (λ row, vget row k) M)) (seq 0 nc).

(** [model.num.w.reshape((m, pu), order='F')], as the list of its columns. *)
Definition reshape_F (w : vec) (m pu : nat) : res (list vec) :=
  if decide (length w = m * pu)
  then Ok (map (λ j, take m (drop (j * m) w)) (seq 0 pu))
  else Raise ValueError.

(** [list(itertools.combinations(range(n), 2))] *)
Definition combinations2 (n : nat) : list (list nat) :=
  mjoin (map (λ i, map (λ j, [i; j]) (range (i + 1) n)) (range 0 n)).

(** Lines 50-59: the index object [ii0], the number [nv] of free variables and
    the ranges [rg]. *)
Definition sens_ranges (nv : nat) (rg : option mat) : res (pyobj * nat * mat) :=
  let ii0 := PyNone in
  match rg with
  | None =>
      let rg := zeros2 nv 2 in
      let rg := map (λ row : vec, <[1 := 1%R]> row) rg in
      Ok (ii0, nv, rg)
  | Some rg =>
      c0 ← col rg 0;
      c1 ← col rg 1;
      mask ← bcast (λ a b : R, bool_decide (a = b)) c0 c1;
      let ii0 := np_where mask in
      sh ← shape_attr ii0;
      n0 ← list_get sh 0;
      if decide (0 < n0)
      then
        let ii0 := setxor1d (arange nv) (index_values ii0) in
        let nv := length ii0 in
        rg ← mapM_res (get_row rg) ii0;
        Ok (PyArray ii0, nv, rg)
      else Ok (ii0, nv, rg)
  end.

(** Lines 72-88: the parameter draws selected by [option]; [None] stands for
    the branch that prints and returns. *)
Definition sens_option (opt : option_arg) (betaU lamUz lamWs : mat)
    : res (option (mat * mat * mat)) :=
  match opt with
  | OptStr s =>
      if decide (s = "samples") then Ok (Some (betaU, lamUz, lamWs))
      else if decide (s = "mean")
      then Ok (Some ([mean0 (ncols betaU) betaU], [mean0 (ncols lamUz) lamUz],
                     [mean0 (ncols lamWs) lamWs]))
      else if decide (s = "median")
      then Ok (Some ([median0 (ncols betaU) betaU], [median0 (ncols lamUz) lamUz],
                     [median0 (ncols lamWs) lamWs]))
      else Ok None
  | OptDict d =>
      b ← dict_get d "betaU";
      u ← dict_get d "lamUz";
      w ← dict_get d "lamWs";
      Ok (Some (b, u, w))
  | OptOther => Ok None
  end.

Definition invalid_option_message : string :=
  "invalid option (choose mean, median, or samples, or pass dict of values for betaU, lamUz, lamWs)".

Definition no_free_variables_message : string := "error:  no free variables
".

(** [row += w] and [row /= d] on the row [ii] of a matrix. *)
Definition iadd_row (M : mat) (ii : nat) (w : vec) : res mat :=
  row ← get_row M ii;
  new ← bcast Rplus row w;
  set_row M ii new.

Definition idiv_row (M : mat) (ii : nat) (d : R) : res mat :=
  row ← get_row M ii;
  set_row M ii (map (λ x, x / d)%R row).

(** [v[i] = x] *)
Definition set1 (v : vec) (i : nat) (x : R) : res vec :=
  if decide (i < length v) then Ok (<[i := x]> v) else Raise IndexError.

(** [lam[jj] * sa[jj][key][ii, :] * sa[jj]['vt'][ii]] *)
Definition weighted_row (lam : vec) (sa : list (gmap string ndarray)) (key : string)
    (ii jj : nat) : res vec :=
  l ← get1 lam jj;
  saj ← list_get sa jj;
  a ← dict_get saj key;
  M ← as_mat a;
  row ← get_row M ii;
  saj ← list_get sa jj;
  a ← dict_get saj "vt";
  v ← as_vec a;
  vt ← get1 v ii;
  Ok (map (λ s, l * s * vt)%R row).

(** Lines 126-128: the contribution of the component [jj] to the draw [ii]. *)
Definition aggregate_add (lam : vec) (sa : list (gmap string ndarray)) (ii jj : nat)
    (st : mat * mat * R) : res (mat * mat * R) :=
  let '(sme, ste, vt0) := st in
  w ← weighted_row lam sa "sme" ii jj;
  sme ← iadd_row sme ii w;
  w ← weighted_row lam sa "ste" ii jj;
  ste ← iadd_row ste ii w;
  l ← get1 lam jj;
  saj ← list_get sa jj;
  a ← dict_get saj "vt";
  v ← as_vec a;
  x ← get1 v ii;
  Ok (sme, ste, (vt0 + l * x)%R).

(** Lines 124-131: one pass of the loop over the draws. *)
Definition aggregate_draw (lam : vec) (sa : list (gmap string ndarray)) (pu ii : nat)
    (st : mat * mat * vec) : res (mat * mat * vec) :=
  let '(sme, ste, vt) := st in
  let vt0 := 0%R in
  '(sme, ste, vt0) ← for_each (range 0 pu) (aggregate_add lam sa ii) (sme, ste, vt0);
  sme ← idiv_row sme ii vt0;
  ste ← idiv_row ste ii vt0;
  vt ← set1 vt ii vt0;
  Ok (sme, ste, vt).

(** Lines 120-131: the per-draw aggregates [sme], [ste] and [vt]. *)
Definition aggregate (lam : vec) (sa : list (gmap string ndarray)) (npvec nv pu : nat)
    : res (mat * mat * vec) :=
  let sme := zeros2 npvec nv in
  let ste := zeros2 npvec nv in
  let vt := zeros npvec in
  for_each (range 0 npvec) (aggregate_draw lam sa pu) (sme, ste, vt).

(** Lines 139-142 and 148-151: one pass of the loop over the draws for the
    entry [key] ([sie] or [sje]). *)
Definition aggregate_key_draw (key : string) (lam : vec) (sa : list (gmap string ndarray))
    (vt : vec) (pu ii : nat) (sie : mat) : res mat :=
  sie ← for_each (range 0 pu) (λ jj sie,
      w ← weighted_row lam sa key ii jj;
      iadd_row sie ii w) sie;
  d ← get1 vt ii;
  idiv_row sie ii d.

(** Lines 138-142 and 147-151: the per-draw aggregate of the entry [key] over
    [n] pairs or index sets. *)
Definition aggregate_key (key : string) (lam : vec) (sa : list (gmap string ndarray))
    (vt : vec) (npvec n pu : nat) : res mat :=
  let sie := zeros2 npvec n in
  for_each (range 0 npvec) (aggregate_key_draw key lam sa vt pu) sie.

Section Sensitivity.

Context (SepiaDistCov_new : mat → option mat → list nat → res SepiaDistCov)
        (compute_cov_mat : SepiaDistCov → vec → R → option R → res mat)
        (linalg_inv : mat → res mat)
        (linalg_solve : mat → vec → res vec).

(** The rescaling of the effect functions to physical units, lines 154-218,
    on which none of the properties below depends. *)
Context (unscale : SepiaModel → list (gmap string ndarray) → mat → nat → nat → nat →
                   option (list (list nat)) → res unscaled).

(** Lines 92-93: [varlist] after the token ['all'] has been expanded. *)
Definition sens_varlist (varlist : varlist_arg) (nv : nat) : option (list (list nat)) :=
  match varlist with
  | VarNone => None
  | VarAll => Some (combinations2 nv)
  | VarList l => Some l
  end.

(** Lines 96-105: the list [sa] of the per-component results. *)
Definition sens_components (model : SepiaModel) (ngrid : nat)
    (varlist jelist : option (list (list nat))) (ii0 : list nat) (nv : nat) (rg xe : mat)
    (betaU lamUz lamWs : mat) : res (list (gmap string ndarray)) :=
  let pu := num_pu model in
  let m := num_m model in
  let sim_xt := data_zt model in
  w ← reshape_F (num_w model) m pu;
  let cat_ind := data_x_cat_ind model ++ data_t_cat_ind model in
  mapM_res (λ ii,
      let bind := map (λ ind, ind + ii * nv) ii0 in
      betaU_sub ← cols betaU bind;
      lamUz_sub ← col lamUz ii;
      lamWs_sub ← col lamWs ii;
      xsub ← cols sim_xt ii0;
      wi ← list_get w ii;
      component_sens SepiaDistCov_new compute_cov_mat linalg_inv linalg_solve
        xsub wi betaU_sub lamUz_sub lamWs_sub xe ngrid varlist jelist rg cat_ind)
    (range 0 pu).

(** Lines 113-116: the matrix [ksmm]. *)
Definition sens_ksmm (model : SepiaModel) : mat :=
  match sim_K model with
  | Some K => transpose K
  | None => [[1%R]]
  end.

(** Line 119: the weights [lam]. *)
Definition sens_lam (ksmm : mat) : res vec :=
  G ← matmul (transpose ksmm) ksmm;
  Ok (diag G).

(** Lines 91-238, after the ranges and the draws have been resolved. *)
Definition sens_main_part (model : SepiaModel) (ngrid : nat) (varlist : varlist_arg)
    (jelist : option (list (list nat))) (ii0 : list nat) (nv : nat) (rg xe : mat)
    (betaU lamUz lamWs : mat) : res (gmap string sensval) :=
  let pu := num_pu model in
  let npvec := length betaU in
  let varlist := sens_varlist varlist nv in
  sa ← sens_components model ngrid varlist jelist ii0 nv rg xe betaU lamUz lamWs;
  let ksmm := sens_ksmm model in
  lam ← sens_lam ksmm;
  '(sme, ste, vt) ← aggregate lam sa npvec nv pu;
  let smePm := squeeze1 (mean0 nv sme) in
  let stePm := squeeze1 (mean0 nv ste) in
  siePm ←
    match varlist with
    | Some vl =>
        sie ← aggregate_key "sie" lam sa vt npvec (length vl) pu;
        Ok (Some (squeeze1 (mean0 (length vl) sie)))
    | None => Ok None
    end;
  sjePm ←
    match jelist with
    | Some jl =>
        sje ← aggregate_key "sje" lam sa vt npvec (length jl) pu;
        Ok (Some (squeeze1 (mean0 (length jl) sje)))
    | None => Ok None
    end;
  u ← unscale model sa ksmm npvec nv ngrid varlist;
  let sens : gmap string sensval :=
    <["tmef_sd" := SArr (u_tmef_sd u)]>
    (<["tmef_m" := SArr (u_tmef_m u)]>
    (<["mef_sd" := SArr (u_mef_sd u)]>
    (<["mef_m" := SArr (u_mef_m u)]>
    (<["stePm" := SArr stePm]>
    (<["smePm" := SArr smePm]>
    (<["totalVar" := SArr (A1 vt)]>
    (<["totalMean" := SArr (u_e0 u)]>
    (<["sa" := SList sa]> ∅)))))))) in
  let sens :=
    match siePm with
    | Some s =>
        <["tjef_sd" := SArr (u_tjef_sd u)]>
        (<["tjef_m" := SArr (u_tjef_m u)]>
        (<["jef_sd" := SArr (u_jef_sd u)]>
        (<["jef_m" := SArr (u_jef_m u)]>
        (<["siePm" := SArr s]> sens))))
    | None => sens
    end in
  let sens :=
    match sjePm with
    | Some s => <["sjePm" := SArr s]> sens
    | None => sens
    end in
  Ok sens.

(** [sensitivity(model, samples_dict, ngrid, varlist, jelist, rg, option)] *)
Definition sensitivity (model : SepiaModel) (samples_dict : option (gmap string mat))
    (ngrid : nat) (varlist : varlist_arg) (jelist : option (list (list nat)))
    (rg : option mat) (opt : option_arg) : outcome (gmap string sensval) :=
  let p := num_p model in
  let q := num_q model in
  let nv := p + q in
  let samples_dict := default (get_samples model) samples_dict in
  match
    betaU ← dict_get samples_dict "betaU";
    lamUz ← dict_get samples_dict "lamUz";
    lamWs ← dict_get samples_dict "lamWs";
    r ← sens_ranges nv rg;
    Ok (betaU, lamUz, lamWs, r)
  with
  | Raise e => Raised e
  | Ok (betaU, lamUz, lamWs, (ii0, nv, rg)) =>
      if decide (nv = 0) then Returned [no_free_variables_message] None
      else
        let ii0 := match ii0 with PyNone => arange nv | _ => index_values ii0 end in
        match
          mapM_res (λ ii, lo ← get2 rg ii 0; hi ← get2 rg ii 1;
                          Ok (linspace lo hi ngrid)) (range 0 nv)
        with
        | Raise e => Raised e
        | Ok xcols =>
            let xe := map (λ k, map (λ c : vec, vget c k) xcols) (seq 0 ngrid) in
            match sens_option opt betaU lamUz lamWs with
            | Raise e => Raised e
            | Ok None => Returned [invalid_option_message] None
            | Ok (Some (betaU, lamUz, lamWs)) =>
                match
                  sens_main_part model ngrid varlist jelist ii0 nv rg xe betaU lamUz lamWs
                with
                | Raise e => Raised e
                | Ok sens => Returned [] (Some sens)
                end
            end
        end
  end.

End Sensitivity.

(** The entry of [calc1] for one dimension, as the specification writes it. *)
Definition calc1_formula (beta diff : R) : R :=
  ((sqrt (PI / beta) * diff * (2 * norm_cdf (sqrt (2 * beta) * diff) - 1)
    - 1 / beta * (1 - sqrt (2 * PI) * norm_pdf (sqrt (2 * beta) * diff))) / Rsqr diff)%R.

(** The trace of the matrix product of two [m] by [m] matrices, and the
    trace of their elementwise product. *)
Definition trace_of_product (m : nat) (Q V : mat) : R :=
  sum (map (λ i, sum (map (λ k, mget Q i k * mget V k i)%R (seq 0 m))) (seq 0 m)).

Definition trace_of_diagonals (m : nat) (Q V : mat) : R :=
  sum (map (λ i, mget Q i i * mget V i i)%R (seq 0 m)).

(** The dimensions of [range(p)] that are not in [Js]. *)
Definition complement (p : nat) (Js : list nat) : list nat :=
  filter (λ d, d ∉ Js) (seq 0 p).

(** Readers of the per-component results, used to state their aggregation. *)
Definition dict_mat (d : gmap string ndarray) (key : string) : mat :=
  match d !! key with
  | Some (A2 M) => M
  | _ => []
  end.

Definition dict_vec (d : gmap string ndarray) (key : string) : vec :=
  match d !! key with
  | Some (A1 v) => v
  | _ => []
  end.

(** [sa[jj][key][ii, k]] and [sa[jj]['vt'][ii]] *)
Definition comp_entry (sa : list (gmap string ndarray)) (key : string) (jj ii k : nat) : R :=
  mget (dict_mat (default ∅ (sa !! jj)) key) ii k.

Definition comp_vt (sa : list (gmap string ndarray)) (jj ii : nat) : R :=
  vget (dict_vec (default ∅ (sa !! jj)) "vt") ii.

(** The summed weighted variance [vt0] of draw [ii], and the aggregate of the
    per-component indices [key] for that draw. *)
Definition total_variance (lam : vec) (sa : list (gmap string ndarray)) (pu ii : nat) : R :=
  sum (map (λ jj, vget lam jj * comp_vt sa jj ii)%R (seq 0 pu)).

Definition weighted_index (lam : vec) (sa : list (gmap string ndarray)) (key : string)
    (pu ii k : nat) : R :=
  (sum (map (λ jj, vget lam jj * comp_entry sa key jj ii k * comp_vt sa jj ii)%R (seq 0 pu))
   / total_variance lam sa pu ii)%R.

(** A samples dictionary with the three entries that [sensitivity] reads. *)
Definition has_samples (d : gmap string mat) : Prop :=
  is_Some (d !! "betaU") ∧ is_Some (d !! "lamUz") ∧ is_Some (d !! "lamWs").

(** An [option] that is neither ['samples'], ['mean'], ['median'] nor a
    dictionary. *)
Definition invalid_option (opt : option_arg) : Prop :=
  match opt with
  | OptStr s => s ≠ "samples" ∧ s ≠ "mean" ∧ s ≠ "median"
  | OptDict _ => False
  | OptOther => True
  end.

(** ** Example inputs *)

(** Quantities of one draw: two runs, two input dimensions. *)
Definition example_Q : mat := [[2; 1]; [1; 2]]%R.
Definition example_C2 : mat := [[1; 1]; [0; 0]; [1; 1]; [1; 1]; [0; 0]]%R.
Definition example_c3 : mat := [[1; 1]; [1; 1]]%R.
Definition example_c1 : vec := [1; 1]%R.

(** A table and a vector of factors for [varf] with two runs. *)
Definition example_table : mat := [[2; 3]; [0; 0]; [5; 7]; [11; 13]; [0; 0]]%R.
Definition example_ef : vec := [17; 19]%R.

(** Stand-ins with the shapes of the external routines: distances all equal
    to one, an identity covariance, and a rescaling that returns empty arrays. *)
Definition toy_distcov (x : mat) (x2 : option mat) (cat_ind : list nat) : res SepiaDistCov :=
  Ok {| ind0 := mjoin (map (λ i, map (λ _, i) (range (i + 1) (length x))) (range 0 (length x)));
        ind1 := mjoin (map (λ i, range (i + 1) (length x)) (range 0 (length x)));
        sqdist := mjoin (map (λ i, map (λ _, replicate (ncols x) 1%R)
                                       (range (i + 1) (length x))) (range 0 (length x)));
        dist_n := length x |}.

Definition toy_cov_mat (d : SepiaDistCov) (beta : vec) (lamUz : R) (lamWs : option R)
    : res mat :=
  match lamWs with
  | Some _ => Ok (map (λ i, map (λ j, if decide (i = j) then 1%R else 0%R)
                                (seq 0 (dist_n d))) (seq 0 (dist_n d)))
  | None => Ok (zeros2 (dist_n d) 2)
  end.

Definition toy_inv (S : mat) : res mat := Ok S.
Definition toy_solve (S : mat) (y : vec) : res vec := Ok y.

Definition toy_unscale (model : SepiaModel) (sa : list (gmap string ndarray)) (ksmm : mat)
    (npvec nv ngrid : nat) (varlist : option (list (list nat))) : res unscaled :=
  Ok {| u_e0 := A1 []; u_mef_m := A4 []; u_mef_sd := A4 []; u_tmef_m := A3 [];
        u_tmef_sd := A3 []; u_jef_m := A4 []; u_jef_sd := A4 []; u_tjef_m := A3 [];
        u_tjef_sd := A3 [] |}.

(** A model with one input, one basis component and two runs. *)
Definition example_samples : gmap string mat :=
  <["betaU" := [[1%R]]]> (<["lamUz" := [[1%R]]]> (<["lamWs" := [[1%R]]]> ∅)).

Definition example_model : SepiaModel := {|
  num_p := 1; num_q := 0; num_pu := 1; num_m := 2;
  num_w := [0; 1]%R;
  data_zt := [[0]; [1]]%R;
  data_x_cat_ind := [0];
  data_t_cat_ind := [];
  sim_K := None;
  sim_orig_y_mean := [0%R];
  sim_orig_y_sd := inr 1%R;
  get_samples := example_samples
|}.

(** The result of one component with one draw and one input. *)
Definition example_component : gmap string ndarray :=
  <["sme" := A2 [[1%R]]]> (<["ste" := A2 [[1%R]]]> (<["vt" := A1 [3%R]]> ∅)).

(** The ranges and the grid that [sensitivity] builds when no [rg] is given
    (lines 51-53 and 67-69). *)
Definition unit_ranges (nv : nat) : mat := map (λ row : vec, <[1 := 1%R]> row) (zeros2 nv 2).

Definition unit_grid (nv ngrid : nat) : mat :=
  map (λ k, map (λ c : vec, vget c k) (map (λ _, linspace 0 1 ngrid) (range 0 nv)))
      (seq 0 ngrid).

(** The keys of the dictionary returned by [sensitivity] (lines 220-237). *)
Definition base_keys : gset string :=
  list_to_set ["sa"; "totalMean"; "totalVar"; "smePm"; "stePm";
               "mef_m"; "mef_sd"; "tmef_m"; "tmef_sd"].

Definition interaction_keys : gset string :=
  list_to_set ["siePm"; "jef_m"; "jef_sd"; "tjef_m"; "tjef_sd"].

Definition result_keys (varlist : varlist_arg) (jelist : option (list (list nat)))
    : gset string :=
  base_keys
  ∪ (match varlist with VarNone => ∅ | _ => interaction_keys end)
  ∪ (match jelist with None => ∅ | Some _ => {["sjePm"]} end).

(** The number of parameter draws that [option] selects (lines 72-89). *)
Definition selected_draws (opt : option_arg) (d : gmap string mat) : nat :=
  match opt with
  | OptStr s => if decide (s = "samples") then length (default [] (d !! "betaU")) else 1
  | OptDict o => length (default [] (o !! "betaU"))
  | OptOther => 0
  end.

(** A model without inputs. *)
Definition example_model_no_inputs : SepiaModel := {|
  num_p := 0; num_q := 0; num_pu := 1; num_m := 2;
  num_w := [0; 1]%R;
  data_zt := [[]; []];
  data_x_cat_ind := [];
  data_t_cat_ind := [];
  sim_K := None;
  sim_orig_y_mean := [0%R];
  sim_orig_y_sd := inr 1%R;
  get_samples := example_samples
|}.

(** The quadratic form [u.T @ Q @ u] of an [m] by [m] matrix. *)
Definition quadratic_form (m : nat) (Q : mat) (u : vec) : R :=
  sum (map (λ i, sum (map (λ k, mget Q i k * (vget u k * vget u i))%R (seq 0 m))) (seq 0 m)).

(** The aggregate of the entry [key] ([sie] or [sje]) for the draw [ii]: the
    weighted sum over the components, divided by the total variance [vt[ii]]
    of the first pass. *)
Definition weighted_key (lam : vec) (sa : list (gmap string ndarray)) (key : string)
    (vt : vec) (pu ii k : nat) : R :=
  (sum (map (λ jj, vget lam jj * comp_entry sa key jj ii k * comp_vt sa jj ii)%R (seq 0 pu))
   / vget vt ii)%R.

(** The result of one component with one draw, one input and one pair. *)
Definition example_component_pair : gmap string ndarray :=
  <["sie" := A2 [[5%R]]]> example_component.

(** A model with a single simulation run. *)
Definition example_model_single_run : SepiaModel := {|
  num_p := 1; num_q := 0; num_pu := 1; num_m := 1;
  num_w := [1%R];
  data_zt := [[0%R]];
  data_x_cat_ind := [0];
  data_t_cat_ind := [];
  sim_K := None;
  sim_orig_y_mean := [0%R];
  sim_orig_y_sd := inr 1%R;
  get_samples := example_samples
|}.

(** The entry of [calc3] for one dimension. *)
Definition calc3_formula (x lo hi beta diff : R) : R :=
  (sqrt (PI / beta)
   * (norm_cdf (sqrt (2 * beta) * (hi - x)) - norm_cdf (sqrt (2 * beta) * (lo - x)))
   / diff)%R.

(** Every pair of runs [i < j < m] has exactly one entry in the index vectors
    of [xdist], and the table [sqdist] has a row of [p] squared distances for
    it. *)
Definition pairs_indexed (xdist : SepiaDistCov) (m p : nat) : Prop :=
  ∀ i j, i < j < m →
    ∃ k sq, where_pair xdist i j = Ok [k] ∧ sqdist xdist !! k = Some sq ∧ length sq = p.

(** A table of distances for two runs in one dimension. *)
Definition example_xdist : SepiaDistCov :=
  {| ind0 := [0]; ind1 := [1]; sqdist := [[1%R]]; dist_n := 2 |}.

(** ** [sepia/SepiaData.py]: scaling of the inputs and standardization of the outputs

    The fields of [DataContainer] and [SepiaData] that [transform_xt] and
    [standardize_y] read and write.  An array with no rows is the empty
    list and carries no column count. *)

Record DataContainer : Type := {
  dc_x : mat;
  dc_y : mat;
  dc_t : option mat;
  dc_orig_y_sd : option (vec + R);
  dc_orig_y_mean : option (vec + R);
  dc_y_std : option mat;
  dc_x_trans : option mat;
  dc_t_trans : option mat;
  dc_orig_t_min : option vec;
  dc_orig_t_max : option vec;
  dc_orig_x_min : option vec;
  dc_orig_x_max : option vec
}.

Record SepiaData : Type := {
  sim_data : DataContainer;
  obs_data : option DataContainer;
  sim_only : bool
}.

(** [np.min(v)] and [np.max(v)] of a one-dimensional array: a [ValueError]
    on an empty one. *)
Definition np_min (v : vec) : res R :=
  match v with
  | [] => Raise ValueError
  | a :: v' => Ok (foldr Rmin a v')
  end.

Definition np_max (v : vec) : res R :=
  match v with
  | [] => Raise ValueError
  | a :: v' => Ok (foldr Rmax a v')
  end.

(** [np.min(M, 0, keepdims=True)] and [np.max(M, 0, keepdims=True)]: the
    single row of the result.  Reducing over an axis of length zero raises. *)
Definition np_min0 (M : mat) : res vec :=
  match M with
  | [] => Raise ValueError
  | _ => mapM_res (λ j, c ← col M j; np_min c) (seq 0 (ncols M))
  end.

Definition np_max0 (M : mat) : res vec :=
  match M with
  | [] => Raise ValueError
  | _ => mapM_res (λ j, c ← col M j; np_max c) (seq 0 (ncols M))
  end.

(** [v[mask] = c] for a boolean mask. *)
Definition mask_assign (v : vec) (mask : list bool) (c : R) : res vec :=
  if decide (length v = length mask)
  then Ok (zip_with (λ (b : bool) e, if b then c else e) mask v)
  else Raise IndexError.

(** The local function [trans] of [transform_xt]; [x_min] and [x_max] are the
    single rows of the [(1, p)] arrays. *)
Definition trans (x : mat) (a b : R) (x_min x_max : vec) : res mat :=
  let a_vec := map (λ _, a * 1)%R x_min in
  let b_vec := map (λ _, b * 1)%R x_min in
  xmm ← bcast Rminus x_max x_min;
  let mask := map (λ d, bool_decide (d = 0%R)) xmm in
  x_min ← mask_assign x_min mask 0%R;
  a_vec ← mask_assign a_vec mask 0%R;
  b_vec ← mask_assign b_vec mask 1%R;
  xmm ← mask_assign xmm mask 1%R;
  ba ← bcast Rminus b_vec a_vec;
  mapM_res (λ row,
    d ← bcast Rminus row x_min;
    q ← bcast Rdiv d xmm;
    s ← bcast Rmult q ba;
    bcast Rplus s a_vec) x.

Definition set_x_trans (d : DataContainer) (x_min x_max : option vec) (x_trans : mat)
    : DataContainer :=
  {| dc_x := dc_x d; dc_y := dc_y d; dc_t := dc_t d;
     dc_orig_y_sd := dc_orig_y_sd d; dc_orig_y_mean := dc_orig_y_mean d;
     dc_y_std := dc_y_std d;
     dc_x_trans := Some x_trans; dc_t_trans := dc_t_trans d;
     dc_orig_t_min := dc_orig_t_min d; dc_orig_t_max := dc_orig_t_max d;
     dc_orig_x_min := x_min; dc_orig_x_max := x_max |}.

Definition set_t_trans (d : DataContainer) (t_min t_max : vec) (t_trans : mat)
    : DataContainer :=
  {| dc_x := dc_x d; dc_y := dc_y d; dc_t := dc_t d;
     dc_orig_y_sd := dc_orig_y_sd d; dc_orig_y_mean := dc_orig_y_mean d;
     dc_y_std := dc_y_std d;
     dc_x_trans := dc_x_trans d; dc_t_trans := Some t_trans;
     dc_orig_t_min := Some t_min; dc_orig_t_max := Some t_max;
     dc_orig_x_min := dc_orig_x_min d; dc_orig_x_max := dc_orig_x_max d |}.

Definition set_orig_t (d : DataContainer) (t_min t_max : option vec) : DataContainer :=
  {| dc_x := dc_x d; dc_y := dc_y d; dc_t := dc_t d;
     dc_orig_y_sd := dc_orig_y_sd d; dc_orig_y_mean := dc_orig_y_mean d;
     dc_y_std := dc_y_std d;
     dc_x_trans := dc_x_trans d; dc_t_trans := dc_t_trans d;
     dc_orig_t_min := t_min; dc_orig_t_max := t_max;
     dc_orig_x_min := dc_orig_x_min d; dc_orig_x_max := dc_orig_x_max d |}.

(** [SepiaData.transform_xt(xt_min, xt_max)]; the updated object. *)
Definition transform_xt (self : SepiaData) (xt_min xt_max : R) : res SepiaData :=
  let sim := sim_data self in
  x_min ← np_min0 (dc_x sim);
  x_max ← np_max0 (dc_x sim);
  x_trans ← trans (dc_x sim) xt_min xt_max x_min x_max;
  let sim := set_x_trans sim (Some x_min) (Some x_max) x_trans in
  sim ← match dc_t sim with
        | Some t =>
            t_min ← np_min0 t;
            t_max ← np_max0 t;
            t_trans ← trans t xt_min xt_max t_min t_max;
            Ok (set_t_trans sim t_min t_max t_trans)
        | None => Ok sim
        end;
  if sim_only self
  then Ok {| sim_data := sim; obs_data := obs_data self; sim_only := sim_only self |}
  else
    match obs_data self with
    | None => Raise (AttributeError "NoneType" "orig_x_min")
    | Some obs =>
        let obs := set_orig_t obs (dc_orig_t_min sim) (dc_orig_t_max sim) in
        obs_x_trans ← trans (dc_x obs) xt_min xt_max x_min x_max;
        Ok {| sim_data := sim;
              obs_data := Some (set_x_trans obs (Some x_min) (Some x_max) obs_x_trans);
              sim_only := sim_only self |}
    end.

(** The [scale] argument of [standardize_y]: ['scalar'], ['columnwise'], or
    anything else. *)
Inductive scale_arg : Type :=
| ScaleScalar
| ScaleColumnwise
| ScaleOther.

(** [np.std(v, ddof=1)]: the divisor is [max(N - 1, 0)].  With fewer than two
    values numpy divides zero by zero and returns NaN, which the real numbers
    do not have; the properties of [standardize_y] are stated for at least two
    values. *)
Definition np_std (v : vec) : R :=
  let mu := (sum v / INR (length v))%R in
  sqrt (sum (map (λ a, (a - mu) * (a - mu))%R v) / INR (length v - 1)).

(** [np.std(M, ddof=1)] over all entries and [np.std(M, ddof=1, axis=0)]. *)
Definition np_std_all (M : mat) : R := np_std (mjoin M).

Definition np_std0 (nc : nat) (M : mat) : vec :=
  map (λ k, np_std (map (λ row, vget row k) M)) (seq 0 nc).

(** [M - c] and [M / c] for a scalar or a one-dimensional [c]. *)
Definition mat_op (f : R → R → R) (M : mat) (c : vec + R) : res mat :=
  match c with
  | inl v => mapM_res (λ row, bcast f row v) M
  | inr s => Ok (map (map (λ a, f a s)) M)
  end.

Definition set_y_std (d : DataContainer) (y_mean y_sd : vec + R) (y_std : mat)
    : DataContainer :=
  {| dc_x := dc_x d; dc_y := dc_y d; dc_t := dc_t d;
     dc_orig_y_sd := Some y_sd; dc_orig_y_mean := Some y_mean;
     dc_y_std := Some y_std;
     dc_x_trans := dc_x_trans d; dc_t_trans := dc_t_trans d;
     dc_orig_t_min := dc_orig_t_min d; dc_orig_t_max := dc_orig_t_max d;
     dc_orig_x_min := dc_orig_x_min d; dc_orig_x_max := dc_orig_x_max d |}.

(** The part of [SepiaData.standardize_y(center, scale)] that standardizes
    [sim_data] (the whole method when the data are simulation-only); the
    updated container. *)
Definition standardize_y_sim (sim : DataContainer) (center : bool) (scale : scale_arg)
    : res DataContainer :=
  let orig_y_mean : vec + R :=
    if center then inl (mean0 (ncols (dc_y sim)) (dc_y sim)) else inr 0%R in
  y_dm ← mat_op Rminus (dc_y sim) orig_y_mean;
  let orig_y_sd : vec + R :=
    match scale with
    | ScaleScalar => inr (np_std_all y_dm)
    | ScaleColumnwise => inl (np_std0 (ncols y_dm) y_dm)
    | ScaleOther => inr 1%R
    end in
  y_std ← mat_op Rdiv y_dm orig_y_sd;
  Ok (set_y_std sim orig_y_mean orig_y_sd y_std).

(** What [trans] does to an [n × p] array [x] when it is given the column
    minima and maxima of [x] itself: a constant column is kept, any other
    column is mapped into [[a, b]] and reaches both ends. *)
Definition columns_scaled (x xt : mat) (n p : nat) (a b : R) : Prop :=
  shape xt n p ∧
  ∀ j, j < p →
    ((∀ i i', i < n → i' < n → mget x i j = mget x i' j) →
       ∀ i, i < n → mget xt i j = mget x i j)
    ∧ ((∃ i i', i < n ∧ i' < n ∧ mget x i j ≠ mget x i' j) →
       (∀ i, i < n → (a <= mget xt i j <= b)%R)
       ∧ (∃ i, i < n ∧ mget xt i j = a)
       ∧ (∃ i, i < n ∧ mget xt i j = b)).

(** Simulation-only data with three runs of two inputs, the second input
    held fixed, and two outputs. *)
Definition example_container : DataContainer :=
  {| dc_x := [[0; 5]; [2; 5]; [4; 5]]%R;
     dc_y := [[1; 10]; [2; 30]; [3; 20]]%R;
     dc_t := None;
     dc_orig_y_sd := None; dc_orig_y_mean := None; dc_y_std := None;
     dc_x_trans := None; dc_t_trans := None;
     dc_orig_t_min := None; dc_orig_t_max := None;
     dc_orig_x_min := None; dc_orig_x_max := None |}.

Definition example_data : SepiaData :=
  {| sim_data := example_container; obs_data := None; sim_only := true |}.

(** The same simulations with one observation outside their range. *)
Definition example_obs_container : DataContainer :=
  {| dc_x := [[6; 5]]%R;
     dc_y := [[2; 20]]%R;
     dc_t := None;
     dc_orig_y_sd := None; dc_orig_y_mean := None; dc_y_std := None;
     dc_x_trans := None; dc_t_trans := None;
     dc_orig_t_min := None; dc_orig_t_max := None;
     dc_orig_x_min := None; dc_orig_x_max := None |}.

Definition example_data_obs : SepiaData :=
  {| sim_data := example_container; obs_data := Some example_obs_container;
     sim_only := false |}.

(** The entry of a scalar or one-dimensional operand that numpy's
    broadcasting pairs with column [j]. *)
Definition sv_get (c : vec + R) (j : nat) : R :=
  match c with
  | inl v => vget v j
  | inr s => s
  end.

(** What lines 242 and 247 of [component_sens] compute from its arguments:
    the widths [diff = rg[:, 1] - rg[:, 0]] of the ranges and the distance
    object [xdist] of the runs. *)
Definition component_setup
    (SepiaDistCov_new : mat → option mat → list nat → res SepiaDistCov)
    (x rg : mat) (cat_ind : list nat) (diff : vec) (xdist : SepiaDistCov) : Prop :=
  (∃ hi lo, col rg 1 = Ok hi ∧ col rg 0 = Ok lo ∧ bcast Rminus hi lo = Ok diff)
  ∧ SepiaDistCov_new x None cat_ind = Ok xdist.

(** The quantities that [component_sens] computes for the draw [ii] before the
    indices: the parameters [beta[ii, :]], [lamUz[ii]], [lamWs[ii]]; the
    matrix [Q[ii] = P[ii] - outer(My[:, ii], My[:, ii])], where [P[ii]] is the
    inverse of the covariance [S] of the runs and [My[:, ii]] solves
    [S My = y] (lines 265-273); and [c1 = calc1(betaei, diff)],
    [C2 = calc2(x, xdist, m, rg, betaei, diff)] and the rows
    [c3[jj, :] = calc3(x[jj, :], rg, betaei, diff)] (lines 302-306). *)
Definition draw_quantities
    (compute_cov_mat : SepiaDistCov → vec → R → option R → res mat)
    (linalg_inv : mat → res mat) (linalg_solve : mat → vec → res vec)
    (x : mat) (y : vec) (beta : mat) (lamUz lamWs : vec) (rg : mat)
    (diff : vec) (xdist : SepiaDistCov)
    (ii : nat) (betaei : vec) (lamUzi : R) (Q : mat) (c1 : vec) (C2 c3 : mat) : Prop :=
  get_row beta ii = Ok betaei
  ∧ get1 lamUz ii = Ok lamUzi
  ∧ (∃ lamWsi S Si sol P My,
       get1 lamWs ii = Ok lamWsi
       ∧ compute_cov_mat xdist betaei lamUzi (Some lamWsi) = Ok S
       ∧ linalg_inv S = Ok Si ∧ assign_square (length x) Si = Ok P
       ∧ linalg_solve S y = Ok sol ∧ assign_vec (length x) sol = Ok My
       ∧ shape Q (length x) (length x)
       ∧ ∀ i j, i < length x → j < length x →
           mget Q i j = (mget P i j - vget My i * vget My j)%R)
  ∧ calc1 betaei diff = Ok c1
  ∧ calc2 x xdist (length x) rg betaei diff = Ok C2
  ∧ length c3 = length x
  ∧ ∀ jj, jj < length x →
      ∃ xj r, get_row x jj = Ok xj ∧ calc3 xj rg betaei diff = Ok r
        ∧ c3 !! jj = Some (assigned_row (length diff) r).

(** ** [calc1] in binary64 arithmetic

    The numbers of numpy's [float64] with the operations of IEEE 754, taken
    from the Standard Library's [SpecFloat] at precision 53 and maximal
    exponent 1024. *)
Definition b64 : Type := spec_float.
Definition b64_mul : b64 → b64 → b64 := SFmul 53 1024.
Definition b64_div : b64 → b64 → b64 := SFdiv 53 1024.
Definition b64_sub : b64 → b64 → b64 := SFsub 53 1024.
Definition b64_sqrt : b64 → b64 := SFsqrt 53 1024.

(** [1.0], [2.0] and [np.pi = 0x400921FB54442D18]. *)
Definition b64_one : b64 := S754_finite false 4503599627370496 (-52).
Definition b64_two : b64 := S754_finite false 4503599627370496 (-51).
Definition b64_pi : b64 := S754_finite false 7074237752028440 (-51).

(** Neither an infinity nor a NaN. *)
Definition b64_is_finite (x : b64) : bool :=
  match x with
  | S754_zero _ | S754_finite _ _ _ => true
  | S754_infinity _ | S754_nan => false
  end.

(** One entry of [calc1(beta, diff)] as numpy evaluates it on [float64]
    values; [cdf] and [pdf] stand for [scipy.stats.norm.cdf] and
    [scipy.stats.norm.pdf]. *)
Definition calc1_binary64 (cdf pdf : b64 → b64) (beta diff : b64) : b64 :=
  let ncdf := cdf (b64_mul (b64_sqrt (b64_mul b64_two beta)) diff) in
  let npdf := pdf (b64_mul (b64_sqrt (b64_mul b64_two beta)) diff) in
  b64_div
    (b64_sub
       (b64_mul (b64_mul (b64_sqrt (b64_div b64_pi beta)) diff)
                (b64_sub (b64_mul b64_two ncdf) b64_one))
       (b64_mul (b64_div b64_one beta)
                (b64_sub b64_one (b64_mul (b64_sqrt (b64_mul b64_two b64_pi)) npdf))))
    (b64_mul diff diff).

(** The positive number [2^-1030], about [8.7e-311]. *)
Definition b64_tiny : b64 := S754_finite false 17592186044416 (-1074).

(** * Properties *)

(** ** The result monad and loops *)

Lemma bind_Ok {A B : Type} (f : A → res B) (a : A) : (Ok a ≫= f) = f a.
Proof. reflexivity. Qed.

Lemma bind_Raise {A B : Type} (f : A → res B) (e : exn) : (Raise e ≫= f) = Raise e.
Proof. reflexivity. Qed.

(** Invariant rule for a [for] loop over consecutive indices. *)
Lemma for_each_inv {S : Type} (I : nat → S → Prop) (body : nat → S → res S)
    (n lo : nat) (s : S) :
  I lo s →
  (∀ i s, lo ≤ i < lo + n → I i s → ∃ s', body i s = Ok s' ∧ I (Datatypes.S i) s') →
  ∃ s', for_each (seq lo n) body s = Ok s' ∧ I (lo + n) s'.
Proof.
  revert lo s. induction n as [|n IH]; intros lo s H0 Hstep; simpl.
  - exists s. by rewrite Nat.add_0_r.
  - destruct (Hstep lo s) as (s1 & Hb & H1); [lia|done|].
    rewrite Hb, bind_Ok.
    destruct (IH (Datatypes.S lo) s1) as (s2 & Hf & H2); [done| |].
    + intros i t Hi. apply Hstep. lia.
    + exists s2. split; [done|]. by replace (lo + Datatypes.S n) with (Datatypes.S lo + n) by lia.
Qed.

Lemma range_inv {S : Type} (I : nat → S → Prop) (body : nat → S → res S)
    (lo hi : nat) (s : S) :
  lo ≤ hi →
  I lo s →
  (∀ i s, lo ≤ i < hi → I i s → ∃ s', body i s = Ok s' ∧ I (Datatypes.S i) s') →
  ∃ s', for_each (range lo hi) body s = Ok s' ∧ I hi s'.
Proof.
  intros Hle H0 Hstep. unfold range.
  destruct (for_each_inv I body (hi - lo) lo s) as (s' & Hf & Hs); [done| |].
  - intros i t Hi. apply Hstep. lia.
  - exists s'. split; [done|]. by replace hi with (lo + (hi - lo)) by lia.
Qed.

(** The same rule for a loop that is only known to have returned. *)
Lemma for_each_ok {S : Type} (I : nat → S → Prop) (body : nat → S → res S)
    (n lo : nat) (s s' : S) :
  for_each (seq lo n) body s = Ok s' →
  I lo s →
  (∀ i t t', lo ≤ i < lo + n → I i t → body i t = Ok t' → I (Datatypes.S i) t') →
  I (lo + n) s'.
Proof.
  revert lo s. induction n as [|n IH]; intros lo s Hrun H0 Hstep; simpl in Hrun.
  - inversion Hrun; subst. by rewrite Nat.add_0_r.
  - destruct (body lo s) as [s1|e] eqn:Hb; simpl in Hrun; [|done].
    replace (lo + Datatypes.S n) with (Datatypes.S lo + n) by lia.
    apply (IH (Datatypes.S lo) s1 Hrun).
    + apply (Hstep lo s s1); [lia|done|done].
    + intros i t t' Hi. apply Hstep. lia.
Qed.

Lemma range_ok {S : Type} (I : nat → S → Prop) (body : nat → S → res S)
    (lo hi : nat) (s s' : S) :
  lo ≤ hi →
  for_each (range lo hi) body s = Ok s' →
  I lo s →
  (∀ i t t', lo ≤ i < hi → I i t → body i t = Ok t' → I (Datatypes.S i) t') →
  I hi s'.
Proof.
  intros Hle Hrun H0 Hstep. unfold range in Hrun.
  replace hi with (lo + (hi - lo)) by lia.
  apply (for_each_ok I body (hi - lo) lo s s' Hrun H0).
  intros i t t' Hi. apply Hstep. lia.
Qed.

Lemma bind_Ok_inv {A B : Type} (f : A → res B) (r : res A) (b : B) :
  (r ≫= f) = Ok b → ∃ a, r = Ok a ∧ f a = Ok b.
Proof. destruct r as [a|e]; simpl; [eauto|done]. Qed.

(** ** Arrays *)

Lemma shape_zeros2 (r c : nat) : shape (zeros2 r c) r c.
Proof.
  split.
  - unfold zeros2. by rewrite length_replicate.
  - unfold zeros2, zeros. apply Forall_replicate. by rewrite length_replicate.
Qed.

Lemma shape_row (M : mat) (r c i : nat) (row : vec) :
  shape M r c → M !! i = Some row → length row = c.
Proof.
  intros [_ HF] Hi. rewrite Forall_lookup in HF. by apply (HF i).
Qed.

Lemma mget_zeros2 (r c i j : nat) : mget (zeros2 r c) i j = 0%R.
Proof.
  unfold mget, zeros2, zeros.
  destruct (decide (i < r)) as [Hi|Hi].
  - rewrite lookup_replicate_2 by done. simpl.
    destruct (decide (j < c)) as [Hj|Hj].
    + by rewrite lookup_replicate_2.
    + rewrite lookup_ge_None_2; [done|]. rewrite length_replicate. lia.
  - rewrite lookup_ge_None_2; [done|]. rewrite length_replicate. lia.
Qed.

Lemma get1_vget (v : vec) (i : nat) : i < length v → get1 v i = Ok (vget v i).
Proof.
  intros Hi. unfold get1, vget.
  destruct (lookup_lt_is_Some_2 v i Hi) as [x Hx]. by rewrite Hx.
Qed.

Lemma get2_mget (M : mat) (r c i j : nat) :
  shape M r c → i < r → j < c → get2 M i j = Ok (mget M i j).
Proof.
  intros HM Hi Hj. unfold get2, get_row, mget.
  destruct HM as [Hlen HF].
  destruct (lookup_lt_is_Some_2 M i) as [row Hrow]; [lia|].
  rewrite Hrow. simpl.
  assert (length row = c) as Hc by (rewrite Forall_lookup in HF; by apply (HF i)).
  unfold get1. destruct (lookup_lt_is_Some_2 row j) as [x Hx]; [lia|].
  by rewrite Hx.
Qed.

(** In-range writes succeed, keep the shape and change one cell. *)
Lemma set2_spec (M : mat) (r c i j : nat) (x : R) :
  shape M r c → i < r → j < c →
  ∃ M', set2 M i j x = Ok M' ∧ shape M' r c
        ∧ ∀ i' j', mget M' i' j' = if decide (i' = i ∧ j' = j) then x else mget M i' j'.
Proof.
  intros HM Hi Hj. pose proof HM as [Hlen HF]. unfold set2.
  destruct (lookup_lt_is_Some_2 M i) as [row Hrow]; [lia|].
  rewrite Hrow.
  assert (length row = c) as Hc by (by eapply shape_row).
  rewrite decide_True by lia.
  eexists. split; [done|]. split.
  - split.
    + by rewrite length_insert.
    + apply Forall_insert; [done|]. by rewrite length_insert.
  - intros i' j'. unfold mget.
    destruct (decide (i' = i)) as [->|Hne].
    + rewrite list_lookup_insert_eq by lia. simpl.
      destruct (decide (j' = j)) as [->|Hnj].
      * rewrite list_lookup_insert_eq by lia. by rewrite decide_True.
      * rewrite list_lookup_insert_ne by done. rewrite decide_False by tauto.
        by rewrite Hrow.
    + rewrite list_lookup_insert_ne by done. by rewrite decide_False by tauto.
Qed.

Lemma take_idx_ok (row : vec) (idx : list nat) :
  Forall (λ d, d < length row) idx → take_idx row idx = Ok (map (vget row) idx).
Proof.
  unfold take_idx. induction 1 as [|d idx Hd _ IH]; simpl; [done|].
  rewrite get1_vget by done. rewrite bind_Ok, IH. done.
Qed.

Lemma C2_prod_row (C2 : mat) (k : nat) (row : vec) (Js : list nat) :
  C2 !! k = Some row → prod (map (vget row) Js) = C2_prod C2 k Js.
Proof.
  intros Hk. unfold C2_prod. f_equal. apply map_ext. intros d.
  unfold mget, vget. by rewrite Hk.
Qed.

(** ** Triangular row numbers *)

Lemma pairs_before_closed (m i : nat) :
  i ≤ m → 2 * pairs_before m i + i * (i + 1) = 2 * i * m.
Proof.
  induction i as [|i IH]; intros Hi; simpl; [lia|].
  specialize (IH ltac:(lia)). nia.
Qed.

Lemma pairs_before_mono (m i i' : nat) : i ≤ i' → pairs_before m i ≤ pairs_before m i'.
Proof. induction 1; simpl; lia. Qed.

Lemma pairs_before_all (m : nat) : pairs_before m (m - 1) = pairs_before m m.
Proof.
  destruct m as [|m]; [done|]. simpl. rewrite Nat.sub_0_r. lia.
Qed.

Lemma pairs_total (m : nat) : m * (m - 1) / 2 = pairs_before m m.
Proof.
  pose proof (pairs_before_closed m m ltac:(lia)) as H.
  symmetry. apply (Nat.div_unique _ 2 _ 0); [lia|]. nia.
Qed.

Lemma table_rows (m : nat) : m * (m + 1) / 2 + m = pairs_before m m + 2 * m.
Proof.
  pose proof (pairs_before_closed m m ltac:(lia)) as H.
  assert (m * (m + 1) / 2 = pairs_before m m + m) as ->; [|lia].
  symmetry. apply (Nat.div_unique _ 2 _ 0); [lia|]. nia.
Qed.

Lemma pair_row_lt (m i j : nat) : i < j < m → pair_row m i j < pairs_before m m.
Proof.
  intros Hij. unfold pair_row.
  pose proof (pairs_before_mono m (S i) m ltac:(lia)) as H. simpl in H. lia.
Qed.

Lemma diag_row_eq (m i : nat) : diag_row m i = pairs_before m m + 1 + i.
Proof. unfold diag_row. by rewrite pairs_total. Qed.

Lemma ncols_square (M : mat) (m : nat) : shape M m m → ncols M = m.
Proof.
  intros [Hlen HF]. unfold ncols. destruct M as [|row M]; simpl in *; [done|].
  by inversion HF.
Qed.

Lemma ncols_shape (M : mat) (r c : nat) : shape M r c → 0 < r → ncols M = c.
Proof.
  intros [Hlen HF] Hr. unfold ncols. destruct M as [|row M]; simpl in *; [lia|].
  by inversion HF.
Qed.

Lemma mget_transpose_rect (M : mat) (r c i j : nat) :
  shape M r c → ncols M = c → i < c → j < r → mget (transpose M) i j = mget M j i.
Proof.
  intros HM Hnc Hi Hj. unfold transpose, mget. rewrite Hnc.
  rewrite list_lookup_fmap, lookup_seq_lt by done. simpl.
  rewrite list_lookup_fmap.
  destruct HM as [Hlen _].
  destruct (lookup_lt_is_Some_2 M j) as [row Hrow]; [lia|].
  by rewrite Hrow.
Qed.

Lemma shape_transpose_rect (M : mat) (r c : nat) :
  shape M r c → ncols M = c → shape (transpose M) c r.
Proof.
  intros HM Hnc. unfold transpose. rewrite Hnc. destruct HM as [Hlen _].
  split.
  - by rewrite length_fmap, length_seq.
  - apply Forall_fmap, Forall_forall. intros j _. simpl. by rewrite length_fmap.
Qed.

Lemma mget_transpose (M : mat) (m i j : nat) :
  shape M m m → i < m → j < m → mget (transpose M) i j = mget M j i.
Proof. intros HM. apply (mget_transpose_rect M m m); [done|by apply ncols_square]. Qed.

Lemma shape_transpose (M : mat) (m : nat) : shape M m m → shape (transpose M) m m.
Proof. intros HM. apply shape_transpose_rect; [done|by apply ncols_square]. Qed.

Lemma shape_lookup (M : mat) (r c i j : nat) :
  shape M r c → i < r → j < c →
  ∃ row x, M !! i = Some row ∧ row !! j = Some x ∧ mget M i j = x.
Proof.
  intros HM Hi Hj. pose proof HM as [Hlen _].
  destruct (lookup_lt_is_Some_2 M i) as [row Hrow]; [lia|].
  pose proof (shape_row M r c i row HM Hrow) as Hc.
  destruct (lookup_lt_is_Some_2 row j) as [x Hx]; [lia|].
  exists row, x. split; [done|]. split; [done|].
  unfold mget. rewrite Hrow. simpl. by rewrite Hx.
Qed.

(** [Vf + Vf.T] on a square matrix. *)
Lemma ewise_plus_transpose (V : mat) (m : nat) :
  shape V m m →
  ∃ W, ewise Rplus V (transpose V) = Ok W ∧ shape W m m
       ∧ ∀ i j, i < m → j < m → mget W i j = (mget V i j + mget V j i)%R.
Proof.
  intros HV. pose proof (shape_transpose V m HV) as HT.
  pose proof HV as [HlV HFV]. pose proof HT as [HlT HFT].
  unfold ewise. rewrite decide_True.
  2:{ split; [lia|]. apply Forall2_same_length_lookup_2; [lia|].
      intros i a b Ha Hb.
      rewrite (shape_row V m m i a HV Ha). by rewrite (shape_row _ m m i b HT Hb). }
  eexists. split; [done|]. split.
  - split.
    + rewrite length_zip_with. lia.
    + apply Forall_lookup. intros i row Hrow.
      rewrite lookup_zip_with in Hrow.
      destruct (V !! i) as [a|] eqn:Ha; simpl in Hrow; [|done].
      destruct (transpose V !! i) as [b|] eqn:Hb; simpl in Hrow; [|done].
      inversion Hrow; subst row. rewrite length_zip_with.
      rewrite (shape_row V m m i a HV Ha), (shape_row _ m m i b HT Hb). lia.
  - intros i j Hi Hj.
    destruct (shape_lookup V m m i j HV Hi Hj) as (a & x & Ha & Hx & Gx).
    destruct (shape_lookup _ m m i j HT Hi Hj) as (b & y & Hb & Hy & Gy).
    rewrite <- (mget_transpose V m i j HV Hi Hj), Gx, Gy.
    unfold mget. rewrite lookup_zip_with, Ha, Hb. simpl.
    by rewrite lookup_zip_with, Hx, Hy.
Qed.

(** ** The loops of [varf] *)

Section VarfLoops.
Context (m p : nat) (Js : list nat) (C2 : mat) (ef : vec).
Local Open Scope R_scope.

Let ll := setxor1d (arange p) Js.

Hypothesis C2_rows : length C2 = (m * (m + 1) / 2 + m)%nat.
Hypothesis C2_cols : Forall (λ row : vec, Forall (λ d, (d < length row)%nat) Js) C2.
Hypothesis ef_len : setxor1d (arange p) Js ≠ [] → length ef = m.

Lemma C2_row_Js (k : nat) :
  (k < pairs_before m m + 2 * m)%nat →
  ∃ row, C2 !! k = Some row ∧ Forall (λ d, (d < length row)%nat) Js.
Proof.
  intros Hk. destruct (lookup_lt_is_Some_2 C2 k) as [row Hrow].
  - rewrite C2_rows, table_rows. lia.
  - exists row. split; [done|]. rewrite Forall_lookup in C2_cols. by apply (C2_cols k).
Qed.

Lemma varf_cell_spec (Vf : mat) (kk ii jj : nat) :
  shape Vf m m → (ii < m)%nat → (jj < m)%nat → (kk < pairs_before m m + 2 * m)%nat →
  ∃ Vf', varf_cell Js ll C2 ef ii jj (kk, Vf) = Ok ((kk + 1)%nat, Vf') ∧ shape Vf' m m
    ∧ ∀ i' j', mget Vf' i' j' =
        if decide (i' = ii ∧ j' = jj) then C2_prod C2 kk Js * ef_factor p Js ef ii jj
        else mget Vf i' j'.
Proof.
  intros HV Hii Hjj Hkk. unfold varf_cell.
  destruct (set2_spec Vf m m ii jj 1 HV Hii Hjj) as (V1 & -> & HV1 & G1).
  rewrite bind_Ok.
  destruct (C2_row_Js kk Hkk) as (row & Hrow & HJs).
  assert (∃ V2, (if decide (length Js ≠ 0%nat)
                 then row ← get_row C2 kk; vals ← take_idx row Js; set2 V1 ii jj (prod vals)
                 else Ok V1) = Ok V2 ∧ shape V2 m m
            ∧ ∀ i' j', mget V2 i' j' =
                if decide (i' = ii ∧ j' = jj) then C2_prod C2 kk Js else mget Vf i' j')
    as (V2 & -> & HV2 & G2).
  { destruct (decide (length Js ≠ 0%nat)) as [HJ|HJ].
    - unfold get_row. rewrite Hrow, bind_Ok, take_idx_ok, bind_Ok by done.
      destruct (set2_spec V1 m m ii jj (prod (map (vget row) Js)) HV1 Hii Hjj)
        as (V2 & -> & HV2 & G2).
      exists V2. split; [done|]. split; [done|].
      intros i' j'. rewrite G2, G1. case_decide; [|done]. by apply C2_prod_row.
    - exists V1. split; [done|]. split; [done|].
      intros i' j'. rewrite G1. case_decide; [|done].
      assert (Js = []) as -> by (destruct Js; [done|simpl in HJ; lia]).
      unfold C2_prod. simpl. done. }
  rewrite bind_Ok. unfold ef_factor. fold ll.
  destruct (decide (length ll ≠ 0%nat)) as [HL|HL].
  - assert (ll ≠ []) as Hne by (intros E; rewrite E in HL; simpl in HL; lia).
    rewrite (get2_mget V2 m m) by done. rewrite bind_Ok.
    rewrite !get1_vget by (rewrite ef_len; done). rewrite !bind_Ok.
    destruct (set2_spec V2 m m ii jj (mget V2 ii jj * vget ef ii * vget ef jj) HV2 Hii Hjj)
      as (V3 & -> & HV3 & G3).
    rewrite bind_Ok. exists V3. split; [done|]. split; [done|].
    intros i' j'. rewrite G3. case_decide.
    + rewrite G2, decide_True by done. rewrite decide_False by done. ring.
    + rewrite G2. by rewrite decide_False.
  - assert (ll = []) as Hnil by (destruct ll; [done|simpl in HL; lia]).
    rewrite bind_Ok. exists V2. split; [done|]. split; [done|].
    intros i' j'. rewrite G2. case_decide; [|done].
    rewrite decide_True by done. ring.
Qed.

(** The value that [varf] leaves in the off-diagonal cell [(i, j)], [i < j]. *)
Let cell_value (i j : nat) : R :=
  C2_prod C2 (pair_row m i j) Js * ef_factor p Js ef i j.

Lemma varf_inner_loop (V0 : mat) (ii : nat) :
  shape V0 m m → (ii < m)%nat →
  ∃ V1, for_each (range (ii + 1) m) (varf_cell Js ll C2 ef ii) (pairs_before m ii, V0)
          = Ok (pairs_before m (S ii), V1)
    ∧ shape V1 m m
    ∧ ∀ i j, mget V1 i j =
        if decide (i = ii ∧ (ii < j < m)%nat) then cell_value ii j else mget V0 i j.
Proof.
  intros HV Hii.
  destruct (range_inv
    (λ jj (st : nat * mat),
       st.1 = (pairs_before m ii + (jj - ii - 1))%nat ∧ shape st.2 m m
       ∧ ∀ i j, mget st.2 i j =
           if decide (i = ii ∧ (ii < j < jj)%nat) then cell_value ii j else mget V0 i j)
    (varf_cell Js ll C2 ef ii) (ii + 1) m (pairs_before m ii, V0))
    as ([kk V1] & Hrun & Hk & HV1 & G1).
  - lia.
  - cbn [fst snd]. split; [lia|]. split; [done|].
    intros i j. rewrite decide_False; [done|lia].
  - intros jj [kk V] Hjj (Hk & HVs & G). simpl in Hk, HVs, G. subst kk.
    assert (pairs_before m ii + (jj - ii - 1) = pair_row m ii jj)%nat as Hrow by done.
    destruct (varf_cell_spec V (pairs_before m ii + (jj - ii - 1)) ii jj)
      as (V' & Hcell & HV' & G'); [done|lia|lia| |].
    { rewrite Hrow. pose proof (pair_row_lt m ii jj). lia. }
    eexists. split; [exact Hcell|]. simpl. split; [lia|]. split; [done|].
    intros i j. rewrite G', G.
    destruct (decide (i = ii ∧ j = jj)) as [[-> ->]|Hne].
    + rewrite decide_True by lia. unfold cell_value. by rewrite Hrow.
    + destruct (decide (i = ii ∧ (ii < j < jj)%nat)) as [Hin|Hout].
      * rewrite decide_True by lia. done.
      * rewrite decide_False; [done|]. lia.
  - simpl in Hk, HV1, G1. subst kk.
    exists V1. split.
    + rewrite Hrun. do 2 f_equal. simpl. lia.
    + split; [done|]. exact G1.
Qed.

Lemma varf_pair_loop :
  ∃ U, for_each (range 0 (m - 1))
         (λ ii, for_each (range (ii + 1) m) (varf_cell Js ll C2 ef ii)) (0%nat, zeros2 m m)
         = Ok (pairs_before m m, U)
    ∧ shape U m m
    ∧ ∀ i j, mget U i j = if decide (i < j < m)%nat then cell_value i j else 0.
Proof.
  destruct (range_inv
    (λ ii (st : nat * mat),
       st.1 = pairs_before m ii ∧ shape st.2 m m
       ∧ ∀ i j, mget st.2 i j =
           if decide ((i < ii)%nat ∧ (i < j < m)%nat) then cell_value i j else 0)
    (λ ii, for_each (range (ii + 1) m) (varf_cell Js ll C2 ef ii))
    0 (m - 1) (0%nat, zeros2 m m))
    as ([kk U] & Hrun & Hk & HU & G).
  - lia.
  - cbn [fst snd]. split; [done|]. split; [apply shape_zeros2|].
    intros i j. rewrite mget_zeros2, decide_False; [done|lia].
  - intros ii [kk V] Hii (Hk & HVs & G). simpl in Hk, HVs, G. subst kk.
    destruct (varf_inner_loop V ii HVs ltac:(lia)) as (V1 & Hrun & HV1 & G1).
    eexists. split; [exact Hrun|]. simpl. split; [done|]. split; [done|].
    intros i j. rewrite G1, G.
    destruct (decide (i = ii ∧ (ii < j < m)%nat)) as [[-> Hj]|Hne].
    + rewrite decide_True by lia. done.
    + destruct (decide ((i < ii)%nat ∧ (i < j < m)%nat)) as [Hin|Hout].
      * rewrite decide_True by lia. done.
      * rewrite decide_False; [done|]. lia.
  - simpl in Hk, HU, G. subst kk. exists U. split.
    + rewrite Hrun. by rewrite pairs_before_all.
    + split; [done|]. intros i j. rewrite G.
      destruct (decide (i < j < m)%nat) as [Hin|Hout].
      * rewrite decide_True by lia. done.
      * rewrite decide_False; [done|]. lia.
Qed.

Lemma varf_diag_spec (Vf : mat) (kk ii : nat) :
  shape Vf m m → (ii < m)%nat → (kk + 1 < pairs_before m m + 2 * m)%nat →
  ∃ Vf', varf_diag Js ll C2 ef ii (kk, Vf) = Ok ((kk + 1)%nat, Vf') ∧ shape Vf' m m
    ∧ ∀ i' j', mget Vf' i' j' =
        if decide (i' = ii ∧ j' = ii) then C2_prod C2 (kk + 1) Js * ef_factor p Js ef ii ii
        else mget Vf i' j'.
Proof.
  intros HV Hii Hkk. unfold varf_diag.
  destruct (set2_spec Vf m m ii ii 1 HV Hii Hii) as (V1 & -> & HV1 & G1).
  rewrite bind_Ok.
  destruct (C2_row_Js (kk + 1) Hkk) as (row & Hrow & HJs).
  assert (∃ V2, (if decide (length Js ≠ 0%nat)
                 then row ← get_row C2 (kk + 1); vals ← take_idx row Js;
                      set2 V1 ii ii (prod vals)
                 else Ok V1) = Ok V2 ∧ shape V2 m m
            ∧ ∀ i' j', mget V2 i' j' =
                if decide (i' = ii ∧ j' = ii) then C2_prod C2 (kk + 1) Js else mget Vf i' j')
    as (V2 & -> & HV2 & G2).
  { destruct (decide (length Js ≠ 0%nat)) as [HJ|HJ].
    - unfold get_row. rewrite Hrow, bind_Ok, take_idx_ok, bind_Ok by done.
      destruct (set2_spec V1 m m ii ii (prod (map (vget row) Js)) HV1 Hii Hii)
        as (V2 & -> & HV2 & G2).
      exists V2. split; [done|]. split; [done|].
      intros i' j'. rewrite G2, G1. case_decide; [|done]. by apply C2_prod_row.
    - exists V1. split; [done|]. split; [done|].
      intros i' j'. rewrite G1. case_decide; [|done].
      assert (Js = []) as -> by (destruct Js; [done|simpl in HJ; lia]).
      unfold C2_prod. simpl. done. }
  rewrite bind_Ok. unfold ef_factor. fold ll.
  destruct (decide (length ll ≠ 0%nat)) as [HL|HL].
  - assert (ll ≠ []) as Hne by (intros E; rewrite E in HL; simpl in HL; lia).
    rewrite (get2_mget V2 m m) by done. rewrite bind_Ok.
    rewrite !get1_vget by (rewrite ef_len; done). rewrite !bind_Ok.
    destruct (set2_spec V2 m m ii ii (mget V2 ii ii * (vget ef ii * vget ef ii)) HV2 Hii Hii)
      as (V3 & -> & HV3 & G3).
    rewrite bind_Ok. exists V3. split; [done|]. split; [done|].
    intros i' j'. rewrite G3. case_decide.
    + rewrite G2, decide_True by done. rewrite decide_False by done. ring.
    + rewrite G2. by rewrite decide_False.
  - assert (ll = []) as Hnil by (destruct ll; [done|simpl in HL; lia]).
    rewrite bind_Ok. exists V2. split; [done|]. split; [done|].
    intros i' j'. rewrite G2. case_decide; [|done].
    rewrite decide_True by done. ring.
Qed.

Lemma varf_diag_loop (W : mat) :
  shape W m m →
  ∃ kk Vf, for_each (range 0 m) (varf_diag Js ll C2 ef) (pairs_before m m, W) = Ok (kk, Vf)
    ∧ shape Vf m m
    ∧ ∀ i j, mget Vf i j =
        if decide (i = j ∧ (i < m)%nat)
        then C2_prod C2 (diag_row m i) Js * ef_factor p Js ef i i
        else mget W i j.
Proof.
  intros HW.
  destruct (range_inv
    (λ ii (st : nat * mat),
       st.1 = (pairs_before m m + ii)%nat ∧ shape st.2 m m
       ∧ ∀ i j, mget st.2 i j =
           if decide (i = j ∧ (i < ii)%nat)
           then C2_prod C2 (diag_row m i) Js * ef_factor p Js ef i i
           else mget W i j)
    (varf_diag Js ll C2 ef) 0 m (pairs_before m m, W))
    as ([kk Vf] & Hrun & Hk & HVf & G).
  - lia.
  - cbn [fst snd]. split; [lia|]. split; [done|].
    intros i j. rewrite decide_False; [done|lia].
  - intros ii [kk V] Hii (Hk & HVs & G). cbn [fst snd] in Hk, HVs, G. subst kk.
    destruct (varf_diag_spec V (pairs_before m m + ii) ii HVs ltac:(lia) ltac:(lia))
      as (V' & Hcell & HV' & G').
    eexists. split; [exact Hcell|]. cbn [fst snd]. split; [lia|]. split; [done|].
    intros i j. rewrite G', G.
    assert (pairs_before m m + ii + 1 = diag_row m ii)%nat as ->
      by (rewrite diag_row_eq; lia).
    destruct (decide (i = ii ∧ j = ii)) as [[-> ->]|Hne].
    + rewrite decide_True by lia. done.
    + destruct (decide (i = j ∧ (i < ii)%nat)) as [Hin|Hout].
      * rewrite decide_True by lia. done.
      * rewrite decide_False; [done|]. lia.
  - cbn [fst snd] in Hk, HVf, G. exists kk, Vf. split; [done|]. split; [done|]. exact G.
Qed.

(** [varf] returns on every well-shaped input, and its entries are those of
    [varf_entry]. *)
Lemma varf_run :
  ∃ Vf, varf m p Js C2 ef = Ok Vf ∧ shape Vf m m
    ∧ ∀ i j, (i < m)%nat → (j < m)%nat → mget Vf i j = varf_entry m p Js C2 ef i j.
Proof.
  unfold varf. fold ll.
  destruct varf_pair_loop as (U & -> & HU & GU). rewrite bind_Ok.
  destruct (ewise_plus_transpose U m HU) as (W & -> & HW & GW). rewrite bind_Ok.
  destruct (varf_diag_loop W HW) as (kk & Vf & -> & HVf & GV). rewrite bind_Ok.
  exists Vf. split; [done|]. split; [done|].
  intros i j Hi Hj. rewrite GV. unfold varf_entry.
  destruct (decide (i = j)) as [->|Hne].
  - rewrite decide_True by lia. done.
  - rewrite decide_False by lia. rewrite GW, !GU by done. unfold cell_value.
    destruct (decide (i < j)%nat) as [Hlt|Hge].
    + rewrite decide_True, decide_False by lia.
      rewrite Nat.min_l, Nat.max_r by lia. ring.
    + rewrite decide_False, decide_True by lia.
      rewrite Nat.min_r, Nat.max_l by lia. unfold ef_factor. case_decide; ring.
Qed.

End VarfLoops.

(** ** The loops of [calc2] *)

Lemma set_row_Ok (M M' : mat) (k : nat) (row : vec) :
  set_row M k row = Ok M' →
  ∃ old, M !! k = Some old ∧ M' = <[k := assigned_row (length old) row]> M.
Proof.
  unfold set_row, assigned_row. destruct (M !! k) as [old|] eqn:Hk; [|done].
  intros H. exists old. split; [done|].
  destruct (decide (length row = length old)); [by inversion H|].
  destruct row as [|x [|y row]]; [done| |done]. by inversion H.
Qed.

Section Calc2Loops.
Context (x : mat) (xdist : SepiaDistCov) (m : nat) (rg : mat) (beta diff : vec).
Context (C0 : mat).

(** Row [k] of [C] holds the value assigned from [row]. *)
Let holds (C : mat) (k : nat) (row : vec) : Prop :=
  ∃ old, C0 !! k = Some old ∧ C !! k = Some (assigned_row (length old) row).

Let diag_value (i : nat) : res vec :=
  xi ← get_row x i; calc3 xi rg (map (Rmult 2%R) beta) diff.

Lemma calc2_inner_loop (Cs C1 : mat) (ii kk : nat) :
  ii < m →
  (∀ k, pairs_before m ii ≤ k → Cs !! k = C0 !! k) →
  for_each (range (ii + 1) m) (λ jj '(kk, C2),
      row ← calc2_pair x xdist rg beta diff ii jj;
      C2 ← set_row C2 kk row;
      Ok (kk + 1, C2)) (pairs_before m ii, Cs) = Ok (kk, C1) →
  kk = pairs_before m (S ii)
  ∧ (∀ j, ii < j < m →
       ∃ row, calc2_pair x xdist rg beta diff ii j = Ok row ∧ holds C1 (pair_row m ii j) row)
  ∧ (∀ k, ¬ (pairs_before m ii ≤ k < pairs_before m (S ii)) → C1 !! k = Cs !! k).
Proof.
  intros Hii Hfresh Hrun.
  pose proof (range_ok
    (λ jj (st : nat * mat),
       st.1 = pairs_before m ii + (jj - ii - 1)
       ∧ (∀ j, ii < j < jj →
            ∃ row, calc2_pair x xdist rg beta diff ii j = Ok row
                   ∧ holds st.2 (pair_row m ii j) row)
       ∧ (∀ k, ¬ (pairs_before m ii ≤ k < st.1) → st.2 !! k = Cs !! k))
    _ (ii + 1) m _ _ ltac:(lia) Hrun) as Hinv.
  cbn [fst snd] in Hinv.
  destruct Hinv as (Hk & Hw & Hf).
  - split; [lia|]. split; [intros j Hj; lia|done].
  - intros jj [k C] [k' C'] Hjj (Hk & Hw & Hf) Hbody. cbn [fst snd] in *. subst k.
    apply bind_Ok_inv in Hbody as (row & Hrow & Hbody).
    apply bind_Ok_inv in Hbody as (C'' & Hset & Hbody).
    inversion Hbody; subst k' C''. clear Hbody.
    apply set_row_Ok in Hset as (old & Hold & ->).
    assert (pairs_before m ii + (jj - ii - 1) = pair_row m ii jj) as Hpr by done.
    split; [lia|]. split.
    + intros j Hj. destruct (decide (j = jj)) as [->|Hne].
      * exists row. split; [done|]. exists old. split.
        -- rewrite <- Hfresh by (unfold pair_row; lia). rewrite <- Hf by lia.
           by rewrite <- Hpr.
        -- rewrite <- Hpr. rewrite list_lookup_insert_eq; [done|].
           by apply lookup_lt_Some in Hold.
      * destruct (Hw j ltac:(lia)) as (r & Hr & old' & Ho & Hc).
        exists r. split; [done|]. exists old'. split; [done|].
        rewrite list_lookup_insert_ne; [done|]. unfold pair_row. lia.
    + intros k Hnk. rewrite list_lookup_insert_ne by lia. apply Hf. lia.
  - split; [simpl; lia|]. split; [done|].
    intros k Hnk. apply Hf. simpl in Hnk. lia.
Qed.

Lemma calc2_pair_loop (kk : nat) (C1 : mat) :
  for_each (range 0 m) (λ ii,
      for_each (range (ii + 1) m) (λ jj '(kk, C2),
        row ← calc2_pair x xdist rg beta diff ii jj;
        C2 ← set_row C2 kk row;
        Ok (kk + 1, C2))) (0, C0) = Ok (kk, C1) →
  kk = pairs_before m m
  ∧ (∀ i j, i < j < m →
       ∃ row, calc2_pair x xdist rg beta diff i j = Ok row ∧ holds C1 (pair_row m i j) row)
  ∧ (∀ k, pairs_before m m ≤ k → C1 !! k = C0 !! k).
Proof.
  intros Hrun.
  pose proof (range_ok
    (λ ii (st : nat * mat),
       st.1 = pairs_before m ii
       ∧ (∀ i j, i < ii → i < j < m →
            ∃ row, calc2_pair x xdist rg beta diff i j = Ok row
                   ∧ holds st.2 (pair_row m i j) row)
       ∧ (∀ k, pairs_before m ii ≤ k → st.2 !! k = C0 !! k))
    _ 0 m _ _ ltac:(lia) Hrun) as Hinv.
  cbn [fst snd] in Hinv.
  destruct Hinv as (Hk & Hw & Hf).
  - split; [done|]. split; [intros i j Hi; lia|done].
  - intros ii [k C] [k' C'] Hii (Hk & Hw & Hf) Hbody. cbn [fst snd] in *. subst k.
    destruct (calc2_inner_loop C C' ii k' ltac:(lia) Hf Hbody) as (-> & Hw' & Hf').
    split; [done|]. split.
    + intros i j Hi Hj. destruct (decide (i = ii)) as [->|Hne].
      * by apply Hw'.
      * destruct (Hw i j ltac:(lia) Hj) as (r & Hr & old & Ho & Hc).
        exists r. split; [done|]. exists old. split; [done|].
        rewrite Hf'; [done|].
        pose proof (pairs_before_mono m (S i) ii ltac:(lia)) as Hm. simpl in Hm.
        unfold pair_row. lia.
    + intros k Hnk. simpl in Hnk. rewrite Hf' by (simpl; lia). apply Hf. lia.
  - split; [done|]. split; [|done]. intros i j Hj. apply Hw; lia.
Qed.

Lemma calc2_diag_loop (C1 C2 : mat) (kk : nat) :
  (∀ k, pairs_before m m ≤ k → C1 !! k = C0 !! k) →
  for_each (range 0 m) (λ ii '(kk, C2),
      let kk := kk + 1 in
      xi ← get_row x ii;
      row ← calc3 xi rg (map (Rmult 2%R) beta) diff;
      C2 ← set_row C2 kk row;
      Ok (kk, C2)) (pairs_before m m, C1) = Ok (kk, C2) →
  (∀ i, i < m → ∃ row, diag_value i = Ok row ∧ holds C2 (diag_row m i) row)
  ∧ (∀ k, ¬ (pairs_before m m < k ≤ pairs_before m m + m) → C2 !! k = C1 !! k).
Proof.
  intros Hfresh Hrun.
  pose proof (range_ok
    (λ ii (st : nat * mat),
       st.1 = pairs_before m m + ii
       ∧ (∀ i, i < ii → ∃ row, diag_value i = Ok row ∧ holds st.2 (diag_row m i) row)
       ∧ (∀ k, ¬ (pairs_before m m < k ≤ st.1) → st.2 !! k = C1 !! k))
    _ 0 m _ _ ltac:(lia) Hrun) as Hinv.
  cbn [fst snd] in Hinv.
  destruct Hinv as (Hk & Hw & Hf).
  - split; [lia|]. split; [intros i Hi; lia|done].
  - intros ii [k C] [k' C'] Hii (Hk & Hw & Hf) Hbody. cbn [fst snd] in *. subst k.
    apply bind_Ok_inv in Hbody as (xi & Hxi & Hbody).
    apply bind_Ok_inv in Hbody as (row & Hrow & Hbody).
    apply bind_Ok_inv in Hbody as (C'' & Hset & Hbody).
    inversion Hbody; subst k' C''. clear Hbody.
    apply set_row_Ok in Hset as (old & Hold & ->).
    assert (pairs_before m m + ii + 1 = diag_row m ii) as Hdr
      by (rewrite diag_row_eq; lia).
    split; [lia|]. split.
    + intros i Hi. destruct (decide (i = ii)) as [->|Hne].
      * exists row. split; [unfold diag_value; by rewrite Hxi|].
        exists old. split.
        -- rewrite <- Hfresh by (rewrite diag_row_eq; lia). rewrite <- Hf by lia.
           by rewrite <- Hdr.
        -- rewrite <- Hdr. rewrite list_lookup_insert_eq; [done|].
           by apply lookup_lt_Some in Hold.
      * destruct (Hw i ltac:(lia)) as (r & Hr & old' & Ho & Hc).
        exists r. split; [done|]. exists old'. split; [done|].
        rewrite list_lookup_insert_ne; [done|]. rewrite diag_row_eq. lia.
    + intros k Hnk. rewrite list_lookup_insert_ne by lia. apply Hf. lia.
  - split; [done|]. intros k Hnk. apply Hf. lia.
Qed.

(** What the two loops of [calc2] leave in the table. *)
Lemma calc2_loops_rows (C2 : mat) :
  calc2_loops x xdist m rg beta diff C0 = Ok C2 →
  (∀ i j, i < j < m →
     ∃ row, calc2_pair x xdist rg beta diff i j = Ok row ∧ holds C2 (pair_row m i j) row)
  ∧ (∀ i, i < m → ∃ row, diag_value i = Ok row ∧ holds C2 (diag_row m i) row)
  ∧ (∀ k, k = pairs_before m m ∨ pairs_before m m + m < k → C2 !! k = C0 !! k).
Proof.
  unfold calc2_loops. intros Hrun.
  apply bind_Ok_inv in Hrun as ([kk C1] & Hpairs & Hrun).
  apply bind_Ok_inv in Hrun as ([kk' C2'] & Hdiag & Hrun).
  inversion Hrun; subst C2'. clear Hrun.
  apply calc2_pair_loop in Hpairs as (-> & Hw1 & Hf1).
  apply calc2_diag_loop in Hdiag as (Hw2 & Hf2); [|done].
  split; [|split].
  - intros i j Hij. destruct (Hw1 i j Hij) as (r & Hr & old & Ho & Hc).
    exists r. split; [done|]. exists old. split; [done|].
    rewrite Hf2; [done|]. pose proof (pair_row_lt m i j Hij). lia.
  - done.
  - intros k Hk. rewrite Hf2 by lia. apply Hf1. lia.
Qed.

End Calc2Loops.

(** ** [calc1] for small [beta] *)

Section Calc1.
Local Open Scope R_scope.

Lemma gauss_bounds (s t : R) : 0 < t < s → 1 - s * s <= gauss t <= 1.
Proof.
  intros Ht. unfold gauss. split.
  - pose proof (exp_ineq1 (- (t * t))) as H.
    assert (- (t * t) ≠ 0) as Hne by nra.
    specialize (H Hne). nra.
  - rewrite <- exp_0. destruct (Rle_dec (- (t*t)) 0) as [Hle|Hn]; [|nra].
    destruct Hle as [Hlt|Heq].
    + left. by apply exp_increasing.
    + rewrite Heq. lra.
Qed.

Lemma gauss_integral_bounds (s : R) :
  0 < s → (1 - s * s) * s <= RiemannInt (gauss_integrable 0 s) <= s.
Proof.
  intros Hs.
  pose proof (RiemannInt_const_bound (gauss_integrable 0 s) (l := 1 - s * s) (u := 1)
                ltac:(lra)) as H.
  rewrite Rminus_0_r, Rmult_1_l in H. apply H.
  intros t Ht. by apply gauss_bounds.
Qed.

Lemma bcast_same {A B C : Type} (f : A → B → C) (a : list A) (b : list B) :
  length a = length b → bcast f a b = Ok (zip_with f a b).
Proof. intros H. unfold bcast. by rewrite decide_True. Qed.

Lemma zip_with_map_l {A A' B C : Type} (f : A' → B → C) (g : A → A') (a : list A) (b : list B) :
  zip_with f (map g a) b = zip_with (λ x y, f (g x) y) a b.
Proof. revert b. induction a as [|x a IH]; intros [|y b]; simpl; [done..|]. by rewrite IH. Qed.

Lemma calc1_entries (beta diff : vec) :
  length beta = length diff →
  calc1 beta diff = Ok (zip_with calc1_formula beta diff).
Proof.
  intros Hlen. unfold calc1.
  rewrite !bcast_same by (rewrite ?length_fmap; done). rewrite !bind_Ok.
  rewrite !bcast_same
    by (rewrite ?length_fmap, ?length_zip_with, ?length_fmap; lia).
  rewrite !bind_Ok.
  rewrite !bcast_same
    by (rewrite ?length_fmap, ?length_zip_with, ?length_fmap, ?length_zip_with, ?length_fmap; lia).
  rewrite !bind_Ok.
  rewrite !bcast_same
    by (rewrite ?length_fmap, ?length_zip_with, ?length_fmap, ?length_zip_with, ?length_fmap, ?length_zip_with, ?length_fmap; lia).
  f_equal. clear Hlen. revert diff.
  induction beta as [|b beta IH]; intros [|d diff]; simpl; [done..|].
  f_equal. apply IH.
Qed.

Lemma erf_arg (beta diff : R) : 0 < beta → sqrt (2 * beta) * diff / sqrt 2 = sqrt beta * diff.
Proof.
  intros Hb. rewrite sqrt_mult by lra.
  assert (0 < sqrt 2) by (apply sqrt_lt_R0; lra). field. lra.
Qed.

Lemma one_minus_exp_bounds (u : R) : 0 < u → u - u * u <= 1 - exp (- u) <= u.
Proof.
  intros Hu. split.
  - assert (1 + u < exp u) as H by (apply exp_ineq1; lra).
    rewrite exp_Ropp.
    assert (/ exp u < / (1 + u)) as H' by (apply Rinv_lt_contravar; nra).
    assert (/ (1 + u) <= 1 - u + u * u); [|lra].
    apply (Rmult_le_reg_l (1 + u)); [lra|]. rewrite Rinv_r by lra. nra.
  - assert (1 + - u < exp (- u)) as H by (apply exp_ineq1; lra). lra.
Qed.

Lemma calc1_formula_bound (beta diff : R) :
  0 < beta → 0 < diff → Rabs (calc1_formula beta diff - 1) <= 2 * beta * (diff * diff).
Proof.
  intros Hb Hd. unfold calc1_formula, norm_cdf, norm_pdf, erf.
  rewrite erf_arg by done.
  assert (0 < sqrt beta) as Hsb by (by apply sqrt_lt_R0).
  assert (0 < sqrt PI) as Hsp by (apply sqrt_lt_R0, PI_RGT_0).
  assert (0 < sqrt (2 * PI)) as Hs2p by (apply sqrt_lt_R0; pose proof PI_RGT_0; lra).
  pose proof (sqrt_sqrt beta ltac:(lra)) as Hbb.
  set (s := sqrt beta * diff).
  assert (0 < s) as Hs by (unfold s; nra).
  pose proof (gauss_integral_bounds s Hs) as [HJl HJu].
  set (J := RiemannInt (gauss_integrable 0 s)) in *.
  rewrite sqrt_div by (pose proof PI_RGT_0; lra).
  assert (sqrt (2 * beta) * diff * (sqrt (2 * beta) * diff) = 2 * (beta * (diff * diff))) as Hz.
  { pose proof (sqrt_sqrt (2 * beta) ltac:(lra)). nra. }
  rewrite Hz.
  set (u := beta * (diff * diff)).
  assert (0 < u) as Hu by (unfold u; repeat apply Rmult_lt_0_compat; done).
  replace (- (2 * u) / 2) with (- u) by lra.
  pose proof (one_minus_exp_bounds u Hu) as [HEl HEu].
  set (E := exp (- u)) in *.
  assert (s * s = u) as Hss by (unfold s, u; nra).
  replace ((sqrt PI / sqrt beta * diff * (2 * ((1 + 2 / sqrt PI * J) / 2) - 1)
            - 1 / beta * (1 - sqrt (2 * PI) * (E / sqrt (2 * PI)))) / diff²  - 1)
    with ((2 * diff * J / sqrt beta - (1 - E) / beta) / (diff * diff) - 1)
    by (unfold Rsqr; field; lra).
  assert (diff = s / sqrt beta) as Hds by (unfold s; field; lra).
  assert (2 * (diff * diff) * (1 - u) <= 2 * diff * J / sqrt beta <= 2 * (diff * diff)) as [T1l T1u].
  { replace (2 * diff * J / sqrt beta) with (2 * diff * (J / sqrt beta)) by (field; lra).
    assert ((1 - u) * diff <= J / sqrt beta <= diff) as [A B].
    { split.
      - apply (Rmult_le_reg_r (sqrt beta)); [done|].
        replace (J / sqrt beta * sqrt beta) with J by (field; lra).
        replace ((1 - u) * diff * sqrt beta) with ((1 - u) * s) by (unfold s; ring).
        rewrite <- Hss. lra.
      - apply (Rmult_le_reg_r (sqrt beta)); [done|].
        replace (J / sqrt beta * sqrt beta) with J by (field; lra).
        replace (diff * sqrt beta) with s by (unfold s; ring). lra. }
    split; nra. }
  assert (diff * diff - u * (diff * diff) <= (1 - E) / beta <= diff * diff) as [T2l T2u].
  { split.
    - apply (Rmult_le_reg_r beta); [done|].
      replace ((1 - E) / beta * beta) with (1 - E) by (field; lra).
      replace ((diff * diff - u * (diff * diff)) * beta) with (u - u * u) by (unfold u; ring).
      done.
    - apply (Rmult_le_reg_r beta); [done|].
      replace ((1 - E) / beta * beta) with (1 - E) by (field; lra).
      replace (diff * diff * beta) with u by (unfold u; ring). done. }
  set (T1 := 2 * diff * J / sqrt beta) in *.
  set (T2 := (1 - E) / beta) in *.
  assert (0 < diff * diff) as Hdd by nra.
  assert ((T1 - T2) / (diff * diff) - 1 = (T1 - T2 - diff * diff) / (diff * diff)) as ->
    by (field; lra).
  assert (2 * beta * (diff * diff) = 2 * u) as -> by (unfold u; ring).
  clearbody T1 T2 u E J s. clear Hds Hss HEl HEu HJl HJu Hz Hbb.
  set (dd := diff * diff) in *. clearbody dd.
  apply Rabs_le. split.
  - apply (Rmult_le_reg_r dd); [done|].
    replace ((T1 - T2 - dd) / dd * dd) with (T1 - T2 - dd) by (field; lra).
    lra.
  - apply (Rmult_le_reg_r dd); [done|].
    replace ((T1 - T2 - dd) / dd * dd) with (T1 - T2 - dd) by (field; lra).
    lra.
Qed.

End Calc1.

(** ** Traces, index sets and the quantities of one draw *)

Lemma list_eq_seq {A : Type} (l : list A) (n : nat) (f : nat → A) :
  length l = n → (∀ i x, l !! i = Some x → x = f i) → l = map f (seq 0 n).
Proof.
  intros Hlen Hf. apply list_eq. intros i.
  rewrite list_lookup_fmap.
  destruct (decide (i < n)) as [Hi|Hi].
  - rewrite lookup_seq_lt by done. simpl.
    destruct (lookup_lt_is_Some_2 l i) as [x Hx]; [lia|].
    rewrite Hx. f_equal. by apply Hf.
  - rewrite lookup_seq_ge by lia. simpl. apply lookup_ge_None_2. lia.
Qed.

Lemma diag_square (M : mat) (m : nat) :
  shape M m m → diag M = map (λ i, mget M i i) (seq 0 m).
Proof.
  intros HM. unfold diag.
  assert (imap (λ i (row : vec), row !! i) M = map (λ i, Some (mget M i i)) (seq 0 m)) as ->.
  { apply list_eq_seq.
    - rewrite length_imap. by destruct HM.
    - intros i x Hx. rewrite list_lookup_imap in Hx.
      destruct (M !! i) as [row|] eqn:Hrow; simpl in Hx; [|done].
      inversion Hx; subst x.
      assert (i < m) as Hi by (apply lookup_lt_Some in Hrow; destruct HM; lia).
      destruct (shape_lookup M m m i i HM Hi Hi) as (row' & y & Hr & Hy & G).
      rewrite Hrow in Hr. inversion Hr; subst row'. by rewrite Hy, G. }
  induction (seq 0 m) as [|i l IH]; simpl; [done|]. f_equal. exact IH.
Qed.

Lemma dot_seq (a b : vec) (m : nat) :
  length a = m → length b = m →
  dot a b = sum (map (λ k, vget a k * vget b k)%R (seq 0 m)).
Proof.
  intros Ha Hb. unfold dot. f_equal. apply list_eq_seq.
  - rewrite length_zip_with. lia.
  - intros i x Hx. rewrite lookup_zip_with in Hx. unfold vget.
    destruct (a !! i) as [u|]; simpl in Hx; [|done].
    destruct (b !! i) as [v|]; simpl in Hx; [|done]. by inversion Hx.
Qed.

Lemma squeeze_square (Q : mat) (m : nat) : shape Q m m → m ≠ 1 → squeeze Q = A2 Q.
Proof.
  intros [Hlen HF] Hm. destruct Q as [|r1 [|r2 Q]]; simpl in Hlen; [done|lia|].
  assert (¬ Forall (λ row : vec, length row = 1) (r1 :: r2 :: Q)) as Hno.
  { intros H. inversion H as [|? ? H1 _]; subst.
    inversion HF as [|? ? H2 _]; subst. simpl in *. lia. }
  unfold squeeze. destruct r1 as [|x [|y r1]]; by rewrite decide_False.
Qed.

Lemma ewise_spec (f : R → R → R) (A B : mat) (r c : nat) :
  shape A r c → shape B r c →
  ∃ W, ewise f A B = Ok W ∧ shape W r c
       ∧ ∀ i j, i < r → j < c → mget W i j = f (mget A i j) (mget B i j).
Proof.
  intros HA HB. pose proof HA as [HlA HFA]. pose proof HB as [HlB HFB].
  unfold ewise. rewrite decide_True.
  2:{ split; [lia|]. apply Forall2_same_length_lookup_2; [lia|].
      intros i a b Ha Hb.
      rewrite (shape_row A r c i a HA Ha). by rewrite (shape_row B r c i b HB Hb). }
  eexists. split; [done|]. split.
  - split.
    + rewrite length_zip_with. lia.
    + apply Forall_lookup. intros i row Hrow.
      rewrite lookup_zip_with in Hrow.
      destruct (A !! i) as [a|] eqn:Ha; simpl in Hrow; [|done].
      destruct (B !! i) as [b|] eqn:Hb; simpl in Hrow; [|done].
      inversion Hrow; subst row. rewrite length_zip_with.
      rewrite (shape_row A r c i a HA Ha), (shape_row B r c i b HB Hb). lia.
  - intros i j Hi Hj.
    destruct (shape_lookup A r c i j HA Hi Hj) as (a & x & Ha & Hx & Gx).
    destruct (shape_lookup B r c i j HB Hi Hj) as (b & y & Hb & Hy & Gy).
    rewrite Gx, Gy.
    unfold mget. rewrite lookup_zip_with, Ha, Hb. simpl.
    by rewrite lookup_zip_with, Hx, Hy.
Qed.

Lemma trace_matmul_square (Q V : mat) (m : nat) :
  shape Q m m → shape V m m → m ≠ 1 →
  trace_matmul Q V = Ok (trace_of_product m Q V).
Proof.
  intros HQ HV Hm. unfold trace_matmul. rewrite (squeeze_square Q m HQ Hm).
  pose proof HQ as [HlQ HFQ]. pose proof HV as [HlV HFV].
  unfold nd_matmul, matmul. rewrite (ncols_square V m HV).
  rewrite decide_True by (rewrite HlV; done).
  rewrite !bind_Ok. unfold nd_trace. f_equal.
  set (M := map _ Q).
  assert (shape M m m) as HM.
  { split.
    - unfold M. by rewrite length_fmap.
    - unfold M. apply Forall_fmap, Forall_forall. intros row _. simpl.
      by rewrite length_fmap, length_seq. }
  rewrite (diag_square M m HM). unfold trace_of_product. f_equal.
  apply map_ext_in. intros i Hi. apply in_seq in Hi.
  destruct (shape_lookup Q m m i i HQ ltac:(lia) ltac:(lia)) as (row & x & Hrow & _ & _).
  unfold mget at 1. unfold M. rewrite list_lookup_fmap, Hrow. simpl.
  rewrite list_lookup_fmap, lookup_seq_lt by lia. simpl.
  rewrite (dot_seq _ _ m).
  - f_equal. apply map_ext_in. intros k Hk. apply in_seq in Hk. f_equal.
    + unfold mget, vget. by rewrite Hrow.
    + unfold mget, vget. rewrite list_lookup_fmap.
      destruct (lookup_lt_is_Some_2 V k) as [brow Hb]; [lia|]. by rewrite Hb.
  - exact (shape_row Q m m i row HQ Hrow).
  - by rewrite length_fmap.
Qed.

Lemma trace_times_square (Q V : mat) (m : nat) :
  shape Q m m → shape V m m → m ≠ 1 →
  trace_times Q V = Ok (trace_of_diagonals m Q V).
Proof.
  intros HQ HV Hm. unfold trace_times. rewrite (squeeze_square Q m HQ Hm).
  unfold nd_mul.
  destruct (ewise_spec Rmult Q V m m HQ HV) as (W & -> & HW & GW).
  rewrite !bind_Ok. unfold nd_trace. f_equal.
  rewrite (diag_square W m HW). unfold trace_of_diagonals. f_equal.
  apply map_ext_in. intros i Hi. apply in_seq in Hi. apply GW; lia.
Qed.

(** Index sets *)

Lemma insert_sorted_below (x : nat) (l : list nat) :
  Forall (λ y, x < y) l → insert_sorted x l = x :: l.
Proof.
  intros H. destruct l as [|y l]; simpl; [done|].
  inversion H; subst. by rewrite decide_True.
Qed.

Lemma np_unique_sorted (l : list nat) : StronglySorted lt l → np_unique l = l.
Proof.
  induction 1 as [|x l Hs IH Hx]; [done|].
  unfold np_unique in *. simpl. rewrite IH. by apply insert_sorted_below.
Qed.

Lemma filter_seq_sorted (P : nat → Prop) `{∀ x, Decision (P x)} (a n : nat) :
  StronglySorted lt (filter P (seq a n)).
Proof.
  revert a. induction n as [|n IH]; intros a; simpl; [constructor|].
  rewrite filter_cons. destruct (decide (P a)); [|apply IH].
  constructor; [apply IH|].
  apply Forall_forall. intros y Hy. apply list_elem_of_filter in Hy as [_ Hy].
  apply list_elem_of_In, in_seq in Hy. lia.
Qed.

Lemma filter_none {A : Type} (P : A → Prop) `{∀ x, Decision (P x)} (l : list A) :
  Forall (λ x, ¬ P x) l → filter P l = [].
Proof.
  induction 1 as [|x l Hx _ IH]; [done|]. rewrite filter_cons. by rewrite decide_False.
Qed.

Lemma setxor1d_arange (p : nat) (Js : list nat) :
  Forall (λ d, d < p) Js → setxor1d (arange p) Js = complement p Js.
Proof.
  intros HJ. unfold setxor1d, complement, arange.
  rewrite (filter_none (λ x, x ∉ seq 0 p) Js).
  - rewrite app_nil_r. apply np_unique_sorted, filter_seq_sorted.
  - eapply Forall_impl; [exact HJ|]. intros d Hd Hn. simpl in Hd. apply Hn.
    apply list_elem_of_In, in_seq. lia.
Qed.

Lemma complement_full (p : nat) : complement p (arange p) = [].
Proof.
  unfold complement, arange. apply filter_none, Forall_forall. intros d Hd Hn. by apply Hn.
Qed.

Lemma complement_bound (p : nat) (Js : list nat) : Forall (λ d, d < p) (complement p Js).
Proof.
  apply Forall_forall. intros d Hd. unfold complement in Hd.
  apply list_elem_of_filter in Hd as [_ Hd]. apply list_elem_of_In, in_seq in Hd. lia.
Qed.

Lemma arange_bound (p : nat) : Forall (λ d, d < p) (arange p).
Proof.
  apply Forall_forall. intros d Hd. apply list_elem_of_In, in_seq in Hd. lia.
Qed.

Lemma mapM_res_ok {A B : Type} (f : A → res B) (g : A → B) (l : list A) :
  Forall (λ a, f a = Ok (g a)) l → mapM_res f l = Ok (map g l).
Proof.
  induction 1 as [|a l Ha _ IH]; simpl; [done|]. by rewrite Ha, bind_Ok, IH, bind_Ok.
Qed.

Lemma cols_ok (M : mat) (r c : nat) (idx : list nat) :
  shape M r c → Forall (λ d, d < c) idx →
  cols M idx = Ok (map (λ row, map (vget row) idx) M).
Proof.
  intros [_ HF] Hidx. unfold cols. apply mapM_res_ok.
  eapply Forall_impl; [exact HF|]. intros row Hrow. simpl in *.
  apply take_idx_ok. by rewrite Hrow.
Qed.

Lemma col_ok (M : mat) (r c j : nat) :
  shape M r c → j < c → col M j = Ok (map (λ row, vget row j) M).
Proof.
  intros [_ HF] Hj. unfold col. apply mapM_res_ok.
  eapply Forall_impl; [exact HF|]. intros row Hrow. simpl in *.
  apply get1_vget. lia.
Qed.

Lemma prod_rows_single (M : mat) (j : nat) :
  prod_rows (map (λ row, map (vget row) [j]) M) = map (λ row, vget row j) M.
Proof.
  unfold prod_rows. rewrite map_map. apply map_ext. intros row. simpl. apply Rmult_1_r.
Qed.

Section DrawProps.
Local Open Scope R_scope.
Context (m p : nat) (Q : mat) (lamUzi : R) (c1 : vec) (C2 c3 : mat).
Hypothesis m_ne_1 : m ≠ 1%nat.
Hypothesis Q_shape : shape Q m m.
Hypothesis C2_shape : shape C2 (m * (m + 1) / 2 + m) p.
Hypothesis c3_shape : shape c3 m p.
Hypothesis c1_len : length c1 = p.

Lemma C2_cols_ok (Js : list nat) :
  Forall (λ d, (d < p)%nat) Js →
  Forall (λ row : vec, Forall (λ d, (d < length row)%nat) Js) C2.
Proof.
  intros HJ. destruct C2_shape as [_ HF].
  eapply Forall_impl; [exact HF|]. intros row Hrow. simpl in Hrow. by rewrite Hrow.
Qed.

(** Line 311. *)
Lemma sens_vt_spec (e2 : R) :
  ∃ Vfull, varf m p (arange p) C2 [] = Ok Vfull
    ∧ sens_vt m p Q lamUzi C2 e2
      = Ok (1 / lamUzi - trace_of_product m Q Vfull / (lamUzi * lamUzi) - e2).
Proof.
  destruct (varf_run m p (arange p) C2 []) as (V & HV & HVs & _).
  - by destruct C2_shape.
  - apply C2_cols_ok, arange_bound.
  - intros Hne. exfalso. apply Hne.
    rewrite setxor1d_arange by apply arange_bound. apply complement_full.
  - exists V. split; [done|]. unfold sens_vt. rewrite HV, bind_Ok.
    by rewrite (trace_matmul_square Q V m), bind_Ok.
Qed.

(** Lines 324-328. *)
Lemma sens_total_spec (e2 vt : R) (jj : nat) :
  (jj < p)%nat →
  ∃ cj Vj, col c3 jj = Ok cj
    ∧ varf m p (complement p [jj]) C2 cj = Ok Vj
    ∧ sens_total m p Q lamUzi c1 C2 c3 e2 vt jj
      = Ok (1 - (vget c1 jj / lamUzi - trace_of_product m Q Vj / (lamUzi * lamUzi) - e2) / vt).
Proof.
  intros Hjj. exists (map (λ row, vget row jj) c3).
  assert (Forall (λ d, (d < p)%nat) [jj]) as Hsingle by (by constructor).
  destruct (varf_run m p (complement p [jj]) C2 (map (λ row, vget row jj) c3))
    as (V & HV & HVs & _).
  - by destruct C2_shape.
  - apply C2_cols_ok, complement_bound.
  - intros _. rewrite length_fmap. by destruct c3_shape.
  - exists V. split; [by apply (col_ok c3 m p)|]. split; [done|].
    unfold sens_total. rewrite (cols_ok c3 m p) by done. rewrite bind_Ok.
    rewrite prod_rows_single.
    rewrite take_idx_ok by (by rewrite c1_len). rewrite bind_Ok.
    rewrite setxor1d_arange by done. rewrite HV, bind_Ok.
    by rewrite (trace_matmul_square Q V m), bind_Ok.
Qed.

(** Lines 332-337: what the code computes for a pair. *)
Lemma sens_inter_spec (e2 vt : R) (sme_row : vec) (i j : nat) :
  (i < p)%nat → (j < p)%nat → length sme_row = p →
  ∃ c3ll V, cols c3 (complement p [i; j]) = Ok c3ll
    ∧ varf m p [i; j] C2 (prod_rows c3ll) = Ok V
    ∧ ∃ u3 u5, sens_inter m p Q lamUzi c1 C2 c3 e2 vt sme_row [i; j]
      = Ok ((prod (map (vget c1) (complement p [i; j])) / lamUzi
             - trace_of_diagonals m Q V / (lamUzi * lamUzi) - e2) / vt
            - vget sme_row i - vget sme_row j, u3, u5).
Proof.
  intros Hi Hj Hsme.
  assert (Forall (λ d, (d < p)%nat) [i; j]) as Hpair by (by repeat constructor).
  pose proof (complement_bound p [i; j]) as Hc.
  eexists. 
  destruct (varf_run m p [i; j] C2
              (prod_rows (map (λ row, map (vget row) (complement p [i; j])) c3)))
    as (V & HV & HVs & _).
  - by destruct C2_shape.
  - by apply C2_cols_ok.
  - intros _. unfold prod_rows. rewrite !length_fmap. by destruct c3_shape.
  - exists V. split; [by apply (cols_ok c3 m p)|]. split; [done|].
    unfold sens_inter. rewrite setxor1d_arange by done.
    rewrite (cols_ok c3 m p) by done. rewrite bind_Ok.
    rewrite take_idx_ok by (by rewrite c1_len). rewrite bind_Ok.
    rewrite HV, bind_Ok.
    rewrite (trace_times_square Q V m), bind_Ok by done.
    simpl. rewrite !get1_vget by lia. simpl. eauto.
Qed.

End DrawProps.

Lemma mapM_res_inv {A B : Type} (f : A → res B) (l : list A) (r : list B) :
  mapM_res f l = Ok r →
  length r = length l ∧ ∀ i a, l !! i = Some a → ∃ b, f a = Ok b ∧ r !! i = Some b.
Proof.
  revert r. induction l as [|a l IH]; intros r Hr; simpl in Hr.
  - inversion Hr; subst. split; [done|]. intros i a Hi. by rewrite lookup_nil in Hi.
  - apply bind_Ok_inv in Hr as (b & Hb & Hr).
    apply bind_Ok_inv in Hr as (bs & Hbs & Hr).
    inversion Hr; subst r. clear Hr.
    destruct (IH bs Hbs) as [Hlen Hall].
    split; [simpl; lia|].
    intros [|i] a' Hi; simpl in Hi.
    + inversion Hi; subst a'. exists b. by split.
    + by apply Hall.
Qed.

Section DrawLink.
Local Open Scope R_scope.
Context (compute_cov_mat : SepiaDistCov → vec → R → option R → res mat).

Lemma sens_draw_pieces (x : mat) (xdist : SepiaDistCov) (xexdist xedist : list SepiaDistCov)
    (m p ngrid : nat) (rg : mat) (diff : vec) (varlist jelist : option (list (list nat)))
    (betaei : vec) (lamUzi lamWsi : R) (P : mat) (My : vec) (Q : mat) (out : draw_out) :
  sens_draw compute_cov_mat x xdist xexdist xedist m p ngrid rg diff varlist jelist
    betaei lamUzi lamWsi (P, My, Q) = Ok out →
  ∃ c1 C2 c3,
    calc1 betaei diff = Ok c1
    ∧ calc2 x xdist m rg betaei diff = Ok C2
    ∧ sens_e2 m p Q lamUzi c1 C2 c3 = Ok (d_e2 out)
    ∧ sens_vt m p Q lamUzi C2 (d_e2 out) = Ok (d_vt out)
    ∧ (∀ jj, (jj < p)%nat →
         ∃ t, sens_total m p Q lamUzi c1 C2 c3 (d_e2 out) (d_vt out) jj = Ok t
              ∧ d_ste out !! jj = Some t)
    ∧ (∀ jj, (jj < p)%nat →
         ∃ s u1 u4, sens_main m p Q lamUzi c1 C2 c3 (d_e2 out) (d_vt out) jj = Ok (s, u1, u4)
              ∧ d_sme out !! jj = Some s)
    ∧ (∀ vl jj Js, varlist = Some vl → vl !! jj = Some Js →
         ∃ s u3 u5, sens_inter m p Q lamUzi c1 C2 c3 (d_e2 out) (d_vt out) (d_sme out) Js
                      = Ok (s, u3, u5)
              ∧ d_sie out !! jj = Some s).
Proof.
  unfold sens_draw. intros H.
  apply bind_Ok_inv in H as (c1 & Hc1 & H).
  apply bind_Ok_inv in H as (C2 & HC2 & H).
  apply bind_Ok_inv in H as (c3 & Hc3 & H).
  apply bind_Ok_inv in H as (e2 & He2 & H).
  apply bind_Ok_inv in H as (e0 & He0 & H).
  apply bind_Ok_inv in H as (vt & Hvt & H).
  apply bind_Ok_inv in H as ([[[sme ste] mef_m] mef_v] & Hloop & H).
  apply bind_Ok_inv in H as ([[sie jef_m] jef_v] & Hvar & H).
  apply bind_Ok_inv in H as (sje & Hje & H).
  inversion H; subst out; clear H. simpl.
  exists c1, C2, c3. do 4 (split; [done|]).
  pose proof (range_ok
    (λ jj (st : vec * vec * mat * mat),
       length st.1.1.1 = p ∧ length st.1.1.2 = p
       ∧ (∀ j, (j < jj)%nat →
            ∃ t, sens_total m p Q lamUzi c1 C2 c3 e2 vt j = Ok t ∧ st.1.1.2 !! j = Some t)
       ∧ (∀ j, (j < jj)%nat →
            ∃ s u1 u4, sens_main m p Q lamUzi c1 C2 c3 e2 vt j = Ok (s, u1, u4)
                       ∧ st.1.1.1 !! j = Some s))
    _ 0 p _ _ ltac:(lia) Hloop) as Hinv.
  cbn [fst snd] in Hinv.
  destruct Hinv as (Hlsme & Hlste & Hste & Hsme).
  { unfold zeros. rewrite !length_replicate. do 2 (split; [done|]).
    split; intros j Hj; lia. }
  { intros jj [[[sme' ste'] mm'] mv'] t' Hjj (Hl1 & Hl2 & I1 & I2) Hbody.
    cbn [fst snd] in *.
    apply bind_Ok_inv in Hbody as ([[s u1] u4] & Hmain & Hbody).
    apply bind_Ok_inv in Hbody as (xex & Hxex & Hbody).
    apply bind_Ok_inv in Hbody as (xed & Hxed & Hbody).
    apply bind_Ok_inv in Hbody as (ME & HME & Hbody).
    apply bind_Ok_inv in Hbody as (mm & Hmm & Hbody).
    apply bind_Ok_inv in Hbody as (mv & Hmv & Hbody).
    apply bind_Ok_inv in Hbody as (t & Ht & Hbody).
    inversion Hbody; subst t'; clear Hbody. cbn [fst snd].
    rewrite !length_insert. do 2 (split; [done|]). split.
    - intros j Hj. destruct (decide (j = jj)) as [->|Hne].
      + exists t. split; [done|]. apply list_lookup_insert_eq. lia.
      + destruct (I1 j ltac:(lia)) as (t0 & Ht0 & Hl). exists t0. split; [done|].
        by rewrite list_lookup_insert_ne.
    - intros j Hj. destruct (decide (j = jj)) as [->|Hne].
      + exists s, u1, u4. split; [done|]. apply list_lookup_insert_eq. lia.
      + destruct (I2 j ltac:(lia)) as (s0 & a & b & Hs0 & Hl). exists s0, a, b.
        split; [done|]. by rewrite list_lookup_insert_ne. }
  split; [done|]. split; [done|].
  intros vl jj Js -> HJs.
  pose proof (range_ok
    (λ jj (st : vec * list mat * list mat),
       length st.1.1 = length vl
       ∧ (∀ j Js, (j < jj)%nat → vl !! j = Some Js →
            ∃ s u3 u5, sens_inter m p Q lamUzi c1 C2 c3 e2 vt sme Js = Ok (s, u3, u5)
                       ∧ st.1.1 !! j = Some s))
    _ 0 (length vl) _ _ ltac:(lia) Hvar) as Hinv.
  cbn [fst snd] in Hinv.
  destruct Hinv as (Hlsie & Hsie).
  { unfold zeros. rewrite length_replicate. split; [done|]. intros j ? Hj; lia. }
  { intros j [[sie' jm'] jv'] t' Hj (Hl & I) Hbody. cbn [fst snd] in *.
    apply bind_Ok_inv in Hbody as (Js' & HJs' & Hbody).
    apply bind_Ok_inv in Hbody as ([[s u3] u5] & Hint & Hbody).
    apply bind_Ok_inv in Hbody as (xex & Hxex & Hbody).
    apply bind_Ok_inv in Hbody as (xed & Hxed & Hbody).
    apply bind_Ok_inv in Hbody as (JE & HJE & Hbody).
    apply bind_Ok_inv in Hbody as (jm & Hjm & Hbody).
    apply bind_Ok_inv in Hbody as (jv & Hjv & Hbody).
    inversion Hbody; subst t'; clear Hbody. cbn [fst snd].
    rewrite length_insert. split; [done|].
    intros j' Js'' Hj' Hl'. destruct (decide (j' = j)) as [->|Hne].
    - unfold list_get in HJs'. rewrite Hl' in HJs'. inversion HJs'; subst Js'.
      exists s, u3, u5. split; [done|]. apply list_lookup_insert_eq. lia.
    - destruct (I j' Js'' ltac:(lia) Hl') as (s0 & a & b & Hs0 & Hlk).
      exists s0, a, b. split; [done|]. by rewrite list_lookup_insert_ne. }
  apply (Hsie jj Js); [|done]. by apply lookup_lt_Some in HJs.
Qed.

End DrawLink.

(** ** The aggregation over basis components *)

Lemma sum_app (a b : vec) : sum (a ++ b) = (sum a + sum b)%R.
Proof. induction a as [|x a IH]; simpl; [lra|]. rewrite IH. lra. Qed.

Lemma sum_seq_S (f : nat → R) (n : nat) :
  sum (map f (seq 0 (S n))) = (sum (map f (seq 0 n)) + f n)%R.
Proof. rewrite seq_S, map_app, sum_app. simpl. lra. Qed.

Lemma set_row_spec (M : mat) (r c ii : nat) (row : vec) :
  shape M r c → ii < r → length row = c →
  ∃ M', set_row M ii row = Ok M' ∧ shape M' r c
    ∧ ∀ i k, mget M' i k = if decide (i = ii) then vget row k else mget M i k.
Proof.
  intros HM Hii Hrow. pose proof HM as [Hlen HF]. unfold set_row.
  destruct (lookup_lt_is_Some_2 M ii) as [old Hold]; [lia|]. rewrite Hold.
  rewrite decide_True by (rewrite (shape_row M r c ii old HM Hold); done).
  eexists. split; [done|]. split.
  - split; [by rewrite length_insert|]. by apply Forall_insert.
  - intros i k. unfold mget, vget. destruct (decide (i = ii)) as [->|Hne].
    + rewrite list_lookup_insert_eq by lia. done.
    + by rewrite list_lookup_insert_ne.
Qed.

Lemma get_row_ok (M : mat) (r c ii : nat) :
  shape M r c → ii < r →
  ∃ row, get_row M ii = Ok row ∧ length row = c ∧ ∀ k, vget row k = mget M ii k.
Proof.
  intros HM Hii. pose proof HM as [Hlen _]. unfold get_row.
  destruct (lookup_lt_is_Some_2 M ii) as [row Hrow]; [lia|]. rewrite Hrow.
  exists row. split; [done|]. split; [by eapply shape_row|].
  intros k. unfold vget, mget. by rewrite Hrow.
Qed.

Lemma vget_zip_with (f : R → R → R) (a b : vec) (k : nat) :
  k < length a → k < length b → vget (zip_with f a b) k = f (vget a k) (vget b k).
Proof.
  intros Ha Hb. unfold vget. rewrite lookup_zip_with.
  destruct (lookup_lt_is_Some_2 a k Ha) as [x ->].
  destruct (lookup_lt_is_Some_2 b k Hb) as [y ->]. done.
Qed.

Lemma vget_map (f : R → R) (a : vec) (k : nat) :
  k < length a → vget (map f a) k = f (vget a k).
Proof.
  intros Ha. unfold vget. rewrite list_lookup_fmap.
  destruct (lookup_lt_is_Some_2 a k Ha) as [x ->]. done.
Qed.

Lemma iadd_row_spec (M : mat) (r c ii : nat) (w : vec) :
  shape M r c → ii < r → length w = c →
  ∃ M', iadd_row M ii w = Ok M' ∧ shape M' r c
    ∧ ∀ i k, i < r → k < c →
        mget M' i k = if decide (i = ii) then (mget M ii k + vget w k)%R else mget M i k.
Proof.
  intros HM Hii Hw. unfold iadd_row.
  destruct (get_row_ok M r c ii HM Hii) as (row & -> & Hrow & Grow). rewrite bind_Ok.
  rewrite bcast_same by lia. rewrite bind_Ok.
  destruct (set_row_spec M r c ii (zip_with Rplus row w) HM Hii) as (M' & -> & HM' & G).
  { rewrite length_zip_with. lia. }
  exists M'. split; [done|]. split; [done|].
  intros i k Hi Hk. rewrite G. case_decide; [|done].
  rewrite vget_zip_with by lia. by rewrite Grow.
Qed.

Lemma idiv_row_spec (M : mat) (r c ii : nat) (d : R) :
  shape M r c → ii < r →
  ∃ M', idiv_row M ii d = Ok M' ∧ shape M' r c
    ∧ ∀ i k, i < r → k < c →
        mget M' i k = if decide (i = ii) then (mget M ii k / d)%R else mget M i k.
Proof.
  intros HM Hii. unfold idiv_row.
  destruct (get_row_ok M r c ii HM Hii) as (row & -> & Hrow & Grow). rewrite bind_Ok.
  destruct (set_row_spec M r c ii (map (λ x, x / d)%R row) HM Hii) as (M' & -> & HM' & G).
  { by rewrite length_fmap. }
  exists M'. split; [done|]. split; [done|].
  intros i k Hi Hk. rewrite G. case_decide; [|done].
  rewrite vget_map by lia. by rewrite Grow.
Qed.

Section Aggregate.
Local Open Scope R_scope.
Context (lam : vec) (sa : list (gmap string ndarray)) (npvec nv pu : nat).

Hypothesis lam_len : (pu ≤ length lam)%nat.
Hypothesis sa_len : length sa = pu.
Hypothesis sa_vt : ∀ jj d, sa !! jj = Some d →
  ∃ v, d !! "vt" = Some (A1 v) ∧ length v = npvec.

Lemma weighted_row_spec (key : string) (n ii jj : nat) :
  (∀ jj d, sa !! jj = Some d → ∃ M, d !! key = Some (A2 M) ∧ shape M npvec n) →
  (ii < npvec)%nat → (jj < pu)%nat →
  ∃ w, weighted_row lam sa key ii jj = Ok w ∧ length w = n
    ∧ ∀ k, (k < n)%nat →
        vget w k = vget lam jj * comp_entry sa key jj ii k * comp_vt sa jj ii.
Proof.
  intros Hkey Hii Hjj. unfold weighted_row.
  rewrite get1_vget by lia. rewrite bind_Ok.
  destruct (lookup_lt_is_Some_2 sa jj) as [d Hd]; [lia|].
  unfold list_get. rewrite Hd, !bind_Ok.
  destruct (Hkey jj d Hd) as (M & HM & HMs).
  destruct (sa_vt jj d Hd) as (v & Hv & Hlen).
  unfold dict_get. rewrite HM, bind_Ok. simpl.
  destruct (get_row_ok M npvec n ii HMs Hii) as (row & -> & Hrow & Grow). rewrite bind_Ok.
  rewrite Hv, bind_Ok. simpl. rewrite get1_vget by lia. rewrite bind_Ok.
  eexists. split; [done|]. split; [by rewrite length_fmap|].
  intros k Hk. rewrite vget_map by lia. rewrite Grow.
  unfold comp_entry, comp_vt, dict_mat, dict_vec. rewrite Hd. simpl. by rewrite HM, Hv.
Qed.

Hypothesis sa_sme : ∀ jj d, sa !! jj = Some d →
  ∃ M, d !! "sme" = Some (A2 M) ∧ shape M npvec nv.
Hypothesis sa_ste : ∀ jj d, sa !! jj = Some d →
  ∃ M, d !! "ste" = Some (A2 M) ∧ shape M npvec nv.

(** The running sums of the loop over the components. *)
Let acc (key : string) (ii k n : nat) : R :=
  sum (map (λ jj, vget lam jj * comp_entry sa key jj ii k * comp_vt sa jj ii) (seq 0 n)).

Lemma aggregate_add_loop (sme0 ste0 : mat) (ii : nat) :
  shape sme0 npvec nv → shape ste0 npvec nv → (ii < npvec)%nat →
  ∃ sme ste,
    for_each (range 0 pu) (aggregate_add lam sa ii) (sme0, ste0, 0)
      = Ok (sme, ste, 0 + total_variance lam sa pu ii)
    ∧ shape sme npvec nv ∧ shape ste npvec nv
    ∧ (∀ i k, (i < npvec)%nat → (k < nv)%nat →
         mget sme i k = if decide (i = ii) then mget sme0 ii k + acc "sme" ii k pu
                        else mget sme0 i k)
    ∧ (∀ i k, (i < npvec)%nat → (k < nv)%nat →
         mget ste i k = if decide (i = ii) then mget ste0 ii k + acc "ste" ii k pu
                        else mget ste0 i k).
Proof.
  intros Hs0 Ht0 Hii.
  destruct (range_inv
    (λ n (st : mat * mat * R),
       shape st.1.1 npvec nv ∧ shape st.1.2 npvec nv
       ∧ st.2 = 0 + total_variance lam sa n ii
       ∧ (∀ i k, (i < npvec)%nat → (k < nv)%nat →
            mget st.1.1 i k = if decide (i = ii) then mget sme0 ii k + acc "sme" ii k n
                              else mget sme0 i k)
       ∧ (∀ i k, (i < npvec)%nat → (k < nv)%nat →
            mget st.1.2 i k = if decide (i = ii) then mget ste0 ii k + acc "ste" ii k n
                              else mget ste0 i k))
    (aggregate_add lam sa ii) 0 pu (sme0, ste0, 0))
    as ([[sme ste] v] & Hrun & Hinv).
  - lia.
  - cbn [fst snd]. do 2 (split; [done|]).
    split; [unfold total_variance; simpl; lra|].
    split; intros i k Hi Hk; case_decide; subst; unfold acc; simpl; lra.
  - intros jj [[sme ste] v] Hjj (Hs & Ht & Hv & Gs & Gt). cbn [fst snd] in *.
    unfold aggregate_add.
    destruct (weighted_row_spec "sme" nv ii jj sa_sme Hii ltac:(lia)) as (w & -> & Hw & Gw).
    rewrite bind_Ok.
    destruct (iadd_row_spec sme npvec nv ii w Hs Hii Hw) as (sme' & -> & Hs' & Gs').
    rewrite bind_Ok.
    destruct (weighted_row_spec "ste" nv ii jj sa_ste Hii ltac:(lia)) as (w2 & -> & Hw2 & Gw2).
    rewrite bind_Ok.
    destruct (iadd_row_spec ste npvec nv ii w2 Ht Hii Hw2) as (ste' & -> & Ht' & Gt').
    rewrite bind_Ok.
    rewrite get1_vget by lia. rewrite bind_Ok.
    destruct (lookup_lt_is_Some_2 sa jj) as [d Hd]; [lia|].
    unfold list_get. rewrite Hd, bind_Ok.
    destruct (sa_vt jj d Hd) as (vv & Hvv & Hlen).
    unfold dict_get. rewrite Hvv, bind_Ok. simpl. rewrite get1_vget by lia.
    rewrite bind_Ok.
    eexists. split; [done|]. cbn [fst snd]. do 2 (split; [done|]).
    assert (vget vv ii = comp_vt sa jj ii) as Hcv.
    { unfold comp_vt, dict_vec. rewrite Hd. simpl. by rewrite Hvv. }
    split; [|split].
    + unfold total_variance. rewrite sum_seq_S, Hv, Hcv. unfold total_variance. lra.
    + intros i k Hi Hk. rewrite Gs' by done. case_decide.
      * subst i. rewrite Gs by done. rewrite decide_True by done.
        unfold acc. rewrite sum_seq_S, Gw by done. lra.
      * rewrite Gs by done. by rewrite decide_False.
    + intros i k Hi Hk. rewrite Gt' by done. case_decide.
      * subst i. rewrite Gt by done. rewrite decide_True by done.
        unfold acc. rewrite sum_seq_S, Gw2 by done. lra.
      * rewrite Gt by done. by rewrite decide_False.
  - cbn [fst snd] in Hinv. destruct Hinv as (Hs & Ht & Hv & Gs & Gt).
    exists sme, ste. rewrite Hrun, Hv. done.
Qed.

Lemma aggregate_draw_spec (sme0 ste0 : mat) (vt0 : vec) (ii : nat) :
  shape sme0 npvec nv → shape ste0 npvec nv → length vt0 = npvec → (ii < npvec)%nat →
  ∃ sme ste vt,
    aggregate_draw lam sa pu ii (sme0, ste0, vt0) = Ok (sme, ste, vt)
    ∧ shape sme npvec nv ∧ shape ste npvec nv ∧ length vt = npvec
    ∧ (∀ i k, (i < npvec)%nat → (k < nv)%nat →
         mget sme i k =
           if decide (i = ii)
           then (mget sme0 ii k + acc "sme" ii k pu) / (0 + total_variance lam sa pu ii)
           else mget sme0 i k)
    ∧ (∀ i k, (i < npvec)%nat → (k < nv)%nat →
         mget ste i k =
           if decide (i = ii)
           then (mget ste0 ii k + acc "ste" ii k pu) / (0 + total_variance lam sa pu ii)
           else mget ste0 i k)
    ∧ (∀ i, vget vt i = if decide (i = ii) then 0 + total_variance lam sa pu ii
                        else vget vt0 i).
Proof.
  intros Hs0 Ht0 Hv0 Hii. unfold aggregate_draw.
  destruct (aggregate_add_loop sme0 ste0 ii Hs0 Ht0 Hii) as (s1 & t1 & -> & Hs1 & Ht1 & Gs1 & Gt1).
  rewrite bind_Ok.
  destruct (idiv_row_spec s1 npvec nv ii (0 + total_variance lam sa pu ii) Hs1 Hii)
    as (s2 & -> & Hs2 & Gs2).
  rewrite bind_Ok.
  destruct (idiv_row_spec t1 npvec nv ii (0 + total_variance lam sa pu ii) Ht1 Hii)
    as (t2 & -> & Ht2 & Gt2).
  rewrite bind_Ok. unfold set1. rewrite decide_True by lia. rewrite bind_Ok.
  eexists _, _, _. split; [done|]. do 2 (split; [done|]).
  split; [by rewrite length_insert|]. split; [|split].
  - intros i k Hi Hk. rewrite Gs2 by done. case_decide.
    + subst i. rewrite Gs1 by done. by rewrite decide_True.
    + rewrite Gs1 by done. by rewrite decide_False.
  - intros i k Hi Hk. rewrite Gt2 by done. case_decide.
    + subst i. rewrite Gt1 by done. by rewrite decide_True.
    + rewrite Gt1 by done. by rewrite decide_False.
  - intros i. unfold vget. case_decide.
    + subst i. rewrite list_lookup_insert_eq by lia. done.
    + by rewrite list_lookup_insert_ne.
Qed.

(** The aggregation loop returns on well-shaped component results, and leaves
    the weighted, normalised sums in [sme], [ste] and [vt]. *)
Lemma aggregate_run :
  ∃ sme ste vt,
    aggregate lam sa npvec nv pu = Ok (sme, ste, vt)
    ∧ shape sme npvec nv ∧ shape ste npvec nv ∧ length vt = npvec
    ∧ (∀ ii, (ii < npvec)%nat → vget vt ii = total_variance lam sa pu ii)
    ∧ (∀ ii k, (ii < npvec)%nat → (k < nv)%nat →
         mget sme ii k = weighted_index lam sa "sme" pu ii k)
    ∧ (∀ ii k, (ii < npvec)%nat → (k < nv)%nat →
         mget ste ii k = weighted_index lam sa "ste" pu ii k).
Proof.
  unfold aggregate.
  destruct (range_inv
    (λ n (st : mat * mat * vec),
       shape st.1.1 npvec nv ∧ shape st.1.2 npvec nv ∧ length st.2 = npvec
       ∧ (∀ ii, vget st.2 ii = if decide (ii < n)%nat then total_variance lam sa pu ii else 0)
       ∧ (∀ ii k, (ii < npvec)%nat → (k < nv)%nat →
            mget st.1.1 ii k = if decide (ii < n)%nat then weighted_index lam sa "sme" pu ii k
                               else 0)
       ∧ (∀ ii k, (ii < npvec)%nat → (k < nv)%nat →
            mget st.1.2 ii k = if decide (ii < n)%nat then weighted_index lam sa "ste" pu ii k
                               else 0))
    (aggregate_draw lam sa pu) 0 npvec (zeros2 npvec nv, zeros2 npvec nv, zeros npvec))
    as ([[sme ste] vt] & Hrun & Hinv).
  - lia.
  - cbn [fst snd]. do 2 (split; [apply shape_zeros2|]).
    split; [unfold zeros; by rewrite length_replicate|].
    split; [|split].
    + intros ii. rewrite decide_False by lia. unfold vget, zeros.
      destruct (decide (ii < npvec)%nat).
      * by rewrite lookup_replicate_2.
      * rewrite lookup_ge_None_2; [done|]. rewrite length_replicate. lia.
    + intros ii k _ _. rewrite mget_zeros2. by rewrite decide_False by lia.
    + intros ii k _ _. rewrite mget_zeros2. by rewrite decide_False by lia.
  - intros n [[sme ste] vt] Hn (Hs & Ht & Hv & Gv & Gs & Gt). cbn [fst snd] in *.
    destruct (aggregate_draw_spec sme ste vt n Hs Ht Hv ltac:(lia))
      as (s1 & t1 & v1 & -> & Hs1 & Ht1 & Hv1 & Gs1 & Gt1 & Gv1).
    eexists. split; [done|]. cbn [fst snd]. do 3 (split; [done|]).
    split; [|split].
    + intros ii. rewrite Gv1. case_decide.
      * subst ii. rewrite decide_True by lia. lra.
      * rewrite Gv. destruct (decide (ii < n)%nat).
        -- by rewrite decide_True by lia.
        -- by rewrite decide_False by lia.
    + intros ii k Hi Hk. rewrite Gs1 by done. case_decide.
      * subst ii. rewrite decide_True by lia. rewrite Gs by lia.
        rewrite decide_False by lia. unfold weighted_index, acc.
        rewrite !Rplus_0_l. done.
      * rewrite Gs by done. destruct (decide (ii < n)%nat).
        -- by rewrite decide_True by lia.
        -- by rewrite decide_False by lia.
    + intros ii k Hi Hk. rewrite Gt1 by done. case_decide.
      * subst ii. rewrite decide_True by lia. rewrite Gt by lia.
        rewrite decide_False by lia. unfold weighted_index, acc.
        rewrite !Rplus_0_l. done.
      * rewrite Gt by done. destruct (decide (ii < n)%nat).
        -- by rewrite decide_True by lia.
        -- by rewrite decide_False by lia.
  - cbn [fst snd] in Hinv. destruct Hinv as (Hs & Ht & Hv & Gv & Gs & Gt).
    exists sme, ste, vt. split; [done|]. do 3 (split; [done|]).
    split; [|split].
    + intros ii Hii. rewrite Gv. by rewrite decide_True.
    + intros ii k Hii Hk. rewrite Gs by done. by rewrite decide_True.
    + intros ii k Hii Hk. rewrite Gt by done. by rewrite decide_True.
Qed.

End Aggregate.

(** ** The dictionary of [component_sens] *)

Section ComponentDict.
Context (SepiaDistCov_new : mat → option mat → list nat → res SepiaDistCov)
        (compute_cov_mat : SepiaDistCov → vec → R → option R → res mat)
        (linalg_inv : mat → res mat)
        (linalg_solve : mat → vec → res vec).

(** The entries of the dictionary returned by [component_sens]. *)
Lemma component_sens_dict (x : mat) (y : vec) (beta : mat) (lamUz lamWs : vec)
    (xe : mat) (ngrid : nat) (varlist jelist : option (list (list nat)))
    (rg : mat) (cat_ind : list nat) (sa : gmap string ndarray) :
  component_sens SepiaDistCov_new compute_cov_mat linalg_inv linalg_solve
    x y beta lamUz lamWs xe ngrid varlist jelist rg cat_ind = Ok sa →
  ∃ draws : list draw_out,
    length draws = length beta
    ∧ sa !! "e0" = Some (A1 (map d_e0 draws))
    ∧ sa !! "vt" = Some (A1 (map d_vt draws))
    ∧ sa !! "sme" = Some (A2 (map d_sme draws))
    ∧ sa !! "ste" = Some (A2 (map d_ste draws))
    ∧ sa !! "sie" = (if truthy varlist then Some (A2 (map d_sie draws)) else None)
    ∧ sa !! "jef_m" = (if truthy varlist then Some (A4 (map d_jef_m draws)) else None)
    ∧ sa !! "jef_v" = (if truthy varlist then Some (A4 (map d_jef_v draws)) else None)
    ∧ sa !! "sje" = (if truthy jelist then Some (A2 (map d_sje draws)) else None).
Proof.
  unfold component_sens. intros H.
  apply bind_Ok_inv in H as (hi & Hhi & H).
  apply bind_Ok_inv in H as (lo & Hlo & H).
  apply bind_Ok_inv in H as (diff & Hdiff & H).
  apply bind_Ok_inv in H as (xdist & Hxdist & H).
  apply bind_Ok_inv in H as (dists & Hdists & H).
  apply bind_Ok_inv in H as (vdists & Hvdists & H).
  apply bind_Ok_inv in H as (gps & Hgps & H).
  apply bind_Ok_inv in H as (draws & Hdraws & H).
  inversion H; subst sa; clear H.
  exists draws. split.
  { apply mapM_res_inv in Hdraws as [Hlen _]. rewrite Hlen. unfold range.
    rewrite length_seq. lia. }
  destruct (truthy varlist), (truthy jelist);
    repeat split;
    repeat (first [ rewrite lookup_insert_eq; reflexivity
                  | rewrite lookup_insert_ne by done
                  | apply lookup_empty ]).
Qed.

End ComponentDict.

(** ** The weights [lam] *)

Lemma matmul_spec (A B : mat) (r n c : nat) :
  shape A r n → shape B n c → ncols B = c →
  ∃ G, matmul A B = Ok G ∧ shape G r c
    ∧ ∀ i j, i < r → j < c →
        mget G i j = sum (map (λ k, mget A i k * mget B k j)%R (seq 0 n)).
Proof.
  intros HA HB Hnc. pose proof HA as [HlA HFA]. pose proof HB as [HlB HFB].
  unfold matmul. rewrite Hnc, HlB. rewrite decide_True by done.
  eexists. split; [done|]. split.
  - split; [by rewrite length_fmap|].
    apply Forall_fmap, Forall_forall. intros row _. simpl.
    by rewrite length_fmap, length_seq.
  - intros i j Hi Hj.
    destruct (lookup_lt_is_Some_2 A i) as [row Hrow]; [lia|].
    unfold mget at 1. rewrite list_lookup_fmap, Hrow. simpl.
    rewrite list_lookup_fmap, lookup_seq_lt by lia. simpl.
    rewrite (dot_seq _ _ n).
    + f_equal. apply map_ext_in. intros k Hk. apply in_seq in Hk. f_equal.
      * unfold mget, vget. by rewrite Hrow.
      * unfold mget, vget. rewrite list_lookup_fmap.
        destruct (lookup_lt_is_Some_2 B k) as [brow Hb]; [lia|]. by rewrite Hb.
    + exact (shape_row A r n i row HA Hrow).
    + by rewrite length_fmap.
Qed.

Lemma vget_diag (G : mat) (m i : nat) : shape G m m → i < m → vget (diag G) i = mget G i i.
Proof.
  intros HG Hi. rewrite (diag_square G m HG). unfold vget.
  rewrite list_lookup_fmap, lookup_seq_lt by done. done.
Qed.

(** [lam] is the diagonal of the Gram matrix of the rows of [K]. *)
Lemma sens_lam_gram (K : mat) (pu ny : nat) :
  shape K pu ny → 0 < pu → 0 < ny →
  ∃ lam, sens_lam (transpose K) = Ok lam ∧ length lam = pu
    ∧ ∀ jj, jj < pu →
        vget lam jj = sum (map (λ i, mget K jj i * mget K jj i)%R (seq 0 ny)).
Proof.
  intros HK Hpu Hny.
  pose proof (ncols_shape K pu ny HK Hpu) as HncK.
  pose proof (shape_transpose_rect K pu ny HK HncK) as HT.
  pose proof (ncols_shape (transpose K) ny pu HT Hny) as HncT.
  pose proof (shape_transpose_rect (transpose K) ny pu HT HncT) as HTT.
  unfold sens_lam.
  destruct (matmul_spec (transpose (transpose K)) (transpose K) pu ny pu HTT HT HncT)
    as (G & -> & HG & GG).
  rewrite bind_Ok. exists (diag G). split; [done|]. split.
  - rewrite (diag_square G pu HG). by rewrite length_fmap, length_seq.
  - intros jj Hjj. rewrite (vget_diag G pu) by done. rewrite GG by done.
    f_equal. apply map_ext_in. intros i Hi. apply in_seq in Hi.
    rewrite (mget_transpose_rect (transpose K) ny pu) by (done || lia).
    rewrite (mget_transpose_rect K pu ny) by (done || lia). done.
Qed.

Lemma sens_lam_no_basis : sens_lam [[1%R]] = Ok [(1 * 1 + 0)%R].
Proof. reflexivity. Qed.

(** ** The missing entry for an empty [varlist] *)

Lemma range_0_S (n : nat) : range 0 (S n) = 0 :: seq 1 n.
Proof. reflexivity. Qed.

Lemma aggregate_first_weights (lam : vec) (sa : list (gmap string ndarray))
    (npvec nv pu : nat) (r : mat * mat * vec) :
  0 < npvec → 0 < pu →
  aggregate lam sa npvec nv pu = Ok r →
  ∃ l d, get1 lam 0 = Ok l ∧ list_get sa 0 = Ok d.
Proof.
  intros Hn Hp. unfold aggregate.
  destruct npvec as [|n]; [lia|]. destruct pu as [|q]; [lia|].
  rewrite range_0_S. cbn [for_each].
  intros H. apply bind_Ok_inv in H as (st & H & _).
  unfold aggregate_draw in H. rewrite range_0_S in H. cbn [for_each] in H.
  apply bind_Ok_inv in H as (st' & H & _).
  apply bind_Ok_inv in H as (st'' & H & _).
  unfold aggregate_add in H.
  apply bind_Ok_inv in H as (w & H & _).
  unfold weighted_row in H.
  apply bind_Ok_inv in H as (l & Hl & H).
  apply bind_Ok_inv in H as (d & Hd & H).
  by exists l, d.
Qed.

Lemma aggregate_key_draw_missing (key : string) (lam : vec)
    (sa : list (gmap string ndarray)) (vt : vec) (pu ii : nat) (sie : mat)
    (l : R) (d : gmap string ndarray) :
  0 < pu →
  get1 lam 0 = Ok l → list_get sa 0 = Ok d → d !! key = None →
  aggregate_key_draw key lam sa vt pu ii sie = Raise (KeyError key).
Proof.
  intros Hp Hl Hd Hkey. unfold aggregate_key_draw.
  destruct pu as [|q]; [lia|]. rewrite range_0_S. cbn [for_each].
  unfold weighted_row. rewrite Hl, bind_Ok, Hd, bind_Ok.
  unfold dict_get. rewrite Hkey. done.
Qed.

Lemma aggregate_key_missing (key : string) (lam : vec) (sa : list (gmap string ndarray))
    (vt : vec) (npvec n pu : nat) (l : R) (d : gmap string ndarray) :
  0 < npvec → 0 < pu →
  get1 lam 0 = Ok l → list_get sa 0 = Ok d → d !! key = None →
  aggregate_key key lam sa vt npvec n pu = Raise (KeyError key).
Proof.
  intros Hn Hp Hl Hd Hkey. unfold aggregate_key.
  destruct npvec as [|k]; [lia|].
  rewrite range_0_S. cbn [for_each].
  by rewrite (aggregate_key_draw_missing key lam sa vt pu 0 _ l d).
Qed.

Section MainPart.
Context (SepiaDistCov_new : mat → option mat → list nat → res SepiaDistCov)
        (compute_cov_mat : SepiaDistCov → vec → R → option R → res mat)
        (linalg_inv : mat → res mat)
        (linalg_solve : mat → vec → res vec).
Context (unscale : SepiaModel → list (gmap string ndarray) → mat → nat → nat → nat →
                   option (list (list nat)) → res unscaled).

Abbreviation main_part :=
  (sens_main_part SepiaDistCov_new compute_cov_mat linalg_inv linalg_solve unscale).
Abbreviation components :=
  (sens_components SepiaDistCov_new compute_cov_mat linalg_inv linalg_solve).

(** Every component result lacks the interaction entries when [varlist] is
    empty, and has them when it is a non-empty list. *)
Lemma sens_components_keys (model : SepiaModel) (ngrid : nat)
    (varlist jelist : option (list (list nat))) (ii0 : list nat) (nv : nat) (rg xe : mat)
    (betaU lamUz lamWs : mat) (sa : list (gmap string ndarray)) :
  components model ngrid varlist jelist ii0 nv rg xe betaU lamUz lamWs = Ok sa →
  length sa = num_pu model
  ∧ ∀ jj d, sa !! jj = Some d →
      is_Some (d !! "sme") ∧ is_Some (d !! "ste") ∧ is_Some (d !! "vt")
      ∧ (is_Some (d !! "sie") ↔ truthy varlist = true)
      ∧ (is_Some (d !! "jef_m") ↔ truthy varlist = true)
      ∧ (is_Some (d !! "jef_v") ↔ truthy varlist = true)
      ∧ (is_Some (d !! "sje") ↔ truthy jelist = true).
Proof.
  unfold sens_components. intros H.
  apply bind_Ok_inv in H as (w & Hw & H).
  apply mapM_res_inv in H as [Hlen Hall].
  split; [rewrite Hlen; unfold range; rewrite length_seq; lia|].
  intros jj d Hd.
  assert (jj < num_pu model) as Hjj.
  { apply lookup_lt_Some in Hd. rewrite Hlen in Hd. unfold range in Hd.
    rewrite length_seq in Hd. lia. }
  destruct (Hall jj jj) as (d' & Hcomp & Hd').
  { unfold range. rewrite lookup_seq_lt by lia. done. }
  rewrite Hd in Hd'. inversion Hd'; subst d'. clear Hd'.
  cbn beta zeta in Hcomp.
  apply bind_Ok_inv in Hcomp as (b & _ & Hcomp).
  apply bind_Ok_inv in Hcomp as (u & _ & Hcomp).
  apply bind_Ok_inv in Hcomp as (ws & _ & Hcomp).
  apply bind_Ok_inv in Hcomp as (xs & _ & Hcomp).
  apply bind_Ok_inv in Hcomp as (wi & _ & Hcomp).
  apply component_sens_dict in Hcomp
    as (draws & _ & _ & Hvt & Hsme & Hste & Hsie & Hjm & Hjv & Hsje).
  rewrite Hsme, Hste, Hvt, Hsie, Hjm, Hjv, Hsje.
  do 3 (split; [eauto|]).
  destruct (truthy varlist), (truthy jelist); repeat split;
    first [ by eauto | intros [? ?]; done | done | intros; done ].
Qed.

(** With an empty [varlist] the call cannot get past the aggregation of the
    interaction indices. *)
Lemma main_part_empty_varlist (model : SepiaModel) (ngrid : nat) (varlist : varlist_arg)
    (jelist : option (list (list nat))) (ii0 : list nat) (nv : nat) (rg xe : mat)
    (betaU lamUz lamWs : mat) :
  sens_varlist varlist nv = Some [] →
  0 < num_pu model → betaU ≠ [] →
  (∃ e, main_part model ngrid varlist jelist ii0 nv rg xe betaU lamUz lamWs = Raise e)
  ∧ ∀ sa lam r,
      components model ngrid (Some []) jelist ii0 nv rg xe betaU lamUz lamWs = Ok sa →
      sens_lam (sens_ksmm model) = Ok lam →
      aggregate lam sa (length betaU) nv (num_pu model) = Ok r →
      main_part model ngrid varlist jelist ii0 nv rg xe betaU lamUz lamWs
        = Raise (KeyError "sie").
Proof.
  intros Hvl Hpu Hb.
  assert (0 < length betaU) as Hn by (destruct betaU; [done|simpl; lia]).
  assert (∀ sa lam r,
      components model ngrid (Some []) jelist ii0 nv rg xe betaU lamUz lamWs = Ok sa →
      sens_lam (sens_ksmm model) = Ok lam →
      aggregate lam sa (length betaU) nv (num_pu model) = Ok r →
      main_part model ngrid varlist jelist ii0 nv rg xe betaU lamUz lamWs
        = Raise (KeyError "sie")) as Hkey.
  { intros sa lam [[sme ste] vt] Hsa Hlam Hagg.
    unfold sens_main_part. rewrite Hvl.
    rewrite Hsa, bind_Ok, Hlam, bind_Ok, Hagg, bind_Ok.
    destruct (aggregate_first_weights _ _ _ _ _ _ Hn Hpu Hagg) as (l & d & Hl & Hd).
    destruct (sens_components_keys _ _ _ _ _ _ _ _ _ _ _ _ Hsa) as [_ Hkeys].
    assert (sa !! 0 = Some d) as Hd0.
    { unfold list_get in Hd. destruct (sa !! 0); by inversion Hd. }
    destruct (Hkeys 0 d Hd0) as (_ & _ & _ & Hsie & _).
    assert (d !! "sie" = None) as Hnone.
    { destruct (d !! "sie") eqn:E; [|done].
      destruct Hsie as [Hsie _]. by specialize (Hsie ltac:(eauto)). }
    by rewrite (aggregate_key_missing "sie" lam sa vt _ _ _ l d). }
  split; [|exact Hkey].
  destruct (components model ngrid (Some []) jelist ii0 nv rg xe betaU lamUz lamWs)
    as [sa|e] eqn:Hsa.
  - destruct (sens_lam (sens_ksmm model)) as [lam|e] eqn:Hlam.
    + destruct (aggregate lam sa (length betaU) nv (num_pu model)) as [r|e] eqn:Hagg.
      * eexists. by eapply Hkey.
      * exists e. unfold sens_main_part. rewrite Hvl.
        by rewrite Hsa, bind_Ok, Hlam, bind_Ok, Hagg.
    + exists e. unfold sens_main_part. rewrite Hvl. by rewrite Hsa, bind_Ok, Hlam.
  - exists e. unfold sens_main_part. rewrite Hvl. by rewrite Hsa.
Qed.

(** The entries of the result that come from the aggregation. *)
Lemma main_part_results (model : SepiaModel) (ngrid : nat) (varlist : varlist_arg)
    (jelist : option (list (list nat))) (ii0 : list nat) (nv : nat) (rg xe : mat)
    (betaU lamUz lamWs : mat) (sens : gmap string sensval) :
  main_part model ngrid varlist jelist ii0 nv rg xe betaU lamUz lamWs = Ok sens →
  ∃ sa lam sme ste vt,
    components model ngrid (sens_varlist varlist nv) jelist ii0 nv rg xe betaU lamUz lamWs
      = Ok sa
    ∧ sens_lam (sens_ksmm model) = Ok lam
    ∧ aggregate lam sa (length betaU) nv (num_pu model) = Ok (sme, ste, vt)
    ∧ sens !! "sa" = Some (SList sa)
    ∧ sens !! "totalVar" = Some (SArr (A1 vt))
    ∧ sens !! "smePm" = Some (SArr (squeeze1 (mean0 nv sme)))
    ∧ sens !! "stePm" = Some (SArr (squeeze1 (mean0 nv ste)))
    ∧ (is_Some (sens !! "siePm") ↔ is_Some (sens_varlist varlist nv)).
Proof.
  unfold sens_main_part. intros H.
  apply bind_Ok_inv in H as (sa & Hsa & H).
  apply bind_Ok_inv in H as (lam & Hlam & H).
  apply bind_Ok_inv in H as ([[sme ste] vt] & Hagg & H).
  apply bind_Ok_inv in H as (siePm & Hsie & H).
  apply bind_Ok_inv in H as (sjePm & Hsje & H).
  apply bind_Ok_inv in H as (u & Hu & H).
  inversion H; subst sens; clear H.
  exists sa, lam, sme, ste, vt. do 3 (split; [done|]).
  assert (is_Some siePm ↔ is_Some (sens_varlist varlist nv)) as Hiff.
  { destruct (sens_varlist varlist nv) as [vl|].
    - apply bind_Ok_inv in Hsie as (sie & _ & Hsie). inversion Hsie. split; eauto.
    - inversion Hsie. split; intros [? ?]; done. }
  assert (∀ k v, k ≠ "siePm" → k ≠ "jef_m" → k ≠ "jef_sd" → k ≠ "tjef_m" →
            k ≠ "tjef_sd" → k ≠ "sjePm" →
            ∀ base : gmap string sensval, base !! k = Some v →
            (match sjePm with
             | Some s => <["sjePm" := SArr s]>
                 (match siePm with
                  | Some s =>
                      <["tjef_sd" := SArr (u_tjef_sd u)]>
                      (<["tjef_m" := SArr (u_tjef_m u)]>
                      (<["jef_sd" := SArr (u_jef_sd u)]>
                      (<["jef_m" := SArr (u_jef_m u)]>
                      (<["siePm" := SArr s]> base))))
                  | None => base
                  end)
             | None =>
                 (match siePm with
                  | Some s =>
                      <["tjef_sd" := SArr (u_tjef_sd u)]>
                      (<["tjef_m" := SArr (u_tjef_m u)]>
                      (<["jef_sd" := SArr (u_jef_sd u)]>
                      (<["jef_m" := SArr (u_jef_m u)]>
                      (<["siePm" := SArr s]> base))))
                  | None => base
                  end)
             end) !! k = Some v) as Hframe.
  { intros k v ? ? ? ? ? ? base Hbase.
    destruct siePm, sjePm; by rewrite ?lookup_insert_ne by done. }
  split; [apply Hframe; try done; by rewrite ?lookup_insert_ne, ?lookup_insert_eq by done|].
  split; [apply Hframe; try done; by rewrite ?lookup_insert_ne, ?lookup_insert_eq by done|].
  split; [apply Hframe; try done; by rewrite ?lookup_insert_ne, ?lookup_insert_eq by done|].
  split; [apply Hframe; try done; by rewrite ?lookup_insert_ne, ?lookup_insert_eq by done|].
  rewrite <- Hiff.
  destruct siePm as [s|], sjePm as [t|];
    rewrite ?lookup_insert_ne by done; rewrite ?lookup_insert_eq, ?lookup_empty;
    split; intros [? ?]; eauto; done.
Qed.

Abbreviation sens_call :=
  (sensitivity SepiaDistCov_new compute_cov_mat linalg_inv linalg_solve unscale).

(** A call that returns a result went through [sens_main_part]. *)
Lemma sensitivity_returned (model : SepiaModel) (samples_dict : option (gmap string mat))
    (ngrid : nat) (varlist : varlist_arg) (jelist : option (list (list nat)))
    (rg : option mat) (opt : option_arg) (msgs : list string) (sens : gmap string sensval) :
  sens_call model samples_dict ngrid varlist jelist rg opt = Returned msgs (Some sens) →
  msgs = []
  ∧ ∃ b0 u0 w0 ii0 nv rg' xe betaU lamUz lamWs,
      sens_option opt b0 u0 w0 = Ok (Some (betaU, lamUz, lamWs))
      ∧ main_part model ngrid varlist jelist ii0 nv rg' xe betaU lamUz lamWs = Ok sens.
Proof.
  unfold sensitivity.
  destruct (_ ≫= _) as [[[[b0 u0] w0] [[ii0 nv] rg']]|e]; [|done].
  destruct (decide (nv = 0)); [done|].
  destruct (mapM_res _ _) as [xcols|e]; [|done].
  destruct (sens_option opt b0 u0 w0) as [[[[betaU lamUz] lamWs]|]|e] eqn:Hopt; [|done|done].
  destruct (sens_main_part _ _ _ _ _ _ _ _ _ _ _ _ _ _ _ _) as [s|e] eqn:Hmain; [|done].
  intros H. inversion H; subst. split; [done|].
  eexists b0, u0, w0, _, _, _, _, betaU, lamUz, lamWs. split; [exact Hopt|exact Hmain].
Qed.

Lemma sens_ranges_rg_raises (nv : nat) (rg : mat) :
  (∃ e, sens_ranges nv (Some rg) = Raise e)
  ∧ (Forall (λ row : vec, 2 ≤ length row) rg →
     sens_ranges nv (Some rg) = Raise (AttributeError "tuple" "shape")).
Proof.
  split.
  - unfold sens_ranges.
    destruct (col rg 0) as [c0|e]; [|by eexists]. rewrite bind_Ok.
    destruct (col rg 1) as [c1|e]; [|by eexists]. rewrite bind_Ok.
    destruct (bcast _ c0 c1) as [mask|e]; [|by eexists]. rewrite bind_Ok.
    by eexists.
  - intros Hrg. unfold sens_ranges.
    assert (∀ j, j < 2 → col rg j = Ok (map (λ row, vget row j) rg)) as Hcol.
    { intros j Hj. unfold col. apply mapM_res_ok.
      eapply Forall_impl; [exact Hrg|]. intros row Hrow. simpl in *.
      apply get1_vget. lia. }
    rewrite !Hcol by lia. rewrite !bind_Ok.
    rewrite bcast_same by (by rewrite !length_fmap). rewrite bind_Ok. done.
Qed.

Lemma sens_option_invalid (opt : option_arg) (b u w : mat) :
  invalid_option opt → sens_option opt b u w = Ok None.
Proof.
  destruct opt as [s|d|]; simpl; [|done|done].
  intros (H1 & H2 & H3). by rewrite !decide_False.
Qed.

Lemma default_ranges_xe (nv ngrid : nat) :
  ∃ xcols,
    mapM_res (λ ii, lo ← get2 (map (λ row : vec, <[1 := 1%R]> row) (zeros2 nv 2)) ii 0;
                    hi ← get2 (map (λ row : vec, <[1 := 1%R]> row) (zeros2 nv 2)) ii 1;
                    Ok (linspace lo hi ngrid)) (range 0 nv) = Ok xcols.
Proof.
  eexists. apply mapM_res_ok with (g := λ ii, linspace 0 1 ngrid).
  apply Forall_forall. intros ii Hii. apply list_elem_of_In, in_seq in Hii.
  unfold get2, get_row. rewrite list_lookup_fmap. unfold zeros2.
  rewrite lookup_replicate_2 by lia. simpl. done.
Qed.

(** An unrecognised [option] makes the call print the message and return
    [None]. *)
Lemma sensitivity_invalid_option_returns (model : SepiaModel)
    (samples_dict : option (gmap string mat)) (ngrid : nat) (varlist : varlist_arg)
    (jelist : option (list (list nat))) (opt : option_arg) :
  has_samples (default (get_samples model) samples_dict) →
  num_p model + num_q model ≠ 0 →
  invalid_option opt →
  sens_call model samples_dict ngrid varlist jelist None opt
    = Returned [invalid_option_message] None.
Proof.
  intros ([b Hb] & [u Hu] & [w Hw]) Hnv Hopt. unfold sensitivity, dict_get.
  rewrite Hb, Hu, Hw, !bind_Ok. cbn [sens_ranges]. rewrite bind_Ok.
  rewrite decide_False by done.
  destruct (default_ranges_xe (num_p model + num_q model) ngrid) as [xcols ->].
  by rewrite sens_option_invalid.
Qed.

End MainPart.

(** ** Further facts about rows, shapes and means *)

Lemma mat_ext (A B : mat) (r c : nat) :
  shape A r c → shape B r c →
  (∀ i j, i < r → j < c → mget A i j = mget B i j) → A = B.
Proof.
  intros HA HB Hext. pose proof HA as [HlA _]. pose proof HB as [HlB _].
  apply list_eq. intros i.
  destruct (decide (i < r)) as [Hi|Hi].
  - destruct (lookup_lt_is_Some_2 A i) as [a Ha]; [lia|].
    destruct (lookup_lt_is_Some_2 B i) as [b Hb]; [lia|].
    rewrite Ha, Hb. f_equal.
    pose proof (shape_row A r c i a HA Ha) as Hla.
    pose proof (shape_row B r c i b HB Hb) as Hlb.
    apply list_eq. intros j.
    destruct (decide (j < c)) as [Hj|Hj].
    + specialize (Hext i j Hi Hj). unfold mget in Hext. rewrite Ha, Hb in Hext.
      simpl in Hext.
      destruct (lookup_lt_is_Some_2 a j) as [x Hx]; [lia|].
      destruct (lookup_lt_is_Some_2 b j) as [y Hy]; [lia|].
      rewrite Hx, Hy in *. simpl in Hext. by rewrite Hext.
    + rewrite !lookup_ge_None_2 by lia. done.
  - rewrite !lookup_ge_None_2 by lia. done.
Qed.

Lemma pair_row_lex (m i j i' j' : nat) :
  i < j < m → i' < j' < m → i < i' ∨ (i = i' ∧ j < j') →
  pair_row m i j < pair_row m i' j'.
Proof.
  intros Hij Hij' [Hlt|[-> Hlt]]; unfold pair_row; [|lia].
  pose proof (pairs_before_mono m (S i) i' ltac:(lia)) as H. simpl in H. lia.
Qed.

Lemma pair_row_onto (m n k : nat) :
  n ≤ m → k < pairs_before m n → ∃ i j, i < n ∧ i < j < m ∧ pair_row m i j = k.
Proof.
  induction n as [|n IH]; intros Hn Hk; simpl in Hk; [lia|].
  destruct (decide (k < pairs_before m n)) as [Hlt|Hge].
  - destruct (IH ltac:(lia) Hlt) as (i & j & Hi & Hj & Hr). exists i, j. split; [lia|done].
  - exists n, (n + 1 + (k - pairs_before m n)). unfold pair_row. lia.
Qed.

Lemma set_row_shape (M M' : mat) (r c k : nat) (row : vec) :
  shape M r c → set_row M k row = Ok M' → shape M' r c.
Proof.
  intros HM Hset. apply set_row_Ok in Hset as (old & Hold & ->).
  pose proof HM as [Hlen HF]. split; [by rewrite length_insert|].
  apply Forall_insert; [done|]. unfold assigned_row.
  pose proof (shape_row M r c k old HM Hold) as Hc.
  case_decide; [lia|]. rewrite length_replicate. done.
Qed.

Lemma calc2_loops_shape (x : mat) (xdist : SepiaDistCov) (m : nat) (rg : mat)
    (beta diff : vec) (C0 C2 : mat) (r c : nat) :
  shape C0 r c → calc2_loops x xdist m rg beta diff C0 = Ok C2 → shape C2 r c.
Proof.
  intros H0 Hrun. unfold calc2_loops in Hrun.
  apply bind_Ok_inv in Hrun as ([kk C1] & Hpairs & Hrun).
  apply bind_Ok_inv in Hrun as ([kk' C2'] & Hdiag & Hrun).
  inversion Hrun; subst C2'. clear Hrun.
  assert (shape C1 r c) as H1.
  { refine (range_ok (λ _ (st : nat * mat), shape st.2 r c) _ 0 m _ _ ltac:(lia) Hpairs H0 _).
    intros ii [k C] [k' C'] Hii HC Hbody. cbn [snd] in *.
    refine (range_ok (λ _ (st : nat * mat), shape st.2 r c) _ (ii + 1) m _ _
              ltac:(lia) Hbody HC _).
    intros jj [k1 Ca] [k2 Cb] Hjj HCa Hb. cbn [snd] in *.
    apply bind_Ok_inv in Hb as (row & _ & Hb).
    apply bind_Ok_inv in Hb as (C'' & Hset & Hb).
    inversion Hb; subst. by eapply set_row_shape. }
  refine (range_ok (λ _ (st : nat * mat), shape st.2 r c) _ 0 m _ _ ltac:(lia) Hdiag H1 _).
  intros ii [k C] [k' C'] Hii HC Hbody. cbn [snd] in *.
  apply bind_Ok_inv in Hbody as (xi & _ & Hbody).
  apply bind_Ok_inv in Hbody as (row & _ & Hbody).
  apply bind_Ok_inv in Hbody as (C'' & Hset & Hbody).
  inversion Hbody; subst. by eapply set_row_shape.
Qed.

(** [varf] consults the table only in the rows of the pairs and of the
    diagonal. *)
Lemma varf_rows_only (m p : nat) (Js : list nat) (C2 C2' : mat) (ef : vec) (nc : nat) :
  shape C2 (m * (m + 1) / 2 + m) nc → shape C2' (m * (m + 1) / 2 + m) nc →
  Forall (λ d, d < nc) Js →
  (setxor1d (arange p) Js ≠ [] → length ef = m) →
  (∀ k, k < pairs_before m m ∨ pairs_before m m < k ≤ pairs_before m m + m →
        C2 !! k = C2' !! k) →
  varf m p Js C2 ef = varf m p Js C2' ef.
Proof.
  intros H1 H2 HJ Hef Hagree.
  assert (∀ T, shape T (m * (m + 1) / 2 + m) nc →
            Forall (λ row : vec, Forall (λ d, d < length row) Js) T) as Hcols.
  { intros T [_ HF]. eapply Forall_impl; [exact HF|]. intros row Hrow. simpl in Hrow.
    by rewrite Hrow. }
  destruct (varf_run m p Js C2 ef) as (V & -> & HV & GV);
    [by destruct H1|by apply Hcols|done|].
  destruct (varf_run m p Js C2' ef) as (V' & -> & HV' & GV');
    [by destruct H2|by apply Hcols|done|].
  f_equal. apply (mat_ext V V' m m HV HV').
  intros i j Hi Hj. rewrite GV, GV' by done. unfold varf_entry.
  assert (∀ k, k < pairs_before m m ∨ pairs_before m m < k ≤ pairs_before m m + m →
            C2_prod C2 k Js = C2_prod C2' k Js) as Hprod.
  { intros k Hk. unfold C2_prod. f_equal. apply map_ext. intros d. unfold mget.
    by rewrite (Hagree k Hk). }
  case_decide.
  - rewrite Hprod; [done|]. rewrite diag_row_eq. lia.
  - rewrite Hprod; [done|]. left. apply pair_row_lt. lia.
Qed.

Lemma mean0_entry (M : mat) (r c k : nat) :
  shape M r c → k < c →
  vget (mean0 c M) k = (sum (map (λ ii, mget M ii k) (seq 0 r)) / INR r)%R.
Proof.
  intros HM Hk. pose proof HM as [Hlen _]. unfold mean0, vget.
  rewrite list_lookup_fmap, lookup_seq_lt by done. simpl. rewrite Hlen. f_equal. f_equal.
  apply list_eq_seq; [by rewrite length_fmap|].
  intros i x Hx. rewrite list_lookup_fmap in Hx.
  destruct (M !! i) as [row|] eqn:Hrow; simpl in Hx; [|done].
  inversion Hx. unfold vget, mget. by rewrite Hrow.
Qed.

(** ** The draws behind the result of [component_sens] *)

Section ComponentDraws.
Context (SepiaDistCov_new : mat → option mat → list nat → res SepiaDistCov)
        (compute_cov_mat : SepiaDistCov → vec → R → option R → res mat)
        (linalg_inv : mat → res mat)
        (linalg_solve : mat → vec → res vec).

(** The rows of the arrays returned by [component_sens] are the values that
    [sens_draw] computes for the draws. *)
Lemma component_sens_draws (x : mat) (y : vec) (beta : mat) (lamUz lamWs : vec)
    (xe : mat) (ngrid : nat) (varlist jelist : option (list (list nat)))
    (rg : mat) (cat_ind : list nat) (sa : gmap string ndarray) :
  component_sens SepiaDistCov_new compute_cov_mat linalg_inv linalg_solve
    x y beta lamUz lamWs xe ngrid varlist jelist rg cat_ind = Ok sa →
  ∃ (draws : list draw_out) diff xdist xexdist xedist,
    length draws = length beta
    ∧ sa !! "vt" = Some (A1 (map d_vt draws))
    ∧ sa !! "sme" = Some (A2 (map d_sme draws))
    ∧ sa !! "ste" = Some (A2 (map d_ste draws))
    ∧ ∀ ii out, draws !! ii = Some out →
        ∃ betaei lamUzi lamWsi P My Q,
          get_row beta ii = Ok betaei
          ∧ get1 lamUz ii = Ok lamUzi
          ∧ sens_draw compute_cov_mat x xdist xexdist xedist (length x) (ncols beta) ngrid
              rg diff varlist jelist betaei lamUzi lamWsi (P, My, Q) = Ok out.
Proof.
  intros Hsa.
  destruct (component_sens_dict _ _ _ _ _ _ _ _ _ _ _ _ _ _ _ _ Hsa)
    as (draws0 & _ & _ & Hvt & Hsme & Hste & _).
  unfold component_sens in Hsa.
  apply bind_Ok_inv in Hsa as (hi & Hhi & H).
  apply bind_Ok_inv in H as (lo & Hlo & H).
  apply bind_Ok_inv in H as (diff & Hdiff & H).
  apply bind_Ok_inv in H as (xdist & Hxdist & H).
  apply bind_Ok_inv in H as (dists & Hdists & H).
  apply bind_Ok_inv in H as (vdists & Hvdists & H).
  apply bind_Ok_inv in H as (gps & Hgps & H).
  apply bind_Ok_inv in H as (draws & Hdraws & H).
  inversion H; subst sa; clear H.
  exists draws, diff, xdist, (map fst dists ++ map fst vdists),
    (map snd dists ++ map snd vdists).
  apply mapM_res_inv in Hdraws as [Hlen Hall].
  assert (length draws = length beta) as Hl
    by (rewrite Hlen; unfold range; rewrite length_seq; lia).
  split; [done|].
  assert (∀ k v, k ≠ "sie" → k ≠ "jef_m" → k ≠ "jef_v" → k ≠ "sje" →
            ∀ base : gmap string ndarray, base !! k = Some v →
            (if truthy jelist
             then <["sje" := A2 (map d_sje draws)]>
                    (if truthy varlist
                     then <["jef_v" := A4 (map d_jef_v draws)]>
                            (<["jef_m" := A4 (map d_jef_m draws)]>
                               (<["sie" := A2 (map d_sie draws)]> base))
                     else base)
             else (if truthy varlist
                   then <["jef_v" := A4 (map d_jef_v draws)]>
                          (<["jef_m" := A4 (map d_jef_m draws)]>
                             (<["sie" := A2 (map d_sie draws)]> base))
                   else base)) !! k = Some v) as Hframe.
  { intros k v ? ? ? ? base Hbase.
    destruct (truthy jelist), (truthy varlist); by rewrite ?lookup_insert_ne by done. }
  split; [apply Hframe; try done; by rewrite ?lookup_insert_ne, ?lookup_insert_eq by done|].
  split; [apply Hframe; try done; by rewrite ?lookup_insert_ne, ?lookup_insert_eq by done|].
  split; [apply Hframe; try done; by rewrite ?lookup_insert_ne, ?lookup_insert_eq by done|].
  intros ii out Hout.
  assert (ii < length beta) as Hii by (apply lookup_lt_Some in Hout; lia).
  destruct (Hall ii ii) as (out' & Hdraw & Hout').
  { unfold range. rewrite lookup_seq_lt by lia. done. }
  rewrite Hout in Hout'. inversion Hout'; subst out'. clear Hout'.
  cbn beta in Hdraw.
  apply bind_Ok_inv in Hdraw as (betaei & Hb & Hdraw).
  apply bind_Ok_inv in Hdraw as (lamUzi & Hu & Hdraw).
  apply bind_Ok_inv in Hdraw as (lamWsi & Hw & Hdraw).
  apply bind_Ok_inv in Hdraw as ([[P My] Q] & Hgp & Hdraw).
  by exists betaei, lamUzi, lamWsi, P, My, Q.
Qed.

End ComponentDraws.

(** ** The example inputs *)

Lemma example_has_samples : has_samples example_samples.
Proof.
  unfold has_samples, example_samples.
  repeat split; rewrite ?lookup_insert_ne by done; rewrite lookup_insert_eq; eauto.
Qed.

Lemma example_component_entries (jj : nat) (d : gmap string ndarray) :
  [example_component] !! jj = Some d →
  (∃ v, d !! "vt" = Some (A1 v) ∧ length v = 1)
  ∧ (∃ M, d !! "sme" = Some (A2 M) ∧ shape M 1 1)
  ∧ (∃ M, d !! "ste" = Some (A2 M) ∧ shape M 1 1).
Proof.
  destruct jj as [|jj]; simpl; [|intros H; by rewrite lookup_nil in H].
  intros H. inversion H; subst d. unfold example_component.
  split; [|split]; eexists;
    (split; [rewrite ?lookup_insert_ne by done; apply lookup_insert_eq|]);
    first [reflexivity | split; [reflexivity|repeat constructor]].
Qed.

(** ** Runs on the example inputs *)

Example calc2_example :
  ∃ C2, calc2 [[0]; [1]]%R {| ind0 := [0]; ind1 := [1]; sqdist := [[1%R]]; dist_n := 2 |}
          2 [[0; 1]]%R [1%R] [1%R] = Ok C2 ∧ length C2 = 5.
Proof.
  eexists. split.
  - vm_compute. reflexivity.
  - reflexivity.
Qed.

Example component_example :
  ∃ sa, component_sens toy_distcov toy_cov_mat toy_inv toy_solve
          [[0]; [1]]%R [0; 1]%R [[1%R]] [1%R] [1%R] [[0]; [1]]%R 2 None None
          [[0; 1]]%R [0] = Ok sa.
Proof.
  eexists. vm_compute. reflexivity.
Qed.

Example sensitivity_example_empty_varlist :
  sensitivity toy_distcov toy_cov_mat toy_inv toy_solve toy_unscale
    example_model None 2 (VarList []) None None (OptStr "mean") = Raised (KeyError "sie").
Proof.
  vm_compute. reflexivity.
Qed.

Example sensitivity_example_returns :
  ∃ sens, sensitivity toy_distcov toy_cov_mat toy_inv toy_solve toy_unscale
    example_model None 2 VarNone None None (OptStr "mean") = Returned [] (Some sens).
Proof.
  eexists. vm_compute. reflexivity.
Qed.

(** * The claims *)

Section Claims.
Context (SepiaDistCov_new : mat → option mat → list nat → res SepiaDistCov)
        (compute_cov_mat : SepiaDistCov → vec → R → option R → res mat)
        (linalg_inv : mat → res mat)
        (linalg_solve : mat → vec → res vec).
Context (unscale : SepiaModel → list (gmap string ndarray) → mat → nat → nat → nat →
                   option (list (list nat)) → res unscaled).

(** C1 (the code departs from the claim). Whenever a range matrix [rg] is
    supplied, the call raises: [np.where] returns a tuple, and line 56 asks it
    for the attribute [shape]. No dimension is dropped and no [smePm] is
    returned. *)
Theorem sensitivity_with_rg_raises (model : SepiaModel)
    (samples_dict : option (gmap string mat)) (ngrid : nat) (varlist : varlist_arg)
    (jelist : option (list (list nat))) (rg : mat) (opt : option_arg) :
  (∃ e, sensitivity SepiaDistCov_new compute_cov_mat linalg_inv linalg_solve unscale
          model samples_dict ngrid varlist jelist (Some rg) opt = Raised e)
  ∧ (has_samples (default (get_samples model) samples_dict) →
     Forall (λ row : vec, 2 ≤ length row) rg →
     sensitivity SepiaDistCov_new compute_cov_mat linalg_inv linalg_solve unscale
       model samples_dict ngrid varlist jelist (Some rg) opt
     = Raised (AttributeError "tuple" "shape")).
Proof.
  destruct (sens_ranges_rg_raises (num_p model + num_q model) rg) as [[e He] Hwf].
  split.
  - unfold sensitivity.
    destruct (dict_get _ "betaU") as [b|e1]; [|by eexists]. rewrite bind_Ok.
    destruct (dict_get _ "lamUz") as [u|e1]; [|by eexists]. rewrite bind_Ok.
    destruct (dict_get _ "lamWs") as [w|e1]; [|by eexists]. rewrite bind_Ok.
    rewrite He. by eexists.
  - intros ([b Hb] & [u Hu] & [w Hw]) Hrg. unfold sensitivity, dict_get.
    rewrite Hb, Hu, Hw, !bind_Ok. by rewrite (Hwf Hrg).
Qed.

(** C3 (amended). When the call reaches the choice of the draws with an
    [option] that is neither ['mean'], ['median'], ['samples'] nor a
    dictionary, it prints a message that names the accepted values and returns
    [None]: nothing is raised, no default is substituted and no partial result
    is returned. *)
Theorem sensitivity_invalid_option (model : SepiaModel)
    (samples_dict : option (gmap string mat)) (ngrid : nat) (varlist : varlist_arg)
    (jelist : option (list (list nat))) (opt : option_arg) :
  has_samples (default (get_samples model) samples_dict) →
  num_p model + num_q model ≠ 0 →
  invalid_option opt →
  sensitivity SepiaDistCov_new compute_cov_mat linalg_inv linalg_solve unscale
    model samples_dict ngrid varlist jelist None opt
  = Returned
      ["invalid option (choose mean, median, or samples, or pass dict of values for betaU, lamUz, lamWs)"]
      None.
Proof. apply sensitivity_invalid_option_returns. Qed.

End Claims.

(** C3, as the specification states it, fails: the call below returns. *)
Lemma invalid_option_is_not_raised :
  ¬ ∃ e, sensitivity toy_distcov toy_cov_mat toy_inv toy_solve toy_unscale
           example_model None 21 VarNone None None (OptStr "max") = Raised e.
Proof.
  rewrite sensitivity_invalid_option_returns.
  - intros [e H]. discriminate H.
  - apply example_has_samples.
  - simpl. lia.
  - simpl. done.
Qed.

Lemma sensitivity_invalid_option_witness :
  has_samples (default (get_samples example_model) None)
  ∧ num_p example_model + num_q example_model ≠ 0
  ∧ invalid_option (OptStr "max")
  ∧ sensitivity toy_distcov toy_cov_mat toy_inv toy_solve toy_unscale
      example_model None 21 VarNone None None (OptStr "max")
    = Returned
        ["invalid option (choose mean, median, or samples, or pass dict of values for betaU, lamUz, lamWs)"]
        None.
Proof.
  assert (has_samples (default (get_samples example_model) None)) as H1
    by apply example_has_samples.
  assert (num_p example_model + num_q example_model ≠ 0) as H2 by (simpl; lia).
  assert (invalid_option (OptStr "max")) as H3 by (simpl; done).
  do 3 (split; [assumption|]).
  exact (sensitivity_invalid_option toy_distcov toy_cov_mat toy_inv toy_solve
           toy_unscale example_model None 21 VarNone None (OptStr "max") H1 H2 H3).
Defined.

(** C2 (the code departs from the claim). For a requested pair the code takes
    the trace of the elementwise product [Q * varf(...)], not of the matrix
    product used for the main effects: at the example draw it stores
    [sie = -3], where the rule of the main effects gives [-5]. *)
Theorem pair_index_uses_elementwise_product :
  sens_inter 2 2 example_Q 1 example_c1 example_C2 example_c3 0 1 [0; 0]%R [0; 1]
    = Ok ((-3)%R, [1; 1]%R, 1%R)
  ∧ ∃ V, varf 2 2 [0; 1] example_C2 [1; 1]%R = Ok V
      ∧ trace_times example_Q V = Ok 4%R
      ∧ trace_matmul example_Q V = Ok 6%R
      ∧ ((1 / 1 - 6 / (1 * 1) - 0) / 1 - 0 - 0 = -5)%R.
Proof.
  split.
  - vm_compute. repeat f_equal; lra.
  - eexists. split; [vm_compute; reflexivity|]. split; [|split].
    + vm_compute. f_equal. lra.
    + vm_compute. f_equal. lra.
    + lra.
Qed.

(** C4. For every draw [ii] the aggregated main and total indices are the
    per-component indices combined with the weights [lam[jj] * vt_jj], where
    [lam] is the diagonal of the Gram matrix of the basis [K] of the model
    ([lam = [1]] for a model without basis) and [vt_jj] is the
    total variance of component [jj] for that draw, divided by the summed
    weighted variance [vt0]; [smePm] and [stePm] are the means of these
    aggregates over the draws, and the per-component results are returned
    under [sa]. *)
Theorem aggregated_indices (lam : vec) (sa : list (gmap string ndarray))
    (npvec nv pu : nat) :
  pu ≤ length lam →
  length sa = pu →
  (∀ jj d, sa !! jj = Some d → ∃ v, d !! "vt" = Some (A1 v) ∧ length v = npvec) →
  (∀ jj d, sa !! jj = Some d → ∃ M, d !! "sme" = Some (A2 M) ∧ shape M npvec nv) →
  (∀ jj d, sa !! jj = Some d → ∃ M, d !! "ste" = Some (A2 M) ∧ shape M npvec nv) →
  (** lines 120-131 *)
  (∃ sme ste vt,
     aggregate lam sa npvec nv pu = Ok (sme, ste, vt)
     ∧ (∀ ii, ii < npvec →
          vget vt ii = sum (map (λ jj, vget lam jj * comp_vt sa jj ii)%R (seq 0 pu)))
     ∧ (∀ ii k, ii < npvec → k < nv →
          mget sme ii k
          = (sum (map (λ jj, vget lam jj * comp_entry sa "sme" jj ii k * comp_vt sa jj ii)
                      (seq 0 pu)) / vget vt ii)%R
          ∧ mget ste ii k
            = (sum (map (λ jj, vget lam jj * comp_entry sa "ste" jj ii k * comp_vt sa jj ii)
                        (seq 0 pu)) / vget vt ii)%R)
     (** lines 133-134 *)
     ∧ (∀ k, k < nv →
          vget (mean0 nv sme) k = (sum (map (λ ii, mget sme ii k) (seq 0 npvec)) / INR npvec)%R
          ∧ vget (mean0 nv ste) k
            = (sum (map (λ ii, mget ste ii k) (seq 0 npvec)) / INR npvec)%R))
  (** line 119 *)
  ∧ (∀ K ny, shape K pu ny → 0 < pu → 0 < ny →
       ∃ lam', sens_lam (transpose K) = Ok lam' ∧ length lam' = pu
         ∧ ∀ jj, jj < pu →
             vget lam' jj = sum (map (λ i, mget K jj i * mget K jj i)%R (seq 0 ny)))
  (** lines 220-238 *)
  ∧ (∀ SepiaDistCov_new compute_cov_mat linalg_inv linalg_solve unscale
       model ngrid varlist jelist ii0 nv' rg xe betaU lamUz lamWs sens,
       sens_main_part SepiaDistCov_new compute_cov_mat linalg_inv linalg_solve unscale
         model ngrid varlist jelist ii0 nv' rg xe betaU lamUz lamWs = Ok sens →
       ∃ sa' lam' sme ste vt,
         sens_components SepiaDistCov_new compute_cov_mat linalg_inv linalg_solve
           model ngrid (sens_varlist varlist nv') jelist ii0 nv' rg xe betaU lamUz lamWs
         = Ok sa'
         ∧ sens_lam (sens_ksmm model) = Ok lam'
         (** lines 113-119: [lam] is read off the basis [K] of the model *)
         ∧ (∀ K ny, sim_K model = Some K → shape K (num_pu model) ny →
              0 < num_pu model → 0 < ny →
              length lam' = num_pu model
              ∧ ∀ jj, jj < num_pu model →
                  vget lam' jj = sum (map (λ i, mget K jj i * mget K jj i)%R (seq 0 ny)))
         ∧ (sim_K model = None → lam' = [1%R])
         ∧ aggregate lam' sa' (length betaU) nv' (num_pu model) = Ok (sme, ste, vt)
         ∧ sens !! "sa" = Some (SList sa')
         ∧ sens !! "totalVar" = Some (SArr (A1 vt))
         ∧ sens !! "smePm" = Some (SArr (squeeze1 (mean0 nv' sme)))
         ∧ sens !! "stePm" = Some (SArr (squeeze1 (mean0 nv' ste)))).
Proof.
  intros Hlam Hsa Hvt Hsme Hste. split; [|split].
  - destruct (aggregate_run lam sa npvec nv pu Hlam Hsa Hvt Hsme Hste)
      as (sme & ste & vt & Hagg & Hs & Ht & Hv & Gv & Gs & Gt).
    exists sme, ste, vt. split; [done|]. split; [|split].
    + intros ii Hii. by rewrite Gv.
    + intros ii k Hii Hk. rewrite Gs, Gt, Gv by done. done.
    + intros k Hk. by rewrite (mean0_entry sme npvec nv), (mean0_entry ste npvec nv).
  - intros K ny. apply sens_lam_gram.
  - intros SepiaDistCov_new compute_cov_mat linalg_inv linalg_solve unscale
      model ngrid varlist jelist ii0 nv' rg xe betaU lamUz lamWs sens Hmain.
    destruct (main_part_results _ _ _ _ _ _ _ _ _ _ _ _ _ _ _ _ _ Hmain)
      as (sa' & lam' & sme & ste & vt & H1 & H2 & H3 & H4 & H5 & H6 & H7 & _).
    exists sa', lam', sme, ste, vt. do 2 (split; [done|]). split; [|split; [|done]].
    + intros K ny HK HKs Hpu' Hny. unfold sens_ksmm in H2. rewrite HK in H2.
      destruct (sens_lam_gram K (num_pu model) ny HKs Hpu' Hny) as (lam'' & Hl & Hlen & G).
      rewrite Hl in H2. inversion H2; subst lam''. by split.
    + intros HK. unfold sens_ksmm in H2. rewrite HK, sens_lam_no_basis in H2.
      inversion H2. f_equal. lra.
Qed.

Lemma aggregated_indices_witness :
  1 ≤ length [2%R]
  ∧ length [example_component] = 1
  ∧ (∀ jj d, [example_component] !! jj = Some d →
       ∃ v, d !! "vt" = Some (A1 v) ∧ length v = 1)
  ∧ (∀ jj d, [example_component] !! jj = Some d →
       ∃ M, d !! "sme" = Some (A2 M) ∧ shape M 1 1)
  ∧ (∀ jj d, [example_component] !! jj = Some d →
       ∃ M, d !! "ste" = Some (A2 M) ∧ shape M 1 1)
  ∧ ∃ sme ste vt,
      aggregate [2%R] [example_component] 1 1 1 = Ok (sme, ste, vt)
      ∧ vget vt 0
        = sum (map (λ jj, vget [2%R] jj * comp_vt [example_component] jj 0)%R (seq 0 1)).
Proof.
  assert (1 ≤ length [2%R]) as H1 by (simpl; lia).
  assert (length [example_component] = 1) as H2 by reflexivity.
  pose proof (λ jj d H, proj1 (example_component_entries jj d H)) as H3.
  pose proof (λ jj d H, proj1 (proj2 (example_component_entries jj d H))) as H4.
  pose proof (λ jj d H, proj2 (proj2 (example_component_entries jj d H))) as H5.
  do 5 (split; [assumption|]).
  destruct (aggregated_indices [2%R] [example_component] 1 1 1 H1 H2 H3 H4 H5)
    as [(sme & ste & vt & Hagg & Gv & _) _].
  exists sme, ste, vt. split; [exact Hagg|]. apply Gv. lia.
Defined.

(** C6. On every well-shaped input, [varf] returns a matrix whose entry
    [(i, j)], [i ≠ j], is the product over the dimensions in [Js] of the row of
    [C2] that belongs to the pair [{i, j}], times [ef[i] * ef[j]] for the
    complementary dimensions, and whose entry [(i, i)] is the product over [Js]
    of the self-pair row of [C2] times [ef[i]] squared. An empty [Js], or an
    empty complement (as when [Js] is all of [range(p)] and [ef] is empty),
    contributes the factor 1. *)
Theorem varf_entries (m p : nat) (Js : list nat) (C2 : mat) (ef : vec) :
  length C2 = m * (m + 1) / 2 + m →
  Forall (λ row : vec, Forall (λ d, d < length row) Js) C2 →
  (setxor1d (arange p) Js ≠ [] → length ef = m) →
  (∃ Vf, varf m p Js C2 ef = Ok Vf
     ∧ ∀ i j, i < m → j < m →
         get2 Vf i j
         = Ok ((if decide (Js = []) then 1
                else prod (map (mget C2 (if decide (i = j) then diag_row m i
                                         else pair_row m (i `min` j) (i `max` j))) Js))
               * (if decide (setxor1d (arange p) Js = []) then 1
                  else vget ef i * vget ef j))%R)
  ∧ setxor1d (arange p) (arange p) = [].
Proof.
  intros Hrows Hcols Hef. split.
  - destruct (varf_run m p Js C2 ef Hrows Hcols Hef) as (Vf & HVf & Hshape & G).
    exists Vf. split; [done|]. intros i j Hi Hj.
    rewrite (get2_mget Vf m m) by done. rewrite G by done. f_equal.
    unfold varf_entry, ef_factor, C2_prod.
    destruct (decide (i = j)) as [->|Hne];
      (destruct (decide (Js = [])) as [->|HJ]; [simpl; done|done]).
  - rewrite setxor1d_arange by apply arange_bound. apply complement_full.
Qed.

Lemma varf_entries_witness :
  length example_table = 2 * (2 + 1) / 2 + 2
  ∧ Forall (λ row : vec, Forall (λ d, d < length row) [0]) example_table
  ∧ (setxor1d (arange 2) [0] ≠ [] → length example_ef = 2)
  ∧ ∃ Vf, varf 2 2 [0] example_table example_ef = Ok Vf
      ∧ get2 Vf 0 1
        = Ok (prod (map (mget example_table (pair_row 2 0 1)) [0%nat])
              * (vget example_ef 0 * vget example_ef 1))%R.
Proof.
  assert (length example_table = 2 * (2 + 1) / 2 + 2) as H1 by reflexivity.
  assert (Forall (λ row : vec, Forall (λ d, d < length row) [0]) example_table) as H2
    by (repeat constructor).
  assert (setxor1d (arange 2) [0] ≠ [] → length example_ef = 2) as H3
    by (intros _; reflexivity).
  split; [exact H1|]. split; [exact H2|]. split; [exact H3|].
  destruct (varf_entries 2 2 [0] example_table example_ef H1 H2 H3) as [(Vf & HVf & G) _].
  exists Vf. split; [exact HVf|]. exact (G 0 1 ltac:(lia) ltac:(lia)).
Defined.

(** C7. On every well-shaped input the matrix returned by [varf] is exactly
    symmetric: [Vf[i, j] = Vf[j, i]] for all [i], [j]. *)
Theorem varf_symmetric (m p : nat) (Js : list nat) (C2 : mat) (ef : vec) :
  length C2 = m * (m + 1) / 2 + m →
  Forall (λ row : vec, Forall (λ d, d < length row) Js) C2 →
  (setxor1d (arange p) Js ≠ [] → length ef = m) →
  ∃ Vf, varf m p Js C2 ef = Ok Vf
    ∧ ∀ i j, i < m → j < m → ∃ v, get2 Vf i j = Ok v ∧ get2 Vf j i = Ok v.
Proof.
  intros Hrows Hcols Hef.
  destruct (varf_run m p Js C2 ef Hrows Hcols Hef) as (Vf & HVf & Hshape & G).
  exists Vf. split; [done|]. intros i j Hi Hj.
  exists (mget Vf i j). rewrite !(get2_mget Vf m m) by done. split; [done|].
  f_equal. rewrite !G by done. unfold varf_entry.
  destruct (decide (i = j)) as [->|Hne]; [by rewrite decide_True|].
  rewrite !decide_False by done.
  rewrite (Nat.min_comm j i), (Nat.max_comm j i). unfold ef_factor.
  case_decide; [done|]. f_equal. apply Rmult_comm.
Qed.

Lemma varf_symmetric_witness :
  length example_table = 2 * (2 + 1) / 2 + 2
  ∧ Forall (λ row : vec, Forall (λ d, d < length row) [1]) example_table
  ∧ (setxor1d (arange 2) [1] ≠ [] → length example_ef = 2)
  ∧ ∃ Vf, varf 2 2 [1] example_table example_ef = Ok Vf
      ∧ ∃ v, get2 Vf 0 1 = Ok v ∧ get2 Vf 1 0 = Ok v.
Proof.
  assert (length example_table = 2 * (2 + 1) / 2 + 2) as H1 by reflexivity.
  assert (Forall (λ row : vec, Forall (λ d, d < length row) [1]) example_table) as H2
    by (repeat constructor).
  assert (setxor1d (arange 2) [1] ≠ [] → length example_ef = 2) as H3
    by (intros _; reflexivity).
  split; [exact H1|]. split; [exact H2|]. split; [exact H3|].
  destruct (varf_symmetric 2 2 [1] example_table example_ef H1 H2 H3) as (Vf & HVf & G).
  exists Vf. split; [exact HVf|]. apply (G 0 1); lia.
Defined.

(** C9. The rows of [C2] that [varf] reads are the rows that [calc2] writes:
    the pairs [i < j] take the rows [0 .. m(m-1)/2 - 1] in lexicographic order,
    the diagonal takes the rows [m(m-1)/2 + 1 .. m(m-1)/2 + m]; row [m(m-1)/2]
    and the last [m - 1] of the [m(m+1)/2 + m] allocated rows are neither
    written by [calc2] nor read by [varf]: in the table that [calc2] returns
    they hold the zeros of the allocation, and [varf] gives the same result
    on every table that agrees with it on the written rows. *)
Theorem calc2_varf_rows (m : nat) :
  (** the layout of the rows *)
  (m * (m + 1) / 2 + m = m * (m - 1) / 2 + 2 * m
   ∧ (∀ i j, i < j < m → pair_row m i j < m * (m - 1) / 2)
   ∧ (∀ i j i' j', i < j < m → i' < j' < m → i < i' ∨ (i = i' ∧ j < j') →
        pair_row m i j < pair_row m i' j')
   ∧ (∀ k, k < m * (m - 1) / 2 → ∃ i j, i < j < m ∧ pair_row m i j = k)
   ∧ (∀ i, diag_row m i = m * (m - 1) / 2 + 1 + i))
  (** the rows written by [calc2] *)
  ∧ (∀ x xdist rg beta diff C0 C2,
       calc2_loops x xdist m rg beta diff C0 = Ok C2 →
       (∀ i j, i < j < m →
          ∃ row old, calc2_pair x xdist rg beta diff i j = Ok row
            ∧ C0 !! pair_row m i j = Some old
            ∧ C2 !! pair_row m i j = Some (assigned_row (length old) row))
       ∧ (∀ i, i < m →
            ∃ xi row old, get_row x i = Ok xi
              ∧ calc3 xi rg (map (Rmult 2) beta) diff = Ok row
              ∧ C0 !! diag_row m i = Some old
              ∧ C2 !! diag_row m i = Some (assigned_row (length old) row))
       ∧ (∀ k, k = m * (m - 1) / 2 ∨ m * (m - 1) / 2 + m < k → C2 !! k = C0 !! k))
  (** [calc2] allocates the table and runs the two loops on it *)
  ∧ (∀ x xdist rg beta diff C2,
       calc2 x xdist m rg beta diff = Ok C2 →
       shape C2 (m * (m + 1) / 2 + m) (length beta)
       ∧ (∀ i j, i < j < m →
            ∃ row, calc2_pair x xdist rg beta diff i j = Ok row
              ∧ C2 !! pair_row m i j = Some (assigned_row (length beta) row))
       ∧ (∀ i, i < m →
            ∃ xi row, get_row x i = Ok xi
              ∧ calc3 xi rg (map (Rmult 2) beta) diff = Ok row
              ∧ C2 !! diag_row m i = Some (assigned_row (length beta) row))
       ∧ (∀ k, k = m * (m - 1) / 2 ∨ m * (m - 1) / 2 + m < k →
            k < m * (m + 1) / 2 + m → C2 !! k = Some (zeros (length beta)))
       ∧ (∀ p Js ef C2',
            shape C2' (m * (m + 1) / 2 + m) (length beta) →
            Forall (λ d, d < length beta) Js →
            (setxor1d (arange p) Js ≠ [] → length ef = m) →
            (∀ i j, i < j < m → C2' !! pair_row m i j = C2 !! pair_row m i j) →
            (∀ i, i < m → C2' !! diag_row m i = C2 !! diag_row m i) →
            varf m p Js C2' ef = varf m p Js C2 ef))
  (** the rows read by [varf] *)
  ∧ (∀ p Js C2 C2' ef nc,
       shape C2 (m * (m + 1) / 2 + m) nc → shape C2' (m * (m + 1) / 2 + m) nc →
       Forall (λ d, d < nc) Js →
       (setxor1d (arange p) Js ≠ [] → length ef = m) →
       (∀ i j, i < j < m → C2 !! pair_row m i j = C2' !! pair_row m i j) →
       (∀ i, i < m → C2 !! diag_row m i = C2' !! diag_row m i) →
       ∃ Vf, varf m p Js C2 ef = Ok Vf ∧ varf m p Js C2' ef = Ok Vf
         ∧ ∀ i j, i < m → j < m → get2 Vf i j = Ok (varf_entry m p Js C2 ef i j))
  (** every entry that [varf] consults was initialised by [calc2] *)
  ∧ (∀ x xdist rg beta diff p Js ef C0 C0' T T',
       shape C0 (m * (m + 1) / 2 + m) (length beta) →
       shape C0' (m * (m + 1) / 2 + m) (length beta) →
       Forall (λ d, d < length beta) Js →
       (setxor1d (arange p) Js ≠ [] → length ef = m) →
       calc2_loops x xdist m rg beta diff C0 = Ok T →
       calc2_loops x xdist m rg beta diff C0' = Ok T' →
       varf m p Js T ef = varf m p Js T' ef).
Proof.
  assert (∀ p Js C2 C2' ef nc,
       shape C2 (m * (m + 1) / 2 + m) nc → shape C2' (m * (m + 1) / 2 + m) nc →
       Forall (λ d, d < nc) Js →
       (setxor1d (arange p) Js ≠ [] → length ef = m) →
       (∀ i j, i < j < m → C2 !! pair_row m i j = C2' !! pair_row m i j) →
       (∀ i, i < m → C2 !! diag_row m i = C2' !! diag_row m i) →
       varf m p Js C2 ef = varf m p Js C2' ef) as Hreads.
  { intros p Js C2 C2' ef nc H1 H2 HJ Hef Hp Hd.
    apply (varf_rows_only m p Js C2 C2' ef nc H1 H2 HJ Hef).
    intros k [Hk|Hk].
    - destruct (pair_row_onto m m k ltac:(lia) Hk) as (i & j & _ & Hij & <-). by apply Hp.
    - replace k with (diag_row m (k - pairs_before m m - 1)) by (rewrite diag_row_eq; lia).
      apply Hd. lia. }
  split; [|split; [|split; [|split]]].
  - rewrite pairs_total. split; [apply table_rows|].
    split; [intros i j Hij; by apply pair_row_lt|].
    split; [apply pair_row_lex|].
    split; [|intros i; apply diag_row_eq].
    intros k Hk. destruct (pair_row_onto m m k ltac:(lia) Hk) as (i & j & _ & Hij & Hr).
    by exists i, j.
  - intros x xdist rg beta diff C0 C2 Hrun. rewrite pairs_total.
    destruct (calc2_loops_rows x xdist m rg beta diff C0 C2 Hrun) as (Hp & Hd & Hf).
    split; [|split; [|exact Hf]].
    + intros i j Hij. destruct (Hp i j Hij) as (row & Hrow & old & Ho & Hc).
      by exists row, old.
    + intros i Hi. destruct (Hd i Hi) as (row & Hrow & old & Ho & Hc).
      apply bind_Ok_inv in Hrow as (xi & Hxi & Hrow). by exists xi, row, old.
  - intros x xdist rg beta diff C2 Hrun. unfold calc2 in Hrun.
    pose proof (shape_zeros2 (m * (m + 1) / 2 + m) (length beta)) as H0.
    pose proof (calc2_loops_shape _ _ _ _ _ _ _ _ _ _ H0 Hrun) as HT.
    destruct (calc2_loops_rows x xdist m rg beta diff _ C2 Hrun) as (Hp & Hd & Hf).
    rewrite <- pairs_total in Hf.
    split; [done|]. split; [|split; [|split]].
    + intros i j Hij. destruct (Hp i j Hij) as (row & Hrow & old & Ho & Hc).
      exists row. split; [done|]. by rewrite <- (shape_row _ _ _ _ _ H0 Ho).
    + intros i Hi. destruct (Hd i Hi) as (row & Hrow & old & Ho & Hc).
      apply bind_Ok_inv in Hrow as (xi & Hxi & Hrow). exists xi, row.
      do 2 (split; [done|]). by rewrite <- (shape_row _ _ _ _ _ H0 Ho).
    + intros k Hk Hlt. rewrite (Hf k Hk). unfold zeros2.
      by rewrite lookup_replicate_2.
    + intros p Js ef C2' H2 HJ Hef Hpa Hda.
      by apply (Hreads p Js C2' C2 ef (length beta)).
  - intros p Js C2 C2' ef nc H1 H2 HJ Hef Hp Hd.
    assert (Forall (λ row : vec, Forall (λ d, d < length row) Js) C2) as Hcols.
    { destruct H1 as [_ HF]. eapply Forall_impl; [exact HF|]. intros row Hrow.
      simpl in Hrow. by rewrite Hrow. }
    destruct (varf_run m p Js C2 ef ltac:(by destruct H1) Hcols Hef) as (Vf & HVf & HV & G).
    exists Vf. split; [done|]. split.
    + by rewrite <- (Hreads p Js C2 C2' ef nc).
    + intros i j Hi Hj. rewrite (get2_mget Vf m m) by done. by rewrite G.
  - intros x xdist rg beta diff p Js ef C0 C0' T T' H0 H0' HJ Hef Hrun Hrun'.
    pose proof (calc2_loops_shape _ _ _ _ _ _ _ _ _ _ H0 Hrun) as HT.
    pose proof (calc2_loops_shape _ _ _ _ _ _ _ _ _ _ H0' Hrun') as HT'.
    destruct (calc2_loops_rows x xdist m rg beta diff C0 T Hrun) as (Hp & Hd & _).
    destruct (calc2_loops_rows x xdist m rg beta diff C0' T' Hrun') as (Hp' & Hd' & _).
    apply (Hreads p Js T T' ef (length beta) HT HT' HJ Hef).
    + intros i j Hij.
      destruct (Hp i j Hij) as (row & Hrow & old & Ho & ->).
      destruct (Hp' i j Hij) as (row' & Hrow' & old' & Ho' & ->).
      rewrite Hrow in Hrow'. inversion Hrow'; subst row'.
      by rewrite (shape_row _ _ _ _ _ H0 Ho), (shape_row _ _ _ _ _ H0' Ho').
    + intros i Hi.
      destruct (Hd i Hi) as (row & Hrow & old & Ho & ->).
      destruct (Hd' i Hi) as (row' & Hrow' & old' & Ho' & ->).
      rewrite Hrow in Hrow'. inversion Hrow'; subst row'.
      by rewrite (shape_row _ _ _ _ _ H0 Ho), (shape_row _ _ _ _ _ H0' Ho').
Qed.

(** ** [calc1] in binary64 arithmetic *)

(** When [np.pi/beta] overflows, the first term of [calc1] is an infinity or
    a NaN, and so is the result. *)
Lemma calc1_binary64_overflow (cdf pdf : b64 → b64) (beta64 : b64) (md : positive) (ed : Z) :
  b64_div b64_pi beta64 = S754_infinity false →
  b64_is_finite (calc1_binary64 cdf pdf beta64 (S754_finite false md ed)) = false.
Proof.
  intros Hov. unfold calc1_binary64. rewrite Hov.
  change (b64_sqrt (S754_infinity false)) with (S754_infinity false).
  change (b64_mul (S754_infinity false) (S754_finite false md ed))
    with (S754_infinity false).
  generalize (b64_sub (b64_mul b64_two
                (cdf (b64_mul (b64_sqrt (b64_mul b64_two beta64)) (S754_finite false md ed))))
                b64_one).
  generalize (b64_mul (b64_div b64_one beta64)
                (b64_sub b64_one
                   (b64_mul (b64_sqrt (b64_mul b64_two b64_pi))
                      (pdf (b64_mul (b64_sqrt (b64_mul b64_two beta64))
                              (S754_finite false md ed)))))).
  generalize (b64_mul (S754_finite false md ed) (S754_finite false md ed)).
  intros D T2 c.
  destruct c as [sc|sc| |sc mc ec], T2 as [s2|s2| |s2 m2 e2], D as [sd|sd| |sd m3 e3];
    try reflexivity;
    repeat match goal with s : bool |- _ => destruct s end; reflexivity.
Qed.




(** * Further properties *)

(** ** The driver [sensitivity] *)

Lemma unit_ranges_grid (nv ngrid : nat) :
  mapM_res (λ ii, lo ← get2 (unit_ranges nv) ii 0; hi ← get2 (unit_ranges nv) ii 1;
                  Ok (linspace lo hi ngrid)) (range 0 nv)
  = Ok (map (λ _, linspace 0 1 ngrid) (range 0 nv)).
Proof.
  apply mapM_res_ok. apply Forall_forall. intros ii Hii.
  apply list_elem_of_In, in_seq in Hii.
  unfold unit_ranges, get2, get_row. rewrite list_lookup_fmap. unfold zeros2.
  rewrite lookup_replicate_2 by lia. simpl. done.
Qed.

Lemma aggregate_lengths (lam : vec) (sa : list (gmap string ndarray)) (npvec nv pu : nat)
    (sme ste : mat) (vt : vec) :
  aggregate lam sa npvec nv pu = Ok (sme, ste, vt) → length vt = npvec.
Proof.
  unfold aggregate. intros Hrun.
  refine (range_ok (λ _ (st : mat * mat * vec), length st.2 = npvec) _ 0 npvec _ _
            ltac:(lia) Hrun _ _).
  - simpl. unfold zeros. by rewrite length_replicate.
  - intros ii [[s t] v] [[s' t'] v'] Hii Hv Hbody. cbn [snd] in *.
    unfold aggregate_draw in Hbody.
    apply bind_Ok_inv in Hbody as ([[s1 t1] v0] & _ & Hbody).
    apply bind_Ok_inv in Hbody as (s2 & _ & Hbody).
    apply bind_Ok_inv in Hbody as (t2 & _ & Hbody).
    apply bind_Ok_inv in Hbody as (v2 & Hset & Hbody).
    inversion Hbody; subst. unfold set1 in Hset.
    case_decide; [|done]. inversion Hset. by rewrite length_insert.
Qed.

Lemma sens_option_draws (opt : option_arg) (d : gmap string mat) (b0 u0 w0 : mat)
    (betaU lamUz lamWs : mat) :
  d !! "betaU" = Some b0 →
  sens_option opt b0 u0 w0 = Ok (Some (betaU, lamUz, lamWs)) →
  length betaU = selected_draws opt d.
Proof.
  intros Hb. destruct opt as [s|o|]; simpl; [| |done].
  - destruct (decide (s = "samples")); [intros H; inversion H; subst; by rewrite Hb|].
    destruct (decide (s = "mean")); [intros H; by inversion H|].
    destruct (decide (s = "median")); [intros H; by inversion H|done].
  - unfold dict_get. destruct (o !! "betaU") as [b|]; [|done]. rewrite bind_Ok.
    destruct (o !! "lamUz") as [u|]; [|done]. rewrite bind_Ok.
    destruct (o !! "lamWs") as [w|]; [|done]. rewrite bind_Ok.
    intros H. by inversion H.
Qed.

Section Driver.
Context (SepiaDistCov_new : mat → option mat → list nat → res SepiaDistCov)
        (compute_cov_mat : SepiaDistCov → vec → R → option R → res mat)
        (linalg_inv : mat → res mat)
        (linalg_solve : mat → vec → res vec).
Context (unscale : SepiaModel → list (gmap string ndarray) → mat → nat → nat → nat →
                   option (list (list nat)) → res unscaled).

Abbreviation run_main :=
  (sens_main_part SepiaDistCov_new compute_cov_mat linalg_inv linalg_solve unscale).
Abbreviation run_components :=
  (sens_components SepiaDistCov_new compute_cov_mat linalg_inv linalg_solve).
Abbreviation run_call :=
  (sensitivity SepiaDistCov_new compute_cov_mat linalg_inv linalg_solve unscale).

(** A call that returns a result was made without [rg], on a model with at
    least one input, and ran [sens_main_part] on the unit ranges. *)
Lemma sensitivity_returned_inv (model : SepiaModel) (samples_dict : option (gmap string mat))
    (ngrid : nat) (varlist : varlist_arg) (jelist : option (list (list nat)))
    (rg : option mat) (opt : option_arg) (msgs : list string) (sens : gmap string sensval) :
  run_call model samples_dict ngrid varlist jelist rg opt = Returned msgs (Some sens) →
  msgs = [] ∧ rg = None ∧ num_p model + num_q model ≠ 0
  ∧ ∃ b0 u0 w0 betaU lamUz lamWs,
      default (get_samples model) samples_dict !! "betaU" = Some b0
      ∧ default (get_samples model) samples_dict !! "lamUz" = Some u0
      ∧ default (get_samples model) samples_dict !! "lamWs" = Some w0
      ∧ sens_option opt b0 u0 w0 = Ok (Some (betaU, lamUz, lamWs))
      ∧ run_main model ngrid varlist jelist (arange (num_p model + num_q model))
          (num_p model + num_q model) (unit_ranges (num_p model + num_q model))
          (unit_grid (num_p model + num_q model) ngrid) betaU lamUz lamWs = Ok sens.
Proof.
  unfold sensitivity, dict_get.
  destruct (default (get_samples model) samples_dict !! "betaU") as [b0|]; [|done].
  destruct (default (get_samples model) samples_dict !! "lamUz") as [u0|]; [|done].
  destruct (default (get_samples model) samples_dict !! "lamWs") as [w0|]; [|done].
  rewrite !bind_Ok.
  destruct rg as [rg|].
  { destruct (sens_ranges_rg_raises (num_p model + num_q model) rg) as [[e ->] _]. done. }
  cbn [sens_ranges]. rewrite bind_Ok.
  destruct (decide (num_p model + num_q model = 0)) as [|Hnv]; [done|].
  fold (unit_ranges (num_p model + num_q model)).
  rewrite unit_ranges_grid. fold (unit_grid (num_p model + num_q model) ngrid).
  destruct (sens_option opt b0 u0 w0) as [[[[betaU lamUz] lamWs]|]|e] eqn:Hopt; [|done|done].
  destruct (sens_main_part _ _ _ _ _ _ _ _ _ _ _ _ _ _ _ _) as [s|e] eqn:Hmain; [|done].
  intros H. inversion H; subst. do 3 (split; [done|]).
  by exists b0, u0, w0, betaU, lamUz, lamWs.
Qed.

(** The keys of the dictionary built at the end of [sens_main_part]. *)
Lemma main_part_keys (model : SepiaModel) (ngrid : nat) (varlist : varlist_arg)
    (jelist : option (list (list nat))) (ii0 : list nat) (nv : nat) (rg xe : mat)
    (betaU lamUz lamWs : mat) (sens : gmap string sensval) :
  run_main model ngrid varlist jelist ii0 nv rg xe betaU lamUz lamWs = Ok sens →
  dom sens = result_keys varlist jelist.
Proof.
  unfold sens_main_part. intros H.
  apply bind_Ok_inv in H as (sa & Hsa & H).
  apply bind_Ok_inv in H as (lam & Hlam & H).
  apply bind_Ok_inv in H as ([[sme ste] vt] & Hagg & H).
  apply bind_Ok_inv in H as (siePm & Hsie & H).
  apply bind_Ok_inv in H as (sjePm & Hsje & H).
  apply bind_Ok_inv in H as (u & Hu & H).
  inversion H; subst sens; clear H.
  assert (is_Some siePm ↔ varlist ≠ VarNone) as Hv.
  { destruct varlist as [| |l]; simpl in Hsie.
    - inversion Hsie. split; [intros [? ?]; done|done].
    - apply bind_Ok_inv in Hsie as (sie & _ & Hsie). inversion Hsie. split; eauto.
    - apply bind_Ok_inv in Hsie as (sie & _ & Hsie). inversion Hsie. split; eauto. }
  assert (is_Some sjePm ↔ is_Some jelist) as Hj.
  { destruct jelist as [jl|].
    - apply bind_Ok_inv in Hsje as (sje & _ & Hsje). inversion Hsje. split; eauto.
    - inversion Hsje. split; intros [? ?]; done. }
  unfold result_keys, base_keys, interaction_keys.
  destruct siePm as [s|], sjePm as [t|], varlist as [| |l], jelist as [jl|];
    try (exfalso; (apply Hv; by eauto) || (by destruct (proj1 Hv ltac:(eauto)))
                  || (by destruct (proj2 Hv ltac:(done)))
                  || (by destruct (proj1 Hj ltac:(eauto)))
                  || (by destruct (proj2 Hj ltac:(eauto))));
    rewrite ?dom_insert_L, dom_empty_L; simpl; set_solver.
Qed.

(** With [jelist = []] the call cannot get past the aggregation of the joint
    indices. *)
Lemma main_part_empty_jelist (model : SepiaModel) (ngrid : nat) (varlist : varlist_arg)
    (ii0 : list nat) (nv : nat) (rg xe : mat) (betaU lamUz lamWs : mat) :
  0 < num_pu model → betaU ≠ [] →
  (∃ e, run_main model ngrid varlist (Some []) ii0 nv rg xe betaU lamUz lamWs = Raise e)
  ∧ ∀ sa lam r,
      run_components model ngrid None (Some []) ii0 nv rg xe betaU lamUz lamWs = Ok sa →
      sens_lam (sens_ksmm model) = Ok lam →
      aggregate lam sa (length betaU) nv (num_pu model) = Ok r →
      run_main model ngrid VarNone (Some []) ii0 nv rg xe betaU lamUz lamWs
        = Raise (KeyError "sje").
Proof.
  intros Hpu Hb.
  assert (0 < length betaU) as Hn by (destruct betaU; [done|simpl; lia]).
  assert (∀ vl sa lam sme ste vt,
      run_components model ngrid vl (Some []) ii0 nv rg xe betaU lamUz lamWs = Ok sa →
      aggregate lam sa (length betaU) nv (num_pu model) = Ok (sme, ste, vt) →
      aggregate_key "sje" lam sa vt (length betaU) (length ([] : list (list nat)))
        (num_pu model) = Raise (KeyError "sje")) as Hkey.
  { intros vl sa lam sme ste vt Hsa Hagg.
    destruct (aggregate_first_weights _ _ _ _ _ _ Hn Hpu Hagg) as (l & d & Hl & Hd).
    destruct (sens_components_keys _ _ _ _ _ _ _ _ _ _ _ _ _ _ _ _ Hsa) as [_ Hkeys].
    assert (sa !! 0 = Some d) as Hd0.
    { unfold list_get in Hd. destruct (sa !! 0); by inversion Hd. }
    destruct (Hkeys 0 d Hd0) as (_ & _ & _ & _ & _ & _ & Hsje).
    assert (d !! "sje" = None) as Hnone.
    { destruct (d !! "sje") eqn:E; [|done].
      destruct Hsje as [Hsje _]. by specialize (Hsje ltac:(eauto)). }
    by apply (aggregate_key_missing "sje" lam sa vt _ _ _ l d). }
  split.
  - unfold sens_main_part.
    destruct (sens_components _ _ _ _ _ _ _ _ _ _ _ _ _ _ _) as [sa|e] eqn:Hsa;
      [|by eexists].
    rewrite bind_Ok.
    destruct (sens_lam (sens_ksmm model)) as [lam|e]; [|by eexists]. rewrite bind_Ok.
    destruct (aggregate lam sa (length betaU) nv (num_pu model)) as [[[sme ste] vt]|e]
      eqn:Hagg; [|by eexists].
    rewrite bind_Ok.
    destruct (match sens_varlist varlist nv with Some _ => _ | None => _ end)
      as [siePm|e]; [|by eexists].
    rewrite bind_Ok. rewrite (Hkey _ _ _ _ _ _ Hsa Hagg). by eexists.
  - intros sa lam [[sme ste] vt] Hsa Hlam Hagg. unfold sens_main_part. simpl sens_varlist.
    rewrite Hsa, bind_Ok, Hlam, bind_Ok, Hagg, !bind_Ok.
    by rewrite (Hkey _ _ _ _ _ _ Hsa Hagg).
Qed.

End Driver.

(** [itertools.combinations(range(n), 2)] lists the pairs in lexicographic
    order. *)
Lemma combinations2_prefix (n k : nat) :
  k ≤ n →
  length (mjoin (map (λ i, map (λ j, [i; j]) (range (i + 1) n)) (seq 0 k)))
  = pairs_before n k.
Proof.
  induction k as [|k IH]; intros Hk; [done|].
  rewrite seq_S, map_app, join_app, length_app, IH by lia. simpl.
  rewrite app_nil_r, length_fmap. unfold range. rewrite length_seq. lia.
Qed.

Lemma combinations2_lookup (n i j : nat) :
  i < j < n → combinations2 n !! pair_row n i j = Some [i; j].
Proof.
  intros Hij. unfold combinations2, range at 2. rewrite Nat.sub_0_r.
  replace n with (i + S (n - i - 1)) at 2 by lia.
  rewrite seq_app, map_app, join_app. simpl seq. rewrite map_cons. cbn [mjoin list_join].
  unfold pair_row.
  rewrite lookup_app_r by (rewrite combinations2_prefix by lia; lia).
  rewrite combinations2_prefix by lia.
  replace (pairs_before n i + (j - i - 1) - pairs_before n i) with (j - i - 1) by lia.
  rewrite lookup_app_l.
  2:{ rewrite length_fmap. unfold range. rewrite length_seq. lia. }
  rewrite list_lookup_fmap. unfold range. rewrite lookup_seq_lt by lia. simpl.
  do 3 f_equal. lia.
Qed.

Lemma combinations2_length (n : nat) : length (combinations2 n) = n * (n - 1) / 2.
Proof.
  rewrite pairs_total. unfold combinations2, range at 2. rewrite Nat.sub_0_r.
  by apply combinations2_prefix.
Qed.

(** * Further properties of the driver [sensitivity] *)

Section DriverProperties.
Context (SepiaDistCov_new : mat → option mat → list nat → res SepiaDistCov)
        (compute_cov_mat : SepiaDistCov → vec → R → option R → res mat)
        (linalg_inv : mat → res mat)
        (linalg_solve : mat → vec → res vec).
Context (unscale : SepiaModel → list (gmap string ndarray) → mat → nat → nat → nat →
                   option (list (list nat)) → res unscaled).

(** X1. On a model without inputs ([p + q = 0]) a call without [rg] prints
    ['error:  no free variables'] and returns [None] (lines 60-62), whatever
    [ngrid], [varlist], [jelist] and [option] are: the check comes before the
    [option] is looked at. *)
Theorem sensitivity_no_free_variables (model : SepiaModel)
    (samples_dict : option (gmap string mat)) (ngrid : nat) (varlist : varlist_arg)
    (jelist : option (list (list nat))) (opt : option_arg) :
  has_samples (default (get_samples model) samples_dict) →
  num_p model + num_q model = 0 →
  sensitivity SepiaDistCov_new compute_cov_mat linalg_inv linalg_solve unscale
    model samples_dict ngrid varlist jelist None opt
  = Returned [no_free_variables_message] None.
Proof.
  intros ([b Hb] & [u Hu] & [w Hw]) Hnv. unfold sensitivity, dict_get.
  rewrite Hb, Hu, Hw, !bind_Ok. cbn [sens_ranges]. rewrite bind_Ok.
  by rewrite decide_True.
Qed.

(** X2. When the samples dictionary lacks one of the entries [betaU], [lamUz],
    [lamWs], the call raises [KeyError] for a missing entry (lines 45-47),
    whatever the other arguments are. *)
Theorem sensitivity_missing_samples (model : SepiaModel)
    (samples_dict : option (gmap string mat)) (ngrid : nat) (varlist : varlist_arg)
    (jelist : option (list (list nat))) (rg : option mat) (opt : option_arg) :
  ¬ has_samples (default (get_samples model) samples_dict) →
  ∃ key, key ∈ ["betaU"; "lamUz"; "lamWs"]
    ∧ default (get_samples model) samples_dict !! key = None
    ∧ sensitivity SepiaDistCov_new compute_cov_mat linalg_inv linalg_solve unscale
        model samples_dict ngrid varlist jelist rg opt = Raised (KeyError key).
Proof.
  intros Hno. unfold sensitivity, dict_get.
  destruct (default (get_samples model) samples_dict !! "betaU") as [b|] eqn:Hb.
  2:{ exists "betaU". split; [set_solver|]. by split. }
  destruct (default (get_samples model) samples_dict !! "lamUz") as [u|] eqn:Hu.
  2:{ exists "lamUz". split; [set_solver|]. by split. }
  destruct (default (get_samples model) samples_dict !! "lamWs") as [w|] eqn:Hw.
  2:{ exists "lamWs". split; [set_solver|]. by split. }
  exfalso. apply Hno. unfold has_samples. rewrite Hb, Hu, Hw. eauto.
Qed.

(** X3. A call that returns a dictionary has printed nothing, and the keys of
    the dictionary are [sa], [totalMean], [totalVar], [smePm], [stePm],
    [mef_m], [mef_sd], [tmef_m], [tmef_sd], together with [siePm], [jef_m],
    [jef_sd], [tjef_m], [tjef_sd] exactly when a [varlist] was given, and
    [sjePm] exactly when a [jelist] was given (lines 220-238). *)
Theorem sensitivity_result_keys (model : SepiaModel)
    (samples_dict : option (gmap string mat)) (ngrid : nat) (varlist : varlist_arg)
    (jelist : option (list (list nat))) (rg : option mat) (opt : option_arg)
    (msgs : list string) (sens : gmap string sensval) :
  sensitivity SepiaDistCov_new compute_cov_mat linalg_inv linalg_solve unscale
    model samples_dict ngrid varlist jelist rg opt = Returned msgs (Some sens) →
  msgs = [] ∧ dom sens = result_keys varlist jelist.
Proof.
  intros Hcall.
  apply sensitivity_returned_inv in Hcall
    as (-> & _ & _ & b0 & u0 & w0 & betaU & lamUz & lamWs & _ & _ & _ & _ & Hmain).
  split; [done|]. by eapply main_part_keys.
Qed.

(** X4. A call that returns was made without [rg] on a model with at least
    one input; its [totalVar] holds one value for each selected parameter
    draw: one for the options ['mean'] and ['median'], the number of rows of
    [betaU] for ['samples'] and for a dictionary (lines 72-89, 122-131);
    [smePm] and [stePm] are the squeezed column means of arrays with one
    column for each input (lines 133-134). *)
Theorem sensitivity_draw_counts (model : SepiaModel)
    (samples_dict : option (gmap string mat)) (ngrid : nat) (varlist : varlist_arg)
    (jelist : option (list (list nat))) (rg : option mat) (opt : option_arg)
    (msgs : list string) (sens : gmap string sensval) :
  sensitivity SepiaDistCov_new compute_cov_mat linalg_inv linalg_solve unscale
    model samples_dict ngrid varlist jelist rg opt = Returned msgs (Some sens) →
  rg = None
  ∧ num_p model + num_q model ≠ 0
  ∧ (∃ vt, sens !! "totalVar" = Some (SArr (A1 vt))
       ∧ length vt = selected_draws opt (default (get_samples model) samples_dict))
  ∧ (∃ sme ste, length sme = num_p model + num_q model
       ∧ length ste = num_p model + num_q model
       ∧ sens !! "smePm" = Some (SArr (squeeze1 sme))
       ∧ sens !! "stePm" = Some (SArr (squeeze1 ste))).
Proof.
  intros Hcall.
  apply sensitivity_returned_inv in Hcall
    as (_ & -> & Hnv & b0 & u0 & w0 & betaU & lamUz & lamWs & Hb & _ & _ & Hopt & Hmain).
  do 2 (split; [done|]).
  destruct (main_part_results _ _ _ _ _ _ _ _ _ _ _ _ _ _ _ _ _ Hmain)
    as (sa & lam & sme & ste & vt & _ & _ & Hagg & _ & Hvt & Hsme & Hste & _).
  split.
  - exists vt. split; [done|].
    rewrite (aggregate_lengths _ _ _ _ _ _ _ _ Hagg).
    by eapply sens_option_draws.
  - eexists _, _. split; [|split; [|by split]];
      unfold mean0; by rewrite length_fmap, length_seq.
Qed.

(** X5. With [jelist = []] and at least one basis component the call does not
    return a result: [component_sens] stores the entry [sje] only for a
    non-empty [jelist] (line 361), the aggregation tests [jelist] against
    [None] (line 146) and asks every component for [sje]. Without a [varlist]
    the error is the missing key [sje]. *)
Theorem sensitivity_empty_jelist (model : SepiaModel)
    (samples_dict : option (gmap string mat)) (ngrid : nat) :
  0 < num_pu model →
  (∀ varlist rg opt msgs v,
     opt = OptStr "mean" ∨ opt = OptStr "median" →
     sensitivity SepiaDistCov_new compute_cov_mat linalg_inv linalg_solve unscale
       model samples_dict ngrid varlist (Some []) rg opt = Returned msgs v →
     v = None)
  ∧ (∀ ii0 nv rg' xe betaU lamUz lamWs sa lam r,
       betaU ≠ [] →
       sens_components SepiaDistCov_new compute_cov_mat linalg_inv linalg_solve
         model ngrid None (Some []) ii0 nv rg' xe betaU lamUz lamWs = Ok sa →
       sens_lam (sens_ksmm model) = Ok lam →
       aggregate lam sa (length betaU) nv (num_pu model) = Ok r →
       sens_main_part SepiaDistCov_new compute_cov_mat linalg_inv linalg_solve unscale
         model ngrid VarNone (Some []) ii0 nv rg' xe betaU lamUz lamWs
       = Raise (KeyError "sje")).
Proof.
  intros Hpu. split.
  - intros varlist rg opt msgs [sens|] Hopt Hcall; [|done].
    apply sensitivity_returned_inv in Hcall
      as (_ & _ & _ & b0 & u0 & w0 & betaU & lamUz & lamWs & _ & _ & _ & Hsel & Hmain).
    assert (betaU ≠ []) as Hb.
    { destruct Hopt as [-> | ->]; simpl in Hsel; inversion Hsel; done. }
    destruct (main_part_empty_jelist SepiaDistCov_new compute_cov_mat linalg_inv
                linalg_solve unscale model ngrid varlist
                (arange (num_p model + num_q model)) (num_p model + num_q model)
                (unit_ranges (num_p model + num_q model))
                (unit_grid (num_p model + num_q model) ngrid) betaU lamUz lamWs Hpu Hb)
      as [[e He] _].
    rewrite He in Hmain. done.
  - intros ii0 nv rg' xe betaU lamUz lamWs sa lam r Hb.
    by apply (main_part_empty_jelist SepiaDistCov_new compute_cov_mat linalg_inv
                linalg_solve unscale model ngrid VarNone ii0 nv rg' xe betaU lamUz lamWs
                Hpu Hb).
Qed.

(** X6. On a model with a single input, [varlist = 'all'] expands to the empty
    list of pairs (lines 92-93), so with at least one basis component the call
    does not return a result, as for [varlist = []]. *)
Theorem sensitivity_all_single_input (model : SepiaModel)
    (samples_dict : option (gmap string mat)) (ngrid : nat)
    (jelist : option (list (list nat))) (rg : option mat) (opt : option_arg)
    (msgs : list string) (v : option (gmap string sensval)) :
  num_p model + num_q model = 1 →
  0 < num_pu model →
  opt = OptStr "mean" ∨ opt = OptStr "median" →
  sensitivity SepiaDistCov_new compute_cov_mat linalg_inv linalg_solve unscale
    model samples_dict ngrid VarAll jelist rg opt = Returned msgs v →
  v = None.
Proof.
  intros Hnv Hpu Hopt Hcall. destruct v as [sens|]; [|done].
  apply sensitivity_returned_inv in Hcall
    as (_ & _ & _ & b0 & u0 & w0 & betaU & lamUz & lamWs & _ & _ & _ & Hsel & Hmain).
  assert (betaU ≠ []) as Hb.
  { destruct Hopt as [-> | ->]; simpl in Hsel; inversion Hsel; done. }
  rewrite Hnv in Hmain.
  destruct (main_part_empty_varlist SepiaDistCov_new compute_cov_mat linalg_inv
              linalg_solve unscale model ngrid VarAll jelist (arange 1) 1 (unit_ranges 1)
              (unit_grid 1 ngrid) betaU lamUz lamWs eq_refl Hpu Hb) as [[e He] _].
  rewrite He in Hmain. done.
Qed.

End DriverProperties.

Lemma sensitivity_no_free_variables_witness :
  has_samples (default (get_samples example_model_no_inputs) None)
  ∧ num_p example_model_no_inputs + num_q example_model_no_inputs = 0
  ∧ sensitivity toy_distcov toy_cov_mat toy_inv toy_solve toy_unscale
      example_model_no_inputs None 21 VarNone None None (OptStr "mean")
    = Returned [no_free_variables_message] None.
Proof.
  assert (has_samples (default (get_samples example_model_no_inputs) None)) as H1
    by apply example_has_samples.
  assert (num_p example_model_no_inputs + num_q example_model_no_inputs = 0) as H2
    by reflexivity.
  do 2 (split; [assumption|]).
  exact (sensitivity_no_free_variables toy_distcov toy_cov_mat toy_inv toy_solve
           toy_unscale example_model_no_inputs None 21 VarNone None (OptStr "mean") H1 H2).
Defined.

Lemma sensitivity_missing_samples_witness :
  ¬ has_samples (default (get_samples example_model) (Some ∅))
  ∧ ∃ key, key ∈ ["betaU"; "lamUz"; "lamWs"]
      ∧ sensitivity toy_distcov toy_cov_mat toy_inv toy_solve toy_unscale
          example_model (Some ∅) 21 VarNone None None (OptStr "mean")
        = Raised (KeyError key).
Proof.
  assert (¬ has_samples (default (get_samples example_model) (Some ∅))) as H.
  { intros ([b Hb] & _). simpl in Hb. by rewrite lookup_empty in Hb. }
  split; [exact H|].
  destruct (sensitivity_missing_samples toy_distcov toy_cov_mat toy_inv toy_solve
              toy_unscale example_model (Some ∅) 21 VarNone None None (OptStr "mean") H)
    as (key & Hin & _ & Hcall).
  exists key. by split.
Defined.

Lemma sensitivity_result_keys_witness :
  ∃ sens,
    sensitivity toy_distcov toy_cov_mat toy_inv toy_solve toy_unscale
      example_model None 2 VarNone None None (OptStr "mean") = Returned [] (Some sens)
    ∧ dom sens = result_keys VarNone None.
Proof.
  assert (∃ sens, sensitivity toy_distcov toy_cov_mat toy_inv toy_solve toy_unscale
            example_model None 2 VarNone None None (OptStr "mean")
          = Returned [] (Some sens)) as [sens H]
    by (eexists; vm_compute; reflexivity).
  exists sens. split; [exact H|].
  exact (proj2 (sensitivity_result_keys toy_distcov toy_cov_mat toy_inv toy_solve
                  toy_unscale example_model None 2 VarNone None None (OptStr "mean")
                  [] sens H)).
Defined.

Lemma sensitivity_draw_counts_witness :
  ∃ sens,
    sensitivity toy_distcov toy_cov_mat toy_inv toy_solve toy_unscale
      example_model None 2 VarNone None None (OptStr "mean") = Returned [] (Some sens)
    ∧ ∃ vt, sens !! "totalVar" = Some (SArr (A1 vt))
        ∧ length vt = selected_draws (OptStr "mean") (default (get_samples example_model) None).
Proof.
  assert (∃ sens, sensitivity toy_distcov toy_cov_mat toy_inv toy_solve toy_unscale
            example_model None 2 VarNone None None (OptStr "mean")
          = Returned [] (Some sens)) as [sens H]
    by (eexists; vm_compute; reflexivity).
  exists sens. split; [exact H|].
  exact (proj1 (proj2 (proj2 (sensitivity_draw_counts toy_distcov toy_cov_mat toy_inv
                  toy_solve toy_unscale example_model None 2 VarNone None None
                  (OptStr "mean") [] sens H)))).
Defined.

Lemma sensitivity_empty_jelist_witness :
  0 < num_pu example_model
  ∧ ∀ msgs v,
      sensitivity toy_distcov toy_cov_mat toy_inv toy_solve toy_unscale
        example_model None 21 VarNone (Some []) None (OptStr "mean") = Returned msgs v →
      v = None.
Proof.
  assert (0 < num_pu example_model) as H by (simpl; lia).
  split; [exact H|].
  destruct (sensitivity_empty_jelist toy_distcov toy_cov_mat toy_inv toy_solve
              toy_unscale example_model None 21 H) as [Hmean _].
  intros msgs v. apply Hmean. by left.
Defined.

Lemma sensitivity_all_single_input_witness :
  num_p example_model + num_q example_model = 1
  ∧ 0 < num_pu example_model
  ∧ (OptStr "mean" = OptStr "mean" ∨ OptStr "mean" = OptStr "median")
  ∧ ∀ msgs v,
      sensitivity toy_distcov toy_cov_mat toy_inv toy_solve toy_unscale
        example_model None 2 VarAll None None (OptStr "mean") = Returned msgs v →
      v = None.
Proof.
  assert (num_p example_model + num_q example_model = 1) as H1 by reflexivity.
  assert (0 < num_pu example_model) as H2 by (simpl; lia).
  assert (OptStr "mean" = OptStr "mean" ∨ OptStr "mean" = OptStr "median") as H3
    by (by left).
  do 3 (split; [assumption|]).
  exact (λ msgs v, sensitivity_all_single_input toy_distcov toy_cov_mat toy_inv
           toy_solve toy_unscale example_model None 2 None None (OptStr "mean")
           msgs v H1 H2 H3).
Defined.

Example sensitivity_example_all_single_input :
  sensitivity toy_distcov toy_cov_mat toy_inv toy_solve toy_unscale
    example_model None 2 VarAll None None (OptStr "mean") = Raised (KeyError "sie").
Proof. vm_compute. reflexivity. Qed.

(** X7. [varlist = 'all'] stands for the [nv (nv - 1) / 2] pairs [(i, j)],
    [i < j < nv], in lexicographic order (lines 92-93): every pair occurs once,
    at the position given by its rank. *)
Theorem all_pairs_in_order (n : nat) :
  sens_varlist VarAll n = Some (combinations2 n)
  ∧ length (combinations2 n) = n * (n - 1) / 2
  ∧ (∀ i j, i < j < n → combinations2 n !! pair_row n i j = Some [i; j])
  ∧ (∀ k Js, combinations2 n !! k = Some Js →
       ∃ i j, i < j < n ∧ Js = [i; j] ∧ k = pair_row n i j).
Proof.
  split; [done|]. split; [apply combinations2_length|].
  split; [apply combinations2_lookup|].
  intros k Js Hk.
  assert (k < pairs_before n n) as Hlt.
  { apply lookup_lt_Some in Hk. by rewrite combinations2_length, pairs_total in Hk. }
  destruct (pair_row_onto n n k ltac:(lia) Hlt) as (i & j & _ & Hij & <-).
  rewrite (combinations2_lookup n i j Hij) in Hk. inversion Hk. by exists i, j.
Qed.

(** ** The quantities of one draw *)

Lemma complement_nil (p : nat) : complement p [] = seq 0 p.
Proof.
  unfold complement. induction (seq 0 p) as [|d l IH]; [done|].
  rewrite filter_cons_True by set_solver. by rewrite IH.
Qed.

Section DrawFormulas.
Local Open Scope R_scope.
Context (m p : nat) (Q : mat) (lamUzi : R) (c1 : vec) (C2 c3 : mat).
Hypothesis m_ne_1 : m ≠ 1%nat.
Hypothesis Q_shape : shape Q m m.
Hypothesis C2_shape : shape C2 (m * (m + 1) / 2 + m) p.
Hypothesis c3_shape : shape c3 m p.
Hypothesis c1_len : length c1 = p.

Lemma C2_cols_bound (Js : list nat) :
  Forall (λ d, (d < p)%nat) Js →
  Forall (λ row : vec, Forall (λ d, (d < length row)%nat) Js) C2.
Proof.
  intros HJ. destruct C2_shape as [_ HF].
  eapply Forall_impl; [exact HF|]. intros row Hrow. simpl in Hrow. by rewrite Hrow.
Qed.

(** Lines 315-320. *)
Lemma sens_main_spec (e2 vt : R) (jj : nat) :
  (jj < p)%nat →
  ∃ c3ll V, cols c3 (complement p [jj]) = Ok c3ll
    ∧ varf m p [jj] C2 (prod_rows c3ll) = Ok V
    ∧ sens_main m p Q lamUzi c1 C2 c3 e2 vt jj
      = Ok ((prod (map (vget c1) (complement p [jj])) / lamUzi
             - trace_of_product m Q V / (lamUzi * lamUzi) - e2) / vt,
            prod_rows c3ll, prod (map (vget c1) (complement p [jj]))).
Proof.
  intros Hjj.
  assert (Forall (λ d, (d < p)%nat) [jj]) as Hsingle by (by constructor).
  pose proof (complement_bound p [jj]) as Hc.
  eexists.
  destruct (varf_run m p [jj] C2
              (prod_rows (map (λ row, map (vget row) (complement p [jj])) c3)))
    as (V & HV & HVs & _).
  - by destruct C2_shape.
  - by apply C2_cols_bound.
  - intros _. unfold prod_rows. rewrite !length_fmap. by destruct c3_shape.
  - exists V. split; [by apply (cols_ok c3 m p)|]. split; [done|].
    unfold sens_main. rewrite setxor1d_arange by done.
    rewrite (cols_ok c3 m p) by done. rewrite bind_Ok.
    rewrite take_idx_ok by (by rewrite c1_len). rewrite bind_Ok.
    rewrite HV, bind_Ok.
    by rewrite (trace_matmul_square Q V m), bind_Ok.
Qed.

(** Lines 344-349. *)
Lemma sens_joint_spec (e2 vt : R) (Js : list nat) :
  Forall (λ d, (d < p)%nat) Js →
  ∃ c3ll V, cols c3 (complement p Js) = Ok c3ll
    ∧ varf m p Js C2 (prod_rows c3ll) = Ok V
    ∧ sens_joint m p Q lamUzi c1 C2 c3 e2 vt Js
      = Ok ((prod (map (vget c1) (complement p Js)) / lamUzi
             - trace_of_diagonals m Q V / (lamUzi * lamUzi) - e2) / vt).
Proof.
  intros HJ.
  pose proof (complement_bound p Js) as Hc.
  eexists.
  destruct (varf_run m p Js C2
              (prod_rows (map (λ row, map (vget row) (complement p Js)) c3)))
    as (V & HV & HVs & _).
  - by destruct C2_shape.
  - by apply C2_cols_bound.
  - intros _. unfold prod_rows. rewrite !length_fmap. by destruct c3_shape.
  - exists V. split; [by apply (cols_ok c3 m p)|]. split; [done|].
    unfold sens_joint. rewrite setxor1d_arange by done.
    rewrite (cols_ok c3 m p) by done. rewrite bind_Ok.
    rewrite take_idx_ok by (by rewrite c1_len). rewrite bind_Ok.
    rewrite HV, bind_Ok.
    by rewrite (trace_times_square Q V m), bind_Ok.
Qed.

(** When the complement of [Js] is empty, [varf] ignores [ef]. *)
Lemma varf_ef_unused (Js : list nat) (ef ef' : vec) :
  Forall (λ d, (d < p)%nat) Js → setxor1d (arange p) Js = [] →
  varf m p Js C2 ef = varf m p Js C2 ef'.
Proof.
  intros HJ Hll.
  destruct (varf_run m p Js C2 ef) as (V & -> & HV & GV);
    [by destruct C2_shape|by apply C2_cols_bound|done|].
  destruct (varf_run m p Js C2 ef') as (V' & -> & HV' & GV');
    [by destruct C2_shape|by apply C2_cols_bound|done|].
  f_equal. apply (mat_ext V V' m m HV HV').
  intros i j Hi Hj. rewrite GV, GV' by done. unfold varf_entry, ef_factor.
  destruct (decide (setxor1d (arange p) Js = [])) as [_|E]; [|done].
  by destruct (decide (i = j)).
Qed.

End DrawFormulas.

(** Line 308: with an empty [Js] the matrix of [varf] is the outer product of
    [u2] with itself. *)
Lemma sens_e2_spec (m p : nat) (Q : mat) (lamUzi : R) (c1 : vec) (C2 c3 : mat) :
  m ≠ 1 → shape Q m m → length C2 = m * (m + 1) / 2 + m → length c3 = m → 0 < p →
  sens_e2 m p Q lamUzi c1 C2 c3
  = Ok (prod c1 / lamUzi - quadratic_form m Q (prod_rows c3) / (lamUzi * lamUzi))%R.
Proof.
  intros Hm HQ HC2 Hc3 Hp. unfold sens_e2.
  assert (setxor1d (arange p) [] ≠ []) as Hll.
  { rewrite setxor1d_arange by constructor. rewrite complement_nil.
    destruct p; [lia|done]. }
  destruct (varf_run m p [] C2 (prod_rows c3)) as (V & HV & HVs & GV).
  - exact HC2.
  - apply Forall_forall. intros row _. constructor.
  - intros _. unfold prod_rows. by rewrite length_fmap.
  - rewrite HV, bind_Ok. rewrite (trace_matmul_square Q V m HQ HVs Hm), bind_Ok.
    do 4 f_equal. unfold trace_of_product, quadratic_form. f_equal.
    apply map_ext_in. intros i Hi. apply in_seq in Hi. f_equal.
    apply map_ext_in. intros k Hk. apply in_seq in Hk. f_equal.
    rewrite GV by lia. unfold varf_entry, ef_factor, C2_prod.
    destruct (decide (setxor1d (arange p) [] = [])) as [E|_]; [done|].
    destruct (decide (k = i)) as [->|_]; simpl; ring.
Qed.

(** Line 309. *)
Lemma sens_e0_spec (lamUzi : R) (c3 : mat) (My : vec) :
  length My = length c3 →
  sens_e0 lamUzi c3 My = Ok (dot (prod_rows c3) My / lamUzi)%R.
Proof.
  intros HMy. unfold sens_e0, nd_matmul.
  rewrite decide_True; [done|]. unfold prod_rows. by rewrite length_fmap.
Qed.

(** With a single input the main and the total effect index are 1. *)
Lemma single_input_indices (m : nat) (Q : mat) (lamUzi : R) (c1 : vec) (C2 c3 : mat)
    (e2 vt : R) :
  m ≠ 1 → shape Q m m → shape C2 (m * (m + 1) / 2 + m) 1 → shape c3 m 1 →
  length c1 = 1 →
  sens_e2 m 1 Q lamUzi c1 C2 c3 = Ok e2 →
  sens_vt m 1 Q lamUzi C2 e2 = Ok vt →
  vt ≠ 0%R →
  (∃ u1 u4, sens_main m 1 Q lamUzi c1 C2 c3 e2 vt 0 = Ok (1%R, u1, u4))
  ∧ sens_total m 1 Q lamUzi c1 C2 c3 e2 vt 0 = Ok 1%R.
Proof.
  intros Hm HQ HC2 Hc3 Hc1 He2 Hvt Hne.
  assert (0 < 1) as H01 by lia.
  destruct (sens_vt_spec m 1 Q lamUzi C2 Hm HQ HC2 e2) as (Vfull & HVfull & Hvt').
  rewrite Hvt in Hvt'. injection Hvt' as Hvt_eq.
  rewrite (sens_e2_spec m 1 Q lamUzi c1 C2 c3 Hm HQ (proj1 HC2) (proj1 Hc3) H01) in He2.
  injection He2 as He2_eq.
  assert (complement 1 [0] = []) as Hcompl by reflexivity.
  split.
  - destruct (sens_main_spec m 1 Q lamUzi c1 C2 c3 Hm HQ HC2 Hc3 Hc1 e2 vt 0 H01)
      as (c3ll & V & Hc3ll & HV & Hmain).
    exists (prod_rows c3ll), (prod (map (vget c1) (complement 1 [0]))).
    rewrite Hmain. do 3 f_equal.
    assert (Forall (λ d, d < 1) [0]) as H0 by (constructor; [lia|constructor]).
    assert (setxor1d (arange 1) [0] = []) as Hx by (by rewrite setxor1d_arange).
    rewrite (varf_ef_unused m 1 C2 HC2 [0] _ [] H0 Hx) in HV.
    change (arange 1) with [0] in HVfull. rewrite HVfull in HV.
    inversion HV; subst V. rewrite Hcompl. cbn [map prod foldr].
    rewrite <- Hvt_eq. by field.
  - destruct (sens_total_spec m 1 Q lamUzi c1 C2 c3 Hm HQ HC2 Hc3 Hc1 e2 vt 0 H01)
      as (cj & Vj & Hcj & HVj & Hste).
    rewrite Hste. f_equal.
    rewrite (col_ok c3 m 1 0 Hc3 H01) in Hcj. inversion Hcj; subst cj. clear Hcj.
    assert (prod_rows c3 = map (λ row : vec, vget row 0) c3) as Hrows.
    { unfold prod_rows. apply map_ext_in. intros row Hrow.
      destruct Hc3 as [_ HF]. rewrite Forall_forall in HF.
      apply list_elem_of_In in Hrow. specialize (HF row Hrow).
      destruct row as [|x [|y row]]; simpl in HF; try lia.
      unfold vget. simpl. ring. }
    assert (trace_of_product m Q Vj = quadratic_form m Q (prod_rows c3)) as Htr.
    { rewrite Hcompl in HVj.
      destruct (varf_run m 1 [] C2 (map (λ row : vec, vget row 0) c3))
        as (V & HV & HVs & GV).
      - by destruct HC2.
      - apply Forall_forall. intros row _. constructor.
      - intros _. rewrite length_fmap. by destruct Hc3.
      - rewrite HV in HVj. inversion HVj; subst Vj. rewrite Hrows.
        unfold trace_of_product, quadratic_form. f_equal.
        apply map_ext_in. intros i Hi. apply in_seq in Hi. f_equal.
        apply map_ext_in. intros k Hk. apply in_seq in Hk. f_equal.
        rewrite GV by lia. unfold varf_entry, ef_factor, C2_prod.
        destruct (decide (setxor1d (arange 1) [] = [])) as [E|_]; [done|].
        destruct (decide (k = i)) as [->|_]; simpl; ring. }
    assert (vget c1 0 = prod c1) as Hc.
    { destruct c1 as [|x [|y c]]; simpl in Hc1; try lia. unfold vget. simpl. ring. }
    rewrite Htr, Hc, <- He2_eq. unfold Rdiv. ring.
Qed.

(** ** A single simulation run *)

Lemma trace_matmul_single (Q V : mat) :
  shape Q 1 1 → trace_matmul Q V = Raise ValueError.
Proof.
  intros [Hlen HF]. destruct Q as [|row [|row' Q]]; simpl in Hlen; try lia.
  inversion HF as [|? ? Hrow _]; subst.
  destruct row as [|x [|y row]]; simpl in Hrow; try lia. done.
Qed.

Lemma sens_e2_single (p : nat) (Q : mat) (lamUzi : R) (c1 : vec) (C2 c3 : mat) :
  shape Q 1 1 →
  (∃ e, sens_e2 1 p Q lamUzi c1 C2 c3 = Raise e)
  ∧ ∀ V, varf 1 p [] C2 (prod_rows c3) = Ok V →
         sens_e2 1 p Q lamUzi c1 C2 c3 = Raise ValueError.
Proof.
  intros HQ. unfold sens_e2. split.
  - destruct (varf 1 p [] C2 (prod_rows c3)) as [V|e]; [|by eexists].
    rewrite bind_Ok, (trace_matmul_single Q V HQ). by eexists.
  - intros V ->. by rewrite bind_Ok, (trace_matmul_single Q V HQ).
Qed.

Lemma assign_square_shape (m : nat) (V W : mat) : assign_square m V = Ok W → shape W m m.
Proof.
  unfold assign_square. case_decide as Hd.
  - intros H. inversion H; subst. exact Hd.
  - destruct V as [|[|x [|y r]] [|r' V]]; try done.
    intros H. inversion H; subst. split.
    + by rewrite length_replicate.
    + apply Forall_replicate. by rewrite length_replicate.
Qed.

Section SingleRun.
Context (SepiaDistCov_new : mat → option mat → list nat → res SepiaDistCov)
        (compute_cov_mat : SepiaDistCov → vec → R → option R → res mat)
        (linalg_inv : mat → res mat)
        (linalg_solve : mat → vec → res vec).

Lemma gp_draw_shape (xdist : SepiaDistCov) (m : nat) (y betaei : vec) (lamUzi lamWsi : R)
    (P : mat) (My : vec) (Q : mat) :
  gp_draw compute_cov_mat linalg_inv linalg_solve xdist m y betaei lamUzi lamWsi
    = Ok (P, My, Q) →
  shape P m m ∧ shape Q m m.
Proof.
  unfold gp_draw. intros H.
  apply bind_Ok_inv in H as (S & _ & H).
  apply bind_Ok_inv in H as (Si & _ & H).
  apply bind_Ok_inv in H as (P' & HP & H).
  apply bind_Ok_inv in H as (sol & _ & H).
  apply bind_Ok_inv in H as (My' & _ & H).
  apply bind_Ok_inv in H as (D & _ & H).
  apply bind_Ok_inv in H as (Q' & HQ & H).
  inversion H; subst. split; by eapply assign_square_shape.
Qed.

Lemma sens_draw_single (x : mat) (xdist : SepiaDistCov) (xexdist xedist : list SepiaDistCov)
    (p ngrid : nat) (rg : mat) (diff : vec) (varlist jelist : option (list (list nat)))
    (betaei : vec) (lamUzi lamWsi : R) (P : mat) (My : vec) (Q : mat) :
  shape Q 1 1 →
  ∃ e, sens_draw compute_cov_mat x xdist xexdist xedist 1 p ngrid rg diff varlist jelist
         betaei lamUzi lamWsi (P, My, Q) = Raise e.
Proof.
  intros HQ. unfold sens_draw.
  destruct (calc1 betaei diff) as [c1|e]; [|by eexists]. rewrite bind_Ok.
  destruct (calc2 x xdist 1 rg betaei diff) as [C2|e]; [|by eexists]. rewrite bind_Ok.
  destruct (for_each (range 0 1) _ _) as [c3|e]; [|by eexists]. rewrite bind_Ok.
  destruct (sens_e2_single p Q lamUzi c1 C2 c3 HQ) as [[e ->] _]. by eexists.
Qed.

Lemma component_sens_single (x : mat) (y : vec) (beta : mat) (lamUz lamWs : vec)
    (xe : mat) (ngrid : nat) (varlist jelist : option (list (list nat)))
    (rg : mat) (cat_ind : list nat) :
  length x = 1 → beta ≠ [] →
  ∃ e, component_sens SepiaDistCov_new compute_cov_mat linalg_inv linalg_solve
         x y beta lamUz lamWs xe ngrid varlist jelist rg cat_ind = Raise e.
Proof.
  intros Hx Hb.
  destruct (component_sens _ _ _ _ _ _ _ _ _ _ _ _ _ _ _) as [sa|e] eqn:Hsa;
    [|by eexists].
  exfalso. unfold component_sens in Hsa.
  apply bind_Ok_inv in Hsa as (hi & _ & H).
  apply bind_Ok_inv in H as (lo & _ & H).
  apply bind_Ok_inv in H as (diff & _ & H).
  apply bind_Ok_inv in H as (xdist & _ & H).
  apply bind_Ok_inv in H as (dists & _ & H).
  apply bind_Ok_inv in H as (vdists & _ & H).
  apply bind_Ok_inv in H as (gps & Hgps & H).
  apply bind_Ok_inv in H as (draws & Hdraws & _).
  apply mapM_res_inv in Hgps as [Hlg Hgps].
  apply mapM_res_inv in Hdraws as [_ Hdraws].
  assert (0 < length beta) as Hn by (destruct beta; [done|simpl; lia]).
  assert (range 0 (length beta) !! 0 = Some 0) as H0.
  { unfold range. by rewrite lookup_seq_lt by lia. }
  destruct (Hgps 0 0 H0) as ([[P My] Q] & Hgp & Hgp0).
  destruct (Hdraws 0 0 H0) as (out & Hdraw & _).
  cbn beta in Hgp, Hdraw.
  apply bind_Ok_inv in Hgp as (betaei & Hb1 & Hgp).
  apply bind_Ok_inv in Hgp as (lamUzi & Hu1 & Hgp).
  apply bind_Ok_inv in Hgp as (lamWsi & Hw1 & Hgp).
  apply gp_draw_shape in Hgp as [_ HQ].
  rewrite Hb1, bind_Ok, Hu1, bind_Ok, Hw1, bind_Ok in Hdraw.
  unfold list_get in Hdraw. rewrite Hgp0, bind_Ok in Hdraw.
  rewrite Hx in *.
  destruct (sens_draw_single x xdist (map fst dists ++ map fst vdists)
              (map snd dists ++ map snd vdists) (ncols beta) ngrid rg diff varlist jelist
              betaei lamUzi lamWsi P My Q HQ) as [e He].
  rewrite He in Hdraw. done.
Qed.

End SingleRun.

(** ** The shapes of the arrays of [component_sens] *)

Lemma assign_vec_length (m : nat) (v w : vec) : assign_vec m v = Ok w → length w = m.
Proof.
  unfold assign_vec. case_decide as Hd.
  - intros H. by inversion H; subst.
  - destruct v as [|x [|y v]]; try done. intros H. inversion H.
    by rewrite length_replicate.
Qed.

Lemma reshape2_shape (v : vec) (r c : nat) (M : mat) : reshape2 v r c = Ok M → shape M r c.
Proof.
  unfold reshape2. case_decide as Hd; [|done]. intros H. inversion H; subst. split.
  - by rewrite length_fmap, length_seq.
  - apply Forall_fmap, Forall_forall. intros i Hi. apply list_elem_of_In, in_seq in Hi.
    simpl. rewrite length_take, length_drop. nia.
Qed.

Lemma cols_inv (M M' : mat) (idx : list nat) :
  cols M idx = Ok M' → shape M' (length M) (length idx).
Proof.
  unfold cols. intros H. apply mapM_res_inv in H as [Hlen Hall]. split; [done|].
  apply Forall_lookup. intros i row' Hrow'.
  destruct (lookup_lt_is_Some_2 M i) as [row Hrow].
  { apply lookup_lt_Some in Hrow'. lia. }
  destruct (Hall i row Hrow) as (b & Hb & Hb'). rewrite Hrow' in Hb'.
  inversion Hb'; subst b. unfold take_idx in Hb.
  by apply mapM_res_inv in Hb as [-> _].
Qed.

Section DrawShapes.
Context (compute_cov_mat : SepiaDistCov → vec → R → option R → res mat).

(** The lengths of the rows that one pass of the loop over the draws
    produces. *)
Lemma sens_draw_lengths (x : mat) (xdist : SepiaDistCov) (xexdist xedist : list SepiaDistCov)
    (m p ngrid : nat) (rg : mat) (diff : vec) (varlist jelist : option (list (list nat)))
    (betaei : vec) (lamUzi lamWsi : R) (gp : mat * vec * mat) (out : draw_out) :
  sens_draw compute_cov_mat x xdist xexdist xedist m p ngrid rg diff varlist jelist
    betaei lamUzi lamWsi gp = Ok out →
  length (d_sme out) = p ∧ length (d_ste out) = p
  ∧ shape (d_mef_m out) p ngrid ∧ shape (d_mef_v out) p ngrid
  ∧ length (d_sie out) = length (default [] varlist)
  ∧ length (d_jef_m out) = length (default [] varlist)
  ∧ Forall (λ M, shape M ngrid ngrid) (d_jef_m out)
  ∧ length (d_jef_v out) = length (default [] varlist)
  ∧ Forall (λ M, shape M ngrid ngrid) (d_jef_v out)
  ∧ length (d_sje out) = length (default [] jelist).
Proof.
  unfold sens_draw. destruct gp as [[P My] Q]. intros H.
  apply bind_Ok_inv in H as (c1 & Hc1 & H).
  apply bind_Ok_inv in H as (C2 & HC2 & H).
  apply bind_Ok_inv in H as (c3 & Hc3 & H).
  apply bind_Ok_inv in H as (e2 & He2 & H).
  apply bind_Ok_inv in H as (e0 & He0 & H).
  apply bind_Ok_inv in H as (vt & Hvt & H).
  apply bind_Ok_inv in H as ([[[sme ste] mef_m] mef_v] & Hloop & H).
  apply bind_Ok_inv in H as ([[sie jef_m] jef_v] & Hvar & H).
  apply bind_Ok_inv in H as (sje & Hje & H).
  inversion H; subst out; clear H. simpl.
  pose proof (range_ok
    (λ _ (st : vec * vec * mat * mat),
       length st.1.1.1 = p ∧ length st.1.1.2 = p
       ∧ shape st.1.2 p ngrid ∧ shape st.2 p ngrid)
    _ 0 p _ _ ltac:(lia) Hloop) as Hinv.
  cbn [fst snd] in Hinv.
  destruct Hinv as (Hlsme & Hlste & Hmm & Hmv).
  { unfold zeros. rewrite !length_replicate. do 2 (split; [done|]).
    split; apply shape_zeros2. }
  { intros jj [[[sme' ste'] mm'] mv'] t' Hjj (Hl1 & Hl2 & [Hm1 Hm2] & [Hv1 Hv2]) Hbody.
    cbn [fst snd] in *.
    apply bind_Ok_inv in Hbody as ([[s u1] u4] & Hmain & Hbody).
    apply bind_Ok_inv in Hbody as (xex & Hxex & Hbody).
    apply bind_Ok_inv in Hbody as (xed & Hxed & Hbody).
    apply bind_Ok_inv in Hbody as (ME & HME & Hbody).
    apply bind_Ok_inv in Hbody as (mm & Hmm & Hbody).
    apply bind_Ok_inv in Hbody as (mv & Hmv & Hbody).
    apply bind_Ok_inv in Hbody as (t & Ht & Hbody).
    inversion Hbody; subst t'; clear Hbody. cbn [fst snd].
    rewrite !length_insert. do 2 (split; [done|]).
    apply assign_vec_length in Hmm, Hmv.
    split; (split; [by rewrite length_insert|by apply Forall_insert]). }
  do 4 (split; [done|]).
  assert (length sie = length (default [] varlist)
          ∧ length jef_m = length (default [] varlist)
          ∧ Forall (λ M, shape M ngrid ngrid) jef_m
          ∧ length jef_v = length (default [] varlist)
          ∧ Forall (λ M, shape M ngrid ngrid) jef_v) as (? & ? & ? & ? & ?).
  { destruct varlist as [vl|]; simpl.
    - pose proof (range_ok
        (λ _ (st : vec * list mat * list mat),
           length st.1.1 = length vl
           ∧ length st.1.2 = length vl ∧ Forall (λ M, shape M ngrid ngrid) st.1.2
           ∧ length st.2 = length vl ∧ Forall (λ M, shape M ngrid ngrid) st.2)
        _ 0 (length vl) _ _ ltac:(lia) Hvar) as Hinv.
      cbn [fst snd] in Hinv. apply Hinv.
      + unfold zeros. rewrite !length_replicate. split; [done|].
        split; [done|]. split; [apply Forall_replicate, shape_zeros2|].
        split; [done|]. apply Forall_replicate, shape_zeros2.
      + intros j [[sie' jm'] jv'] t' Hj (Hl & Hlm & Hfm & Hlv & Hfv) Hbody.
        cbn [fst snd] in *.
        apply bind_Ok_inv in Hbody as (Js' & HJs' & Hbody).
        apply bind_Ok_inv in Hbody as ([[s u3] u5] & Hint & Hbody).
        apply bind_Ok_inv in Hbody as (xex & Hxex & Hbody).
        apply bind_Ok_inv in Hbody as (xed & Hxed & Hbody).
        apply bind_Ok_inv in Hbody as (JE & HJE & Hbody).
        apply bind_Ok_inv in Hbody as (jm & Hjm & Hbody).
        apply bind_Ok_inv in Hbody as (jv & Hjv & Hbody).
        inversion Hbody; subst t'; clear Hbody. cbn [fst snd].
        rewrite !length_insert. apply reshape2_shape in Hjm, Hjv.
        split; [done|]. split; [done|]. split; [by apply Forall_insert|].
        split; [done|]. by apply Forall_insert.
    - inversion Hvar; subst. by repeat split. }
  do 5 (split; [done|]).
  destruct jelist as [jl|]; simpl.
  - refine (range_ok (λ _ (st : vec), length st = length jl) _ 0 (length jl) _ _
              ltac:(lia) Hje _ _).
    + unfold zeros. by rewrite length_replicate.
    + intros j sje' t' Hj Hl Hbody.
      apply bind_Ok_inv in Hbody as (Js' & _ & Hbody).
      apply bind_Ok_inv in Hbody as (s & _ & Hbody).
      inversion Hbody. by rewrite length_insert.
  - by inversion Hje.
Qed.

End DrawShapes.

Section ComponentShapes.
Context (SepiaDistCov_new : mat → option mat → list nat → res SepiaDistCov)
        (compute_cov_mat : SepiaDistCov → vec → R → option R → res mat)
        (linalg_inv : mat → res mat)
        (linalg_solve : mat → vec → res vec).

(** The dictionary of [component_sens], and the draws behind its arrays. *)
Lemma component_sens_full (x : mat) (y : vec) (beta : mat) (lamUz lamWs : vec)
    (xe : mat) (ngrid : nat) (varlist jelist : option (list (list nat)))
    (rg : mat) (cat_ind : list nat) (sa : gmap string ndarray) :
  component_sens SepiaDistCov_new compute_cov_mat linalg_inv linalg_solve
    x y beta lamUz lamWs xe ngrid varlist jelist rg cat_ind = Ok sa →
  ∃ (draws : list draw_out) diff xdist xexdist xedist,
    length draws = length beta
    ∧ length diff = length rg
    ∧ sa !! "e0" = Some (A1 (map d_e0 draws))
    ∧ sa !! "vt" = Some (A1 (map d_vt draws))
    ∧ sa !! "sme" = Some (A2 (map d_sme draws))
    ∧ sa !! "ste" = Some (A2 (map d_ste draws))
    ∧ sa !! "mef_m" = Some (A3 (map d_mef_m draws))
    ∧ sa !! "mef_v" = Some (A3 (map d_mef_v draws))
    ∧ sa !! "sie" = (if truthy varlist then Some (A2 (map d_sie draws)) else None)
    ∧ sa !! "jef_m" = (if truthy varlist then Some (A4 (map d_jef_m draws)) else None)
    ∧ sa !! "jef_v" = (if truthy varlist then Some (A4 (map d_jef_v draws)) else None)
    ∧ sa !! "sje" = (if truthy jelist then Some (A2 (map d_sje draws)) else None)
    ∧ ∀ ii out, draws !! ii = Some out →
        ∃ betaei lamUzi lamWsi gp,
          get_row beta ii = Ok betaei
          ∧ get1 lamUz ii = Ok lamUzi
          ∧ get1 lamWs ii = Ok lamWsi
          ∧ gp_draw compute_cov_mat linalg_inv linalg_solve xdist (length x) y
              betaei lamUzi lamWsi = Ok gp
          ∧ sens_draw compute_cov_mat x xdist xexdist xedist (length x) (ncols beta) ngrid
              rg diff varlist jelist betaei lamUzi lamWsi gp = Ok out.
Proof.
  unfold component_sens. intros H.
  apply bind_Ok_inv in H as (hi & Hhi & H).
  apply bind_Ok_inv in H as (lo & Hlo & H).
  apply bind_Ok_inv in H as (diff & Hdiff & H).
  apply bind_Ok_inv in H as (xdist & Hxdist & H).
  apply bind_Ok_inv in H as (dists & Hdists & H).
  apply bind_Ok_inv in H as (vdists & Hvdists & H).
  apply bind_Ok_inv in H as (gps & Hgps & H).
  apply bind_Ok_inv in H as (draws & Hdraws & H).
  inversion H; subst sa; clear H.
  exists draws, diff, xdist, (map fst dists ++ map fst vdists),
    (map snd dists ++ map snd vdists).
  apply mapM_res_inv in Hdraws as [Hlen Hall].
  apply mapM_res_inv in Hgps as [Hlg Hgps].
  assert (length draws = length beta) as Hl
    by (rewrite Hlen; unfold range; rewrite length_seq; lia).
  split; [done|].
  split.
  { unfold col in Hhi, Hlo.
    apply mapM_res_inv in Hhi as [Hhi _]. apply mapM_res_inv in Hlo as [Hlo _].
    rewrite bcast_same in Hdiff by lia. inversion Hdiff.
    rewrite length_zip_with. lia. }
  split.
  { destruct (truthy varlist), (truthy jelist);
      repeat (first [ rewrite lookup_insert_eq; reflexivity
                    | rewrite lookup_insert_ne by done ]). }
  split.
  { destruct (truthy varlist), (truthy jelist);
      repeat (first [ rewrite lookup_insert_eq; reflexivity
                    | rewrite lookup_insert_ne by done ]). }
  split.
  { destruct (truthy varlist), (truthy jelist);
      repeat (first [ rewrite lookup_insert_eq; reflexivity
                    | rewrite lookup_insert_ne by done ]). }
  split.
  { destruct (truthy varlist), (truthy jelist);
      repeat (first [ rewrite lookup_insert_eq; reflexivity
                    | rewrite lookup_insert_ne by done ]). }
  split.
  { destruct (truthy varlist), (truthy jelist);
      repeat (first [ rewrite lookup_insert_eq; reflexivity
                    | rewrite lookup_insert_ne by done ]). }
  split.
  { destruct (truthy varlist), (truthy jelist);
      repeat (first [ rewrite lookup_insert_eq; reflexivity
                    | rewrite lookup_insert_ne by done ]). }
  split.
  { destruct (truthy varlist), (truthy jelist);
      repeat (first [ rewrite lookup_insert_eq; reflexivity
                    | rewrite lookup_insert_ne by done
                    | apply lookup_empty ]). }
  split.
  { destruct (truthy varlist), (truthy jelist);
      repeat (first [ rewrite lookup_insert_eq; reflexivity
                    | rewrite lookup_insert_ne by done
                    | apply lookup_empty ]). }
  split.
  { destruct (truthy varlist), (truthy jelist);
      repeat (first [ rewrite lookup_insert_eq; reflexivity
                    | rewrite lookup_insert_ne by done
                    | apply lookup_empty ]). }
  split.
  { destruct (truthy varlist), (truthy jelist);
      repeat (first [ rewrite lookup_insert_eq; reflexivity
                    | rewrite lookup_insert_ne by done
                    | apply lookup_empty ]). }
  intros ii out Hout.
  assert (ii < length beta) as Hii by (apply lookup_lt_Some in Hout; lia).
  assert (range 0 (length beta) !! ii = Some ii) as Hr.
  { unfold range. by rewrite lookup_seq_lt by lia. }
  destruct (Hall ii ii Hr) as (out' & Hdraw & Hout').
  rewrite Hout in Hout'. inversion Hout'; subst out'. clear Hout'.
  destruct (Hgps ii ii Hr) as (gp & Hgp & Hgp').
  cbn beta in Hdraw, Hgp.
  apply bind_Ok_inv in Hdraw as (betaei & Hb & Hdraw).
  apply bind_Ok_inv in Hdraw as (lamUzi & Hu & Hdraw).
  apply bind_Ok_inv in Hdraw as (lamWsi & Hw & Hdraw).
  apply bind_Ok_inv in Hdraw as (gp0 & Hgp0 & Hdraw).
  unfold list_get in Hgp0. rewrite Hgp' in Hgp0. inversion Hgp0; subst gp0.
  rewrite Hb, bind_Ok, Hu, bind_Ok, Hw, bind_Ok in Hgp.
  by exists betaei, lamUzi, lamWsi, gp.
Qed.

(** The arrays returned by [component_sens] have one row for each draw, and
    one column for each input, pair or index set. *)
Lemma component_sens_shapes (x : mat) (y : vec) (beta : mat) (lamUz lamWs : vec)
    (xe : mat) (ngrid : nat) (varlist jelist : option (list (list nat)))
    (rg : mat) (cat_ind : list nat) (sa : gmap string ndarray) :
  component_sens SepiaDistCov_new compute_cov_mat linalg_inv linalg_solve
    x y beta lamUz lamWs xe ngrid varlist jelist rg cat_ind = Ok sa →
  (∃ v, sa !! "e0" = Some (A1 v) ∧ length v = length beta)
  ∧ (∃ v, sa !! "vt" = Some (A1 v) ∧ length v = length beta)
  ∧ (∃ M, sa !! "sme" = Some (A2 M) ∧ shape M (length beta) (ncols beta))
  ∧ (∃ M, sa !! "ste" = Some (A2 M) ∧ shape M (length beta) (ncols beta))
  ∧ (∃ T, sa !! "mef_m" = Some (A3 T) ∧ length T = length beta
          ∧ Forall (λ M, shape M (ncols beta) ngrid) T)
  ∧ (∃ T, sa !! "mef_v" = Some (A3 T) ∧ length T = length beta
          ∧ Forall (λ M, shape M (ncols beta) ngrid) T)
  ∧ (truthy varlist = true →
     ∃ M, sa !! "sie" = Some (A2 M)
          ∧ shape M (length beta) (length (default [] varlist)))
  ∧ (truthy jelist = true →
     ∃ M, sa !! "sje" = Some (A2 M)
          ∧ shape M (length beta) (length (default [] jelist))).
Proof.
  intros Hsa.
  destruct (component_sens_full _ _ _ _ _ _ _ _ _ _ _ _ Hsa)
    as (draws & diff & xdist & xexdist & xedist & Hlen & _ & He0 & Hvt & Hsme & Hste & Hmm
        & Hmv & Hsie & _ & _ & Hsje & Hdraws).
  assert (∀ out, out ∈ draws →
            length (d_sme out) = ncols beta ∧ length (d_ste out) = ncols beta
            ∧ shape (d_mef_m out) (ncols beta) ngrid
            ∧ shape (d_mef_v out) (ncols beta) ngrid
            ∧ length (d_sie out) = length (default [] varlist)
            ∧ length (d_sje out) = length (default [] jelist)) as Hall.
  { intros out Hin. apply list_elem_of_lookup in Hin as [ii Hii].
    destruct (Hdraws ii out Hii) as (b & u & w & gp & _ & _ & _ & _ & Hd).
    apply sens_draw_lengths in Hd as (? & ? & ? & ? & ? & _ & _ & _ & _ & ?).
    done. }
  split; [eexists; split; [done|by rewrite length_fmap]|].
  split; [eexists; split; [done|by rewrite length_fmap]|].
  split.
  { eexists. split; [done|]. split; [by rewrite length_fmap|].
    apply Forall_fmap, Forall_forall. intros out Hin. by apply Hall. }
  split.
  { eexists. split; [done|]. split; [by rewrite length_fmap|].
    apply Forall_fmap, Forall_forall. intros out Hin. by apply Hall. }
  split.
  { eexists. split; [done|]. split; [by rewrite length_fmap|].
    apply Forall_fmap, Forall_forall. intros out Hin. by apply Hall. }
  split.
  { eexists. split; [done|]. split; [by rewrite length_fmap|].
    apply Forall_fmap, Forall_forall. intros out Hin. by apply Hall. }
  split.
  - intros Ht. rewrite Ht in Hsie. eexists. split; [done|].
    split; [by rewrite length_fmap|].
    apply Forall_fmap, Forall_forall. intros out Hin. by apply Hall.
  - intros Ht. rewrite Ht in Hsje. eexists. split; [done|].
    split; [by rewrite length_fmap|].
    apply Forall_fmap, Forall_forall. intros out Hin. by apply Hall.
Qed.

(** The results of [sens_components] meet the shape requirements of the
    aggregation. *)
Lemma sens_components_shapes (model : SepiaModel) (ngrid : nat)
    (varlist jelist : option (list (list nat))) (ii0 : list nat) (nv : nat) (rg xe : mat)
    (betaU lamUz lamWs : mat) (sa : list (gmap string ndarray)) :
  sens_components SepiaDistCov_new compute_cov_mat linalg_inv linalg_solve
    model ngrid varlist jelist ii0 nv rg xe betaU lamUz lamWs = Ok sa →
  length ii0 = nv →
  length sa = num_pu model
  ∧ ∀ jj d, sa !! jj = Some d →
      (∃ v, d !! "vt" = Some (A1 v) ∧ length v = length betaU)
      ∧ (∃ M, d !! "sme" = Some (A2 M) ∧ shape M (length betaU) nv)
      ∧ (∃ M, d !! "ste" = Some (A2 M) ∧ shape M (length betaU) nv)
      ∧ (truthy varlist = true →
         ∃ M, d !! "sie" = Some (A2 M)
              ∧ shape M (length betaU) (length (default [] varlist)))
      ∧ (truthy jelist = true →
         ∃ M, d !! "sje" = Some (A2 M)
              ∧ shape M (length betaU) (length (default [] jelist))).
Proof.
  unfold sens_components. intros H Hii0.
  apply bind_Ok_inv in H as (w & Hw & H).
  apply mapM_res_inv in H as [Hlen Hall].
  split; [rewrite Hlen; unfold range; rewrite length_seq; lia|].
  intros jj d Hd.
  assert (jj < num_pu model) as Hjj.
  { apply lookup_lt_Some in Hd. rewrite Hlen in Hd. unfold range in Hd.
    rewrite length_seq in Hd. lia. }
  destruct (Hall jj jj) as (d' & Hcomp & Hd').
  { unfold range. rewrite lookup_seq_lt by lia. done. }
  rewrite Hd in Hd'. inversion Hd'; subst d'. clear Hd'.
  cbn beta zeta in Hcomp.
  apply bind_Ok_inv in Hcomp as (b & Hb & Hcomp).
  apply bind_Ok_inv in Hcomp as (u & _ & Hcomp).
  apply bind_Ok_inv in Hcomp as (ws & _ & Hcomp).
  apply bind_Ok_inv in Hcomp as (xs & _ & Hcomp).
  apply bind_Ok_inv in Hcomp as (wi & _ & Hcomp).
  apply cols_inv in Hb. rewrite length_fmap, Hii0 in Hb.
  pose proof Hb as [Hbl _].
  apply component_sens_shapes in Hcomp
    as (_ & Hvt & Hsme & Hste & _ & _ & Hsie & Hsje).
  rewrite Hbl in *.
  assert (∀ M, shape M (length betaU) (ncols b) → shape M (length betaU) nv) as Hsh.
  { intros M HM. destruct (decide (length betaU = 0)) as [Hz|Hnz].
    - destruct HM as [HlM _]. rewrite Hz in HlM. destruct M; [|done]. split; [done|].
      constructor.
    - by rewrite (ncols_shape b (length betaU) nv Hb ltac:(lia)) in HM. }
  split; [done|].
  split; [destruct Hsme as (M & ? & ?); exists M; split; [done|by apply Hsh]|].
  split; [destruct Hste as (M & ? & ?); exists M; split; [done|by apply Hsh]|].
  by split.
Qed.

End ComponentShapes.

(** ** The aggregation of the interaction and joint indices *)

Section AggregateKey.
Local Open Scope R_scope.
Context (key : string) (lam : vec) (sa : list (gmap string ndarray)) (vt : vec)
        (npvec n pu : nat).

Hypothesis lam_len : (pu ≤ length lam)%nat.
Hypothesis sa_len : length sa = pu.
Hypothesis vt_len : length vt = npvec.
Hypothesis sa_vt : ∀ jj d, sa !! jj = Some d →
  ∃ v, d !! "vt" = Some (A1 v) ∧ length v = npvec.
Hypothesis sa_key : ∀ jj d, sa !! jj = Some d →
  ∃ M, d !! key = Some (A2 M) ∧ shape M npvec n.

Let acc (ii k q : nat) : R :=
  sum (map (λ jj, vget lam jj * comp_entry sa key jj ii k * comp_vt sa jj ii) (seq 0 q)).

Lemma aggregate_key_draw_spec (sie0 : mat) (ii : nat) :
  shape sie0 npvec n → (ii < npvec)%nat →
  ∃ sie, aggregate_key_draw key lam sa vt pu ii sie0 = Ok sie
    ∧ shape sie npvec n
    ∧ ∀ i k, (i < npvec)%nat → (k < n)%nat →
        mget sie i k = if decide (i = ii)
                       then (mget sie0 ii k + acc ii k pu) / vget vt ii
                       else mget sie0 i k.
Proof.
  intros Hs0 Hii. unfold aggregate_key_draw.
  destruct (range_inv
    (λ q (st : mat),
       shape st npvec n
       ∧ ∀ i k, (i < npvec)%nat → (k < n)%nat →
           mget st i k = if decide (i = ii) then mget sie0 ii k + acc ii k q
                         else mget sie0 i k)
    (λ jj sie, w ← weighted_row lam sa key ii jj; iadd_row sie ii w) 0 pu sie0)
    as (s1 & Hrun & Hs1 & Gs1).
  - lia.
  - split; [done|]. intros i k Hi Hk. case_decide; subst; unfold acc; simpl; lra.
  - intros jj st Hjj (Hs & Gs).
    destruct (weighted_row_spec lam sa npvec pu lam_len sa_len sa_vt key n ii jj sa_key Hii
                ltac:(lia)) as (w & -> & Hw & Gw).
    rewrite bind_Ok.
    destruct (iadd_row_spec st npvec n ii w Hs Hii Hw) as (st' & -> & Hs' & Gs').
    eexists. split; [done|]. split; [done|].
    intros i k Hi Hk. rewrite Gs' by done. case_decide.
    + subst i. rewrite Gs by done. rewrite decide_True by done.
      unfold acc. rewrite sum_seq_S, Gw by done. lra.
    + rewrite Gs by done. by rewrite decide_False.
  - rewrite Hrun, bind_Ok. rewrite get1_vget by lia. rewrite bind_Ok.
    destruct (idiv_row_spec s1 npvec n ii (vget vt ii) Hs1 Hii) as (s2 & -> & Hs2 & Gs2).
    exists s2. split; [done|]. split; [done|].
    intros i k Hi Hk. rewrite Gs2 by done. case_decide.
    + subst i. rewrite Gs1 by done. by rewrite decide_True.
    + rewrite Gs1 by done. by rewrite decide_False.
Qed.

(** The loops of lines 138-142 and 147-151 return on well-shaped component
    results. *)
Lemma aggregate_key_run :
  ∃ sie, aggregate_key key lam sa vt npvec n pu = Ok sie
    ∧ shape sie npvec n
    ∧ ∀ ii k, (ii < npvec)%nat → (k < n)%nat →
        mget sie ii k = weighted_key lam sa key vt pu ii k.
Proof.
  unfold aggregate_key.
  destruct (range_inv
    (λ q (st : mat),
       shape st npvec n
       ∧ ∀ ii k, (ii < npvec)%nat → (k < n)%nat →
           mget st ii k = if decide (ii < q)%nat then weighted_key lam sa key vt pu ii k
                          else 0)
    (aggregate_key_draw key lam sa vt pu) 0 npvec (zeros2 npvec n))
    as (sie & Hrun & Hs & Gs).
  - lia.
  - split; [apply shape_zeros2|]. intros ii k _ _. rewrite mget_zeros2.
    by rewrite decide_False by lia.
  - intros q st Hq (Hs & Gs).
    destruct (aggregate_key_draw_spec st q Hs ltac:(lia)) as (s1 & -> & Hs1 & Gs1).
    eexists. split; [done|]. split; [done|].
    intros ii k Hi Hk. rewrite Gs1 by done. case_decide.
    + subst ii. rewrite decide_True by lia. rewrite Gs by lia.
      rewrite decide_False by lia. unfold weighted_key, acc. by rewrite Rplus_0_l.
    + rewrite Gs by done. destruct (decide (ii < q)%nat).
      * by rewrite decide_True by lia.
      * by rewrite decide_False by lia.
  - exists sie. split; [done|]. split; [done|].
    intros ii k Hii Hk. rewrite Gs by done. by rewrite decide_True.
Qed.

End AggregateKey.

(** An aggregate of equal indices is that index. *)
Lemma weighted_index_const (lam : vec) (sa : list (gmap string ndarray)) (key : string)
    (pu ii k : nat) (s : R) :
  (∀ jj, jj < pu → comp_entry sa key jj ii k = s) →
  total_variance lam sa pu ii ≠ 0%R →
  weighted_index lam sa key pu ii k = s.
Proof.
  intros Hs Hne. unfold weighted_index.
  assert (sum (map (λ jj, vget lam jj * comp_entry sa key jj ii k * comp_vt sa jj ii)%R
                   (seq 0 pu))
          = (s * total_variance lam sa pu ii)%R) as ->.
  { unfold total_variance.
    assert (∀ l, Forall (λ jj, jj < pu) l →
      sum (map (λ jj, vget lam jj * comp_entry sa key jj ii k * comp_vt sa jj ii)%R l)
      = (s * sum (map (λ jj, vget lam jj * comp_vt sa jj ii)%R l))%R) as Hgen.
    { induction 1 as [|jj l Hjj _ IH]; simpl; [lra|]. rewrite IH, (Hs jj Hjj). lra. }
    apply Hgen, Forall_forall. intros jj Hjj. apply list_elem_of_In, in_seq in Hjj. lia. }
  by field.
Qed.

(** ** One pass of the loop over the draws, in full *)

Section DrawInversion.
Local Open Scope R_scope.
Context (compute_cov_mat : SepiaDistCov → vec → R → option R → res mat).

Lemma sens_draw_inv (x : mat) (xdist : SepiaDistCov) (xexdist xedist : list SepiaDistCov)
    (m p ngrid : nat) (rg : mat) (diff : vec) (varlist jelist : option (list (list nat)))
    (betaei : vec) (lamUzi lamWsi : R) (P : mat) (My : vec) (Q : mat) (out : draw_out) :
  sens_draw compute_cov_mat x xdist xexdist xedist m p ngrid rg diff varlist jelist
    betaei lamUzi lamWsi (P, My, Q) = Ok out →
  ∃ c1 C2 c3,
    calc1 betaei diff = Ok c1
    ∧ calc2 x xdist m rg betaei diff = Ok C2
    ∧ shape C2 (m * (m + 1) / 2 + m) (length betaei)
    ∧ shape c3 m (length diff)
    ∧ sens_e2 m p Q lamUzi c1 C2 c3 = Ok (d_e2 out)
    ∧ sens_e0 lamUzi c3 My = Ok (d_e0 out)
    ∧ sens_vt m p Q lamUzi C2 (d_e2 out) = Ok (d_vt out)
    ∧ (∀ jj, (jj < p)%nat →
         ∃ s u1 u4, sens_main m p Q lamUzi c1 C2 c3 (d_e2 out) (d_vt out) jj = Ok (s, u1, u4)
              ∧ d_sme out !! jj = Some s)
    ∧ (∀ jj, (jj < p)%nat →
         ∃ t, sens_total m p Q lamUzi c1 C2 c3 (d_e2 out) (d_vt out) jj = Ok t
              ∧ d_ste out !! jj = Some t)
    ∧ (∀ jl jj Js, jelist = Some jl → jl !! jj = Some Js →
         ∃ s, sens_joint m p Q lamUzi c1 C2 c3 (d_e2 out) (d_vt out) Js = Ok s
              ∧ d_sje out !! jj = Some s).
Proof.
  unfold sens_draw. intros H.
  apply bind_Ok_inv in H as (c1 & Hc1 & H).
  apply bind_Ok_inv in H as (C2 & HC2 & H).
  apply bind_Ok_inv in H as (c3 & Hc3 & H).
  apply bind_Ok_inv in H as (e2 & He2 & H).
  apply bind_Ok_inv in H as (e0 & He0 & H).
  apply bind_Ok_inv in H as (vt & Hvt & H).
  apply bind_Ok_inv in H as ([[[sme ste] mef_m] mef_v] & Hloop & H).
  apply bind_Ok_inv in H as ([[sie jef_m] jef_v] & Hvar & H).
  apply bind_Ok_inv in H as (sje & Hje & H).
  inversion H; subst out; clear H. simpl.
  exists c1, C2, c3. do 2 (split; [done|]).
  split.
  { unfold calc2 in HC2. eapply calc2_loops_shape; [apply shape_zeros2|exact HC2]. }
  split.
  { refine (range_ok (λ _ (st : mat), shape st m (length diff)) _ 0 m _ _
              ltac:(lia) Hc3 _ _); [apply shape_zeros2|].
    intros jj st st' Hjj Hst Hbody.
    apply bind_Ok_inv in Hbody as (xj & _ & Hbody).
    apply bind_Ok_inv in Hbody as (r & _ & Hbody).
    by eapply set_row_shape. }
  do 3 (split; [done|]).
  pose proof (range_ok
    (λ jj (st : vec * vec * mat * mat),
       length st.1.1.1 = p ∧ length st.1.1.2 = p
       ∧ (∀ j, (j < jj)%nat →
            ∃ t, sens_total m p Q lamUzi c1 C2 c3 e2 vt j = Ok t ∧ st.1.1.2 !! j = Some t)
       ∧ (∀ j, (j < jj)%nat →
            ∃ s u1 u4, sens_main m p Q lamUzi c1 C2 c3 e2 vt j = Ok (s, u1, u4)
                       ∧ st.1.1.1 !! j = Some s))
    _ 0 p _ _ ltac:(lia) Hloop) as Hinv.
  cbn [fst snd] in Hinv.
  destruct Hinv as (Hlsme & Hlste & Hste & Hsme).
  { unfold zeros. rewrite !length_replicate. do 2 (split; [done|]).
    split; intros j Hj; lia. }
  { intros jj [[[sme' ste'] mm'] mv'] t' Hjj (Hl1 & Hl2 & I1 & I2) Hbody.
    cbn [fst snd] in *.
    apply bind_Ok_inv in Hbody as ([[s u1] u4] & Hmain & Hbody).
    apply bind_Ok_inv in Hbody as (xex & Hxex & Hbody).
    apply bind_Ok_inv in Hbody as (xed & Hxed & Hbody).
    apply bind_Ok_inv in Hbody as (ME & HME & Hbody).
    apply bind_Ok_inv in Hbody as (mm & Hmm & Hbody).
    apply bind_Ok_inv in Hbody as (mv & Hmv & Hbody).
    apply bind_Ok_inv in Hbody as (t & Ht & Hbody).
    inversion Hbody; subst t'; clear Hbody. cbn [fst snd].
    rewrite !length_insert. do 2 (split; [done|]). split.
    - intros j Hj. destruct (decide (j = jj)) as [->|Hne].
      + exists t. split; [done|]. apply list_lookup_insert_eq. lia.
      + destruct (I1 j ltac:(lia)) as (t0 & Ht0 & Hl). exists t0. split; [done|].
        by rewrite list_lookup_insert_ne.
    - intros j Hj. destruct (decide (j = jj)) as [->|Hne].
      + exists s, u1, u4. split; [done|]. apply list_lookup_insert_eq. lia.
      + destruct (I2 j ltac:(lia)) as (s0 & a & b & Hs0 & Hl). exists s0, a, b.
        split; [done|]. by rewrite list_lookup_insert_ne. }
  split; [done|]. split; [done|].
  intros jl jj Js -> HJs.
  pose proof (range_ok
    (λ jj (st : vec),
       length st = length jl
       ∧ (∀ j Js, (j < jj)%nat → jl !! j = Some Js →
            ∃ s, sens_joint m p Q lamUzi c1 C2 c3 e2 vt Js = Ok s ∧ st !! j = Some s))
    _ 0 (length jl) _ _ ltac:(lia) Hje) as Hinv.
  destruct Hinv as (Hlsje & Hsje).
  { unfold zeros. rewrite length_replicate. split; [done|]. intros j ? Hj; lia. }
  { intros j sje' t' Hj (Hl & I) Hbody.
    apply bind_Ok_inv in Hbody as (Js' & HJs' & Hbody).
    apply bind_Ok_inv in Hbody as (s & Hs & Hbody).
    inversion Hbody; subst t'; clear Hbody.
    rewrite length_insert. split; [done|].
    intros j' Js'' Hj' Hl'. destruct (decide (j' = j)) as [->|Hne].
    - unfold list_get in HJs'. rewrite Hl' in HJs'. inversion HJs'; subst Js'.
      exists s. split; [done|]. apply list_lookup_insert_eq. lia.
    - destruct (I j' Js'' ltac:(lia) Hl') as (s0 & Hs0 & Hlk).
      exists s0. split; [done|]. by rewrite list_lookup_insert_ne. }
  apply (Hsje jj Js); [|done]. by apply lookup_lt_Some in HJs.
Qed.

End DrawInversion.

Section MainPartKeys.
Context (SepiaDistCov_new : mat → option mat → list nat → res SepiaDistCov)
        (compute_cov_mat : SepiaDistCov → vec → R → option R → res mat)
        (linalg_inv : mat → res mat)
        (linalg_solve : mat → vec → res vec).
Context (unscale : SepiaModel → list (gmap string ndarray) → mat → nat → nat → nat →
                   option (list (list nat)) → res unscaled).

(** The entries [siePm] and [sjePm] of the result. *)
Lemma main_part_key_results (model : SepiaModel) (ngrid : nat) (varlist : varlist_arg)
    (jelist : option (list (list nat))) (ii0 : list nat) (nv : nat) (rg xe : mat)
    (betaU lamUz lamWs : mat) (sens : gmap string sensval) :
  sens_main_part SepiaDistCov_new compute_cov_mat linalg_inv linalg_solve unscale
    model ngrid varlist jelist ii0 nv rg xe betaU lamUz lamWs = Ok sens →
  ∃ sa lam sme ste vt,
    sens_components SepiaDistCov_new compute_cov_mat linalg_inv linalg_solve
      model ngrid (sens_varlist varlist nv) jelist ii0 nv rg xe betaU lamUz lamWs = Ok sa
    ∧ sens_lam (sens_ksmm model) = Ok lam
    ∧ aggregate lam sa (length betaU) nv (num_pu model) = Ok (sme, ste, vt)
    ∧ (∀ vl, sens_varlist varlist nv = Some vl →
         ∃ sie, aggregate_key "sie" lam sa vt (length betaU) (length vl) (num_pu model)
                = Ok sie
                ∧ sens !! "siePm" = Some (SArr (squeeze1 (mean0 (length vl) sie))))
    ∧ (∀ jl, jelist = Some jl →
         ∃ sje, aggregate_key "sje" lam sa vt (length betaU) (length jl) (num_pu model)
                = Ok sje
                ∧ sens !! "sjePm" = Some (SArr (squeeze1 (mean0 (length jl) sje)))).
Proof.
  unfold sens_main_part. intros H.
  apply bind_Ok_inv in H as (sa & Hsa & H).
  apply bind_Ok_inv in H as (lam & Hlam & H).
  apply bind_Ok_inv in H as ([[sme ste] vt] & Hagg & H).
  apply bind_Ok_inv in H as (siePm & Hsie & H).
  apply bind_Ok_inv in H as (sjePm & Hsje & H).
  apply bind_Ok_inv in H as (u & Hu & H).
  inversion H; subst sens; clear H.
  exists sa, lam, sme, ste, vt. do 3 (split; [done|]). split.
  - intros vl Hvl. rewrite Hvl in Hsie.
    apply bind_Ok_inv in Hsie as (sie & Hsie & Hs). inversion Hs; subst siePm.
    exists sie. split; [done|].
    destruct sjePm; rewrite ?lookup_insert_ne by done; by rewrite lookup_insert_eq.
  - intros jl ->.
    apply bind_Ok_inv in Hsje as (sje & Hsje & Hs). inversion Hs; subst sjePm.
    exists sje. split; [done|]. by rewrite lookup_insert_eq.
Qed.

End MainPartKeys.

(** * Further properties of [component_sens] and of the aggregation *)

(** X10. With an empty [Js], [varf] does not consult [C2]: it returns the outer
    product of [ef] with itself. Hence, for at least one input,
    [e2 = prod(c1)/lamUz - (u2.T @ Q @ u2)/lamUz^2] and
    [e0 = (u2 . My)/lamUz], where [u2] holds the row products of [c3]
    (lines 307-309). *)
Theorem component_mean_terms (m p : nat) (Q : mat) (lamUzi : R) (c1 : vec) (C2 c3 : mat) :
  m ≠ 1 →
  shape Q m m →
  length C2 = m * (m + 1) / 2 + m →
  length c3 = m →
  0 < p →
  (∃ V, varf m p [] C2 (prod_rows c3) = Ok V
     ∧ ∀ i j, i < m → j < m →
         get2 V i j = Ok (vget (prod_rows c3) i * vget (prod_rows c3) j)%R)
  ∧ sens_e2 m p Q lamUzi c1 C2 c3
    = Ok (prod c1 / lamUzi
          - sum (map (λ i, sum (map (λ k, mget Q i k
                                          * (vget (prod_rows c3) k * vget (prod_rows c3) i))
                                    (seq 0 m))) (seq 0 m)) / (lamUzi * lamUzi))%R
  ∧ ∀ My, length My = m →
      sens_e0 lamUzi c3 My = Ok (dot (prod_rows c3) My / lamUzi)%R.
Proof.
  intros Hm HQ HC2 Hc3 Hp. split; [|split].
  - assert (setxor1d (arange p) [] ≠ []) as Hll.
    { rewrite setxor1d_arange by constructor. rewrite complement_nil.
      destruct p; [lia|done]. }
    destruct (varf_run m p [] C2 (prod_rows c3)) as (V & HV & HVs & GV).
    + exact HC2.
    + apply Forall_forall. intros row _. constructor.
    + intros _. unfold prod_rows. by rewrite length_fmap.
    + exists V. split; [done|]. intros i j Hi Hj.
      rewrite (get2_mget V m m) by done. f_equal. rewrite GV by done.
      unfold varf_entry, ef_factor, C2_prod.
      destruct (decide (setxor1d (arange p) [] = [])) as [E|_]; [done|].
      destruct (decide (i = j)) as [->|_]; simpl; ring.
  - by apply sens_e2_spec.
  - intros My HMy. apply sens_e0_spec. lia.
Qed.

Lemma component_mean_terms_witness :
  2 ≠ 1
  ∧ shape example_Q 2 2
  ∧ length example_C2 = 2 * (2 + 1) / 2 + 2
  ∧ length example_c3 = 2
  ∧ 0 < 2
  ∧ ∀ My, length My = 2 →
      sens_e0 1 example_c3 My = Ok (dot (prod_rows example_c3) My / 1)%R.
Proof.
  assert (2 ≠ 1) as H1 by lia.
  assert (shape example_Q 2 2) as H2 by (split; [reflexivity|repeat constructor]).
  assert (length example_C2 = 2 * (2 + 1) / 2 + 2) as H3 by reflexivity.
  assert (length example_c3 = 2) as H4 by reflexivity.
  assert (0 < 2) as H5 by lia.
  do 5 (split; [assumption|]).
  exact (proj2 (proj2 (component_mean_terms 2 2 example_Q 1 example_c1 example_C2
                         example_c3 H1 H2 H3 H4 H5))).
Defined.

(** X11. With a single input ([p = 1]) the main and the total effect index of
    a draw are both 1 whenever the total variance [vt] of the draw is not 0:
    the numerator of the main effect is [vt] itself, and the numerator of the
    total effect vanishes (lines 308-328). This holds for the values that
    [component_sens] stores in [sme] and [ste]. *)
Theorem single_input_indices_are_one (m : nat) (Q : mat) (lamUzi : R) (c1 : vec)
    (C2 c3 : mat) :
  m ≠ 1 →
  shape Q m m →
  shape C2 (m * (m + 1) / 2 + m) 1 →
  shape c3 m 1 →
  length c1 = 1 →
  (∀ e2 vt,
     sens_e2 m 1 Q lamUzi c1 C2 c3 = Ok e2 →
     sens_vt m 1 Q lamUzi C2 e2 = Ok vt →
     vt ≠ 0%R →
     (∃ u1 u4, sens_main m 1 Q lamUzi c1 C2 c3 e2 vt 0 = Ok (1%R, u1, u4))
     ∧ sens_total m 1 Q lamUzi c1 C2 c3 e2 vt 0 = Ok 1%R)
  ∧ (∀ SepiaDistCov_new compute_cov_mat linalg_inv linalg_solve
       x y beta lamUz lamWs xe ngrid varlist jelist rg cat_ind sa,
       component_sens SepiaDistCov_new compute_cov_mat linalg_inv linalg_solve
         x y beta lamUz lamWs xe ngrid varlist jelist rg cat_ind = Ok sa →
       length x ≠ 1 →
       Forall (λ row : vec, length row = 1) beta →
       length rg = 1 →
       ∃ vt sme ste,
         sa !! "vt" = Some (A1 vt) ∧ sa !! "sme" = Some (A2 sme)
         ∧ sa !! "ste" = Some (A2 ste)
         ∧ ∀ ii, ii < length beta → vget vt ii ≠ 0%R →
             mget sme ii 0 = 1%R ∧ mget ste ii 0 = 1%R).
Proof.
  intros Hm HQ HC2 Hc3 Hc1. split.
  - intros e2 vt. by apply single_input_indices.
  - intros SepiaDistCov_new compute_cov_mat linalg_inv linalg_solve
      x y beta lamUz lamWs xe ngrid varlist jelist rg cat_ind sa Hsa Hx Hbeta Hrg.
    destruct (component_sens_full _ _ _ _ _ _ _ _ _ _ _ _ _ _ _ _ Hsa)
      as (draws & diff & xdist & xexdist & xedist & Hlen & Hdiff & _ & Hvt & Hsme & Hste
          & _ & _ & _ & _ & _ & _ & Hdraws).
    eexists _, _, _. do 3 (split; [done|]).
    intros ii Hii Hne.
    destruct (lookup_lt_is_Some_2 draws ii) as [out Hout]; [lia|].
    destruct (Hdraws ii out Hout)
      as (betaei & lamUzi' & lamWsi & [[P My] Q'] & Hb & Hu & _ & Hgp & Hd).
    apply gp_draw_shape in Hgp as [_ HQ'].
    assert (length betaei = 1) as Hbl.
    { unfold get_row in Hb. destruct (beta !! ii) as [row|] eqn:Hrow; [|done].
      inversion Hb; subst. rewrite Forall_lookup in Hbeta. by apply (Hbeta ii). }
    assert (ncols beta = 1) as Hnc.
    { unfold ncols. destruct beta as [|row beta]; [simpl in Hii; lia|]. simpl.
      by inversion Hbeta. }
    rewrite Hnc in Hd.
    destruct (sens_draw_inv _ _ _ _ _ _ _ _ _ _ _ _ _ _ _ _ _ _ _ Hd)
      as (c1' & C2' & c3' & Hc1' & _ & HC2' & Hc3' & He2 & _ & Hvt' & Hmain & Htot & _).
    rewrite Hbl in HC2'. rewrite Hdiff, Hrg in Hc3'.
    assert (length c1' = 1) as Hc1l.
    { rewrite calc1_entries in Hc1' by lia. inversion Hc1'.
      rewrite length_zip_with. lia. }
    assert (vget (map d_vt draws) ii = d_vt out) as Hv.
    { unfold vget. by rewrite list_lookup_fmap, Hout. }
    rewrite Hv in Hne.
    destruct (single_input_indices (length x) Q' lamUzi' c1' C2' c3' (d_e2 out) (d_vt out)
                Hx HQ' HC2' Hc3' Hc1l He2 Hvt' Hne) as [(u1 & u4 & Hm1) Ht1].
    destruct (Hmain 0 ltac:(lia)) as (s & u1' & u4' & Hs & Hls).
    destruct (Htot 0 ltac:(lia)) as (t & Ht & Hlt).
    rewrite Hm1 in Hs. inversion Hs; subst s.
    rewrite Ht1 in Ht. inversion Ht; subst t.
    unfold mget. rewrite !list_lookup_fmap, Hout. simpl. by rewrite Hls, Hlt.
Qed.

Lemma single_input_indices_are_one_witness :
  2 ≠ 1
  ∧ shape [[-2; 0]; [0; -2]]%R 2 2
  ∧ shape [[1]; [0]; [2]; [2]; [0]]%R (2 * (2 + 1) / 2 + 2) 1
  ∧ shape [[1]; [1]]%R 2 1
  ∧ length [1%R] = 1
  ∧ sens_e2 2 1 [[-2; 0]; [0; -2]]%R 1 [1%R] [[1]; [0]; [2]; [2]; [0]]%R [[1]; [1]]%R
    = Ok 5%R
  ∧ sens_vt 2 1 [[-2; 0]; [0; -2]]%R 1 [[1]; [0]; [2]; [2]; [0]]%R 5 = Ok 4%R
  ∧ 4%R ≠ 0%R
  ∧ sens_total 2 1 [[-2; 0]; [0; -2]]%R 1 [1%R] [[1]; [0]; [2]; [2]; [0]]%R
      [[1]; [1]]%R 5 4 0 = Ok 1%R.
Proof.
  assert (2 ≠ 1) as H1 by lia.
  assert (shape [[-2; 0]; [0; -2]]%R 2 2) as H2 by (split; [reflexivity|repeat constructor]).
  assert (shape [[1]; [0]; [2]; [2]; [0]]%R (2 * (2 + 1) / 2 + 2) 1) as H3
    by (split; [reflexivity|repeat constructor]).
  assert (shape [[1]; [1]]%R 2 1) as H4 by (split; [reflexivity|repeat constructor]).
  assert (length [1%R] = 1) as H5 by reflexivity.
  assert (sens_e2 2 1 [[-2; 0]; [0; -2]]%R 1 [1%R] [[1]; [0]; [2]; [2]; [0]]%R
            [[1]; [1]]%R = Ok 5%R) as H6 by (vm_compute; f_equal; lra).
  assert (sens_vt 2 1 [[-2; 0]; [0; -2]]%R 1 [[1]; [0]; [2]; [2]; [0]]%R 5 = Ok 4%R)
    as H7 by (vm_compute; f_equal; lra).
  assert (4%R ≠ 0%R) as H8 by lra.
  do 8 (split; [assumption|]).
  exact (proj2 (proj1 (single_input_indices_are_one 2 [[-2; 0]; [0; -2]]%R 1 [1%R]
                         [[1]; [0]; [2]; [2]; [0]]%R [[1]; [1]]%R H1 H2 H3 H4 H5)
                  5%R 4%R H6 H7 H8)).
Defined.

(** X12. Whenever the per-component computations of lines 96-105 succeed, the
    aggregation loops of lines 120-151 cannot raise, except for the missing
    key on an empty [varlist] or [jelist]: the arrays of every component have
    one row for each draw and one column for each input, pair or index set,
    as the loops require. The aggregates [sme], [ste] and [vt] have one row or
    entry for each draw. *)
Theorem aggregation_after_components
    (SepiaDistCov_new : mat → option mat → list nat → res SepiaDistCov)
    (compute_cov_mat : SepiaDistCov → vec → R → option R → res mat)
    (linalg_inv : mat → res mat) (linalg_solve : mat → vec → res vec)
    (model : SepiaModel) (ngrid : nat) (varlist jelist : option (list (list nat)))
    (ii0 : list nat) (nv : nat) (rg xe : mat) (betaU lamUz lamWs : mat)
    (sa : list (gmap string ndarray)) (lam : vec) :
  sens_components SepiaDistCov_new compute_cov_mat linalg_inv linalg_solve
    model ngrid varlist jelist ii0 nv rg xe betaU lamUz lamWs = Ok sa →
  length ii0 = nv →
  num_pu model ≤ length lam →
  ∃ sme ste vt,
    aggregate lam sa (length betaU) nv (num_pu model) = Ok (sme, ste, vt)
    ∧ shape sme (length betaU) nv ∧ shape ste (length betaU) nv
    ∧ length vt = length betaU
    ∧ (∀ vl, varlist = Some vl → vl ≠ [] →
         ∃ sie, aggregate_key "sie" lam sa vt (length betaU) (length vl) (num_pu model)
                = Ok sie ∧ shape sie (length betaU) (length vl))
    ∧ (∀ jl, jelist = Some jl → jl ≠ [] →
         ∃ sje, aggregate_key "sje" lam sa vt (length betaU) (length jl) (num_pu model)
                = Ok sje ∧ shape sje (length betaU) (length jl)).
Proof.
  intros Hsa Hii0 Hlam.
  destruct (sens_components_shapes _ _ _ _ _ _ _ _ _ _ _ _ _ _ _ _ Hsa Hii0)
    as [Hlen Hshapes].
  destruct (aggregate_run lam sa (length betaU) nv (num_pu model) Hlam Hlen)
    as (sme & ste & vt & Hagg & Hs & Ht & Hv & _).
  { intros jj d Hd. by destruct (Hshapes jj d Hd) as (? & _). }
  { intros jj d Hd. by destruct (Hshapes jj d Hd) as (_ & ? & _). }
  { intros jj d Hd. by destruct (Hshapes jj d Hd) as (_ & _ & ? & _). }
  exists sme, ste, vt. do 4 (split; [done|]). split.
  - intros vl -> Hne.
    destruct (aggregate_key_run "sie" lam sa vt (length betaU) (length vl) (num_pu model)
                Hlam Hlen Hv) as (sie & Hsie & Hshape & _).
    + intros jj d Hd. by destruct (Hshapes jj d Hd) as (? & _).
    + intros jj d Hd. destruct (Hshapes jj d Hd) as (_ & _ & _ & H & _).
      apply H. by destruct vl.
    + by exists sie.
  - intros jl -> Hne.
    destruct (aggregate_key_run "sje" lam sa vt (length betaU) (length jl) (num_pu model)
                Hlam Hlen Hv) as (sje & Hsje & Hshape & _).
    + intros jj d Hd. by destruct (Hshapes jj d Hd) as (? & _).
    + intros jj d Hd. destruct (Hshapes jj d Hd) as (_ & _ & _ & _ & H).
      apply H. by destruct jl.
    + by exists sje.
Qed.

Lemma aggregation_after_components_witness :
  ∃ sa,
    sens_components toy_distcov toy_cov_mat toy_inv toy_solve
      example_model 2 None None (arange 1) 1 (unit_ranges 1) (unit_grid 1 2)
      [[1%R]] [[1%R]] [[1%R]] = Ok sa
    ∧ length (arange 1) = 1
    ∧ num_pu example_model ≤ length [1%R]
    ∧ ∃ sme ste vt,
        aggregate [1%R] sa (length [[1%R]]) 1 (num_pu example_model) = Ok (sme, ste, vt)
        ∧ length vt = length [[1%R]].
Proof.
  assert (∃ sa,
    sens_components toy_distcov toy_cov_mat toy_inv toy_solve
      example_model 2 None None (arange 1) 1 (unit_ranges 1) (unit_grid 1 2)
      [[1%R]] [[1%R]] [[1%R]] = Ok sa) as [sa H1]
    by (eexists; vm_compute; reflexivity).
  assert (length (arange 1) = 1) as H2 by reflexivity.
  assert (num_pu example_model ≤ length [1%R]) as H3 by (simpl; lia).
  exists sa. do 3 (split; [assumption|]).
  destruct (aggregation_after_components toy_distcov toy_cov_mat toy_inv toy_solve
              example_model 2 None None (arange 1) 1 (unit_ranges 1) (unit_grid 1 2)
              [[1%R]] [[1%R]] [[1%R]] sa [1%R] H1 H2 H3)
    as (sme & ste & vt & Hagg & _ & _ & Hv & _).
  by exists sme, ste, vt.
Defined.

(** X13. The aggregated index of a draw is a weighted mean of the indices of
    the components: when all components have the same index [s] for an input
    and the summed weighted variance of the draw is not 0, the aggregate is
    [s] (lines 120-131). In particular, for a single basis component the
    aggregate is the index of that component. *)
Theorem aggregate_equal_indices (lam : vec) (sa : list (gmap string ndarray))
    (npvec nv pu : nat) :
  pu ≤ length lam →
  length sa = pu →
  (∀ jj d, sa !! jj = Some d → ∃ v, d !! "vt" = Some (A1 v) ∧ length v = npvec) →
  (∀ jj d, sa !! jj = Some d → ∃ M, d !! "sme" = Some (A2 M) ∧ shape M npvec nv) →
  (∀ jj d, sa !! jj = Some d → ∃ M, d !! "ste" = Some (A2 M) ∧ shape M npvec nv) →
  ∃ sme ste vt,
    aggregate lam sa npvec nv pu = Ok (sme, ste, vt)
    ∧ (∀ ii, ii < npvec →
         vget vt ii = sum (map (λ jj, vget lam jj * comp_vt sa jj ii)%R (seq 0 pu)))
    ∧ ∀ ii k s, ii < npvec → k < nv → vget vt ii ≠ 0%R →
        ((∀ jj, jj < pu → comp_entry sa "sme" jj ii k = s) → mget sme ii k = s)
        ∧ ((∀ jj, jj < pu → comp_entry sa "ste" jj ii k = s) → mget ste ii k = s).
Proof.
  intros Hlam Hsa Hvt Hsme Hste.
  destruct (aggregate_run lam sa npvec nv pu Hlam Hsa Hvt Hsme Hste)
    as (sme & ste & vt & Hagg & Hs & Ht & Hv & Gv & Gs & Gt).
  exists sme, ste, vt. split; [done|]. split; [exact Gv|].
  intros ii k s Hii Hk Hne. rewrite Gv in Hne by done.
  split; intros Hall.
  - rewrite Gs by done. by apply weighted_index_const.
  - rewrite Gt by done. by apply weighted_index_const.
Qed.

Lemma aggregate_equal_indices_witness :
  1 ≤ length [2%R]
  ∧ length [example_component] = 1
  ∧ (∀ jj d, [example_component] !! jj = Some d →
       ∃ v, d !! "vt" = Some (A1 v) ∧ length v = 1)
  ∧ (∀ jj d, [example_component] !! jj = Some d →
       ∃ M, d !! "sme" = Some (A2 M) ∧ shape M 1 1)
  ∧ (∀ jj d, [example_component] !! jj = Some d →
       ∃ M, d !! "ste" = Some (A2 M) ∧ shape M 1 1)
  ∧ ∃ sme ste vt,
      aggregate [2%R] [example_component] 1 1 1 = Ok (sme, ste, vt)
      ∧ vget vt 0 ≠ 0%R
      ∧ mget sme 0 0 = 1%R.
Proof.
  assert (1 ≤ length [2%R]) as H1 by (simpl; lia).
  assert (length [example_component] = 1) as H2 by reflexivity.
  pose proof (λ jj d H, proj1 (example_component_entries jj d H)) as H3.
  pose proof (λ jj d H, proj1 (proj2 (example_component_entries jj d H))) as H4.
  pose proof (λ jj d H, proj2 (proj2 (example_component_entries jj d H))) as H5.
  do 5 (split; [assumption|]).
  destruct (aggregate_equal_indices [2%R] [example_component] 1 1 1 H1 H2 H3 H4 H5)
    as (sme & ste & vt & Hagg & Gv & Heq).
  assert (vget vt 0 ≠ 0%R) as Hne.
  { rewrite Gv by lia. vm_compute. lra. }
  exists sme, ste, vt. split; [exact Hagg|]. split; [exact Hne|].
  apply (Heq 0 0 1%R ltac:(lia) ltac:(lia) Hne).
  intros jj Hjj. assert (jj = 0) as -> by lia. reflexivity.
Defined.

(** X14. The interaction and the joint indices are aggregated with the same
    weights: for every draw [ii] the aggregate is the sum over the components
    of [lam[jj] * index_jj * vt_jj], divided by the entry [vt[ii]] of the
    total variance computed by the first loop (lines 138-142, 147-151);
    [siePm] and [sjePm] are the squeezed means of these aggregates over the
    draws (lines 143, 152). *)
Theorem aggregated_interaction_indices (key : string) (lam : vec)
    (sa : list (gmap string ndarray)) (vt : vec) (npvec n pu : nat) :
  pu ≤ length lam →
  length sa = pu →
  length vt = npvec →
  (∀ jj d, sa !! jj = Some d → ∃ v, d !! "vt" = Some (A1 v) ∧ length v = npvec) →
  (∀ jj d, sa !! jj = Some d → ∃ M, d !! key = Some (A2 M) ∧ shape M npvec n) →
  (∃ sie, aggregate_key key lam sa vt npvec n pu = Ok sie
     ∧ shape sie npvec n
     ∧ ∀ ii k, ii < npvec → k < n →
         mget sie ii k
         = (sum (map (λ jj, vget lam jj * comp_entry sa key jj ii k * comp_vt sa jj ii)
                     (seq 0 pu)) / vget vt ii)%R)
  ∧ (∀ SepiaDistCov_new compute_cov_mat linalg_inv linalg_solve unscale
       model ngrid varlist jelist ii0 nv rg xe betaU lamUz lamWs sens,
       sens_main_part SepiaDistCov_new compute_cov_mat linalg_inv linalg_solve unscale
         model ngrid varlist jelist ii0 nv rg xe betaU lamUz lamWs = Ok sens →
       ∃ sa' lam' sme ste vt',
         sens_components SepiaDistCov_new compute_cov_mat linalg_inv linalg_solve
           model ngrid (sens_varlist varlist nv) jelist ii0 nv rg xe betaU lamUz lamWs
         = Ok sa'
         ∧ sens_lam (sens_ksmm model) = Ok lam'
         ∧ aggregate lam' sa' (length betaU) nv (num_pu model) = Ok (sme, ste, vt')
         ∧ (∀ vl, sens_varlist varlist nv = Some vl →
              ∃ sie, aggregate_key "sie" lam' sa' vt' (length betaU) (length vl)
                       (num_pu model) = Ok sie
                     ∧ sens !! "siePm" = Some (SArr (squeeze1 (mean0 (length vl) sie))))
         ∧ (∀ jl, jelist = Some jl →
              ∃ sje, aggregate_key "sje" lam' sa' vt' (length betaU) (length jl)
                       (num_pu model) = Ok sje
                     ∧ sens !! "sjePm" = Some (SArr (squeeze1 (mean0 (length jl) sje))))).
Proof.
  intros Hlam Hsa Hvt Hsvt Hkey. split.
  - destruct (aggregate_key_run key lam sa vt npvec n pu Hlam Hsa Hvt Hsvt Hkey)
      as (sie & Hrun & Hshape & G).
    exists sie. do 2 (split; [done|]). intros ii k Hii Hk. by rewrite G.
  - intros SepiaDistCov_new compute_cov_mat linalg_inv linalg_solve unscale
      model ngrid varlist jelist ii0 nv rg xe betaU lamUz lamWs sens Hmain.
    by apply main_part_key_results in Hmain.
Qed.

Lemma aggregated_interaction_indices_witness :
  1 ≤ length [2%R]
  ∧ length [example_component_pair] = 1
  ∧ length [6%R] = 1
  ∧ (∀ jj d, [example_component_pair] !! jj = Some d →
       ∃ v, d !! "vt" = Some (A1 v) ∧ length v = 1)
  ∧ (∀ jj d, [example_component_pair] !! jj = Some d →
       ∃ M, d !! "sie" = Some (A2 M) ∧ shape M 1 1)
  ∧ ∃ sie, aggregate_key "sie" [2%R] [example_component_pair] [6%R] 1 1 1 = Ok sie
      ∧ mget sie 0 0
        = (sum (map (λ jj, vget [2%R] jj * comp_entry [example_component_pair] "sie" jj 0 0
                           * comp_vt [example_component_pair] jj 0) (seq 0 1))
           / vget [6%R] 0)%R.
Proof.
  assert (1 ≤ length [2%R]) as H1 by (simpl; lia).
  assert (length [example_component_pair] = 1) as H2 by reflexivity.
  assert (length [6%R] = 1) as H3 by reflexivity.
  assert (∀ jj d, [example_component_pair] !! jj = Some d →
            ∃ v, d !! "vt" = Some (A1 v) ∧ length v = 1) as H4.
  { intros jj d. destruct jj as [|jj]; simpl; intros H; [|by rewrite lookup_nil in H].
    inversion H; subst d.
    exists [3%R]. split; [|reflexivity]. unfold example_component_pair, example_component.
    rewrite !lookup_insert_ne by done. apply lookup_insert_eq. }
  assert (∀ jj d, [example_component_pair] !! jj = Some d →
            ∃ M, d !! "sie" = Some (A2 M) ∧ shape M 1 1) as H5.
  { intros jj d. destruct jj as [|jj]; simpl; intros H; [|by rewrite lookup_nil in H].
    inversion H; subst d.
    exists [[5%R]]. split; [apply lookup_insert_eq|]. split; [reflexivity|repeat constructor]. }
  do 5 (split; [assumption|]).
  destruct (proj1 (aggregated_interaction_indices "sie" [2%R] [example_component_pair]
                     [6%R] 1 1 1 H1 H2 H3 H4 H5)) as (sie & Hrun & _ & G).
  exists sie. split; [exact Hrun|]. apply G; lia.
Defined.

Section SingleRunCall.
Context (SepiaDistCov_new : mat → option mat → list nat → res SepiaDistCov)
        (compute_cov_mat : SepiaDistCov → vec → R → option R → res mat)
        (linalg_inv : mat → res mat)
        (linalg_solve : mat → vec → res vec).
Context (unscale : SepiaModel → list (gmap string ndarray) → mat → nat → nat → nat →
                   option (list (list nat)) → res unscaled).

(** X15. With a single simulation run ([m = 1]), at least one basis component
    and at least one selected draw, whatever the [option], the call does not
    return a result: [np.squeeze] turns the one by one matrix [Q[ii, :, :]]
    into an array without dimensions, which the operator [@] of line 308
    refuses with a [ValueError]; so [component_sens] raises on every non-empty
    set of draws. *)
Theorem sensitivity_single_run (model : SepiaModel)
    (samples_dict : option (gmap string mat)) (ngrid : nat) (varlist : varlist_arg)
    (jelist : option (list (list nat))) (rg : option mat) (opt : option_arg) :
  length (data_zt model) = 1 →
  0 < num_pu model →
  0 < selected_draws opt (default (get_samples model) samples_dict) →
  (∀ msgs v,
     sensitivity SepiaDistCov_new compute_cov_mat linalg_inv linalg_solve unscale
       model samples_dict ngrid varlist jelist rg opt = Returned msgs v →
     v = None)
  ∧ (∀ x y beta lamUz lamWs xe ngrid' varlist' jelist' rg' cat_ind,
       length x = 1 → beta ≠ [] →
       ∃ e, component_sens SepiaDistCov_new compute_cov_mat linalg_inv linalg_solve
              x y beta lamUz lamWs xe ngrid' varlist' jelist' rg' cat_ind = Raise e)
  ∧ (∀ p Q lamUzi c1 C2 c3 V,
       shape Q 1 1 →
       varf 1 p [] C2 (prod_rows c3) = Ok V →
       trace_matmul Q V = Raise ValueError
       ∧ sens_e2 1 p Q lamUzi c1 C2 c3 = Raise ValueError).
Proof.
  intros Hm Hpu Hsel. split; [|split].
  - intros msgs [sens|] Hcall; [|done]. exfalso.
    apply sensitivity_returned_inv in Hcall
      as (_ & _ & _ & b0 & u0 & w0 & betaU & lamUz & lamWs & Hb0 & _ & _ & Hopt & Hmain).
    pose proof (sens_option_draws opt _ b0 u0 w0 betaU lamUz lamWs Hb0 Hopt) as Hlen.
    assert (betaU ≠ []) as Hb by (destruct betaU; [simpl in Hlen; lia|done]).
    destruct (main_part_results _ _ _ _ _ _ _ _ _ _ _ _ _ _ _ _ _ Hmain)
      as (sa & lam & sme & ste & vt & Hsa & _).
    unfold sens_components in Hsa.
    apply bind_Ok_inv in Hsa as (w & _ & Hsa).
    apply mapM_res_inv in Hsa as [_ Hall].
    destruct (Hall 0 0) as (d & Hcomp & _).
    { unfold range. by rewrite lookup_seq_lt by lia. }
    cbn beta zeta in Hcomp.
    apply bind_Ok_inv in Hcomp as (b & Hbsub & Hcomp).
    apply bind_Ok_inv in Hcomp as (u & _ & Hcomp).
    apply bind_Ok_inv in Hcomp as (ws & _ & Hcomp).
    apply bind_Ok_inv in Hcomp as (xs & Hxs & Hcomp).
    apply bind_Ok_inv in Hcomp as (wi & _ & Hcomp).
    apply cols_inv in Hbsub as [Hbl _]. apply cols_inv in Hxs as [Hxl _].
    destruct (component_sens_single SepiaDistCov_new compute_cov_mat linalg_inv
                linalg_solve xs wi b u ws
                (unit_grid (num_p model + num_q model) ngrid) ngrid
                (sens_varlist varlist (num_p model + num_q model)) jelist
                (unit_ranges (num_p model + num_q model))
                (data_x_cat_ind model ++ data_t_cat_ind model)) as [e He].
    + lia.
    + destruct b; [|done]. destruct betaU; [done|]. simpl in Hbl. lia.
    + rewrite He in Hcomp. done.
  - intros x y beta lamUz lamWs xe ngrid' varlist' jelist' rg' cat_ind.
    apply component_sens_single.
  - intros p Q lamUzi c1 C2 c3 V HQ HV. split; [by apply trace_matmul_single|].
    by apply (proj2 (sens_e2_single p Q lamUzi c1 C2 c3 HQ) V).
Qed.

End SingleRunCall.

Lemma sensitivity_single_run_witness :
  length (data_zt example_model_single_run) = 1
  ∧ 0 < num_pu example_model_single_run
  ∧ 0 < selected_draws (OptStr "samples")
          (default (get_samples example_model_single_run) None)
  ∧ ∀ msgs v,
      sensitivity toy_distcov toy_cov_mat toy_inv toy_solve toy_unscale
        example_model_single_run None 2 VarNone None None (OptStr "samples")
      = Returned msgs v →
      v = None.
Proof.
  assert (length (data_zt example_model_single_run) = 1) as H1 by reflexivity.
  assert (0 < num_pu example_model_single_run) as H2 by (simpl; lia).
  assert (0 < selected_draws (OptStr "samples")
                (default (get_samples example_model_single_run) None)) as H3
    by (vm_compute; lia).
  do 3 (split; [assumption|]).
  exact (proj1 (sensitivity_single_run toy_distcov toy_cov_mat toy_inv toy_solve
                  toy_unscale example_model_single_run None 2 VarNone None None
                  (OptStr "samples") H1 H2 H3)).
Defined.

Example sensitivity_example_single_run :
  sensitivity toy_distcov toy_cov_mat toy_inv toy_solve toy_unscale
    example_model_single_run None 2 VarNone None None (OptStr "mean")
  = Raised ValueError.
Proof. vm_compute. reflexivity. Qed.

Example sensitivity_example_empty_jelist :
  sensitivity toy_distcov toy_cov_mat toy_inv toy_solve toy_unscale
    example_model None 2 VarNone (Some []) None (OptStr "mean")
  = Raised (KeyError "sje").
Proof. vm_compute. reflexivity. Qed.

(** ** The kernel integrals [calc3] and [calc2] *)

Lemma vec_ext (a b : vec) (n : nat) :
  length a = n → length b = n → (∀ k, k < n → vget a k = vget b k) → a = b.
Proof.
  intros Ha Hb Hext. apply list_eq. intros k.
  destruct (decide (k < n)) as [Hk|Hk].
  - specialize (Hext k Hk). unfold vget in Hext.
    destruct (lookup_lt_is_Some_2 a k) as [x Hx]; [lia|].
    destruct (lookup_lt_is_Some_2 b k) as [y Hy]; [lia|].
    rewrite Hx, Hy in *. simpl in Hext. by rewrite Hext.
  - rewrite !lookup_ge_None_2 by lia. done.
Qed.

Lemma vget_seq_map (f : nat → R) (n k : nat) : k < n → vget (map f (seq 0 n)) k = f k.
Proof.
  intros Hk. unfold vget. by rewrite list_lookup_fmap, lookup_seq_lt by done.
Qed.

Lemma vget_col (M : mat) (j k : nat) : vget (map (λ row : vec, vget row j) M) k = mget M k j.
Proof.
  unfold vget, mget. rewrite list_lookup_fmap. by destruct (M !! k).
Qed.

Section Calc3.
Local Open Scope R_scope.

Lemma gauss_le_1 (t : R) : gauss t <= 1.
Proof.
  unfold gauss. rewrite <- exp_0.
  destruct (Req_dec (t * t) 0) as [E|E].
  - rewrite E, Ropp_0. lra.
  - left. apply exp_increasing. nra.
Qed.

Lemma gauss_integral_pos (a b : R) : a < b → 0 < RiemannInt (gauss_integrable a b).
Proof.
  intros Hab.
  pose proof (RiemannInt_const_bound (gauss_integrable a b)
                (l := exp (- ((Rabs a + Rabs b) * (Rabs a + Rabs b)))) (u := 1)
                ltac:(lra)) as H.
  assert (0 < exp (- ((Rabs a + Rabs b) * (Rabs a + Rabs b))) * (b - a)) as Hpos.
  { apply Rmult_lt_0_compat; [apply exp_pos|lra]. }
  destruct H as [Hl _]; [|lra].
  intros x Hx. split; [|apply gauss_le_1].
  unfold gauss.
  pose proof (Rabs_pos a). pose proof (Rabs_pos b).
  pose proof (Rle_abs a). pose proof (Rle_abs b).
  pose proof (Rle_abs (- a)) as Hna. rewrite Rabs_Ropp in Hna.
  assert (x * x <= (Rabs a + Rabs b) * (Rabs a + Rabs b)) as Hsq by nra.
  destruct Hsq as [Hlt|Heq].
  - left. apply exp_increasing. lra.
  - rewrite Heq. lra.
Qed.

Lemma erf_increasing (a b : R) : a < b → erf a < erf b.
Proof.
  intros Hab. unfold erf.
  rewrite <- (RiemannInt_P26 (gauss_integrable 0 a) (gauss_integrable a b)
                (gauss_integrable 0 b)).
  pose proof (gauss_integral_pos a b Hab).
  assert (0 < 2 / sqrt PI) as Hc.
  { apply Rdiv_lt_0_compat; [lra|]. apply sqrt_lt_R0, PI_RGT_0. }
  nra.
Qed.

Lemma norm_cdf_increasing (a b : R) : a < b → norm_cdf a < norm_cdf b.
Proof.
  intros Hab. unfold norm_cdf.
  assert (0 < sqrt 2) as Hs by (apply sqrt_lt_R0; lra).
  assert (a / sqrt 2 < b / sqrt 2) as Hd.
  { unfold Rdiv. apply Rmult_lt_compat_r; [|done]. by apply Rinv_0_lt_compat. }
  pose proof (erf_increasing _ _ Hd). lra.
Qed.

Lemma calc3_formula_pos (x lo hi beta diff : R) :
  0 < beta → lo < hi → 0 < diff → 0 < calc3_formula x lo hi beta diff.
Proof.
  intros Hb Hlh Hd. unfold calc3_formula.
  assert (0 < sqrt (PI / beta)) as H1.
  { apply sqrt_lt_R0, Rdiv_lt_0_compat; [apply PI_RGT_0|done]. }
  assert (0 < sqrt (2 * beta)) as H2 by (apply sqrt_lt_R0; lra).
  assert (sqrt (2 * beta) * (lo - x) < sqrt (2 * beta) * (hi - x)) as H3
    by (apply Rmult_lt_compat_l; lra).
  pose proof (norm_cdf_increasing _ _ H3) as H4.
  apply Rdiv_lt_0_compat; [|done]. apply Rmult_lt_0_compat; lra.
Qed.

Lemma calc3_entries (x : vec) (rg : mat) (beta diff : vec) (p : nat) :
  shape rg p 2 → length x = p → length beta = p → length diff = p →
  calc3 x rg beta diff
  = Ok (map (λ k, calc3_formula (vget x k) (mget rg k 0) (mget rg k 1)
                    (vget beta k) (vget diff k)) (seq 0 p)).
Proof.
  intros Hrg Hx Hb Hd. pose proof Hrg as [Hlr _]. unfold calc3.
  rewrite (col_ok rg p 2 1 Hrg ltac:(lia)), bind_Ok.
  rewrite bcast_same by (rewrite length_fmap; lia). rewrite bind_Ok.
  rewrite bcast_same by (rewrite length_fmap, length_zip_with, length_fmap; lia).
  rewrite bind_Ok.
  rewrite (col_ok rg p 2 0 Hrg ltac:(lia)), bind_Ok.
  rewrite bcast_same by (rewrite length_fmap; lia). rewrite bind_Ok.
  rewrite bcast_same by (rewrite length_fmap, length_zip_with, length_fmap; lia).
  rewrite bind_Ok.
  rewrite bcast_same
    by (rewrite !length_fmap, !length_zip_with, !length_fmap; lia).
  rewrite bind_Ok.
  rewrite bcast_same
    by (rewrite length_fmap, length_zip_with, !length_fmap, !length_zip_with,
          !length_fmap; lia).
  rewrite bind_Ok.
  rewrite bcast_same
    by (rewrite length_zip_with, length_fmap, length_zip_with, !length_fmap,
          !length_zip_with, !length_fmap; lia).
  f_equal. apply (vec_ext _ _ p).
  - rewrite length_zip_with, length_zip_with, length_fmap, length_zip_with, !length_fmap,
      !length_zip_with, !length_fmap. lia.
  - by rewrite length_fmap, length_seq.
  - intros k Hk. rewrite vget_seq_map by done.
    repeat first
      [ rewrite vget_zip_with
          by (rewrite ?length_zip_with, ?length_fmap, ?length_zip_with, ?length_fmap,
                ?length_zip_with, ?length_fmap; lia)
      | rewrite vget_map
          by (rewrite ?length_zip_with, ?length_fmap, ?length_zip_with, ?length_fmap; lia) ].
    rewrite !vget_col. reflexivity.
Qed.

End Calc3.

Section Calc2Run.
Local Open Scope R_scope.
Context (x : mat) (xdist : SepiaDistCov) (m p : nat) (rg : mat) (beta diff : vec).
Hypothesis x_shape : shape x m p.
Hypothesis rg_shape : shape rg p 2.
Hypothesis beta_len : length beta = p.
Hypothesis diff_len : length diff = p.
Hypothesis xdist_pairs : pairs_indexed xdist m p.

Lemma calc2_pair_run (i j : nat) :
  (i < j < m)%nat →
  ∃ k sq row,
    where_pair xdist i j = Ok [k] ∧ sqdist xdist !! k = Some sq
    ∧ calc2_pair x xdist rg beta diff i j = Ok row ∧ length row = p
    ∧ ∀ d, (d < p)%nat →
        vget row d
        = calc3_formula ((mget x i d + mget x j d) / 2) (mget rg d 0) (mget rg d 1)
            (2 * vget beta d) (vget diff d)
          * exp (- vget beta d * vget sq d / 2).
Proof.
  intros Hij. destruct (xdist_pairs i j Hij) as (k & sq & Hw & Hsq & Hlsq).
  exists k, sq. unfold calc2_pair.
  destruct (get_row_ok x m p i x_shape ltac:(lia)) as (xi & -> & Hxi & Gxi).
  destruct (get_row_ok x m p j x_shape ltac:(lia)) as (xj & -> & Hxj & Gxj).
  rewrite !bind_Ok. rewrite bcast_same by lia. rewrite bind_Ok, Hw, bind_Ok.
  rewrite (calc3_entries _ rg _ diff p)
    by (rewrite ?length_fmap, ?length_zip_with; (done || lia)).
  rewrite bind_Ok. simpl mapM_res. unfold get_row at 1. rewrite Hsq. rewrite !bind_Ok.
  rewrite bcast_same by lia. rewrite bind_Ok.
  rewrite bcast_same by (rewrite length_fmap, length_seq, length_zip_with; lia).
  eexists. do 3 (split; [done|]). split.
  - rewrite length_zip_with, length_fmap, length_seq, length_zip_with. lia.
  - intros d Hd.
    rewrite vget_zip_with
      by (rewrite ?length_fmap, ?length_seq, ?length_zip_with; lia).
    rewrite vget_seq_map by done.
    rewrite vget_zip_with by lia.
    rewrite !vget_map by (rewrite ?length_zip_with; lia).
    rewrite vget_zip_with by lia. by rewrite Gxi, Gxj.
Qed.

Lemma calc2_diag_run (i : nat) :
  (i < m)%nat →
  ∃ xi row,
    get_row x i = Ok xi ∧ calc3 xi rg (map (Rmult 2) beta) diff = Ok row ∧ length row = p
    ∧ ∀ d, (d < p)%nat →
        vget row d
        = calc3_formula (mget x i d) (mget rg d 0) (mget rg d 1)
            (2 * vget beta d) (vget diff d).
Proof.
  intros Hi.
  destruct (get_row_ok x m p i x_shape Hi) as (xi & Hget & Hxi & Gxi).
  exists xi. eexists. split; [done|].
  rewrite (calc3_entries xi rg _ diff p) by (rewrite ?length_fmap; done).
  split; [done|]. split; [by rewrite length_fmap, length_seq|].
  intros d Hd. rewrite vget_seq_map by done. rewrite vget_map by lia. by rewrite Gxi.
Qed.

(** The loops of [calc2] return on well-shaped input. *)
Lemma calc2_loops_run (C0 : mat) :
  shape C0 (m * (m + 1) / 2 + m) p →
  ∃ C2, calc2_loops x xdist m rg beta diff C0 = Ok C2.
Proof.
  intros H0. unfold calc2_loops. rewrite table_rows in H0.
  lazymatch goal with
  | |- ∃ _, (for_each _ ?body ?s ≫= _) = _ =>
      destruct (range_inv
        (λ ii (st : nat * mat),
           st.1 = pairs_before m ii ∧ shape st.2 (pairs_before m m + 2 * m) p)
        body 0 m s) as ([kk C1] & Hrun1 & Hkk & H1)
  end.
  - lia.
  - done.
  - intros ii [kk C] Hii [Hk HC]. cbn [fst snd] in *.
    lazymatch goal with
    | |- ∃ _, for_each _ ?inner ?s = _ ∧ _ =>
        destruct (range_inv
          (λ jj (st : nat * mat),
             st.1 = (pairs_before m ii + (jj - ii - 1))%nat
             ∧ shape st.2 (pairs_before m m + 2 * m) p)
          inner (ii + 1) m s) as ([kk' C'] & Hrun & Hk' & HC')
    end.
    + lia.
    + cbn [fst snd]. split; [lia|done].
    + intros jj [k1 Ca] Hjj [Hk1 HCa]. cbn [fst snd] in *.
      destruct (calc2_pair_run ii jj ltac:(lia)) as (k & sq & row & _ & _ & -> & Hrow & _).
      rewrite bind_Ok.
      pose proof (pair_row_lt m ii jj ltac:(lia)) as Hlt. unfold pair_row in Hlt.
      destruct (set_row_spec Ca _ p k1 row HCa ltac:(lia) Hrow) as (Cb & -> & HCb & _).
      rewrite bind_Ok. eexists. split; [done|]. cbn [fst snd]. split; [lia|done].
    + cbn [fst snd] in *. eexists. split; [exact Hrun|]. cbn [fst snd].
      split; [|done]. simpl. lia.
  - rewrite Hrun1, bind_Ok. cbn [fst snd] in *.
    lazymatch goal with
    | |- ∃ _, (for_each _ ?body ?s ≫= _) = _ =>
        destruct (range_inv
          (λ ii (st : nat * mat),
             st.1 = (pairs_before m m + ii)%nat
             ∧ shape st.2 (pairs_before m m + 2 * m) p)
          body 0 m s) as ([kk2 C2] & Hrun2 & _)
    end.
    + lia.
    + cbn [fst snd]. split; [lia|done].
    + intros ii [k1 Ca] Hii [Hk1 HCa]. cbn [fst snd] in *.
      destruct (calc2_diag_run ii ltac:(lia)) as (xi & row & -> & Hrow & Hlen & _).
      rewrite bind_Ok. cbn zeta. rewrite Hrow, bind_Ok.
      destruct (set_row_spec Ca _ p (k1 + 1) row HCa ltac:(lia) Hlen) as (Cb & -> & HCb & _).
      rewrite bind_Ok. eexists. split; [done|]. cbn [fst snd]. split; [lia|done].
    + rewrite Hrun2, bind_Ok. by eexists.
Qed.

End Calc2Run.

(** * Further properties of the kernel integrals *)

(** X16. On well-shaped input [calc3] returns one entry for each input
    dimension [k], namely
    [sqrt(pi/beta_k) (Phi(sqrt(2 beta_k)(hi_k - x_k)) - Phi(sqrt(2 beta_k)(lo_k - x_k))) / diff_k];
    the entry is positive whenever [beta_k > 0], [lo_k < hi_k] and
    [diff_k > 0], because the normal distribution function is strictly
    increasing (lines 385-389). *)
Theorem calc3_positive (x : vec) (rg : mat) (beta diff : vec) (p : nat) :
  shape rg p 2 →
  length x = p →
  length beta = p →
  length diff = p →
  ∃ c3, calc3 x rg beta diff = Ok c3
    ∧ length c3 = p
    ∧ ∀ k, k < p →
        vget c3 k = (sqrt (PI / vget beta k)
                     * (norm_cdf (sqrt (2 * vget beta k) * (mget rg k 1 - vget x k))
                        - norm_cdf (sqrt (2 * vget beta k) * (mget rg k 0 - vget x k)))
                     / vget diff k)%R
        ∧ ((0 < vget beta k)%R → (mget rg k 0 < mget rg k 1)%R → (0 < vget diff k)%R →
           (0 < vget c3 k)%R).
Proof.
  intros Hrg Hx Hb Hd. eexists. split; [by apply (calc3_entries x rg beta diff p)|].
  split; [by rewrite length_fmap, length_seq|].
  intros k Hk. rewrite vget_seq_map by done. split; [done|].
  apply calc3_formula_pos.
Qed.

Lemma calc3_positive_witness :
  shape [[0; 1]]%R 1 2
  ∧ length [0%R] = 1
  ∧ length [1%R] = 1
  ∧ length [1%R] = 1
  ∧ ∃ c3, calc3 [0%R] [[0; 1]]%R [1%R] [1%R] = Ok c3 ∧ (0 < vget c3 0)%R.
Proof.
  assert (shape [[0; 1]]%R 1 2) as H1 by (split; [reflexivity|repeat constructor]).
  assert (length [0%R] = 1) as H2 by reflexivity.
  assert (length [1%R] = 1) as H3 by reflexivity.
  do 4 (split; [assumption|]).
  destruct (calc3_positive [0%R] [[0; 1]]%R [1%R] [1%R] 1 H1 H2 H3 H3)
    as (c3 & Hc3 & _ & G).
  exists c3. split; [exact Hc3|].
  destruct (G 0 ltac:(lia)) as [_ Hpos].
  apply Hpos; unfold vget, mget; simpl; lra.
Defined.

(** X17. When every pair of runs has exactly one entry in the index vectors
    of [xdist], [calc2] returns on well-shaped input a table with
    [m(m+1)/2 + m] rows and one column for each input dimension: the row of
    the pair [(i, j)] holds [calc3] at the midpoint of the two runs with
    doubled [beta], times [exp(-beta * sqdist / 2)] for the squared distances
    of the pair; the row of the diagonal entry [i] holds [calc3] at run [i]
    with doubled [beta]; row [m(m-1)/2] and the last [m - 1] rows stay zero
    (lines 371-383). *)
Theorem calc2_table (x : mat) (xdist : SepiaDistCov) (m p : nat) (rg : mat)
    (beta diff : vec) :
  shape x m p →
  shape rg p 2 →
  length beta = p →
  length diff = p →
  pairs_indexed xdist m p →
  ∃ C2, calc2 x xdist m rg beta diff = Ok C2
    ∧ shape C2 (m * (m + 1) / 2 + m) p
    ∧ (∀ i j d, i < j < m → d < p →
         ∃ k, where_pair xdist i j = Ok [k]
           ∧ mget C2 (pair_row m i j) d
             = (calc3_formula ((mget x i d + mget x j d) / 2) (mget rg d 0) (mget rg d 1)
                  (2 * vget beta d) (vget diff d)
                * exp (- vget beta d * mget (sqdist xdist) k d / 2))%R)
    ∧ (∀ i d, i < m → d < p →
         mget C2 (diag_row m i) d
         = calc3_formula (mget x i d) (mget rg d 0) (mget rg d 1)
             (2 * vget beta d) (vget diff d))
    ∧ (∀ k d, k = m * (m - 1) / 2 ∨ m * (m - 1) / 2 + m < k → mget C2 k d = 0%R).
Proof.
  intros Hx Hrg Hb Hd Hpairs. unfold calc2. rewrite Hb.
  pose proof (shape_zeros2 (m * (m + 1) / 2 + m) p) as H0.
  destruct (calc2_loops_run x xdist m p rg beta diff Hx Hrg Hb Hd Hpairs _ H0)
    as [C2 Hrun].
  exists C2. split; [done|].
  pose proof (calc2_loops_shape _ _ _ _ _ _ _ _ _ _ H0 Hrun) as HC2.
  split; [done|].
  destruct (calc2_loops_rows x xdist m rg beta diff _ C2 Hrun) as (Hp & Hdg & Hf).
  split; [|split].
  - intros i j d Hij Hdp.
    destruct (calc2_pair_run x xdist m p rg beta diff Hx Hrg Hb Hd Hpairs i j Hij)
      as (k & sq & row & Hw & Hsq & Hrow & Hlen & G).
    exists k. split; [done|].
    destruct (Hp i j Hij) as (row' & Hrow' & old & Hold & HC).
    rewrite Hrow in Hrow'. inversion Hrow'; subst row'.
    rewrite (shape_row _ _ _ _ _ H0 Hold) in HC. unfold assigned_row in HC.
    rewrite decide_True in HC by done.
    unfold mget at 1. rewrite HC. simpl. fold (vget row d). rewrite G by done.
    do 4 f_equal. unfold mget, vget. by rewrite Hsq.
  - intros i d Hi Hdp.
    destruct (calc2_diag_run x m p rg beta diff Hx Hrg Hb Hd i Hi)
      as (xi & row & Hxi & Hrow & Hlen & G).
    destruct (Hdg i Hi) as (row' & Hrow' & old & Hold & HC).
    rewrite Hxi, bind_Ok, Hrow in Hrow'. inversion Hrow'; subst row'.
    rewrite (shape_row _ _ _ _ _ H0 Hold) in HC. unfold assigned_row in HC.
    rewrite decide_True in HC by done.
    unfold mget at 1. rewrite HC. simpl. fold (vget row d). by rewrite G.
  - intros k d Hk. rewrite pairs_total in Hk. unfold mget. rewrite (Hf k Hk).
    apply mget_zeros2.
Qed.

Lemma calc2_table_witness :
  shape [[0]; [1]]%R 2 1
  ∧ shape [[0; 1]]%R 1 2
  ∧ length [1%R] = 1
  ∧ length [1%R] = 1
  ∧ pairs_indexed example_xdist 2 1
  ∧ ∃ C2, calc2 [[0]; [1]]%R example_xdist 2 [[0; 1]]%R [1%R] [1%R] = Ok C2
      ∧ shape C2 (2 * (2 + 1) / 2 + 2) 1
      ∧ mget C2 (diag_row 2 0) 0
        = calc3_formula (mget [[0]; [1]]%R 0 0) (mget [[0; 1]]%R 0 0) (mget [[0; 1]]%R 0 1)
            (2 * vget [1%R] 0) (vget [1%R] 0).
Proof.
  assert (shape [[0]; [1]]%R 2 1) as H1 by (split; [reflexivity|repeat constructor]).
  assert (shape [[0; 1]]%R 1 2) as H2 by (split; [reflexivity|repeat constructor]).
  assert (length [1%R] = 1) as H3 by reflexivity.
  assert (pairs_indexed example_xdist 2 1) as H4.
  { intros i j Hij. assert (i = 0) as -> by lia. assert (j = 1) as -> by lia.
    exists 0, [1%R]. repeat split. }
  do 5 (split; [assumption|]).
  destruct (calc2_table [[0]; [1]]%R example_xdist 2 1 [[0; 1]]%R [1%R] [1%R]
              H1 H2 H3 H3 H4) as (C2 & Hrun & Hshape & _ & Hdiag & _).
  exists C2. split; [exact Hrun|]. split; [exact Hshape|].
  apply Hdiag; lia.
Defined.

(** ** Scaling of the inputs: [transform_xt] *)

Lemma mapM_res_total {A B : Type} (f : A → res B) (P : A → B → Prop) (l : list A) :
  (∀ i a, l !! i = Some a → ∃ b, f a = Ok b ∧ P a b) →
  ∃ r, mapM_res f l = Ok r ∧ length r = length l
    ∧ ∀ i a, l !! i = Some a → ∃ b, r !! i = Some b ∧ P a b.
Proof.
  induction l as [|a l IH]; intros H; simpl.
  - exists []. split; [done|]. split; [done|]. intros i a Hi. by rewrite lookup_nil in Hi.
  - destruct (H 0 a eq_refl) as (b & Hb & HP).
    destruct IH as (r & Hr & Hlen & Hent); [intros i x Hi; exact (H (S i) x Hi)|].
    exists (b :: r). rewrite Hb, bind_Ok, Hr, bind_Ok.
    split; [done|]. split; [simpl; lia|].
    intros [|i] x Hi; simpl in Hi.
    + inversion Hi; subst. by exists b.
    + by apply Hent.
Qed.

Lemma foldr_Rmin_le (a : R) (v : vec) :
  (foldr Rmin a v <= a)%R ∧ Forall (λ x, (foldr Rmin a v <= x)%R) v.
Proof.
  induction v as [|x v [IHa IHv]]; simpl; [split; [lra|constructor]|].
  split.
  - pose proof (Rmin_r x (foldr Rmin a v)). lra.
  - constructor; [apply Rmin_l|].
    eapply Forall_impl; [exact IHv|]. intros y Hy. simpl in Hy.
    pose proof (Rmin_r x (foldr Rmin a v)). lra.
Qed.

Lemma foldr_Rmin_in (a : R) (v : vec) : foldr Rmin a v ∈ a :: v.
Proof.
  induction v as [|x v IH]; simpl; [left|].
  apply Rmin_case; [right; left|].
  apply elem_of_cons in IH as [->|IH]; [left|right; right; done].
Qed.

Lemma foldr_Rmax_ge (a : R) (v : vec) :
  (a <= foldr Rmax a v)%R ∧ Forall (λ x, (x <= foldr Rmax a v)%R) v.
Proof.
  induction v as [|x v [IHa IHv]]; simpl; [split; [lra|constructor]|].
  split.
  - pose proof (Rmax_r x (foldr Rmax a v)). lra.
  - constructor; [apply Rmax_l|].
    eapply Forall_impl; [exact IHv|]. intros y Hy. simpl in Hy.
    pose proof (Rmax_r x (foldr Rmax a v)). lra.
Qed.

Lemma foldr_Rmax_in (a : R) (v : vec) : foldr Rmax a v ∈ a :: v.
Proof.
  induction v as [|x v IH]; simpl; [left|].
  apply Rmax_case; [right; left|].
  apply elem_of_cons in IH as [->|IH]; [left|right; right; done].
Qed.

Lemma vget_lookup (v : vec) (i : nat) (x : R) : v !! i = Some x → vget v i = x.
Proof. intros H. unfold vget. by rewrite H. Qed.

Lemma np_min_spec (v : vec) (n : nat) :
  length v = n → 0 < n →
  ∃ m, np_min v = Ok m ∧ (∀ i, i < n → (m <= vget v i)%R) ∧ ∃ i, i < n ∧ vget v i = m.
Proof.
  intros Hlen Hn. destruct v as [|a v]; [simpl in Hlen; lia|].
  exists (foldr Rmin a v). split; [done|].
  destruct (foldr_Rmin_le a v) as [Ha Hv]. split.
  - intros [|i] Hi; [done|]. simpl in Hlen.
    destruct (lookup_lt_is_Some_2 v i) as [x Hx]; [lia|].
    rewrite (vget_lookup (a :: v) (S i) x) by done.
    rewrite Forall_lookup in Hv. exact (Hv i x Hx).
  - pose proof (foldr_Rmin_in a v) as Hin.
    apply list_elem_of_lookup in Hin as [i Hi]. exists i.
    split; [rewrite <- Hlen; by eapply lookup_lt_Some|]. by apply vget_lookup.
Qed.

Lemma np_max_spec (v : vec) (n : nat) :
  length v = n → 0 < n →
  ∃ m, np_max v = Ok m ∧ (∀ i, i < n → (vget v i <= m)%R) ∧ ∃ i, i < n ∧ vget v i = m.
Proof.
  intros Hlen Hn. destruct v as [|a v]; [simpl in Hlen; lia|].
  exists (foldr Rmax a v). split; [done|].
  destruct (foldr_Rmax_ge a v) as [Ha Hv]. split.
  - intros [|i] Hi; [done|]. simpl in Hlen.
    destruct (lookup_lt_is_Some_2 v i) as [x Hx]; [lia|].
    rewrite (vget_lookup (a :: v) (S i) x) by done.
    rewrite Forall_lookup in Hv. exact (Hv i x Hx).
  - pose proof (foldr_Rmax_in a v) as Hin.
    apply list_elem_of_lookup in Hin as [i Hi]. exists i.
    split; [rewrite <- Hlen; by eapply lookup_lt_Some|]. by apply vget_lookup.
Qed.

Lemma np_min0_spec (M : mat) (n p : nat) :
  shape M n p → 0 < n →
  ∃ mn, np_min0 M = Ok mn ∧ length mn = p
    ∧ ∀ j, j < p →
        (∀ i, i < n → (vget mn j <= mget M i j)%R) ∧ ∃ i, i < n ∧ mget M i j = vget mn j.
Proof.
  intros HM Hn. pose proof HM as [Hlen _].
  assert (np_min0 M = mapM_res (λ j, c ← col M j; np_min c) (seq 0 p)) as ->.
  { unfold np_min0. rewrite (ncols_shape M n p HM Hn).
    destruct M; [simpl in Hlen; lia|done]. }
  destruct (mapM_res_total (λ j, c ← col M j; np_min c)
              (λ j m, (∀ i, i < n → (m <= mget M i j)%R) ∧ ∃ i, i < n ∧ mget M i j = m)
              (seq 0 p)) as (mn & Hmn & Hl & Hent).
  { intros k j Hk. apply lookup_seq in Hk as [-> Hk]. simpl.
    rewrite (col_ok M n p k HM Hk), bind_Ok.
    destruct (np_min_spec (map (λ row : vec, vget row k) M) n) as (m & -> & Hle & i & Hi & Hm);
      [by rewrite length_map|done|].
    exists m. split; [done|]. split.
    - intros i' Hi'. specialize (Hle i' Hi'). by rewrite vget_col in Hle.
    - exists i. split; [done|]. by rewrite vget_col in Hm. }
  exists mn. split; [done|]. rewrite length_seq in Hl. split; [done|].
  intros j Hj. destruct (Hent j j) as (m & Hm & HP); [by apply lookup_seq_lt|].
  by rewrite (vget_lookup mn j m Hm).
Qed.

Lemma np_max0_spec (M : mat) (n p : nat) :
  shape M n p → 0 < n →
  ∃ mx, np_max0 M = Ok mx ∧ length mx = p
    ∧ ∀ j, j < p →
        (∀ i, i < n → (mget M i j <= vget mx j)%R) ∧ ∃ i, i < n ∧ mget M i j = vget mx j.
Proof.
  intros HM Hn. pose proof HM as [Hlen _].
  assert (np_max0 M = mapM_res (λ j, c ← col M j; np_max c) (seq 0 p)) as ->.
  { unfold np_max0. rewrite (ncols_shape M n p HM Hn).
    destruct M; [simpl in Hlen; lia|done]. }
  destruct (mapM_res_total (λ j, c ← col M j; np_max c)
              (λ j m, (∀ i, i < n → (mget M i j <= m)%R) ∧ ∃ i, i < n ∧ mget M i j = m)
              (seq 0 p)) as (mx & Hmx & Hl & Hent).
  { intros k j Hk. apply lookup_seq in Hk as [-> Hk]. simpl.
    rewrite (col_ok M n p k HM Hk), bind_Ok.
    destruct (np_max_spec (map (λ row : vec, vget row k) M) n) as (m & -> & Hle & i & Hi & Hm);
      [by rewrite length_map|done|].
    exists m. split; [done|]. split.
    - intros i' Hi'. specialize (Hle i' Hi'). by rewrite vget_col in Hle.
    - exists i. split; [done|]. by rewrite vget_col in Hm. }
  exists mx. split; [done|]. rewrite length_seq in Hl. split; [done|].
  intros j Hj. destruct (Hent j j) as (m & Hm & HP); [by apply lookup_seq_lt|].
  by rewrite (vget_lookup mx j m Hm).
Qed.

Lemma mask_assign_ok (v : vec) (mask : list bool) (c : R) :
  length v = length mask →
  mask_assign v mask c = Ok (zip_with (λ (b : bool) e, if b then c else e) mask v).
Proof. intros H. unfold mask_assign. by rewrite decide_True. Qed.

Lemma vget_mask (v : vec) (mask : list bool) (c : R) (j : nat) (b : bool) :
  mask !! j = Some b → j < length v →
  vget (zip_with (λ (b : bool) e, if b then c else e) mask v) j = if b then c else vget v j.
Proof.
  intros Hb Hj. unfold vget. rewrite lookup_zip_with, Hb. simpl.
  destruct (lookup_lt_is_Some_2 v j Hj) as [x ->]. done.
Qed.

(** The entries of [trans]. *)
Lemma trans_spec (x : mat) (a b : R) (x_min x_max : vec) (n p : nat) :
  shape x n p → length x_min = p → length x_max = p →
  ∃ xt, trans x a b x_min x_max = Ok xt ∧ shape xt n p
    ∧ ∀ i j, i < n → j < p →
        mget xt i j =
          if decide (vget x_max j - vget x_min j = 0)%R then mget x i j
          else ((mget x i j - vget x_min j) / (vget x_max j - vget x_min j) * (b - a) + a)%R.
Proof.
  intros Hx Hmn Hmx. pose proof Hx as [Hlen HF]. unfold trans.
  rewrite bcast_same by lia. rewrite bind_Ok.
  set (xmm := zip_with Rminus x_max x_min).
  set (mask := map (λ d, bool_decide (d = 0%R)) xmm).
  assert (length xmm = p) as Hxmm by (unfold xmm; rewrite length_zip_with; lia).
  assert (length mask = p) as Hmask by (unfold mask; by rewrite length_map).
  rewrite !mask_assign_ok by (rewrite ?length_map; lia). rewrite !bind_Ok.
  set (mn' := zip_with (λ (b0 : bool) e, if b0 then 0%R else e) mask x_min).
  set (av := zip_with (λ (b0 : bool) e, if b0 then 0%R else e) mask (map (λ _, (a * 1)%R) x_min)).
  set (bv := zip_with (λ (b0 : bool) e, if b0 then 1%R else e) mask (map (λ _, (b * 1)%R) x_min)).
  set (xm' := zip_with (λ (b0 : bool) e, if b0 then 1%R else e) mask xmm).
  assert (length mn' = p) as Hmn' by (unfold mn'; rewrite length_zip_with; lia).
  assert (length av = p) as Hav by (unfold av; rewrite length_zip_with, length_map; lia).
  assert (length bv = p) as Hbv by (unfold bv; rewrite length_zip_with, length_map; lia).
  assert (length xm' = p) as Hxm' by (unfold xm'; rewrite length_zip_with; lia).
  rewrite bcast_same by lia. rewrite bind_Ok.
  set (g := λ row : vec,
         zip_with Rplus
           (zip_with Rmult (zip_with Rdiv (zip_with Rminus row mn') xm') (zip_with Rminus bv av))
           av).
  rewrite (mapM_res_ok _ g).
  2:{ eapply Forall_impl; [exact HF|]. intros row Hrow. simpl in Hrow. unfold g.
      rewrite bcast_same by lia. rewrite bind_Ok.
      rewrite bcast_same by (rewrite length_zip_with; lia). rewrite bind_Ok.
      rewrite bcast_same by (rewrite !length_zip_with; lia). rewrite bind_Ok.
      rewrite bcast_same by (rewrite !length_zip_with; lia). done. }
  eexists. split; [done|]. split.
  { split; [by rewrite length_map|]. apply Forall_map.
    eapply Forall_impl; [exact HF|]. intros row Hrow. simpl in *. unfold g.
    rewrite !length_zip_with. lia. }
  intros i j Hi Hj.
  destruct (shape_lookup x n p i j Hx Hi Hj) as (row & xij & Hrow & Hxij & Hget).
  pose proof (shape_row x n p i row Hx Hrow) as Hrl.
  assert (mget (map g x) i j = vget (g row) j) as ->.
  { unfold mget, vget. rewrite list_lookup_fmap, Hrow. done. }
  assert (vget row j = mget x i j) as Hrj by (rewrite Hget; by apply vget_lookup).
  unfold g.
  repeat (rewrite vget_zip_with by (rewrite ?length_zip_with; lia)).
  assert (mask !! j = Some (bool_decide (vget x_max j - vget x_min j = 0)%R)) as Hmj.
  { unfold mask. rewrite list_lookup_fmap.
    assert (xmm !! j = Some (vget x_max j - vget x_min j)%R) as ->; [|done].
    unfold xmm. rewrite lookup_zip_with. unfold vget.
    destruct (lookup_lt_is_Some_2 x_max j) as [u ->]; [lia|].
    destruct (lookup_lt_is_Some_2 x_min j) as [w ->]; [lia|]. done. }
  unfold mn', av, bv, xm'.
  rewrite !(vget_mask _ mask _ j _ Hmj) by (rewrite ?length_map; lia).
  rewrite !vget_map by lia.
  unfold xmm. rewrite vget_zip_with by lia. rewrite Hrj.
  destruct (decide (vget x_max j - vget x_min j = 0)%R) as [E|E].
  - rewrite bool_decide_eq_true_2 by done. field.
  - rewrite bool_decide_eq_false_2 by done. field. exact E.
Qed.

Lemma trans_min_max (x : mat) (n p : nat) (a b : R) :
  shape x n p → 0 < n → (a <= b)%R →
  ∃ mn mx xt, np_min0 x = Ok mn ∧ np_max0 x = Ok mx ∧ trans x a b mn mx = Ok xt
    ∧ length mn = p ∧ length mx = p
    ∧ (∀ i j, i < n → j < p → (vget mn j <= mget x i j <= vget mx j)%R)
    ∧ (∀ j, j < p → vget mn j = vget mx j ↔ ∀ i i', i < n → i' < n → mget x i j = mget x i' j)
    ∧ columns_scaled x xt n p a b.
Proof.
  intros Hx Hn Hab.
  destruct (np_min0_spec x n p Hx Hn) as (mn & Hmn & Hlmn & Hmin).
  destruct (np_max0_spec x n p Hx Hn) as (mx & Hmx & Hlmx & Hmax).
  destruct (trans_spec x a b mn mx n p Hx Hlmn Hlmx) as (xt & Hxt & Hsh & Hent).
  exists mn, mx, xt. do 5 (split; [done|]).
  assert (∀ j, j < p →
            vget mn j = vget mx j ↔ ∀ i i', i < n → i' < n → mget x i j = mget x i' j) as Hconst.
  { intros j Hj. destruct (Hmin j Hj) as (Hle & i0 & Hi0 & E0).
    destruct (Hmax j Hj) as (Hge & i1 & Hi1 & E1). split.
    - intros E i i' Hi Hi'.
      pose proof (Hle i Hi). pose proof (Hge i Hi). pose proof (Hle i' Hi'). pose proof (Hge i' Hi').
      lra.
    - intros Hc. rewrite <- E0, <- E1. by apply Hc. }
  split; [intros i j Hi Hj; split; [by apply Hmin|by apply Hmax]|].
  split; [done|]. split; [done|].
  intros j Hj. destruct (Hmin j Hj) as (Hle & i0 & Hi0 & E0).
  destruct (Hmax j Hj) as (Hge & i1 & Hi1 & E1). split.
  - intros Hc i Hi. rewrite (Hent i j Hi Hj).
    rewrite decide_True; [done|]. apply (Hconst j Hj) in Hc. lra.
  - intros (i & i' & Hi & Hi' & Hne).
    assert (vget mx j - vget mn j ≠ 0)%R as Hd.
    { intros E. apply Hne. apply (Hconst j Hj); [lra|done..]. }
    assert (0 < vget mx j - vget mn j)%R as Hpos.
    { pose proof (Hle i0 Hi0). pose proof (Hge i0 Hi0). lra. }
    split; [|split].
    + intros k Hk. rewrite (Hent k j Hk Hj), decide_False by done.
      pose proof (Hle k Hk) as H1. pose proof (Hge k Hk) as H2.
      set (r := ((mget x k j - vget mn j) / (vget mx j - vget mn j))%R).
      assert (0 <= r <= 1)%R as [Hr0 Hr1].
      { unfold r. split.
        - apply Rmult_le_pos; [lra|]. left. by apply Rinv_0_lt_compat.
        - apply (Rmult_le_reg_r (vget mx j - vget mn j)); [done|].
          unfold Rdiv. rewrite Rmult_assoc, Rinv_l by done. lra. }
      split; nra.
    + exists i0. split; [done|]. rewrite (Hent i0 j Hi0 Hj), decide_False by done.
      rewrite E0. field. done.
    + exists i1. split; [done|]. rewrite (Hent i1 j Hi1 Hj), decide_False by done.
      rewrite E1. field. done.
Qed.

(** ** Standardization of the outputs: [standardize_y] *)

Lemma sum_map_div {A : Type} (f : A → R) (c : R) (l : list A) :
  sum (map (λ a, f a / c)%R l) = (sum (map f l) / c)%R.
Proof. induction l as [|a l IH]; simpl; [unfold Rdiv; ring|]. rewrite IH. unfold Rdiv. ring. Qed.

Lemma sum_map_minus {A : Type} (f : A → R) (c : R) (l : list A) :
  sum (map (λ a, f a - c)%R l) = (sum (map f l) - INR (length l) * c)%R.
Proof.
  induction l as [|a l IH]; [simpl; ring|].
  cbn [map sum foldr length]. fold (sum (map (λ a, f a - c)%R l)). fold (sum (map f l)).
  rewrite IH, S_INR. ring.
Qed.

Lemma sum_map_ext {A : Type} (f g : A → R) (l : list A) :
  (∀ a, a ∈ l → f a = g a) → sum (map f l) = sum (map g l).
Proof.
  induction l as [|a l IH]; intros H; simpl; [done|].
  rewrite (H a) by left. rewrite IH; [done|]. intros b Hb. apply H. by right.
Qed.

Lemma sum_sq_nonneg {A : Type} (f : A → R) (l : list A) :
  (0 <= sum (map (λ a, f a * f a)%R l))%R.
Proof. induction l as [|a l IH]; simpl; [lra|]. nra. Qed.

Lemma sum_sq_zero {A : Type} (f : A → R) (l : list A) :
  sum (map (λ a, f a * f a)%R l) = 0%R → ∀ a, a ∈ l → f a = 0%R.
Proof.
  induction l as [|a l IH]; intros H b Hb; [by apply elem_of_nil in Hb|].
  change (f a * f a + sum (map (λ a, f a * f a) l) = 0)%R in H.
  pose proof (sum_sq_nonneg f l) as Hl.
  pose proof (Rle_0_sqr (f a)) as Hsq. unfold Rsqr in Hsq.
  apply elem_of_cons in Hb as [->|Hb].
  - apply Rsqr_0_uniq. unfold Rsqr. lra.
  - apply IH; [lra|done].
Qed.

Lemma sum_id (v : vec) : sum (map (λ a : R, a) v) = sum v.
Proof. by rewrite map_id. Qed.

Lemma Rinv_INR_nonneg (k : nat) : (0 <= / INR k)%R.
Proof.
  destruct k as [|k]; [simpl; rewrite Rinv_0; lra|].
  left. apply Rinv_0_lt_compat. apply lt_0_INR. lia.
Qed.

(** [np.std] commutes with division by a positive number. *)
Lemma np_std_scale (v : vec) (s : R) :
  (0 < s)%R → np_std (map (λ a, a / s)%R v) = (np_std v / s)%R.
Proof.
  intros Hs. unfold np_std. rewrite length_map.
  rewrite (sum_map_div (λ a, a) s v), sum_id, map_map.
  set (mu := (sum v / INR (length v))%R).
  rewrite (sum_map_ext _ (λ a, (a - mu) * (a - mu) / (s * s))%R).
  2:{ intros a _. unfold mu, Rdiv. rewrite Rinv_mult. ring. }
  rewrite (sum_map_div (λ a, (a - mu) * (a - mu))%R).
  set (X := sum (map (λ a, (a - mu) * (a - mu))%R v)).
  replace (X / (s * s) / INR (length v - 1))%R with (X / INR (length v - 1) / (s * s))%R
    by (unfold Rdiv; ring).
  rewrite sqrt_div_alt by nra. by rewrite (sqrt_square s) by lra.
Qed.

(** With at least two entries, [np.std] vanishes exactly on constant arrays. *)
Lemma np_std_zero_iff (v : vec) (n : nat) :
  length v = n → 2 <= n →
  np_std v = 0%R ↔ ∀ i i', i < n → i' < n → vget v i = vget v i'.
Proof.
  intros Hlen Hn. unfold np_std. rewrite Hlen.
  set (mu := (sum v / INR n)%R).
  set (X := sum (map (λ a, (a - mu) * (a - mu))%R v)).
  assert (0 <= X)%R as HX by apply (sum_sq_nonneg (λ a, a - mu)%R).
  assert (0 < INR (n - 1))%R as Hk by (apply lt_0_INR; lia).
  assert (0 < INR n)%R as Hn' by (apply lt_0_INR; lia).
  assert (0 < / INR (n - 1))%R as Hik by (by apply Rinv_0_lt_compat).
  split.
  - intros H0. apply sqrt_eq_0 in H0; [|unfold Rdiv; nra].
    assert (X = 0)%R as HX0 by (unfold Rdiv in H0; nra).
    pose proof (sum_sq_zero (λ a, a - mu)%R v HX0) as Hall.
    assert (∀ i, i < n → vget v i = mu) as Hmu.
    { intros i Hi. destruct (lookup_lt_is_Some_2 v i) as [x Hx]; [lia|].
      rewrite (vget_lookup v i x Hx).
      specialize (Hall x ltac:(by eapply list_elem_of_lookup_2)). simpl in Hall. lra. }
    intros i i' Hi Hi'. by rewrite !Hmu.
  - intros Hc.
    assert (∀ a, a ∈ v → a = vget v 0) as Hall.
    { intros a Ha. apply list_elem_of_lookup in Ha as [i Hi].
      rewrite <- (vget_lookup v i a Hi). apply Hc; [|lia].
      rewrite <- Hlen. by eapply lookup_lt_Some. }
    assert (sum v = INR n * vget v 0)%R as Hsum.
    { rewrite <- sum_id. rewrite (sum_map_ext _ (λ _, vget v 0 - 0)%R).
      - rewrite sum_map_minus. rewrite Hlen.
        assert (sum (map (λ _ : R, vget v 0) v) = INR n * vget v 0)%R as ->; [|ring].
        rewrite <- Hlen. clear. generalize (vget v 0). intros c.
        induction v as [|a v IH]; [simpl; ring|].
        cbn [map sum foldr length]. fold (sum (map (λ _ : R, c) v)). rewrite IH, S_INR. ring.
      - intros a Ha. rewrite (Hall a Ha). ring. }
    assert (mu = vget v 0) as Hmu by (unfold mu; rewrite Hsum; field; lra).
    assert (X = 0)%R as ->.
    { unfold X. rewrite (sum_map_ext _ (λ _, 0 - 0)%R).
      - rewrite sum_map_minus.
        assert (sum (map (λ _ : R, 0%R) v) = 0%R) as ->; [|ring].
        clear. induction v as [|a v IH]; [done|].
        cbn [map sum foldr]. fold (sum (map (λ _ : R, 0%R) v)). rewrite IH. ring.
      - intros a Ha. rewrite (Hall a Ha), Hmu. ring. }
    unfold Rdiv. rewrite Rmult_0_l. apply sqrt_0.
Qed.

Lemma mjoin_map_map (f : R → R) (M : mat) : mjoin (map (map f) M) = map f (mjoin M).
Proof.
  induction M as [|row M IH]; [done|].
  change (map f row ++ mjoin (map (map f) M) = map f (row ++ mjoin M)).
  by rewrite map_app, IH.
Qed.

(** The entries of [M - c] and [M / c]. *)
Lemma mat_op_spec (f : R → R → R) (M : mat) (c : vec + R) (n p : nat) :
  shape M n p → (∀ v, c = inl v → length v = p) →
  ∃ M', mat_op f M c = Ok M' ∧ shape M' n p
    ∧ (∀ i j, i < n → j < p → mget M' i j = f (mget M i j) (sv_get c j))
    ∧ (∀ s, c = inr s → M' = map (map (λ a, f a s)) M).
Proof.
  intros HM Hc. pose proof HM as [Hlen HF]. destruct c as [v|s]; simpl.
  - specialize (Hc v eq_refl).
    rewrite (mapM_res_ok _ (λ row, zip_with f row v)).
    2:{ eapply Forall_impl; [exact HF|]. intros row Hrow. simpl in Hrow.
        apply bcast_same. lia. }
    eexists. split; [done|]. split; [|split; [|done]].
    + split; [by rewrite length_map|]. apply Forall_map.
      eapply Forall_impl; [exact HF|]. intros row Hrow. simpl in *.
      rewrite length_zip_with. lia.
    + intros i j Hi Hj.
      destruct (shape_lookup M n p i j HM Hi Hj) as (row & x & Hrow & Hx & Hget).
      pose proof (shape_row M n p i row HM Hrow) as Hrl.
      unfold mget at 1. rewrite list_lookup_fmap, Hrow. simpl.
      fold (vget (zip_with f row v) j). rewrite vget_zip_with by lia.
      by rewrite (vget_lookup row j x Hx), Hget.
  - eexists. split; [done|]. split; [|split].
    + split; [by rewrite length_map|]. apply Forall_map.
      eapply Forall_impl; [exact HF|]. intros row Hrow. simpl in *. by rewrite length_map.
    + intros i j Hi Hj.
      destruct (shape_lookup M n p i j HM Hi Hj) as (row & x & Hrow & Hx & Hget).
      unfold mget at 1. rewrite list_lookup_fmap, Hrow. simpl.
      rewrite list_lookup_fmap, Hx. simpl. by rewrite Hget.
    + intros s' Hs. by inversion Hs.
Qed.

Lemma col_pointwise (f : R → R) (M M' : mat) (n p j : nat) :
  shape M n p → shape M' n p → j < p →
  (∀ i, i < n → mget M' i j = f (mget M i j)) →
  map (λ row : vec, vget row j) M' = map f (map (λ row : vec, vget row j) M).
Proof.
  intros [HM _] [HM' _] Hj Hent.
  apply (vec_ext _ _ n); [by rewrite length_map|by rewrite !length_map|].
  intros k Hk. rewrite vget_map by (rewrite length_map; lia).
  rewrite !vget_col. by apply Hent.
Qed.

Lemma sum_col (M : mat) (n p j : nat) :
  shape M n p →
  sum (map (λ row : vec, vget row j) M) = sum (map (λ i, mget M i j) (seq 0 n)).
Proof.
  intros [Hlen _]. f_equal. apply list_eq. intros k.
  rewrite !list_lookup_fmap. destruct (decide (k < n)) as [Hk|Hk].
  - rewrite lookup_seq_lt by done. simpl.
    destruct (lookup_lt_is_Some_2 M k) as [row Hrow]; [lia|].
    rewrite Hrow. simpl. unfold mget, vget. by rewrite Hrow.
  - rewrite lookup_seq_ge by lia. by rewrite lookup_ge_None_2 by lia.
Qed.

(** The result of the simulation part of [standardize_y]. *)
Lemma standardize_y_sim_spec (sim : DataContainer) (center : bool) (scale : scale_arg)
    (n ell : nat) :
  shape (dc_y sim) n ell → 0 < n →
  ∃ y_dm y_std,
    let y_mean : vec + R := if center then inl (mean0 ell (dc_y sim)) else inr 0%R in
    let y_sd : vec + R :=
      match scale with
      | ScaleScalar => inr (np_std_all y_dm)
      | ScaleColumnwise => inl (np_std0 ell y_dm)
      | ScaleOther => inr 1%R
      end in
    standardize_y_sim sim center scale = Ok (set_y_std sim y_mean y_sd y_std)
    ∧ shape y_dm n ell ∧ shape y_std n ell
    ∧ (∀ i j, i < n → j < ell → mget y_dm i j = (mget (dc_y sim) i j - sv_get y_mean j)%R)
    ∧ (∀ i j, i < n → j < ell → mget y_std i j = (mget y_dm i j / sv_get y_sd j)%R)
    ∧ (∀ s, y_sd = inr s → y_std = map (map (λ a, a / s)%R) y_dm).
Proof.
  intros Hy Hn. unfold standardize_y_sim.
  rewrite (ncols_shape _ n ell Hy Hn).
  set (y_mean := if center then inl (mean0 ell (dc_y sim)) else inr 0%R).
  destruct (mat_op_spec Rminus (dc_y sim) y_mean n ell Hy) as (y_dm & Hdm & Hsh & Hent & _).
  { intros v Hv. unfold y_mean in Hv. destruct center; [|done].
    inversion Hv. unfold mean0. by rewrite length_map, length_seq. }
  rewrite Hdm, bind_Ok. rewrite (ncols_shape _ n ell Hsh Hn).
  set (y_sd := match scale with
               | ScaleScalar => inr (np_std_all y_dm)
               | ScaleColumnwise => inl (np_std0 ell y_dm)
               | ScaleOther => inr 1%R
               end).
  destruct (mat_op_spec Rdiv y_dm y_sd n ell Hsh) as (y_std & Hstd & Hsh' & Hent' & Hsc).
  { intros v Hv. unfold y_sd in Hv. destruct scale; [done| |done].
    inversion Hv. unfold np_std0. by rewrite length_map, length_seq. }
  rewrite Hstd, bind_Ok. exists y_dm, y_std. simpl. done.
Qed.

(** * Further properties: scaling of the inputs and standardization of the outputs *)

(** X18.  For simulation-only data whose inputs [x] have [n > 0] rows (and
    whose [t], when present, has as many rows), [transform_xt(xt_min, xt_max)]
    with [xt_min <= xt_max] succeeds and keeps [x], [t] and [y]; in [x_trans]
    (and in [t_trans]) a column that is constant in the original is
    unchanged, and every other column lies in [[xt_min, xt_max]] and reaches
    both ends. *)
Theorem transform_xt_sim_only (self : SepiaData) (n p q : nat) (xt_min xt_max : R) :
  shape (dc_x (sim_data self)) n p →
  (∀ t, dc_t (sim_data self) = Some t → shape t n q) →
  0 < n →
  sim_only self = true →
  (xt_min <= xt_max)%R →
  ∃ self', transform_xt self xt_min xt_max = Ok self'
    ∧ dc_x (sim_data self') = dc_x (sim_data self)
    ∧ dc_t (sim_data self') = dc_t (sim_data self)
    ∧ dc_y (sim_data self') = dc_y (sim_data self)
    ∧ obs_data self' = obs_data self
    ∧ (∃ x_trans, dc_x_trans (sim_data self') = Some x_trans
         ∧ columns_scaled (dc_x (sim_data self)) x_trans n p xt_min xt_max)
    ∧ (∀ t, dc_t (sim_data self) = Some t →
         ∃ t_trans, dc_t_trans (sim_data self') = Some t_trans
           ∧ columns_scaled t t_trans n q xt_min xt_max).
Proof.
  intros Hx Ht Hn Hso Hab. unfold transform_xt.
  destruct (trans_min_max _ n p xt_min xt_max Hx Hn Hab)
    as (mn & mx & xt & Hmn & Hmx & Hxt & _ & _ & _ & _ & Hsc).
  rewrite Hmn, bind_Ok, Hmx, bind_Ok, Hxt, bind_Ok. cbn [dc_t set_x_trans].
  destruct (dc_t (sim_data self)) as [t|] eqn:Et.
  - destruct (trans_min_max t n q xt_min xt_max (Ht t eq_refl) Hn Hab)
      as (tmn & tmx & tt & Htmn & Htmx & Htt & _ & _ & _ & _ & Htc).
    rewrite Htmn, bind_Ok, Htmx, bind_Ok, Htt, !bind_Ok, Hso. eexists. split; [done|]. simpl.
    do 4 (split; [done|]). split; [by exists xt|].
    intros t' Ht'. inversion Ht'; subst t'. by exists tt.
  - rewrite bind_Ok, Hso. eexists. split; [done|]. simpl.
    do 4 (split; [done|]). split; [by exists xt|]. intros t' Ht'. done.
Qed.

Lemma transform_xt_sim_only_witness :
  ∃ self', transform_xt example_data 0 1 = Ok self'
    ∧ dc_x (sim_data self') = dc_x (sim_data example_data)
    ∧ dc_t (sim_data self') = dc_t (sim_data example_data)
    ∧ dc_y (sim_data self') = dc_y (sim_data example_data)
    ∧ obs_data self' = obs_data example_data
    ∧ (∃ x_trans, dc_x_trans (sim_data self') = Some x_trans
         ∧ columns_scaled (dc_x (sim_data example_data)) x_trans 3 2 0 1)
    ∧ (∀ t, dc_t (sim_data example_data) = Some t →
         ∃ t_trans, dc_t_trans (sim_data self') = Some t_trans
           ∧ columns_scaled t t_trans 3 0 0 1).
Proof.
  assert (shape (dc_x (sim_data example_data)) 3 2) as H1
    by (split; [reflexivity|repeat constructor]).
  assert (∀ t, dc_t (sim_data example_data) = Some t → shape t 3 0) as H2
    by (intros t Ht; simpl in Ht; discriminate Ht).
  assert (0 < 3) as H3 by lia.
  assert (sim_only example_data = true) as H4 by reflexivity.
  assert (0 <= 1)%R as H5 by lra.
  exact (transform_xt_sim_only example_data 3 2 0 0 1 H1 H2 H3 H4 H5).
Defined.



(** X20.  On an [n × ell] output array with [n > 0] that gives [np.std] at
    least two values to work on ([n * ell >= 2] for ['scalar'], [n >= 2] for
    ['columnwise']; with fewer, [np.std(ddof=1)] is NaN), the simulation part
    of [standardize_y] succeeds, keeps [y], and stores a mean, a scale and
    the standardized outputs from which [y] is recovered wherever the scale
    is not zero: [y_std * orig_y_sd + orig_y_mean = y].  With [center] the
    stored mean is the column mean of [y] and every column of [y_std] with
    a non-zero scale sums to zero; without it the stored mean is [0]. *)
Theorem standardize_y_round_trip (sim : DataContainer) (center : bool) (scale : scale_arg)
    (n ell : nat) :
  shape (dc_y sim) n ell →
  0 < n →
  (scale = ScaleScalar → 2 ≤ n * ell) →
  (scale = ScaleColumnwise → 2 ≤ n) →
  ∃ sim' y_mean y_sd y_std,
    standardize_y_sim sim center scale = Ok sim'
    ∧ dc_orig_y_mean sim' = Some y_mean ∧ dc_orig_y_sd sim' = Some y_sd
    ∧ dc_y_std sim' = Some y_std ∧ dc_y sim' = dc_y sim
    ∧ shape y_std n ell
    ∧ (∀ i j, i < n → j < ell → sv_get y_sd j ≠ 0%R →
         (mget y_std i j * sv_get y_sd j + sv_get y_mean j)%R = mget (dc_y sim) i j)
    ∧ (if center
       then ∀ j, j < ell →
              sv_get y_mean j = (sum (map (λ i, mget (dc_y sim) i j) (seq 0 n)) / INR n)%R
              ∧ (sv_get y_sd j ≠ 0%R → sum (map (λ i, mget y_std i j) (seq 0 n)) = 0%R)
       else y_mean = inr 0%R).
Proof.
  intros Hy Hn _ _.
  destruct (standardize_y_sim_spec sim center scale n ell Hy Hn)
    as (y_dm & y_std & Hrun & Hdm & Hstd & Hent & Hent' & _).
  cbv zeta in Hrun, Hent, Hent'.
  set (y_mean := if center then inl (mean0 ell (dc_y sim)) else inr 0%R) in *.
  set (y_sd := match scale with
               | ScaleScalar => inr (np_std_all y_dm)
               | ScaleColumnwise => inl (np_std0 ell y_dm)
               | ScaleOther => inr 1%R
               end) in *.
  exists (set_y_std sim y_mean y_sd y_std), y_mean, y_sd, y_std.
  split; [done|]. do 4 (split; [done|]). split; [done|]. split.
  - intros i j Hi Hj Hsd. rewrite (Hent' i j Hi Hj), (Hent i j Hi Hj). field. done.
  - unfold y_mean in *. destruct center; [|done].
    intros j Hj. simpl. split; [by apply mean0_entry|].
    intros Hsd.
    rewrite (sum_map_ext _
               (λ i, (mget (dc_y sim) i j - vget (mean0 ell (dc_y sim)) j) / sv_get y_sd j)%R).
    2:{ intros i Hi. apply elem_of_seq in Hi.
        rewrite (Hent' i j ltac:(lia) Hj), (Hent i j ltac:(lia) Hj). done. }
    rewrite (sum_map_div (λ i, mget (dc_y sim) i j - vget (mean0 ell (dc_y sim)) j)%R).
    rewrite (sum_map_minus (λ i, mget (dc_y sim) i j)), length_seq.
    rewrite (mean0_entry _ n ell j Hy Hj).
    assert (0 < INR n)%R by (by apply lt_0_INR).
    field. split; [lra|done].
Qed.

Lemma standardize_y_round_trip_witness :
  ∃ sim' y_mean y_sd y_std,
    standardize_y_sim example_container true ScaleScalar = Ok sim'
    ∧ dc_orig_y_mean sim' = Some y_mean ∧ dc_orig_y_sd sim' = Some y_sd
    ∧ dc_y_std sim' = Some y_std ∧ dc_y sim' = dc_y example_container
    ∧ shape y_std 3 2
    ∧ (∀ i j, i < 3 → j < 2 → sv_get y_sd j ≠ 0%R →
         (mget y_std i j * sv_get y_sd j + sv_get y_mean j)%R = mget (dc_y example_container) i j)
    ∧ (∀ j, j < 2 →
         sv_get y_mean j
           = (sum (map (λ i, mget (dc_y example_container) i j) (seq 0 3)) / INR 3)%R
         ∧ (sv_get y_sd j ≠ 0%R → sum (map (λ i, mget y_std i j) (seq 0 3)) = 0%R)).
Proof.
  assert (shape (dc_y example_container) 3 2) as H1
    by (split; [reflexivity|repeat constructor]).
  assert (0 < 3) as H2 by lia.
  assert (ScaleScalar = ScaleScalar → 2 ≤ 3 * 2) as H3 by (intros _; lia).
  assert (ScaleScalar = ScaleColumnwise → 2 ≤ 3) as H4 by (intros _; lia).
  exact (standardize_y_round_trip example_container true ScaleScalar 3 2 H1 H2 H3 H4).
Defined.

(** X21.  On an [n × ell] output array with [n >= 2], what the scale stored
    by [standardize_y] achieves: with ['scalar'] the standard deviation
    ([ddof = 1]) of all standardized outputs is one whenever the scale is
    not zero; with ['columnwise'] the scale of a column is zero exactly when
    that column of [y] is constant, and every other column of [y_std] has
    standard deviation one; with any other value the scale is [1]. *)
Theorem standardize_y_unit_sd (sim : DataContainer) (center : bool) (scale : scale_arg)
    (n ell : nat) :
  shape (dc_y sim) n ell →
  2 <= n →
  ∃ sim' y_sd y_std,
    standardize_y_sim sim center scale = Ok sim'
    ∧ dc_orig_y_sd sim' = Some y_sd ∧ dc_y_std sim' = Some y_std
    ∧ match scale with
      | ScaleScalar =>
          ∃ s, y_sd = inr s ∧ (s ≠ 0%R → np_std_all y_std = 1%R)
      | ScaleColumnwise =>
          ∃ v, y_sd = inl v ∧ length v = ell
            ∧ ∀ j, j < ell →
                (vget v j = 0%R
                 ↔ ∀ i i', i < n → i' < n → mget (dc_y sim) i j = mget (dc_y sim) i' j)
                ∧ (vget v j ≠ 0%R → vget (np_std0 ell y_std) j = 1%R)
      | ScaleOther => y_sd = inr 1%R
      end.
Proof.
  intros Hy Hn.
  destruct (standardize_y_sim_spec sim center scale n ell Hy ltac:(lia))
    as (y_dm & y_std & Hrun & Hdm & Hstd & Hent & Hent' & Hsc).
  cbv zeta in Hrun, Hent, Hent', Hsc.
  set (y_mean := if center then inl (mean0 ell (dc_y sim)) else inr 0%R) in *.
  eexists _, _, y_std. split; [exact Hrun|]. split; [done|]. split; [done|].
  destruct scale.
  - exists (np_std_all y_dm). split; [done|]. intros Hs.
    rewrite (Hsc _ eq_refl). unfold np_std_all at 1. rewrite mjoin_map_map.
    fold (np_std_all y_dm) in *.
    assert (0 < np_std_all y_dm)%R as Hpos.
    { pose proof (sqrt_pos (sum (map (λ a, (a - sum (mjoin y_dm) / INR (length (mjoin y_dm)))
                                          * (a - sum (mjoin y_dm) / INR (length (mjoin y_dm))))%R
                                   (mjoin y_dm)) / INR (length (mjoin y_dm) - 1))) as Hp.
      change (0 <= np_std_all y_dm)%R in Hp. lra. }
    rewrite np_std_scale by done. fold (np_std_all y_dm). by field.
  - exists (np_std0 ell y_dm). split; [done|].
    split; [unfold np_std0; by rewrite length_map, length_seq|].
    intros j Hj. pose proof Hdm as [Hldm _].
    assert (vget (np_std0 ell y_dm) j = np_std (map (λ row : vec, vget row j) y_dm)) as Esd
      by (unfold np_std0; by rewrite vget_seq_map).
    split.
    + rewrite Esd.
      rewrite (np_std_zero_iff _ n) by (by rewrite ?length_map).
      split; intros H i i' Hi Hi'.
      * specialize (H i i' Hi Hi'). rewrite !vget_col in H.
        rewrite (Hent i j Hi Hj), (Hent i' j Hi' Hj) in H. lra.
      * rewrite !vget_col. rewrite (Hent i j Hi Hj), (Hent i' j Hi' Hj).
        by rewrite (H i i' Hi Hi').
    + intros Hne. unfold np_std0 at 1. rewrite vget_seq_map by done.
      rewrite (col_pointwise (λ a, a / vget (np_std0 ell y_dm) j)%R y_dm y_std n ell j
                 Hdm Hstd Hj).
      2:{ intros i Hi. exact (Hent' i j Hi Hj). }
      assert (0 < vget (np_std0 ell y_dm) j)%R as Hpos.
      { assert (0 <= vget (np_std0 ell y_dm) j)%R as Hp
          by (rewrite Esd; unfold np_std; apply sqrt_pos).
        lra. }
      rewrite np_std_scale by done. rewrite <- Esd. by field.
  - done.
Qed.

Lemma standardize_y_unit_sd_witness :
  ∃ sim' y_sd y_std,
    standardize_y_sim example_container true ScaleColumnwise = Ok sim'
    ∧ dc_orig_y_sd sim' = Some y_sd ∧ dc_y_std sim' = Some y_std
    ∧ ∃ v, y_sd = inl v ∧ length v = 2
        ∧ ∀ j, j < 2 →
            (vget v j = 0%R
             ↔ ∀ i i', i < 3 → i' < 3 →
                 mget (dc_y example_container) i j = mget (dc_y example_container) i' j)
            ∧ (vget v j ≠ 0%R → vget (np_std0 2 y_std) j = 1%R).
Proof.
  assert (shape (dc_y example_container) 3 2) as H1
    by (split; [reflexivity|repeat constructor]).
  assert (2 <= 3) as H2 by lia.
  exact (standardize_y_unit_sd example_container true ScaleColumnwise 3 2 H1 H2).
Defined.

(** * [component_sens] on the quantities of each draw *)

(** ** The draws of [component_sens], tied to its arguments *)

Lemma c3_rows (x rg : mat) (betaei diff : vec) (m : nat) (c3 : mat) :
  for_each (range 0 m) (λ jj c3,
      xj ← get_row x jj;
      r ← calc3 xj rg betaei diff;
      set_row c3 jj r) (zeros2 m (length diff)) = Ok c3 →
  shape c3 m (length diff)
  ∧ ∀ jj, jj < m →
      ∃ xj r, get_row x jj = Ok xj ∧ calc3 xj rg betaei diff = Ok r
        ∧ c3 !! jj = Some (assigned_row (length diff) r).
Proof.
  intros Hrun.
  refine (range_ok
    (λ n (st : mat),
       shape st m (length diff)
       ∧ ∀ jj, jj < n →
           ∃ xj r, get_row x jj = Ok xj ∧ calc3 xj rg betaei diff = Ok r
             ∧ st !! jj = Some (assigned_row (length diff) r))
    _ 0 m _ _ ltac:(lia) Hrun _ _).
  - split; [apply shape_zeros2|]. intros jj Hjj. lia.
  - intros jj st st' Hjj [Hst Hrows] Hbody.
    apply bind_Ok_inv in Hbody as (xj & Hxj & Hbody).
    apply bind_Ok_inv in Hbody as (r & Hr & Hbody).
    split; [by eapply set_row_shape|].
    pose proof Hst as [Hlen _].
    unfold set_row in Hbody.
    destruct (st !! jj) as [old|] eqn:Hold; [|done].
    pose proof (shape_row st m (length diff) jj old Hst Hold) as Hol.
    assert (st' = <[jj := assigned_row (length diff) r]> st) as ->.
    { unfold assigned_row. rewrite Hol in Hbody. case_decide as Hd.
      - by inversion Hbody.
      - destruct r as [|v [|w r]]; try done. by inversion Hbody. }
    intros j Hj. destruct (decide (j = jj)) as [->|Hne].
    + exists xj, r. split; [done|]. split; [done|].
      rewrite list_lookup_insert_eq by lia. done.
    + destruct (Hrows j ltac:(lia)) as (xj' & r' & H1 & H2 & H3).
      exists xj', r'. split; [done|]. split; [done|].
      by rewrite list_lookup_insert_ne.
Qed.

Section DrawsPinned.
Local Open Scope R_scope.
Context (SepiaDistCov_new : mat → option mat → list nat → res SepiaDistCov)
        (compute_cov_mat : SepiaDistCov → vec → R → option R → res mat)
        (linalg_inv : mat → res mat)
        (linalg_solve : mat → vec → res vec).

(** Lines 265-273 in full. *)
Lemma gp_draw_inv (xdist : SepiaDistCov) (m : nat) (y betaei : vec) (lamUzi lamWsi : R)
    (P : mat) (My : vec) (Q : mat) :
  gp_draw compute_cov_mat linalg_inv linalg_solve xdist m y betaei lamUzi lamWsi
    = Ok (P, My, Q) →
  ∃ S Si sol,
    compute_cov_mat xdist betaei lamUzi (Some lamWsi) = Ok S
    ∧ linalg_inv S = Ok Si ∧ assign_square m Si = Ok P
    ∧ linalg_solve S y = Ok sol ∧ assign_vec m sol = Ok My
    ∧ shape Q m m
    ∧ ∀ i j, (i < m)%nat → (j < m)%nat → mget Q i j = mget P i j - vget My i * vget My j.
Proof.
  unfold gp_draw. intros H.
  apply bind_Ok_inv in H as (S & HS & H).
  apply bind_Ok_inv in H as (Si & HSi & H).
  apply bind_Ok_inv in H as (P' & HP & H).
  apply bind_Ok_inv in H as (sol & Hsol & H).
  apply bind_Ok_inv in H as (My' & HMy & H).
  apply bind_Ok_inv in H as (D & HD & H).
  apply bind_Ok_inv in H as (Q' & HQ & H).
  inversion H; subst P' My' Q'. clear H.
  exists S, Si, sol. do 5 (split; [done|]).
  pose proof (assign_square_shape m Si P HP) as HPs.
  pose proof (assign_vec_length m sol My HMy) as HMl.
  assert (shape (outer My My) m m) as HO.
  { unfold outer. split; [by rewrite length_map|]. apply Forall_map.
    apply Forall_forall. intros v _. simpl. by rewrite length_map. }
  destruct (ewise_spec Rminus P (outer My My) m m HPs HO) as (W & HW & HWs & GW).
  rewrite HW in HD. inversion HD; subst D.
  assert (Q = W) as ->.
  { unfold assign_square in HQ. rewrite decide_True in HQ by exact HWs. by inversion HQ. }
  split; [done|]. intros i j Hi Hj. rewrite (GW i j Hi Hj). f_equal.
  unfold outer, mget, vget. rewrite list_lookup_fmap.
  destruct (lookup_lt_is_Some_2 My i) as [a Ha]; [lia|].
  destruct (lookup_lt_is_Some_2 My j) as [b Hb]; [lia|].
  rewrite Ha. simpl. rewrite list_lookup_fmap, Hb. done.
Qed.

Lemma sens_draw_pinned (x : mat) (xdist : SepiaDistCov) (xexdist xedist : list SepiaDistCov)
    (m p ngrid : nat) (rg : mat) (diff : vec) (varlist jelist : option (list (list nat)))
    (betaei : vec) (lamUzi lamWsi : R) (P : mat) (My : vec) (Q : mat) (out : draw_out) :
  sens_draw compute_cov_mat x xdist xexdist xedist m p ngrid rg diff varlist jelist
    betaei lamUzi lamWsi (P, My, Q) = Ok out →
  ∃ c1 C2 c3,
    calc1 betaei diff = Ok c1
    ∧ calc2 x xdist m rg betaei diff = Ok C2
    ∧ shape C2 (m * (m + 1) / 2 + m) (length betaei)
    ∧ shape c3 m (length diff)
    ∧ (∀ jj, (jj < m)%nat →
         ∃ xj r, get_row x jj = Ok xj ∧ calc3 xj rg betaei diff = Ok r
           ∧ c3 !! jj = Some (assigned_row (length diff) r))
    ∧ sens_e2 m p Q lamUzi c1 C2 c3 = Ok (d_e2 out)
    ∧ sens_e0 lamUzi c3 My = Ok (d_e0 out)
    ∧ sens_vt m p Q lamUzi C2 (d_e2 out) = Ok (d_vt out)
    ∧ (∀ jj, (jj < p)%nat →
         ∃ s u1 u4, sens_main m p Q lamUzi c1 C2 c3 (d_e2 out) (d_vt out) jj = Ok (s, u1, u4)
              ∧ d_sme out !! jj = Some s)
    ∧ (∀ jj, (jj < p)%nat →
         ∃ t, sens_total m p Q lamUzi c1 C2 c3 (d_e2 out) (d_vt out) jj = Ok t
              ∧ d_ste out !! jj = Some t)
    ∧ (∀ jl jj Js, jelist = Some jl → jl !! jj = Some Js →
         ∃ s, sens_joint m p Q lamUzi c1 C2 c3 (d_e2 out) (d_vt out) Js = Ok s
              ∧ d_sje out !! jj = Some s).
Proof.
  unfold sens_draw. intros H.
  apply bind_Ok_inv in H as (c1 & Hc1 & H).
  apply bind_Ok_inv in H as (C2 & HC2 & H).
  apply bind_Ok_inv in H as (c3 & Hc3 & H).
  apply bind_Ok_inv in H as (e2 & He2 & H).
  apply bind_Ok_inv in H as (e0 & He0 & H).
  apply bind_Ok_inv in H as (vt & Hvt & H).
  apply bind_Ok_inv in H as ([[[sme ste] mef_m] mef_v] & Hloop & H).
  apply bind_Ok_inv in H as ([[sie jef_m] jef_v] & Hvar & H).
  apply bind_Ok_inv in H as (sje & Hje & H).
  inversion H; subst out; clear H. simpl.
  exists c1, C2, c3. do 2 (split; [done|]).
  split.
  { unfold calc2 in HC2. eapply calc2_loops_shape; [apply shape_zeros2|exact HC2]. }
  split.
  { refine (range_ok (λ _ (st : mat), shape st m (length diff)) _ 0 m _ _
              ltac:(lia) Hc3 _ _); [apply shape_zeros2|].
    intros jj st st' Hjj Hst Hbody.
    apply bind_Ok_inv in Hbody as (xj & _ & Hbody).
    apply bind_Ok_inv in Hbody as (r & _ & Hbody).
    by eapply set_row_shape. }
  split; [exact (proj2 (c3_rows x rg betaei diff m c3 Hc3))|].
  do 3 (split; [done|]).
  pose proof (range_ok
    (λ jj (st : vec * vec * mat * mat),
       length st.1.1.1 = p ∧ length st.1.1.2 = p
       ∧ (∀ j, (j < jj)%nat →
            ∃ t, sens_total m p Q lamUzi c1 C2 c3 e2 vt j = Ok t ∧ st.1.1.2 !! j = Some t)
       ∧ (∀ j, (j < jj)%nat →
            ∃ s u1 u4, sens_main m p Q lamUzi c1 C2 c3 e2 vt j = Ok (s, u1, u4)
                       ∧ st.1.1.1 !! j = Some s))
    _ 0 p _ _ ltac:(lia) Hloop) as Hinv.
  cbn [fst snd] in Hinv.
  destruct Hinv as (Hlsme & Hlste & Hste & Hsme).
  { unfold zeros. rewrite !length_replicate. do 2 (split; [done|]).
    split; intros j Hj; lia. }
  { intros jj [[[sme' ste'] mm'] mv'] t' Hjj (Hl1 & Hl2 & I1 & I2) Hbody.
    cbn [fst snd] in *.
    apply bind_Ok_inv in Hbody as ([[s u1] u4] & Hmain & Hbody).
    apply bind_Ok_inv in Hbody as (xex & Hxex & Hbody).
    apply bind_Ok_inv in Hbody as (xed & Hxed & Hbody).
    apply bind_Ok_inv in Hbody as (ME & HME & Hbody).
    apply bind_Ok_inv in Hbody as (mm & Hmm & Hbody).
    apply bind_Ok_inv in Hbody as (mv & Hmv & Hbody).
    apply bind_Ok_inv in Hbody as (t & Ht & Hbody).
    inversion Hbody; subst t'; clear Hbody. cbn [fst snd].
    rewrite !length_insert. do 2 (split; [done|]). split.
    - intros j Hj. destruct (decide (j = jj)) as [->|Hne].
      + exists t. split; [done|]. apply list_lookup_insert_eq. lia.
      + destruct (I1 j ltac:(lia)) as (t0 & Ht0 & Hl). exists t0. split; [done|].
        by rewrite list_lookup_insert_ne.
    - intros j Hj. destruct (decide (j = jj)) as [->|Hne].
      + exists s, u1, u4. split; [done|]. apply list_lookup_insert_eq. lia.
      + destruct (I2 j ltac:(lia)) as (s0 & a & b & Hs0 & Hl). exists s0, a, b.
        split; [done|]. by rewrite list_lookup_insert_ne. }
  split; [done|]. split; [done|].
  intros jl jj Js -> HJs.
  pose proof (range_ok
    (λ jj (st : vec),
       length st = length jl
       ∧ (∀ j Js, (j < jj)%nat → jl !! j = Some Js →
            ∃ s, sens_joint m p Q lamUzi c1 C2 c3 e2 vt Js = Ok s ∧ st !! j = Some s))
    _ 0 (length jl) _ _ ltac:(lia) Hje) as Hinv.
  destruct Hinv as (Hlsje & Hsje).
  { unfold zeros. rewrite length_replicate. split; [done|]. intros j ? Hj; lia. }
  { intros j sje' t' Hj (Hl & I) Hbody.
    apply bind_Ok_inv in Hbody as (Js' & HJs' & Hbody).
    apply bind_Ok_inv in Hbody as (s & Hs & Hbody).
    inversion Hbody; subst t'; clear Hbody.
    rewrite length_insert. split; [done|].
    intros j' Js'' Hj' Hl'. destruct (decide (j' = j)) as [->|Hne].
    - unfold list_get in HJs'. rewrite Hl' in HJs'. inversion HJs'; subst Js'.
      exists s. split; [done|]. apply list_lookup_insert_eq. lia.
    - destruct (I j' Js'' ltac:(lia) Hl') as (s0 & Hs0 & Hlk).
      exists s0. split; [done|]. by rewrite list_lookup_insert_ne. }
  apply (Hsje jj Js); [|done]. by apply lookup_lt_Some in HJs.
Qed.

End DrawsPinned.

Section ComponentPinned.
Context (SepiaDistCov_new : mat → option mat → list nat → res SepiaDistCov)
        (compute_cov_mat : SepiaDistCov → vec → R → option R → res mat)
        (linalg_inv : mat → res mat)
        (linalg_solve : mat → vec → res vec).

(** The dictionary of [component_sens] and the draws behind its arrays, with
    the widths and the distances that the draws share. *)
Lemma component_sens_pinned (x : mat) (y : vec) (beta : mat) (lamUz lamWs : vec)
    (xe : mat) (ngrid : nat) (varlist jelist : option (list (list nat)))
    (rg : mat) (cat_ind : list nat) (sa : gmap string ndarray) :
  component_sens SepiaDistCov_new compute_cov_mat linalg_inv linalg_solve
    x y beta lamUz lamWs xe ngrid varlist jelist rg cat_ind = Ok sa →
  ∃ (draws : list draw_out) diff xdist xexdist xedist,
    component_setup SepiaDistCov_new x rg cat_ind diff xdist
    ∧ length draws = length beta
    ∧ length diff = length rg
    ∧ sa !! "e0" = Some (A1 (map d_e0 draws))
    ∧ sa !! "vt" = Some (A1 (map d_vt draws))
    ∧ sa !! "sme" = Some (A2 (map d_sme draws))
    ∧ sa !! "ste" = Some (A2 (map d_ste draws))
    ∧ sa !! "mef_m" = Some (A3 (map d_mef_m draws))
    ∧ sa !! "mef_v" = Some (A3 (map d_mef_v draws))
    ∧ sa !! "sie" = (if truthy varlist then Some (A2 (map d_sie draws)) else None)
    ∧ sa !! "jef_m" = (if truthy varlist then Some (A4 (map d_jef_m draws)) else None)
    ∧ sa !! "jef_v" = (if truthy varlist then Some (A4 (map d_jef_v draws)) else None)
    ∧ sa !! "sje" = (if truthy jelist then Some (A2 (map d_sje draws)) else None)
    ∧ ∀ ii out, draws !! ii = Some out →
        ∃ betaei lamUzi lamWsi gp,
          get_row beta ii = Ok betaei
          ∧ get1 lamUz ii = Ok lamUzi
          ∧ get1 lamWs ii = Ok lamWsi
          ∧ gp_draw compute_cov_mat linalg_inv linalg_solve xdist (length x) y
              betaei lamUzi lamWsi = Ok gp
          ∧ sens_draw compute_cov_mat x xdist xexdist xedist (length x) (ncols beta) ngrid
              rg diff varlist jelist betaei lamUzi lamWsi gp = Ok out.
Proof.
  unfold component_sens. intros H.
  apply bind_Ok_inv in H as (hi & Hhi & H).
  apply bind_Ok_inv in H as (lo & Hlo & H).
  apply bind_Ok_inv in H as (diff & Hdiff & H).
  apply bind_Ok_inv in H as (xdist & Hxdist & H).
  apply bind_Ok_inv in H as (dists & Hdists & H).
  apply bind_Ok_inv in H as (vdists & Hvdists & H).
  apply bind_Ok_inv in H as (gps & Hgps & H).
  apply bind_Ok_inv in H as (draws & Hdraws & H).
  inversion H; subst sa; clear H.
  exists draws, diff, xdist, (map fst dists ++ map fst vdists),
    (map snd dists ++ map snd vdists).
  apply mapM_res_inv in Hdraws as [Hlen Hall].
  apply mapM_res_inv in Hgps as [Hlg Hgps].
  assert (length draws = length beta) as Hl
    by (rewrite Hlen; unfold range; rewrite length_seq; lia).
  split; [split; [by exists hi, lo|done]|].
  split; [done|].
  split.
  { pose proof Hhi as Hhi'. pose proof Hlo as Hlo'. unfold col in Hhi, Hlo.
    apply mapM_res_inv in Hhi as [Hhi _]. apply mapM_res_inv in Hlo as [Hlo _].
    rewrite bcast_same in Hdiff by lia. inversion Hdiff.
    rewrite length_zip_with. lia. }
  split.
  { destruct (truthy varlist), (truthy jelist);
      repeat (first [ rewrite lookup_insert_eq; reflexivity
                    | rewrite lookup_insert_ne by done ]). }
  split.
  { destruct (truthy varlist), (truthy jelist);
      repeat (first [ rewrite lookup_insert_eq; reflexivity
                    | rewrite lookup_insert_ne by done ]). }
  split.
  { destruct (truthy varlist), (truthy jelist);
      repeat (first [ rewrite lookup_insert_eq; reflexivity
                    | rewrite lookup_insert_ne by done ]). }
  split.
  { destruct (truthy varlist), (truthy jelist);
      repeat (first [ rewrite lookup_insert_eq; reflexivity
                    | rewrite lookup_insert_ne by done ]). }
  split.
  { destruct (truthy varlist), (truthy jelist);
      repeat (first [ rewrite lookup_insert_eq; reflexivity
                    | rewrite lookup_insert_ne by done ]). }
  split.
  { destruct (truthy varlist), (truthy jelist);
      repeat (first [ rewrite lookup_insert_eq; reflexivity
                    | rewrite lookup_insert_ne by done ]). }
  split.
  { destruct (truthy varlist), (truthy jelist);
      repeat (first [ rewrite lookup_insert_eq; reflexivity
                    | rewrite lookup_insert_ne by done
                    | apply lookup_empty ]). }
  split.
  { destruct (truthy varlist), (truthy jelist);
      repeat (first [ rewrite lookup_insert_eq; reflexivity
                    | rewrite lookup_insert_ne by done
                    | apply lookup_empty ]). }
  split.
  { destruct (truthy varlist), (truthy jelist);
      repeat (first [ rewrite lookup_insert_eq; reflexivity
                    | rewrite lookup_insert_ne by done
                    | apply lookup_empty ]). }
  split.
  { destruct (truthy varlist), (truthy jelist);
      repeat (first [ rewrite lookup_insert_eq; reflexivity
                    | rewrite lookup_insert_ne by done
                    | apply lookup_empty ]). }
  intros ii out Hout.
  assert (ii < length beta) as Hii by (apply lookup_lt_Some in Hout; lia).
  assert (range 0 (length beta) !! ii = Some ii) as Hr.
  { unfold range. by rewrite lookup_seq_lt by lia. }
  destruct (Hall ii ii Hr) as (out' & Hdraw & Hout').
  rewrite Hout in Hout'. inversion Hout'; subst out'. clear Hout'.
  destruct (Hgps ii ii Hr) as (gp & Hgp & Hgp').
  cbn beta in Hdraw, Hgp.
  apply bind_Ok_inv in Hdraw as (betaei & Hb & Hdraw).
  apply bind_Ok_inv in Hdraw as (lamUzi & Hu & Hdraw).
  apply bind_Ok_inv in Hdraw as (lamWsi & Hw & Hdraw).
  apply bind_Ok_inv in Hdraw as (gp0 & Hgp0 & Hdraw).
  unfold list_get in Hgp0. rewrite Hgp' in Hgp0. inversion Hgp0; subst gp0.
  rewrite Hb, bind_Ok, Hu, bind_Ok, Hw, bind_Ok in Hgp.
  by exists betaei, lamUzi, lamWsi, gp.
Qed.

(** Every draw of a run of [component_sens] that returned, with the
    quantities it was computed from. *)
Lemma component_sens_quantities (x : mat) (y : vec) (beta : mat) (lamUz lamWs : vec)
    (xe : mat) (ngrid : nat) (varlist jelist : option (list (list nat)))
    (rg : mat) (cat_ind : list nat) (sa : gmap string ndarray) :
  component_sens SepiaDistCov_new compute_cov_mat linalg_inv linalg_solve
    x y beta lamUz lamWs xe ngrid varlist jelist rg cat_ind = Ok sa →
  Forall (λ row : vec, length row = ncols beta) beta →
  length rg = ncols beta →
  ∃ (draws : list draw_out) diff xdist,
    component_setup SepiaDistCov_new x rg cat_ind diff xdist
    ∧ length draws = length beta
    ∧ sa !! "vt" = Some (A1 (map d_vt draws))
    ∧ sa !! "sme" = Some (A2 (map d_sme draws))
    ∧ sa !! "ste" = Some (A2 (map d_ste draws))
    ∧ sa !! "sje" = (if truthy jelist then Some (A2 (map d_sje draws)) else None)
    ∧ ∀ ii out, draws !! ii = Some out →
        ∃ betaei lamUzi Q c1 C2 c3,
          draw_quantities compute_cov_mat linalg_inv linalg_solve x y beta lamUz lamWs
            rg diff xdist ii betaei lamUzi Q c1 C2 c3
          ∧ length x ≠ 1
          ∧ shape Q (length x) (length x)
          ∧ shape C2 (length x * (length x + 1) / 2 + length x) (ncols beta)
          ∧ shape c3 (length x) (ncols beta)
          ∧ length c1 = ncols beta
          ∧ sens_e2 (length x) (ncols beta) Q lamUzi c1 C2 c3 = Ok (d_e2 out)
          ∧ sens_vt (length x) (ncols beta) Q lamUzi C2 (d_e2 out) = Ok (d_vt out)
          ∧ (∀ jj, jj < ncols beta →
               ∃ s u1 u4, sens_main (length x) (ncols beta) Q lamUzi c1 C2 c3
                            (d_e2 out) (d_vt out) jj = Ok (s, u1, u4)
                    ∧ d_sme out !! jj = Some s)
          ∧ (∀ jj, jj < ncols beta →
               ∃ t, sens_total (length x) (ncols beta) Q lamUzi c1 C2 c3
                      (d_e2 out) (d_vt out) jj = Ok t
                    ∧ d_ste out !! jj = Some t)
          ∧ (∀ jl jj Js, jelist = Some jl → jl !! jj = Some Js →
               ∃ s, sens_joint (length x) (ncols beta) Q lamUzi c1 C2 c3
                      (d_e2 out) (d_vt out) Js = Ok s
                    ∧ d_sje out !! jj = Some s).
Proof.
  intros Hsa Hbeta Hrg.
  destruct (component_sens_pinned _ _ _ _ _ _ _ _ _ _ _ _ Hsa)
    as (draws & diff & xdist & xexdist & xedist & Hset & Hlen & Hdiff & _ & Hvt & Hsme
        & Hste & _ & _ & _ & _ & _ & Hsje & Hdraws).
  exists draws, diff, xdist. do 6 (split; [done|]).
  intros ii out Hout.
  assert (ii < length beta) as Hii by (apply lookup_lt_Some in Hout; lia).
  assert (length x ≠ 1) as Hm.
  { intros Hx.
    destruct (component_sens_single SepiaDistCov_new compute_cov_mat linalg_inv
                linalg_solve x y beta lamUz lamWs xe ngrid varlist jelist rg cat_ind Hx)
      as [e He]; [destruct beta; [simpl in Hii; lia|done]|].
    rewrite He in Hsa. done. }
  destruct (Hdraws ii out Hout)
    as (betaei & lamUzi & lamWsi & [[P My] Q] & Hb & Hu & Hw & Hgp & Hd).
  assert (length betaei = ncols beta) as Hbl.
  { unfold get_row in Hb. destruct (beta !! ii) as [row|] eqn:Hrow; [|done].
    inversion Hb; subst. rewrite Forall_lookup in Hbeta. by apply (Hbeta ii). }
  destruct (gp_draw_inv compute_cov_mat linalg_inv linalg_solve _ _ _ _ _ _ _ _ _ Hgp)
    as (S & Si & sol & HS & HSi & HP & Hsol & HMy & HQ & GQ).
  destruct (sens_draw_pinned _ _ _ _ _ _ _ _ _ _ _ _ _ _ _ _ _ _ _ Hd)
    as (c1 & C2 & c3 & Hc1 & HC2 & HC2s & Hc3s & Hc3r & He2 & _ & Hvt' & Hmain & Htot & Hj).
  rewrite Hbl in HC2s. rewrite Hdiff, Hrg in Hc3s.
  assert (length c1 = ncols beta) as Hc1l.
  { rewrite calc1_entries in Hc1 by lia. inversion Hc1.
    rewrite length_zip_with. lia. }
  exists betaei, lamUzi, Q, c1, C2, c3.
  split.
  { split; [done|]. split; [done|]. split.
    - exists lamWsi, S, Si, sol, P, My. by do 7 (split; [done|]).
    - split; [done|]. split; [done|]. split; [by destruct Hc3s|]. exact Hc3r. }
  do 7 (split; [done|]). by split; [|split].
Qed.

End ComponentPinned.

Section ComponentClaims.
Context (SepiaDistCov_new : mat → option mat → list nat → res SepiaDistCov)
        (compute_cov_mat : SepiaDistCov → vec → R → option R → res mat)
        (linalg_inv : mat → res mat)
        (linalg_solve : mat → vec → res vec).

(** C5. Whenever [component_sens] returns, on a rectangular [beta] with one
    column for each row of [rg], the entry [vt[ii]] of every draw is
    [1/lamUz - trace(Q @ varf(m, p, range(p), C2, []))/lamUz^2 - e2] and the
    entry [ste[ii, jj]] is
    [1 - (c1[jj]/lamUz - trace(Q @ varf(m, p, complement of [jj], C2,
    c3[:, jj]))/lamUz^2 - e2)/vt[ii]], where [lamUz], [Q], [c1], [C2], [c3] and
    [e2] are the quantities that the code computes for that draw from its
    arguments (lines 242-311). *)
Theorem component_total_variance_and_effect (x : mat) (y : vec) (beta : mat)
    (lamUz lamWs : vec) (xe : mat) (ngrid : nat) (varlist jelist : option (list (list nat)))
    (rg : mat) (cat_ind : list nat) (sa : gmap string ndarray) :
  component_sens SepiaDistCov_new compute_cov_mat linalg_inv linalg_solve
    x y beta lamUz lamWs xe ngrid varlist jelist rg cat_ind = Ok sa →
  Forall (λ row : vec, length row = ncols beta) beta →
  length rg = ncols beta →
  ∃ diff xdist vt ste,
    component_setup SepiaDistCov_new x rg cat_ind diff xdist
    ∧ sa !! "vt" = Some (A1 vt) ∧ sa !! "ste" = Some (A2 ste)
    ∧ length vt = length beta ∧ length ste = length beta
    ∧ ∀ ii, ii < length beta →
        ∃ betaei lamUzi Q c1 C2 c3 e2 Vfull,
          draw_quantities compute_cov_mat linalg_inv linalg_solve x y beta lamUz lamWs
            rg diff xdist ii betaei lamUzi Q c1 C2 c3
          ∧ sens_e2 (length x) (ncols beta) Q lamUzi c1 C2 c3 = Ok e2
          (** line 311 *)
          ∧ varf (length x) (ncols beta) (arange (ncols beta)) C2 [] = Ok Vfull
          ∧ vget vt ii
            = (1 / lamUzi - trace_of_product (length x) Q Vfull / (lamUzi * lamUzi) - e2)%R
          (** lines 324-328 *)
          ∧ ∀ jj, jj < ncols beta →
              ∃ cj Vj, col c3 jj = Ok cj
                ∧ setxor1d (arange (ncols beta)) [jj] = complement (ncols beta) [jj]
                ∧ varf (length x) (ncols beta) (complement (ncols beta) [jj]) C2 cj = Ok Vj
                ∧ mget ste ii jj
                  = (1 - (vget c1 jj / lamUzi
                          - trace_of_product (length x) Q Vj / (lamUzi * lamUzi) - e2)
                         / vget vt ii)%R.
Proof.
  intros Hsa Hbeta Hrg.
  destruct (component_sens_quantities SepiaDistCov_new compute_cov_mat linalg_inv
              linalg_solve _ _ _ _ _ _ _ _ _ _ _ _ Hsa Hbeta Hrg)
    as (draws & diff & xdist & Hset & Hlen & Hvt & _ & Hste & _ & Hdraws).
  exists diff, xdist, (map d_vt draws), (map d_ste draws).
  do 3 (split; [done|]). rewrite !length_map. do 2 (split; [done|]).
  intros ii Hii.
  destruct (lookup_lt_is_Some_2 draws ii) as [out Hout]; [lia|].
  destruct (Hdraws ii out Hout)
    as (betaei & lamUzi & Q & c1 & C2 & c3 & Hq & Hm & HQ & HC2 & Hc3 & Hc1 & He2 & Hvt'
        & _ & Htot & _).
  destruct (sens_vt_spec (length x) (ncols beta) Q lamUzi C2 Hm HQ HC2 (d_e2 out))
    as (Vfull & HV & Hvt'').
  exists betaei, lamUzi, Q, c1, C2, c3, (d_e2 out), Vfull.
  do 3 (split; [done|]).
  assert (vget (map d_vt draws) ii = d_vt out) as Hv.
  { unfold vget. by rewrite list_lookup_fmap, Hout. }
  rewrite Hv. split.
  { rewrite Hvt' in Hvt''. by inversion Hvt''. }
  intros jj Hjj.
  destruct (sens_total_spec (length x) (ncols beta) Q lamUzi c1 C2 c3 Hm HQ HC2 Hc3 Hc1
              (d_e2 out) (d_vt out) jj Hjj) as (cj & Vj & Hcj & HVj & Ht).
  exists cj, Vj. split; [done|].
  split; [apply setxor1d_arange; by constructor|]. split; [done|].
  destruct (Htot jj Hjj) as (t & Ht' & Hl). rewrite Ht in Ht'. inversion Ht'; subst t.
  unfold mget. rewrite list_lookup_fmap, Hout. simpl. by rewrite Hl.
Qed.

(** X8. Whenever [component_sens] returns, on a rectangular [beta] with one
    column for each row of [rg], the entry [sme[ii, jj]] of every draw is
    [(prod(c1[ll])/lamUz - trace(Q @ varf(m, p, [jj], C2, u1))/lamUz^2 - e2)
    / vt[ii]], where [ll] is the complement of [jj] in [range(p)], [u1] holds
    the row products of [c3[:, ll]] (lines 315-320), and [lamUz], [Q], [c1],
    [C2], [c3] and [e2] are the quantities that the code computes for that
    draw from its arguments. *)
Theorem component_main_effect (x : mat) (y : vec) (beta : mat)
    (lamUz lamWs : vec) (xe : mat) (ngrid : nat) (varlist jelist : option (list (list nat)))
    (rg : mat) (cat_ind : list nat) (sa : gmap string ndarray) :
  component_sens SepiaDistCov_new compute_cov_mat linalg_inv linalg_solve
    x y beta lamUz lamWs xe ngrid varlist jelist rg cat_ind = Ok sa →
  Forall (λ row : vec, length row = ncols beta) beta →
  length rg = ncols beta →
  ∃ diff xdist vt sme,
    component_setup SepiaDistCov_new x rg cat_ind diff xdist
    ∧ sa !! "vt" = Some (A1 vt) ∧ sa !! "sme" = Some (A2 sme)
    ∧ length vt = length beta ∧ length sme = length beta
    ∧ ∀ ii, ii < length beta →
        ∃ betaei lamUzi Q c1 C2 c3 e2,
          draw_quantities compute_cov_mat linalg_inv linalg_solve x y beta lamUz lamWs
            rg diff xdist ii betaei lamUzi Q c1 C2 c3
          ∧ sens_e2 (length x) (ncols beta) Q lamUzi c1 C2 c3 = Ok e2
          ∧ ∀ jj, jj < ncols beta →
              ∃ c3ll V, cols c3 (complement (ncols beta) [jj]) = Ok c3ll
                ∧ setxor1d (arange (ncols beta)) [jj] = complement (ncols beta) [jj]
                ∧ varf (length x) (ncols beta) [jj] C2 (prod_rows c3ll) = Ok V
                ∧ mget sme ii jj
                  = ((prod (map (vget c1) (complement (ncols beta) [jj])) / lamUzi
                      - trace_of_product (length x) Q V / (lamUzi * lamUzi) - e2)
                     / vget vt ii)%R.
Proof.
  intros Hsa Hbeta Hrg.
  destruct (component_sens_quantities SepiaDistCov_new compute_cov_mat linalg_inv
              linalg_solve _ _ _ _ _ _ _ _ _ _ _ _ Hsa Hbeta Hrg)
    as (draws & diff & xdist & Hset & Hlen & Hvt & Hsme & _ & _ & Hdraws).
  exists diff, xdist, (map d_vt draws), (map d_sme draws).
  do 3 (split; [done|]). rewrite !length_map. do 2 (split; [done|]).
  intros ii Hii.
  destruct (lookup_lt_is_Some_2 draws ii) as [out Hout]; [lia|].
  destruct (Hdraws ii out Hout)
    as (betaei & lamUzi & Q & c1 & C2 & c3 & Hq & Hm & HQ & HC2 & Hc3 & Hc1 & He2 & _
        & Hmain & _ & _).
  exists betaei, lamUzi, Q, c1, C2, c3, (d_e2 out). do 2 (split; [done|]).
  assert (vget (map d_vt draws) ii = d_vt out) as Hv.
  { unfold vget. by rewrite list_lookup_fmap, Hout. }
  rewrite Hv. intros jj Hjj.
  destruct (sens_main_spec (length x) (ncols beta) Q lamUzi c1 C2 c3 Hm HQ HC2 Hc3 Hc1
              (d_e2 out) (d_vt out) jj Hjj) as (c3ll & V & Hc & HV & Hs).
  exists c3ll, V. split; [done|].
  split; [apply setxor1d_arange; by constructor|]. split; [done|].
  destruct (Hmain jj Hjj) as (s & u1 & u4 & Hs' & Hl). rewrite Hs in Hs'.
  inversion Hs'; subst s.
  unfold mget. rewrite list_lookup_fmap, Hout. simpl. by rewrite Hl.
Qed.

(** X9. Whenever [component_sens] returns for a non-empty [jelist] of index
    sets within [range(p)], on a rectangular [beta] with one column for each
    row of [rg], the entry [sje[ii, jj]] of every draw is
    [(prod(c1[ll])/lamUz - t/lamUz^2 - e2)/vt[ii]] with [ll] the complement of
    [Js = jelist[jj]] and [t] the trace of the elementwise product
    [Q * varf(m, p, Js, C2, u6)], that is, the sum of the products of the
    diagonal entries (lines 344-349); [lamUz], [Q], [c1], [C2], [c3] and [e2]
    are the quantities that the code computes for that draw from its
    arguments. *)
Theorem component_joint_effect (x : mat) (y : vec) (beta : mat)
    (lamUz lamWs : vec) (xe : mat) (ngrid : nat) (varlist : option (list (list nat)))
    (jl : list (list nat)) (rg : mat) (cat_ind : list nat) (sa : gmap string ndarray) :
  component_sens SepiaDistCov_new compute_cov_mat linalg_inv linalg_solve
    x y beta lamUz lamWs xe ngrid varlist (Some jl) rg cat_ind = Ok sa →
  jl ≠ [] →
  Forall (Forall (λ d, d < ncols beta)) jl →
  Forall (λ row : vec, length row = ncols beta) beta →
  length rg = ncols beta →
  ∃ diff xdist vt sje,
    component_setup SepiaDistCov_new x rg cat_ind diff xdist
    ∧ sa !! "vt" = Some (A1 vt) ∧ sa !! "sje" = Some (A2 sje)
    ∧ length vt = length beta ∧ length sje = length beta
    ∧ ∀ ii, ii < length beta →
        ∃ betaei lamUzi Q c1 C2 c3 e2,
          draw_quantities compute_cov_mat linalg_inv linalg_solve x y beta lamUz lamWs
            rg diff xdist ii betaei lamUzi Q c1 C2 c3
          ∧ sens_e2 (length x) (ncols beta) Q lamUzi c1 C2 c3 = Ok e2
          ∧ ∀ jj Js, jl !! jj = Some Js →
              ∃ c3ll V, cols c3 (complement (ncols beta) Js) = Ok c3ll
                ∧ setxor1d (arange (ncols beta)) Js = complement (ncols beta) Js
                ∧ varf (length x) (ncols beta) Js C2 (prod_rows c3ll) = Ok V
                ∧ mget sje ii jj
                  = ((prod (map (vget c1) (complement (ncols beta) Js)) / lamUzi
                      - sum (map (λ i, mget Q i i * mget V i i) (seq 0 (length x)))
                        / (lamUzi * lamUzi)
                      - e2) / vget vt ii)%R.
Proof.
  intros Hsa Hjl HJ Hbeta Hrg.
  destruct (component_sens_quantities SepiaDistCov_new compute_cov_mat linalg_inv
              linalg_solve _ _ _ _ _ _ _ _ _ _ _ _ Hsa Hbeta Hrg)
    as (draws & diff & xdist & Hset & Hlen & Hvt & _ & _ & Hsje & Hdraws).
  exists diff, xdist, (map d_vt draws), (map d_sje draws).
  do 2 (split; [done|]).
  split; [destruct jl; [done|exact Hsje]|].
  rewrite !length_map. do 2 (split; [done|]).
  intros ii Hii.
  destruct (lookup_lt_is_Some_2 draws ii) as [out Hout]; [lia|].
  destruct (Hdraws ii out Hout)
    as (betaei & lamUzi & Q & c1 & C2 & c3 & Hq & Hm & HQ & HC2 & Hc3 & Hc1 & He2 & _
        & _ & _ & Hjoint).
  exists betaei, lamUzi, Q, c1, C2, c3, (d_e2 out). do 2 (split; [done|]).
  assert (vget (map d_vt draws) ii = d_vt out) as Hv.
  { unfold vget. by rewrite list_lookup_fmap, Hout. }
  rewrite Hv. intros jj Js HJs.
  assert (Forall (λ d, d < ncols beta) Js) as HJs'.
  { rewrite Forall_lookup in HJ. exact (HJ jj Js HJs). }
  destruct (sens_joint_spec (length x) (ncols beta) Q lamUzi c1 C2 c3 Hm HQ HC2 Hc3 Hc1
              (d_e2 out) (d_vt out) Js HJs') as (c3ll & V & Hc & HV & Hs).
  exists c3ll, V. split; [done|].
  split; [by apply setxor1d_arange|]. split; [done|].
  destruct (Hjoint jl jj Js eq_refl HJs) as (s & Hs' & Hl). rewrite Hs in Hs'.
  inversion Hs'; subst s.
  unfold mget. rewrite list_lookup_fmap, Hout. simpl. by rewrite Hl.
Qed.

End ComponentClaims.

Lemma component_total_variance_and_effect_witness :
  ∃ sa,
    component_sens toy_distcov toy_cov_mat toy_inv toy_solve
      [[0]; [1]]%R [0; 1]%R [[1%R]] [1%R] [1%R] [[0]; [1]]%R 2 None None [[0; 1]]%R [0]
    = Ok sa
    ∧ Forall (λ row : vec, length row = ncols [[1%R]]) [[1%R]]
    ∧ length [[0; 1]]%R = ncols [[1%R]]
    ∧ ∃ diff xdist vt ste,
        component_setup toy_distcov [[0]; [1]]%R [[0; 1]]%R [0] diff xdist
        ∧ sa !! "vt" = Some (A1 vt) ∧ sa !! "ste" = Some (A2 ste)
        ∧ length vt = 1 ∧ length ste = 1.
Proof.
  assert (∃ sa, component_sens toy_distcov toy_cov_mat toy_inv toy_solve
            [[0]; [1]]%R [0; 1]%R [[1%R]] [1%R] [1%R] [[0]; [1]]%R 2 None None
            [[0; 1]]%R [0] = Ok sa) as [sa H]
    by (eexists; vm_compute; reflexivity).
  assert (Forall (λ row : vec, length row = ncols [[1%R]]) [[1%R]]) as H1
    by (repeat constructor).
  assert (length [[0; 1]]%R = ncols [[1%R]]) as H2 by reflexivity.
  exists sa. do 3 (split; [assumption|]).
  destruct (component_total_variance_and_effect toy_distcov toy_cov_mat toy_inv toy_solve
              [[0]; [1]]%R [0; 1]%R [[1%R]] [1%R] [1%R] [[0]; [1]]%R 2 None None
              [[0; 1]]%R [0] sa H H1 H2)
    as (diff & xdist & vt & ste & Hset & Hvt & Hste & Hl1 & Hl2 & _).
  by exists diff, xdist, vt, ste.
Defined.

Lemma component_main_effect_witness :
  ∃ sa,
    component_sens toy_distcov toy_cov_mat toy_inv toy_solve
      [[0]; [1]]%R [0; 1]%R [[1%R]] [1%R] [1%R] [[0]; [1]]%R 2 None None [[0; 1]]%R [0]
    = Ok sa
    ∧ Forall (λ row : vec, length row = ncols [[1%R]]) [[1%R]]
    ∧ length [[0; 1]]%R = ncols [[1%R]]
    ∧ ∃ diff xdist vt sme,
        component_setup toy_distcov [[0]; [1]]%R [[0; 1]]%R [0] diff xdist
        ∧ sa !! "vt" = Some (A1 vt) ∧ sa !! "sme" = Some (A2 sme)
        ∧ length vt = 1 ∧ length sme = 1.
Proof.
  assert (∃ sa, component_sens toy_distcov toy_cov_mat toy_inv toy_solve
            [[0]; [1]]%R [0; 1]%R [[1%R]] [1%R] [1%R] [[0]; [1]]%R 2 None None
            [[0; 1]]%R [0] = Ok sa) as [sa H]
    by (eexists; vm_compute; reflexivity).
  assert (Forall (λ row : vec, length row = ncols [[1%R]]) [[1%R]]) as H1
    by (repeat constructor).
  assert (length [[0; 1]]%R = ncols [[1%R]]) as H2 by reflexivity.
  exists sa. do 3 (split; [assumption|]).
  destruct (component_main_effect toy_distcov toy_cov_mat toy_inv toy_solve
              [[0]; [1]]%R [0; 1]%R [[1%R]] [1%R] [1%R] [[0]; [1]]%R 2 None None
              [[0; 1]]%R [0] sa H H1 H2)
    as (diff & xdist & vt & sme & Hset & Hvt & Hsme & Hl1 & Hl2 & _).
  by exists diff, xdist, vt, sme.
Defined.

Lemma component_joint_effect_witness :
  ∃ sa,
    component_sens toy_distcov toy_cov_mat toy_inv toy_solve
      [[0]; [1]]%R [0; 1]%R [[1%R]] [1%R] [1%R] [[0]; [1]]%R 2 None (Some [[0]])
      [[0; 1]]%R [0]
    = Ok sa
    ∧ [[0]] ≠ ([] : list (list nat))
    ∧ Forall (Forall (λ d, d < ncols [[1%R]])) [[0]]
    ∧ Forall (λ row : vec, length row = ncols [[1%R]]) [[1%R]]
    ∧ length [[0; 1]]%R = ncols [[1%R]]
    ∧ ∃ diff xdist vt sje,
        component_setup toy_distcov [[0]; [1]]%R [[0; 1]]%R [0] diff xdist
        ∧ sa !! "vt" = Some (A1 vt) ∧ sa !! "sje" = Some (A2 sje)
        ∧ length vt = 1 ∧ length sje = 1.
Proof.
  assert (∃ sa, component_sens toy_distcov toy_cov_mat toy_inv toy_solve
            [[0]; [1]]%R [0; 1]%R [[1%R]] [1%R] [1%R] [[0]; [1]]%R 2 None (Some [[0]])
            [[0; 1]]%R [0] = Ok sa) as [sa H]
    by (eexists; vm_compute; reflexivity).
  assert ([[0]] ≠ ([] : list (list nat))) as H0 by done.
  assert (Forall (Forall (λ d, d < ncols [[1%R]])) [[0]]) as H0'
    by (repeat constructor).
  assert (Forall (λ row : vec, length row = ncols [[1%R]]) [[1%R]]) as H1
    by (repeat constructor).
  assert (length [[0; 1]]%R = ncols [[1%R]]) as H2 by reflexivity.
  exists sa. do 5 (split; [assumption|]).
  destruct (component_joint_effect toy_distcov toy_cov_mat toy_inv toy_solve
              [[0]; [1]]%R [0; 1]%R [[1%R]] [1%R] [1%R] [[0]; [1]]%R 2 None [[0]]
              [[0; 1]]%R [0] sa H H0 H0' H1 H2)
    as (diff & xdist & vt & sje & Hset & Hvt & Hsje & Hl1 & Hl2 & _).
  by exists diff, xdist, vt, sje.
Defined.

(** * An empty [varlist] *)

Section CallClaims.
Context (SepiaDistCov_new : mat → option mat → list nat → res SepiaDistCov)
        (compute_cov_mat : SepiaDistCov → vec → R → option R → res mat)
        (linalg_inv : mat → res mat)
        (linalg_solve : mat → vec → res vec).
Context (unscale : SepiaModel → list (gmap string ndarray) → mat → nat → nat → nat →
                   option (list (list nat)) → res unscaled).

(** C10. With [varlist = []], at least one basis component and at least one
    selected draw, whatever the [option], the call does not return a result:
    [component_sens] stores the entries [sie], [jef_m], [jef_v] only for a
    non-empty [varlist], the aggregation tests [varlist] against [None] and
    asks every component for [sie], and raises the key error. Interaction
    outputs appear exactly for a non-empty list. *)
Theorem sensitivity_empty_varlist (model : SepiaModel)
    (samples_dict : option (gmap string mat)) (ngrid : nat)
    (jelist : option (list (list nat))) (rg : option mat) (opt : option_arg) :
  0 < num_pu model →
  (** no result when at least one draw is selected, by any [option] *)
  (0 < selected_draws opt (default (get_samples model) samples_dict) →
   ∀ msgs v,
     sensitivity SepiaDistCov_new compute_cov_mat linalg_inv linalg_solve unscale
       model samples_dict ngrid (VarList []) jelist rg opt = Returned msgs v →
     v = None)
  (** the error is the missing key [sie] *)
  ∧ (∀ ii0 nv rg' xe betaU lamUz lamWs sa lam r,
       betaU ≠ [] →
       sens_components SepiaDistCov_new compute_cov_mat linalg_inv linalg_solve
         model ngrid (Some []) jelist ii0 nv rg' xe betaU lamUz lamWs = Ok sa →
       sens_lam (sens_ksmm model) = Ok lam →
       aggregate lam sa (length betaU) nv (num_pu model) = Ok r →
       sens_main_part SepiaDistCov_new compute_cov_mat linalg_inv linalg_solve unscale
         model ngrid (VarList []) jelist ii0 nv rg' xe betaU lamUz lamWs
       = Raise (KeyError "sie"))
  (** the entries of a component result *)
  ∧ (∀ varlist ii0 nv rg' xe betaU lamUz lamWs sa jj d,
       sens_components SepiaDistCov_new compute_cov_mat linalg_inv linalg_solve
         model ngrid varlist jelist ii0 nv rg' xe betaU lamUz lamWs = Ok sa →
       sa !! jj = Some d →
       (is_Some (d !! "sie") ↔ truthy varlist = true)
       ∧ (is_Some (d !! "jef_m") ↔ truthy varlist = true)
       ∧ (is_Some (d !! "jef_v") ↔ truthy varlist = true))
  (** the interaction output of a call that returns *)
  ∧ (∀ varlist ii0 nv rg' xe betaU lamUz lamWs sens,
       betaU ≠ [] →
       sens_main_part SepiaDistCov_new compute_cov_mat linalg_inv linalg_solve unscale
         model ngrid varlist jelist ii0 nv rg' xe betaU lamUz lamWs = Ok sens →
       (is_Some (sens !! "siePm") ↔ truthy (sens_varlist varlist nv) = true)).
Proof.
  intros Hpu. split; [|split; [|split]].
  - intros Hsel msgs [sens|] Hcall; [|done]. exfalso.
    apply sensitivity_returned_inv in Hcall
      as (_ & _ & _ & b0 & u0 & w0 & betaU & lamUz & lamWs & Hb & _ & _ & Hopt & Hmain).
    pose proof (sens_option_draws opt _ b0 u0 w0 betaU lamUz lamWs Hb Hopt) as Hlen.
    assert (betaU ≠ []) as Hne by (destruct betaU; [simpl in Hlen; lia|done]).
    destruct (main_part_empty_varlist SepiaDistCov_new compute_cov_mat linalg_inv
                linalg_solve unscale model ngrid (VarList []) jelist
                (arange (num_p model + num_q model)) (num_p model + num_q model)
                (unit_ranges (num_p model + num_q model))
                (unit_grid (num_p model + num_q model) ngrid)
                betaU lamUz lamWs eq_refl Hpu Hne) as [[e He] _].
    rewrite He in Hmain. done.
  - intros ii0 nv rg' xe betaU lamUz lamWs sa lam r Hb Hsa Hlam Hagg.
    by eapply (main_part_empty_varlist SepiaDistCov_new compute_cov_mat linalg_inv
                 linalg_solve unscale model ngrid (VarList []) jelist ii0 nv rg' xe
                 betaU lamUz lamWs eq_refl Hpu Hb).
  - intros varlist ii0 nv rg' xe betaU lamUz lamWs sa jj d Hsa Hd.
    destruct (sens_components_keys _ _ _ _ _ _ _ _ _ _ _ _ _ _ _ _ Hsa) as [_ Hkeys].
    destruct (Hkeys jj d Hd) as (_ & _ & _ & H1 & H2 & H3 & _). done.
  - intros varlist ii0 nv rg' xe betaU lamUz lamWs sens Hb Hmain.
    destruct (main_part_results _ _ _ _ _ _ _ _ _ _ _ _ _ _ _ _ _ Hmain)
      as (sa & lam & sme & ste & vt & _ & _ & _ & _ & _ & _ & _ & Hiff).
    rewrite Hiff.
    destruct (sens_varlist varlist nv) as [[|v vl]|] eqn:Hvl; simpl.
    + destruct (main_part_empty_varlist SepiaDistCov_new compute_cov_mat linalg_inv
                  linalg_solve unscale model ngrid varlist jelist ii0 nv rg' xe
                  betaU lamUz lamWs Hvl Hpu Hb) as [[e He] _].
      rewrite He in Hmain. done.
    + split; eauto.
    + split; [intros [? ?]; done|done].
Qed.

End CallClaims.

Lemma sensitivity_empty_varlist_witness :
  0 < num_pu example_model
  ∧ 0 < selected_draws (OptStr "samples") (default (get_samples example_model) None)
  ∧ ∀ msgs v,
      sensitivity toy_distcov toy_cov_mat toy_inv toy_solve toy_unscale
        example_model None 21 (VarList []) None None (OptStr "samples") = Returned msgs v →
      v = None.
Proof.
  assert (0 < num_pu example_model) as H by (simpl; lia).
  assert (0 < selected_draws (OptStr "samples") (default (get_samples example_model) None))
    as H' by (vm_compute; lia).
  do 2 (split; [assumption|]).
  exact (proj1 (sensitivity_empty_varlist toy_distcov toy_cov_mat toy_inv toy_solve
                  toy_unscale example_model None 21 None None (OptStr "samples") H) H').
Defined.
